(** * codeIt extension: the instruction-to-edit pipeline

    A shallow embedding of the file resolver, the response parsers, the
    patch applier, the patch history and the project indexer of the
    codeIt VS Code extension, together with the properties stated about
    them.

    Conventions of the embedding.
    - A JavaScript string is a list of characters ([str]).  Characters
      are the code units 0..255; the character predicates of the
      language ([\s], [\w], [\d], [trim], [toLowerCase], case-insensitive
      matching) are given for that range.
    - Regular expressions are values of the type [regex], transcribed
      literal by literal from the source, and run by a backtracking
      matcher written in continuation-passing style, the way the
      language definition describes matching.
    - Numbers that the source computes in floating point (scores and
      confidences) are rationals.
    - A comment that quotes a pattern of the source writes a space
      between a star and a closing parenthesis that follows it.
    - An object used as a map is the list of its own properties, in the
      order in which the language enumerates them, together with its
      prototype where an assignment can replace it.
    - Exceptions are explicit: a function that can raise returns a
      [completion]; loops that the source can spin in forever return an
      [option].
    - Line numbers and offsets are natural numbers.  The editor is a
      host: its document is a text whose lines end with a line feed, a
      position past the end of a line or of the text stands for that
      end, and whether an edit or a save succeeds is the host's answer.
      Calls to the logger are left out.  *)

From Stdlib Require Import Ascii String QArith Qminmax Lia Bool.
From stdpp Require Import base list gmap.

Set Default Proof Using "Type".
Open Scope nat_scope.

(** ** Strings *)

Definition str := list ascii.

(** A literal of the source. *)
Definition js (s : string) : str := list_ascii_of_string s.

Definition nl : ascii := "010"%char.
Definition cr : ascii := "013"%char.
Definition dquote : ascii := "034"%char.
Definition squote : ascii := "039"%char.
Definition backtick : ascii := "096"%char.

Definition code (c : ascii) : nat := nat_of_ascii c.

Definition in_range (lo hi : nat) (c : ascii) : bool :=
  (lo <=? code c) && (code c <=? hi).

Definition is_digit (c : ascii) : bool := in_range 48 57 c.
Definition is_upper (c : ascii) : bool := in_range 65 90 c.
Definition is_lower (c : ascii) : bool := in_range 97 122 c.

(** [\w] *)
Definition is_word (c : ascii) : bool :=
  is_digit c || is_upper c || is_lower c || (code c =? 95).

(** [\s], and the characters [trim] removes: tab, line feed, vertical
    tab, form feed, carriage return, space and no-break space. *)
Definition is_space (c : ascii) : bool :=
  in_range 9 13 c || (code c =? 32) || (code c =? 160).

Definition is_line_terminator (c : ascii) : bool :=
  (code c =? 10) || (code c =? 13).

(** [toLowerCase] and [toUpperCase] on one character. *)
Definition lower_char (c : ascii) : ascii :=
  if is_upper c || (in_range 192 222 c && negb (code c =? 215))
  then ascii_of_nat (code c + 32) else c.

Definition upper_char (c : ascii) : ascii :=
  if is_lower c || (in_range 224 254 c && negb (code c =? 247))
  then ascii_of_nat (code c - 32) else c.

Definition toLowerCase (s : str) : str := List.map lower_char s.

Definition ascii_eqb (a b : ascii) : bool := Ascii.eqb a b.

(** The character tests stay folded under [simpl]; closed instances are
    evaluated by computation. *)
Arguments ascii_eqb : simpl never.
Arguments is_digit : simpl never.
Arguments is_word : simpl never.
Arguments is_space : simpl never.
Arguments is_line_terminator : simpl never.
Arguments lower_char : simpl never.
Arguments upper_char : simpl never.

Fixpoint str_eqb (a b : str) : bool :=
  match a, b with
  | [], [] => true
  | x :: a', y :: b' => ascii_eqb x y && str_eqb a' b'
  | _, _ => false
  end.

Fixpoint startsWith (s p : str) {struct p} : bool :=
  match p with
  | [] => true
  | x :: p' =>
      match s with
      | [] => false
      | y :: s' => ascii_eqb x y && startsWith s' p'
      end
  end.

Fixpoint includes (s p : str) : bool :=
  startsWith s p ||
  match s with
  | [] => false
  | _ :: s' => includes s' p
  end.

Definition endsWith (s p : str) : bool := startsWith (rev s) (rev p).

Fixpoint drop_space (s : str) : str :=
  match s with
  | [] => []
  | c :: s' => if is_space c then drop_space s' else s
  end.

Definition trimStart (s : str) : str := drop_space s.
Definition trimEnd (s : str) : str := rev (drop_space (rev s)).
Definition trim (s : str) : str := trimEnd (trimStart s).

(** [s.split(sep)] for a non-empty separator string. *)
Fixpoint split_aux (fuel : nat) (sep cur s : str) : list str :=
  match fuel with
  | O => [rev cur]
  | S fuel' =>
      match s with
      | [] => [rev cur]
      | c :: s' =>
          if startsWith s sep
          then rev cur :: split_aux fuel' sep [] (List.skipn (length sep) s)
          else split_aux fuel' sep (c :: cur) s'
      end
  end.

Definition split (s sep : str) : list str := split_aux (S (length s)) sep [] s.

(** [s.split('\n')], by recursion on the string. *)
Fixpoint split_lines_aux (cur s : str) : list str :=
  match s with
  | [] => [rev cur]
  | c :: s' =>
      if ascii_eqb c nl then rev cur :: split_lines_aux [] s'
      else split_lines_aux (c :: cur) s'
  end.

Definition split_lines (s : str) : list str := split_lines_aux [] s.

Fixpoint join (sep : str) (l : list str) : str :=
  match l with
  | [] => []
  | [x] => x
  | x :: l' => x ++ sep ++ join sep l'
  end.

Definition substring (s : str) (i j : nat) : str :=
  List.firstn (j - i) (List.skipn i s).

(** [parseInt] on a string of decimal digits. *)
Definition parseInt (s : str) : nat :=
  fold_left (fun acc c => 10 * acc + (code c - 48)) s 0.


(** ** Regular expressions

    The constructs the source's patterns use: literal characters,
    character classes, [.], the assertions [^], [$] and [\b], sequence,
    alternation, greedy and lazy quantifiers with bounds, and numbered
    capturing groups. *)

Inductive citem : Type :=
  | IChar (c : ascii)
  | IRange (lo hi : ascii)
  | ISpace
  | IWord
  | IDigit
  | INotSpace.

Inductive regex : Type :=
  | REmpty
  | RChar (c : ascii)
  | RSet (neg : bool) (items : list citem)
  | RDot
  | RBol
  | REol
  | RWordB
  | RSeq (a b : regex)
  | RAlt (a b : regex)
  | RQuant (greedy : bool) (lo : nat) (hi : option nat) (r : regex)
  | RGroup (n : nat) (r : regex).

(** The flags [i] and [m]; the flag [g] only concerns the callers. *)
Record flags : Type := { ignoreCase : bool; multiline : bool }.

Definition fl_none : flags := {| ignoreCase := false; multiline := false |}.
Definition fl_i : flags := {| ignoreCase := true; multiline := false |}.
Definition fl_m : flags := {| ignoreCase := false; multiline := true |}.
Definition fl_im : flags := {| ignoreCase := true; multiline := true |}.

Definition citem_mem (it : citem) (c : ascii) : bool :=
  match it with
  | IChar d => ascii_eqb d c
  | IRange lo hi => in_range (code lo) (code hi) c
  | ISpace => is_space c
  | IWord => is_word c
  | IDigit => is_digit c
  | INotSpace => negb (is_space c)
  end.

Definition items_mem (items : list citem) (c : ascii) : bool :=
  existsb (fun it => citem_mem it c) items.

(** Membership in a class; under [i] a character belongs when one of
    its case variants does. *)
Definition set_mem (fl : flags) (neg : bool) (items : list citem) (c : ascii) : bool :=
  let hit :=
    if ignoreCase fl
    then items_mem items c || items_mem items (upper_char c) || items_mem items (lower_char c)
    else items_mem items c in
  if neg then negb hit else hit.

Definition char_mem (fl : flags) (d c : ascii) : bool :=
  if ignoreCase fl then ascii_eqb (upper_char d) (upper_char c) else ascii_eqb d c.

Arguments set_mem : simpl never.
Arguments char_mem : simpl never.

(** The matcher state: the input already passed, most recent character
    first, the input still ahead, and the captures made so far. *)
Record mstate : Type := MState {
  seen : str;
  rest : str;
  caps : list (nat * str)
}.

Definition cont : Type := mstate -> option mstate.

Definition advance (st : mstate) (c : ascii) (t : str) : mstate :=
  MState (c :: seen st) t (caps st).

(** The characters passed between two points of a match. *)
Definition cap_between (before after : str) : str :=
  rev (List.firstn (length after - length before) after).

Definition set_cap (n : nat) (v : str) (st : mstate) : mstate :=
  MState (seen st) (rest st) ((n, v) :: caps st).

Fixpoint get_cap (n : nat) (cs : list (nat * str)) : option str :=
  match cs with
  | [] => None
  | (m, v) :: cs' => if Nat.eqb m n then Some v else get_cap n cs'
  end.

Fixpoint groups_of (r : regex) : list nat :=
  match r with
  | RSeq a b | RAlt a b => groups_of a ++ groups_of b
  | RQuant _ _ _ a => groups_of a
  | RGroup n a => n :: groups_of a
  | _ => []
  end.

(** Captures of the groups of a quantified body are reset when an
    iteration starts. *)
Definition clear_caps (gs : list nat) (st : mstate) : mstate :=
  match gs with
  | [] => st
  | _ => MState (seen st) (rest st)
           (List.filter (fun p => negb (existsb (Nat.eqb (fst p)) gs)) (caps st))
  end.

(** Can the pattern match without passing a character? *)
Fixpoint nullable (r : regex) : bool :=
  match r with
  | REmpty | RBol | REol | RWordB => true
  | RChar _ | RSet _ _ | RDot => false
  | RSeq a b => nullable a && nullable b
  | RAlt a b => nullable a || nullable b
  | RQuant _ lo _ a => Nat.eqb lo 0 || nullable a
  | RGroup _ a => nullable a
  end.

Definition at_bol (fl : flags) (st : mstate) : bool :=
  match seen st with
  | [] => true
  | c :: _ => multiline fl && is_line_terminator c
  end.

Definition at_eol (fl : flags) (st : mstate) : bool :=
  match rest st with
  | [] => true
  | c :: _ => multiline fl && is_line_terminator c
  end.

Definition at_wordb (st : mstate) : bool :=
  let a := match seen st with [] => false | c :: _ => is_word c end in
  let b := match rest st with [] => false | c :: _ => is_word c end in
  xorb a b.

Definition under (n : nat) (hi : option nat) : bool :=
  match hi with
  | None => true
  | Some h => n <? h
  end.

(** The quantifier loop.  [n] counts the iterations made.  An iteration
    that passes no character once the lower bound is reached is
    rejected; it can only happen for a nullable body. *)
Fixpoint rep_loop (body : mstate -> cont -> option mstate) (gs : list nat)
    (nul greedy : bool) (lo : nat) (hi : option nat) (k : cont)
    (fuel n : nat) (st : mstate) {struct fuel} : option mstate :=
  match fuel with
  | O => None
  | S fuel' =>
      let more (_ : unit) :=
        if under n hi then
          body (clear_caps gs st) (fun st' =>
            if nul && (lo <=? n) && (length (rest st') =? length (rest st))
            then None
            else rep_loop body gs nul greedy lo hi k fuel' (S n) st')
        else None in
      let stop (_ : unit) := if lo <=? n then k st else None in
      if greedy then
        match more tt with
        | Some r => Some r
        | None => stop tt
        end
      else
        match stop tt with
        | Some r => Some r
        | None => more tt
        end
  end.

Fixpoint rmatch (fl : flags) (r : regex) (st : mstate) (k : cont) {struct r}
    : option mstate :=
  match r with
  | REmpty => k st
  | RChar d =>
      match rest st with
      | c :: t => if char_mem fl d c then k (advance st c t) else None
      | [] => None
      end
  | RSet neg items =>
      match rest st with
      | c :: t => if set_mem fl neg items c then k (advance st c t) else None
      | [] => None
      end
  | RDot =>
      match rest st with
      | c :: t => if is_line_terminator c then None else k (advance st c t)
      | [] => None
      end
  | RBol => if at_bol fl st then k st else None
  | REol => if at_eol fl st then k st else None
  | RWordB => if at_wordb st then k st else None
  | RSeq a b => rmatch fl a st (fun st' => rmatch fl b st' k)
  | RAlt a b =>
      match rmatch fl a st k with
      | Some r => Some r
      | None => rmatch fl b st k
      end
  | RQuant greedy lo hi a =>
      rep_loop (rmatch fl a) (groups_of a) (nullable a) greedy lo hi k
        (S (length (rest st) + lo)) 0 st
  | RGroup n a =>
      rmatch fl a st (fun st' => k (set_cap n (cap_between (seen st) (seen st')) st'))
  end.

(** *** Building patterns *)

Fixpoint rseq (l : list regex) : regex :=
  match l with
  | [] => REmpty
  | [r] => r
  | r :: l' => RSeq r (rseq l')
  end.

Fixpoint ralt (l : list regex) : regex :=
  match l with
  | [] => REmpty
  | [r] => r
  | r :: l' => RAlt r (ralt l')
  end.

Definition rstr (s : str) : regex := rseq (List.map RChar s).
Definition rlit (s : string) : regex := rstr (js s).

Definition rstar (r : regex) : regex := RQuant true 0 None r.
Definition rplus (r : regex) : regex := RQuant true 1 None r.
Definition ropt (r : regex) : regex := RQuant true 0 (Some 1) r.
Definition rstar_lazy (r : regex) : regex := RQuant false 0 None r.
Definition rplus_lazy (r : regex) : regex := RQuant false 1 None r.
Definition ratleast (n : nat) (r : regex) : regex := RQuant true n None r.
Definition rbetween (n m : nat) (r : regex) : regex := RQuant true n (Some m) r.

Definition rspace : regex := RSet false [ISpace].
Definition rword : regex := RSet false [IWord].
Definition rdigit : regex := RSet false [IDigit].
(** [[\s\S]] *)
Definition rany : regex := RSet false [ISpace; INotSpace].
(** [[^\n]] *)
Definition rnotnl : regex := RSet true [IChar nl].
Definition rnl : regex := RChar nl.

(** *** Running a pattern *)

Record rmatch_result : Type := MatchResult {
  m_index : nat;
  m_text : str;
  m_caps : list (nat * str);
  m_end : mstate
}.

Definition group (m : rmatch_result) (n : nat) : option str := get_cap n (m_caps m).

Definition accept : cont := fun st => Some st.

(** The first match at or after the current point: the start positions
    are tried from left to right. *)
Fixpoint search (fl : flags) (r : regex) (sn rs : str) {struct rs} : option rmatch_result :=
  match rmatch fl r (MState sn rs []) accept with
  | Some st =>
      Some (MatchResult (length sn) (cap_between sn (seen st)) (caps st) st)
  | None =>
      match rs with
      | [] => None
      | c :: rs' => search fl r (c :: sn) rs'
      end
  end.

(** [r.exec(s)] with [lastIndex = 0], [s.match(r)] without [g]. *)
Definition exec (fl : flags) (r : regex) (s : str) : option rmatch_result :=
  search fl r [] s.

(** [r.test(s)] *)
Definition test (fl : flags) (r : regex) (s : str) : bool :=
  match exec fl r s with Some _ => true | None => false end.

(** The loop [while ((match = r.exec(s)) !== null) body] of a pattern
    with the flag [g], which resumes where the last match ended, folded
    over an accumulator.  A match that does not move [lastIndex] makes
    the source loop forever: the result is [None] then. *)
Fixpoint exec_loop {A : Type} (fuel : nat) (fl : flags) (r : regex)
    (body : A -> rmatch_result -> A) (acc : A) (sn rs : str) : option A :=
  match fuel with
  | O => None
  | S fuel' =>
      match search fl r sn rs with
      | None => Some acc
      | Some m =>
          if length (seen (m_end m)) =? length sn then None
          else exec_loop fuel' fl r body (body acc m) (seen (m_end m)) (rest (m_end m))
      end
  end.

Definition exec_all {A : Type} (fl : flags) (r : regex)
    (body : A -> rmatch_result -> A) (acc : A) (s : str) : option A :=
  exec_loop (S (length s)) fl r body acc [] s.

(** [s.replace(r, rep)] for a pattern without [g]: the first match. *)
Definition replace_first (fl : flags) (r : regex) (rep s : str) : str :=
  match exec fl r s with
  | None => s
  | Some m =>
      List.firstn (m_index m) s ++ rep ++ rest (m_end m)
  end.

(** [s.replace(r, rep)] for a pattern with [g].  [held] is the text read
    since the last replacement, most recent character first.  After an
    empty match the search moves on by one character. *)
Fixpoint replace_loop (fuel : nat) (fl : flags) (r : regex) (rep : str)
    (held sn rs : str) : str :=
  match fuel with
  | O => rev held ++ rs
  | S fuel' =>
      match search fl r sn rs with
      | None => rev held ++ rs
      | Some m =>
          let skipped := List.firstn (m_index m - length sn) rs in
          let out := rev held ++ skipped ++ rep in
          if length (seen (m_end m)) =? m_index m then
            match rest (m_end m) with
            | [] => out
            | c :: t =>
                out ++ replace_loop fuel' fl r rep [c] (c :: seen (m_end m)) t
            end
          else
            out ++ replace_loop fuel' fl r rep [] (seen (m_end m)) (rest (m_end m))
      end
  end.

Definition replace_all (fl : flags) (r : regex) (rep s : str) : str :=
  replace_loop (S (length s)) fl r rep [] [] s.

(** [s.split(r)]: the separators are the non-empty matches found from
    left to right, each tried at every position after the last one. *)
Fixpoint split_re_loop (fuel : nat) (fl : flags) (r : regex)
    (cur sn rs : str) : list str :=
  match fuel with
  | O => [rev cur]
  | S fuel' =>
      match rs with
      | [] => [rev cur]
      | c :: t =>
          match rmatch fl r (MState sn rs []) accept with
          | Some st =>
              if length (seen st) =? length sn
              then split_re_loop fuel' fl r (c :: cur) (c :: sn) t
              else rev cur :: split_re_loop fuel' fl r [] (seen st) (rest st)
          | None => split_re_loop fuel' fl r (c :: cur) (c :: sn) t
          end
      end
  end.

Definition split_re (fl : flags) (r : regex) (s : str) : list str :=
  match s with
  | [] =>
      match rmatch fl r (MState [] [] []) accept with
      | Some _ => []
      | None => [[]]
      end
  | _ => split_re_loop (S (length s)) fl r [] [] s
  end.

(** ** Exceptions *)

Inductive error : Type :=
  | TypeError    (** a property of [undefined] was read *)
  | RangeError   (** the call stack was exhausted *)
  | HostError.   (** the editor host rejected a call *)

Inductive completion (A : Type) : Type :=
  | Return (a : A)
  | Throw (e : error).
Arguments Return {A} a.
Arguments Throw {A} e.

Definition bindc {A B : Type} (m : completion A) (f : A -> completion B) : completion B :=
  match m with
  | Return a => f a
  | Throw e => Throw e
  end.

Notation "'let*' x ':=' m 'in' k" := (bindc m (fun x => k))
  (at level 10, x name, m at level 100, k at level 200).

(** [v.trim()] where [v] may be [undefined]. *)
Definition trim_of (v : option str) : completion str :=
  match v with
  | Some s => Return (trim s)
  | None => Throw TypeError
  end.

(** [try { body } catch { handler }] *)
Definition try_catch {A : Type} (body : completion A) (handler : error -> completion A)
    : completion A :=
  match body with
  | Return a => Return a
  | Throw e => handler e
  end.

(** The loop [while ((match = r.exec(s)) !== null) body] whose body may
    raise: the exception leaves the loop. *)
Fixpoint exec_loop_c {A : Type} (fuel : nat) (fl : flags) (r : regex)
    (body : A -> rmatch_result -> completion A) (acc : A) (sn rs : str)
    : option (completion A) :=
  match fuel with
  | O => None
  | S fuel' =>
      match search fl r sn rs with
      | None => Some (Return acc)
      | Some m =>
          if length (seen (m_end m)) =? length sn then None
          else
            match body acc m with
            | Throw e => Some (Throw e)
            | Return acc' =>
                exec_loop_c fuel' fl r body acc' (seen (m_end m)) (rest (m_end m))
            end
      end
  end.

Definition exec_all_c {A : Type} (fl : flags) (r : regex)
    (body : A -> rmatch_result -> completion A) (acc : A) (s : str)
    : option (completion A) :=
  exec_loop_c (S (length s)) fl r body acc [] s.

(** A number in decimal, for the messages. *)
Fixpoint show_nat_aux (fuel n : nat) (acc : str) : str :=
  match fuel with
  | O => acc
  | S fuel' =>
      let d := ascii_of_nat (48 + n mod 10) in
      if n <? 10 then d :: acc else show_nat_aux fuel' (n / 10) (d :: acc)
  end.

Definition show_nat (n : nat) : str := show_nat_aux (S n) n [].


(** *** Relations between matcher states

    [ahead st st']: [st'] is a later point of the same input as [st].
    [caps_within gs st st']: every capture of [st'] is a capture of
    [st] or belongs to a group of [gs]. *)
Definition ahead (st st' : mstate) : Prop :=
  exists w : str, rest st = w ++ rest st' /\ seen st' = rev w ++ seen st.

Definition caps_within (gs : list nat) (st st' : mstate) : Prop :=
  forall (n : nat) (v : str),
    In (n, v) (caps st') -> In (n, v) (caps st) \/ In n gs.

Definition reaches (gs : list nat) (st st' : mstate) : Prop :=
  ahead st st' /\ caps_within gs st st'.

(** A matcher that succeeds has called its continuation at a point it
    reaches. *)
Definition goes_through (gs : list nat)
    (body : mstate -> cont -> option mstate) : Prop :=
  forall (st : mstate) (k : cont) (x : mstate),
    body st k = Some x ->
    exists st' : mstate, k st' = Some x /\ reaches gs st st'.

(** ** Bracket validation

    [PatchEngine.validateSyntax] and [OutputParser.hasValidSyntax] run
    the same loop: an opening bracket pushes the closing bracket it
    expects, a closing bracket must equal the popped top of the stack,
    every other character is passed over, and the stack must be empty
    at the end. *)

(** [brackets[char]] for [char in brackets]. *)
Definition bracket_close (c : ascii) : option ascii :=
  if ascii_eqb c "(" then Some ")"%char
  else if ascii_eqb c "[" then Some "]"%char
  else if ascii_eqb c "{" then Some "}"%char
  else None.

(** [Object.values(brackets).includes(char)] *)
Definition is_closing (c : ascii) : bool :=
  ascii_eqb c ")" || ascii_eqb c "]" || ascii_eqb c "}".

(** The [for] loop with its stack, top first; [None] stands for the
    early [return false]. *)
Fixpoint bracket_loop (chars : str) (stack : list ascii) : option (list ascii) :=
  match chars with
  | [] => Some stack
  | c :: chars' =>
      match bracket_close c with
      | Some d => bracket_loop chars' (d :: stack)
      | None =>
          if is_closing c then
            match stack with
            | top :: stack' =>
                if ascii_eqb top c then bracket_loop chars' stack' else None
            | [] => None
            end
          else bracket_loop chars' stack
      end
  end.

Definition stack_empty (o : option (list ascii)) : bool :=
  match o with
  | Some [] => true
  | _ => false
  end.

Module OutputParserSyntax.
Definition hasValidSyntax (code language : str) : bool :=
  stack_empty (bracket_loop code []).
End OutputParserSyntax.

Module PatchEngineSyntax.
(** The body sits in a [try] whose handler returns [false]; nothing in
    it raises. *)
Definition validateSyntax (code language : str) : bool :=
  stack_empty (bracket_loop code []).
End PatchEngineSyntax.

(** The reading of "properly balanced, properly nested": the bracket
    characters of the text, in order, form a word of the grammar
    [S ::= empty | open S close S] with matching kinds. *)
Inductive bracket_kind : Type := Paren | Square | Curly.

Inductive bracket_tok : Type :=
  | Open (k : bracket_kind)
  | Close (k : bracket_kind).

Definition tok_of_char (c : ascii) : option bracket_tok :=
  if ascii_eqb c "(" then Some (Open Paren)
  else if ascii_eqb c ")" then Some (Close Paren)
  else if ascii_eqb c "[" then Some (Open Square)
  else if ascii_eqb c "]" then Some (Close Square)
  else if ascii_eqb c "{" then Some (Open Curly)
  else if ascii_eqb c "}" then Some (Close Curly)
  else None.

Fixpoint brackets_of (s : str) : list bracket_tok :=
  match s with
  | [] => []
  | c :: s' =>
      match tok_of_char c with
      | Some t => t :: brackets_of s'
      | None => brackets_of s'
      end
  end.

Inductive balanced : list bracket_tok -> Prop :=
  | balanced_nil : balanced []
  | balanced_cons (k : bracket_kind) (l1 l2 : list bracket_tok) :
      balanced l1 -> balanced l2 ->
      balanced (Open k :: l1 ++ Close k :: l2).

(** The same loop read over bracket tokens, with a stack of kinds. *)
Definition closing_char (k : bracket_kind) : ascii :=
  match k with
  | Paren => ")"%char
  | Square => "]"%char
  | Curly => "}"%char
  end.

Definition kind_eqb (a b : bracket_kind) : bool :=
  match a, b with
  | Paren, Paren | Square, Square | Curly, Curly => true
  | _, _ => false
  end.

Fixpoint tok_loop (l : list bracket_tok) (stack : list bracket_kind)
    : option (list bracket_kind) :=
  match l with
  | [] => Some stack
  | Open k :: l' => tok_loop l' (k :: stack)
  | Close k :: l' =>
      match stack with
      | top :: stack' => if kind_eqb top k then tok_loop l' stack' else None
      | [] => None
      end
  end.

(** A text that leaves the stack [st] to be closed: balanced stretches
    separated by the closing brackets the stack expects. *)
Inductive closes : list bracket_kind -> list bracket_tok -> Prop :=
  | closes_nil (l : list bracket_tok) : balanced l -> closes [] l
  | closes_cons (k : bracket_kind) (st : list bracket_kind)
      (l0 l : list bracket_tok) :
      balanced l0 -> closes st l -> closes (k :: st) (l0 ++ Close k :: l).

(** ** OutputParser *)

Inductive PatchType : Type :=
  | PTInline | PTGeneration | PTRefactor | PTMultifile.

Inductive ResponseType : Type :=
  | CodeOnly | CodeWithExplanation | ExplanationOnly | Multifile.

Inductive ChangeKind : Type :=
  | KCreate | KModify | KDelete.

Record Metadata : Type := {
  responseType : ResponseType;
  codeBlockCount : nat;
  hasInlineComments : bool;
  preservesFormatting : bool;
  containsImportsFlag : bool
}.

Record Alternative : Type := {
  alt_code : str;
  alt_language : option str;
  alt_label : option str;
  alt_confidence : Q
}.

Record ParsedOutput : Type := {
  po_code : str;
  po_explanation : option str;
  hasCodeBlocks : bool;
  po_language : option str;
  confidence : Q;
  patchType : PatchType;
  metadata : Metadata;
  alternatives : option (list Alternative)
}.

Record MultiFileChange : Type := {
  filePath : str;
  changeKind : ChangeKind;
  content : str;
  originalContent : option str;
  mf_startLine : option nat;
  mf_endLine : option nat;
  mf_language : option str
}.

Record CodeBlock : Type := {
  cb_code : str;
  cb_language : option str;
  cb_label : option str;
  cb_confidence : Q;
  cb_lineCount : nat;
  cb_hasComments : bool;
  cb_imports : list str
}.

(** The optional [context] argument of the parser; an absent argument is
    the record of absent fields. *)
Record ParseContext : Type := {
  originalLanguage : option str;
  expectMultiFile : option bool;
  instruction : option str
}.

Definition no_context : ParseContext :=
  {| originalLanguage := None; expectMultiFile := None; instruction := None |}.

(** Truthiness of an optional string and of an optional boolean. *)
Definition truthy_str (v : option str) : bool :=
  match v with
  | Some (_ :: _) => true
  | _ => false
  end.

Definition truthy_bool (v : option bool) : bool :=
  match v with
  | Some b => b
  | None => false
  end.

Module OutputParser.

(** The fence pattern of the parser, as the source has it: six
    backticks and no capturing group. *)
Definition sixBackticks : regex := rlit "``````".

(** [/^```(\w* )\n/] *)
Definition openingFence : regex :=
  rseq [RBol; rlit "```"; RGroup 1 (rstar rword); rnl].

(** [/\n```$/g] *)
Definition closingFence : regex :=
  rseq [rnl; rlit "```"; REol].

Definition cleanCode (code : str) : str :=
  trim (replace_all fl_none closingFence []
          (replace_first fl_none openingFence [] code)).

(** The four indicators of [isCodeLike]. *)
Definition codeIndicators : list (flags * regex) :=
  [ (fl_none, RSet false [IChar "{"; IChar "}"; IChar "("; IChar ")"; IChar ";"]);
    (fl_m, rseq [RBol; rstar rspace;
                 ralt [rlit "function"; rlit "class"; rlit "const"; rlit "let";
                       rlit "var"; rlit "def"; rlit "import"; rlit "from"];
                 rplus rspace]);
    (fl_m, rseq [RBol; rstar rspace;
                 ralt [rlit "if"; rlit "for"; rlit "while"; rlit "switch";
                       rlit "try"; rlit "catch"];
                 rstar rspace; REol; REol]);
    (fl_m, ralt [rseq [RBol; rstar rspace; rlit "//"];
                 rseq [RBol; rstar rspace; rlit "/*"];
                 rseq [RBol; rstar rspace; rlit "#"]]) ].

Definition isCodeLike (text : str) : bool :=
  existsb (fun p => test (fst p) (snd p) text) codeIndicators.

(** [/(?:^|\n)(?:##?\s* )?(?:File:|Path:)\s*[^\n]+/i] *)
Definition fileHeaderProbe : regex :=
  rseq [ralt [RBol; rnl];
        ropt (rseq [RChar "#"; ropt (RChar "#"); rstar rspace]);
        ralt [rlit "File:"; rlit "Path:"];
        rstar rspace; rplus rnotnl].

Definition detectResponseType (response : str) : ResponseType :=
  let hasCodeBlocks := test fl_none sixBackticks response in
  let hasFileHeaders := test fl_i fileHeaderProbe response in
  let codeBlockParts := split response (js "```") in
  let hasMultipleCodeBlocks := 4 <? length codeBlockParts in
  if hasFileHeaders || hasMultipleCodeBlocks then Multifile
  else if negb hasCodeBlocks then
    (if isCodeLike response then CodeOnly else ExplanationOnly)
  else
    let textWithoutCode := replace_all fl_none sixBackticks [] response in
    if 50 <? length (trim textWithoutCode) then CodeWithExplanation else CodeOnly.

Definition quoteChar : regex := RSet false [IChar squote; IChar dquote].

(** The four probes of [detectLanguageFromCode], in order. *)
Definition languageProbes : list (regex * string) :=
  [ (ralt [rseq [RBol; rstar rspace; rlit "import"; rplus rspace; rstar RDot;
                 rlit "from"; rplus rspace; quoteChar; rstar RDot; quoteChar];
           rseq [RBol; rstar rspace; rlit "const"; rplus rspace; rstar RDot;
                 RChar "="; rstar rspace; rlit "require"; REol; REol]],
     "javascript"%string);
    (ralt [rseq [RBol; rstar rspace; rlit "import"; rplus rspace; rstar RDot;
                 rlit "from"; rplus rspace; quoteChar; rstar RDot; quoteChar;
                 rstar RDot];
           rseq [RBol; rstar rspace; rlit "interface"; rplus rspace];
           rseq [RBol; rstar rspace; rlit "type"; rplus rspace]],
     "typescript"%string);
    (ralt [rseq [RBol; rstar rspace; rlit "def"; rplus rspace];
           rseq [RBol; rstar rspace; rlit "import"; rplus rspace];
           rseq [RBol; rstar rspace; rlit "from"; rplus rspace; rstar RDot;
                 rlit "import"]],
     "python"%string);
    (ralt [rseq [RBol; rstar rspace; rlit "public"; rplus rspace; rlit "class";
                 rplus rspace];
           rseq [RBol; rstar rspace; rlit "import"; rplus rspace; rlit "java";
                 RChar "."]],
     "java"%string) ].

Fixpoint first_probe (probes : list (regex * string)) (code : str) : str :=
  match probes with
  | [] => js "text"
  | (r, lang) :: probes' =>
      if test fl_m r code then js lang else first_probe probes' code
  end.

Definition detectLanguageFromCode (code : str) : str :=
  first_probe languageProbes code.

(** [/^\s*(?:import|from|using|include|require)\s+/m] *)
Definition importProbe : regex :=
  rseq [RBol; rstar rspace;
        ralt [rlit "import"; rlit "from"; rlit "using"; rlit "include";
              rlit "require"];
        rplus rspace].

Definition containsImports (code : str) : bool := test fl_m importProbe code.

(** [//], [/*], [*/] or [#] anywhere in the text. *)
Definition commentProbe : regex :=
  ralt [rlit "//"; rlit "/*"; rlit "*/"; rlit "#"].

Definition languageMap : list (string * string) :=
  [ ("js", "javascript"); ("ts", "typescript"); ("py", "python");
    ("java", "java"); ("cpp", "cpp"); ("c", "c"); ("cs", "csharp");
    ("php", "php"); ("rb", "ruby"); ("go", "go"); ("rs", "rust");
    ("swift", "swift"); ("kt", "kotlin") ]%string.

Fixpoint lookup_str (k : str) (table : list (string * string)) : option str :=
  match table with
  | [] => None
  | (a, b) :: table' => if str_eqb (js a) k then Some (js b) else lookup_str k table'
  end.

Definition detectLanguageFromPath (filePath : str) : str :=
  let ext := toLowerCase (List.last (split filePath (js ".")) []) in
  match lookup_str ext languageMap with
  | Some l => l
  | None => js "text"
  end.

Definition calculateCodeOnlyConfidence (code : str) (context : ParseContext) : Q :=
  let c0 := 0.6%Q in
  let c1 := if isCodeLike code then (c0 + 0.2)%Q else c0 in
  let c2 :=
    if truthy_str (originalLanguage context) &&
       match originalLanguage context with
       | Some l => str_eqb (detectLanguageFromCode code) l
       | None => false
       end
    then (c1 + 0.2)%Q else c1 in
  Qmin c2 1.

Definition parseCodeOnlyResponse (response : str) (context : ParseContext) : ParsedOutput :=
  let language :=
    if truthy_str (originalLanguage context) then originalLanguage context
    else Some (detectLanguageFromCode response) in
  let confidence := calculateCodeOnlyConfidence response context in
  {| po_code := response;
     po_explanation := None;
     hasCodeBlocks := false;
     po_language := language;
     confidence := confidence;
     patchType := PTInline;
     metadata :=
       {| responseType := CodeOnly;
          codeBlockCount := 0;
          hasInlineComments := test fl_none commentProbe response;
          preservesFormatting := true;
          containsImportsFlag := containsImports response |};
     alternatives := None |}.

(** Pattern 1 of [parseMultiFileResponse]:
    [/(?:^|\n)(?:##?\s* )?(?:File:|Path:)\s*([^\n]+)\n``````/g] *)
Definition fileHeaderRegex : regex :=
  rseq [ralt [RBol; rnl];
        ropt (rseq [RChar "#"; ropt (RChar "#"); rstar rspace]);
        ralt [rlit "File:"; rlit "Path:"];
        rstar rspace; RGroup 1 (rplus rnotnl); rnl; rlit "``````"].

(** Pattern 2: [/``````/g] *)
Definition simpleFileRegex : regex := sixBackticks.

(** Pattern 3: [/(?:CREATE|MODIFY|DELETE)\s+([^\n]+)\n``````/gi] *)
Definition actionRegex : regex :=
  rseq [ralt [rlit "CREATE"; rlit "MODIFY"; rlit "DELETE"];
        rplus rspace; RGroup 1 (rplus rnotnl); rnl; rlit "``````"].

Definition mkChange (path : str) (kind : ChangeKind) (body : str) (lang : option str)
    : MultiFileChange :=
  {| filePath := path; changeKind := kind; content := body;
     originalContent := None; mf_startLine := None; mf_endLine := None;
     mf_language := lang |}.

(** [match[0].split(' ')[0].toLowerCase() as 'create' | 'modify' | 'delete'] *)
Definition actionOf (matched : str) : ChangeKind :=
  let w := toLowerCase (List.hd [] (split matched (js " "))) in
  if str_eqb w (js "create") then KCreate
  else if str_eqb w (js "delete") then KDelete
  else KModify.

Definition pattern1_body (changes : list MultiFileChange) (m : rmatch_result)
    : completion (list MultiFileChange) :=
  let* path := trim_of (group m 1) in
  let language :=
    if truthy_str (group m 2) then group m 2
    else Some (detectLanguageFromPath path) in
  let* body := trim_of (group m 3) in
  Return (changes ++ [mkChange path KModify body language]).

Definition pattern2_body (changes : list MultiFileChange) (m : rmatch_result)
    : completion (list MultiFileChange) :=
  let language := group m 1 in
  let* path := trim_of (group m 2) in
  let* body := trim_of (group m 3) in
  Return (changes ++ [mkChange path KModify body language]).

Definition pattern3_body (changes : list MultiFileChange) (m : rmatch_result)
    : completion (list MultiFileChange) :=
  let action := actionOf (m_text m) in
  let* path := trim_of (group m 1) in
  let language :=
    if truthy_str (group m 2) then group m 2
    else Some (detectLanguageFromPath path) in
  let* body := trim_of (group m 3) in
  Return (changes ++ [mkChange path action body language]).

(** The three loops run one after the other on the same list.  The
    outer [option] is [None] when a loop does not end. *)
Definition parseMultiFileResponse (response : str)
    : option (completion (list MultiFileChange)) :=
  match exec_all_c fl_none fileHeaderRegex pattern1_body [] response with
  | None => None
  | Some (Throw e) => Some (Throw e)
  | Some (Return c1) =>
      match exec_all_c fl_none simpleFileRegex pattern2_body c1 response with
      | None => None
      | Some (Throw e) => Some (Throw e)
      | Some (Return c2) =>
          exec_all_c fl_i actionRegex pattern3_body c2 response
      end
  end.

(** [hashCode]: the 32-bit rolling hash of a string, as a number. *)
Definition to_int32 (z : Z) : Z :=
  let m := (z mod 4294967296)%Z in
  if (m <? 2147483648)%Z then m else (m - 4294967296)%Z.

Definition hashCode (s : str) : Z :=
  fold_left
    (fun hash c => to_int32 (to_int32 (hash * 32) - hash + Z.of_nat (code c))%Z)
    s 0%Z.

Fixpoint dedup_loop (blocks : list CodeBlock) (seenHashes : list Z) : list CodeBlock :=
  match blocks with
  | [] => []
  | b :: blocks' =>
      let h := hashCode (cb_code b) in
      if existsb (Z.eqb h) seenHashes then dedup_loop blocks' seenHashes
      else b :: dedup_loop blocks' (h :: seenHashes)
  end.

Definition deduplicateCodeBlocks (blocks : list CodeBlock) : list CodeBlock :=
  dedup_loop blocks [].

Definition calculateMultiFileConfidence (changes : list MultiFileChange) : Q :=
  let valid := List.filter (fun c => 0 <? length (trim (content c))) changes in
  ((Z.of_nat (length valid) # 1) / (Z.of_nat (length changes) # 1) * 0.8)%Q.

(** The pattern built for one change in [extractMultiFileExplanation];
    the path enters it escaped, that is as a literal. *)
Definition fileBlockPattern (path : str) : regex :=
  rseq [ralt [rlit "File:"; rlit "Path:"]; rstar rspace; rstr path;
        rstar_lazy rany; rlit "```"; rstar_lazy rany; rlit "```"].

(** [/\n\s*\n\s*\n/g] *)
Definition blankLines : regex :=
  rseq [rnl; rstar rspace; rnl; rstar rspace; rnl].

Definition extractMultiFileExplanation (response : str)
    (changes : list MultiFileChange) : option str :=
  let removed :=
    fold_left
      (fun explanation change =>
         replace_all fl_none (fileBlockPattern (filePath change)) [] explanation)
      changes response in
  let explanation := trim (replace_all fl_none blankLines [nl; nl] removed) in
  match explanation with
  | [] => None
  | _ => Some explanation
  end.

Section Parser.

(** Three stretches of the parser lie behind the reading of a capture
    group that the fence pattern does not have, or need the host's
    JSON printer; the model takes them as given:
    - the statements of the block loop that build a [CodeBlock] from
      the fenced text (label, confidence, line count, imports);
    - the end of [parseAIResponse] once blocks were found (choice of
      the primary block, explanation, confidence, patch type);
    - [JSON.stringify] of the list of changes. *)
Variable buildCodeBlock : str -> rmatch_result -> str -> str -> CodeBlock.
Variable parseWithBlocks : str -> list CodeBlock -> ParseContext -> ParsedOutput.
Variable serializeMultiFileChanges : list MultiFileChange -> str.

Definition codeBlock_body (response : str) (blocks : list CodeBlock)
    (m : rmatch_result) : completion (list CodeBlock) :=
  let language :=
    match group m 1 with
    | Some (c :: l) => c :: l
    | _ => js "text"
    end in
  let* code := trim_of (group m 2) in
  match code with
  | [] => Return blocks
  | _ => Return (blocks ++ [buildCodeBlock response m language code])
  end.

Definition extractEnhancedCodeBlocks (response : str)
    : option (completion (list CodeBlock)) :=
  match exec_all_c fl_none sixBackticks (codeBlock_body response) [] response with
  | Some (Return blocks) => Some (Return (deduplicateCodeBlocks blocks))
  | other => other
  end.

Definition multiFileOutput (response : str) (changes : list MultiFileChange)
    : ParsedOutput :=
  {| po_code := serializeMultiFileChanges changes;
     po_explanation := extractMultiFileExplanation response changes;
     hasCodeBlocks := true;
     po_language := Some (js "multifile");
     confidence := calculateMultiFileConfidence changes;
     patchType := PTMultifile;
     metadata :=
       {| responseType := Multifile;
          codeBlockCount := length changes;
          hasInlineComments := false;
          preservesFormatting := true;
          containsImportsFlag :=
            existsb (fun change => containsImports (content change)) changes |};
     alternatives := None |}.

Definition is_multifile (t : ResponseType) : bool :=
  match t with
  | Multifile => true
  | _ => false
  end.

(** [parseAIResponse] and [parseMultiFileResponseData] call each
    other; [depth] bounds the nesting of the calls, and the
    exhausted bound is the exhausted call stack. *)
Fixpoint parseAIResponse (depth : nat) (response : str) (context : ParseContext)
    : option (completion ParsedOutput) :=
  match depth with
  | O => Some (Throw RangeError)
  | S depth' =>
      let trimmed := trim response in
      let responseType := detectResponseType trimmed in
      let isMultiFile :=
        is_multifile responseType || truthy_bool (expectMultiFile context) in
      if isMultiFile then
        (* parseMultiFileResponseData(trimmed, context) *)
        match parseMultiFileResponse trimmed with
        | None => None
        | Some (Throw e) => Some (Throw e)
        | Some (Return []) =>
            parseAIResponse depth' trimmed
              {| originalLanguage := originalLanguage context;
                 expectMultiFile := Some false;
                 instruction := instruction context |}
        | Some (Return changes) => Some (Return (multiFileOutput trimmed changes))
        end
      else
        match extractEnhancedCodeBlocks trimmed with
        | None => None
        | Some (Throw e) => Some (Throw e)
        | Some (Return []) => Some (Return (parseCodeOnlyResponse trimmed context))
        | Some (Return codeBlocks) =>
            Some (Return (parseWithBlocks trimmed codeBlocks context))
        end
  end.

End Parser.

End OutputParser.

(** Does the text begin, or end, with a character that [trim] removes? *)
Definition starts_with_space (s : str) : bool :=
  match s with
  | c :: _ => is_space c
  | [] => false
  end.

Definition ends_with_space (s : str) : bool := starts_with_space (rev s).


(** Does the caller's [originalLanguage] name the language that
    [detectLanguageFromCode] finds in the text? *)
Definition languageMatches (context : ParseContext) (text : str) : bool :=
  match originalLanguage context with
  | Some (c :: l) => str_eqb (OutputParser.detectLanguageFromCode text) (c :: l)
  | _ => false
  end.

(** A reply in prose, and the context of a TypeScript file. *)
Definition proseReply : str :=
  js "Sure." ++ [nl] ++ js "type checking is fine".

Definition typescriptContext : ParseContext :=
  {| originalLanguage := Some (js "typescript");
     expectMultiFile := Some false;
     instruction := Some (js "explain") |}.

(** A reply with two file headers, each followed by a fenced block of
    five lines. *)
Definition fiveLines : str :=
  join [nl] [js "const a = 1;"; js "const b = 2;"; js "const c = 3;";
             js "const d = 4;"; js "export { a, b, c, d };"].

Definition twoFileReply : str :=
  join [nl] [js "File: a.ts"; js "```ts"; fiveLines; js "```"; [];
             js "File: b.ts"; js "```ts"; fiveLines; js "```"].

(** ** Replies in plain prose

    Prose, as opposed to code: a reply without a fence, without the
    punctuation of code, in which no line begins the way a line of code
    does and no line is the header of a file. *)

(** What follows each character of a text that satisfies [p]. *)
Fixpoint after_each (p : ascii -> bool) (s : str) : list str :=
  match s with
  | [] => []
  | c :: s' => if p c then s' :: after_each p s' else after_each p s'
  end.

(** The text from the start of each of its lines on: from its own
    start and from after each line terminator. *)
Definition line_starts (s : str) : list str := s :: after_each is_line_terminator s.

(** The same with the line feed as the only end of a line. *)
Definition header_starts (s : str) : list str := s :: after_each (ascii_eqb nl) s.

(** One of the characters [{ } ( ) ;]. *)
Definition codePunctuation (c : ascii) : bool :=
  existsb (fun d => ascii_eqb d c) (js "{}();").

Definition declarationWords : list string :=
  ["function"; "class"; "const"; "let"; "var"; "def"; "import"; "from"]%string.

Definition controlWords : list string :=
  ["if"; "for"; "while"; "switch"; "try"; "catch"]%string.

Definition commentMarks : list string := ["//"; "/*"; "#"]%string.

(** Nothing but whitespace up to the end of the line. *)
Fixpoint blank_to_eol (s : str) : bool :=
  match s with
  | [] => true
  | c :: s' => is_line_terminator c || (is_space c && blank_to_eol s')
  end.

(** Does the text, whitespace and blank lines skipped, begin with a
    declaration word followed by whitespace, with a control word alone
    on its line, or with a comment mark? *)
Definition begins_like_code (line : str) : bool :=
  let text := drop_space line in
  existsb (fun w => startsWith text (js w)
                    && starts_with_space (List.skipn (length (js w)) text))
    declarationWords
  || existsb (fun w => startsWith text (js w)
                       && blank_to_eol (List.skipn (length (js w)) text))
       controlWords
  || existsb (fun w => startsWith text (js w)) commentMarks.

(** Does the text begin with the label [File:] or [Path:], letter case
    apart, with more than line feeds after it? *)
Definition begins_with_label (s : str) : bool :=
  existsb (fun label => startsWith (toLowerCase s) (js label)
                        && existsb (fun c => negb (ascii_eqb nl c))
                             (List.skipn (length (js label)) s))
    ["file:"; "path:"]%string.

(** What follows the [#] or [##] and the whitespace that a line begins
    with. *)
Definition after_hashes (line : str) : option str :=
  match line with
  | c :: s =>
      if ascii_eqb c "#" then
        Some (drop_space
                match s with
                | d :: s' => if ascii_eqb d "#" then s' else s
                | [] => s
                end)
      else None
  | [] => None
  end.

(** A header of a file: a label, at the start of the line or after [#]
    or [##] and whitespace. *)
Definition is_file_header (line : str) : bool :=
  begins_with_label line
  || match after_hashes line with
     | Some s => begins_with_label s
     | None => false
     end.

(** No run of three backticks, none of the characters [{ } ( ) ;], and
    no line that begins like code. *)
Definition proseText (reply : str) : bool :=
  negb (includes reply (js "```"))
  && forallb (fun c => negb (codePunctuation c)) reply
  && forallb (fun line => negb (begins_like_code line)) (line_starts reply).

(** A reply in plain prose: prose in which, whitespace at its ends
    apart, no line is the header of a file. *)
Definition plainProse (reply : str) : bool :=
  proseText reply
  && forallb (fun line => negb (is_file_header line)) (header_starts (trim reply)).

(** A character of a pattern that, under the flag [i], matches only
    its own case variants. *)
Definition folds (d : ascii) : Prop :=
  forall c : ascii, char_mem fl_i d c = true -> lower_char c = lower_char d.

(** ** PatchEngine

    The engine keeps one piece of state, the patch history.  A call of
    one of its entry points is a function from the history to the
    outcome of the call and the history it leaves.  What the editor host
    answers during the call (dialogs, the edit itself, ids and dates) is
    an argument.  The fields [appliedAt] and [contextPreserved] of the
    result are left out, and a message that quotes the text of a caught
    exception stops before the quotation. *)

Record PatchHistory : Type := {
  ph_id : str;
  ph_timestamp : nat;
  ph_filePath : str;
  ph_originalCode : str;
  ph_newCode : str;
  ph_instruction : str;
  ph_success : bool;
  ph_confidence : Q;
  ph_patchType : PatchType
}.

Record PatchOptions : Type := {
  autoApply : bool;
  preserveSelection : bool;
  showDiff : bool;
  optValidateSyntax : bool;
  trackChanges : bool;
  showAlternatives : bool
}.

Record CodeContext : Type := {
  userInstruction : str;
  language : str;
  fileContent : str
}.

Record PatchResult : Type := {
  pr_success : bool;
  pr_message : str;
  pr_originalText : str;
  pr_newText : str;
  pr_patchType : PatchType;
  pr_confidence : Q;
  pr_affectedFiles : option (list str);
  pr_responseType : option ResponseType;   (** [None] is the tag ['error'] *)
  pr_hasAlternatives : bool;
  pr_syntaxValidated : bool
}.

(** The answers of the host during one call. *)
Record Host : Type := {
  quickPick : completion (option nat);      (** the entry chosen in the quick pick *)
  dialogChoice : completion (option str);   (** the button pressed in a dialog *)
  applyEdit : completion bool;              (** [vscode.workspace.applyEdit] *)
  showInformation : completion unit;        (** the message shown after an edit *)
  editFails : str -> bool;                  (** building the edit of a file raises *)
  generatedId : nat -> str;                 (** the ids of [generateId], in order *)
  now : nat
}.

Module PatchEngine.

Definition maxHistorySize : nat := 50.

Definition addToHistory (entry : PatchHistory) (history : list PatchHistory)
    : list PatchHistory :=
  let h := entry :: history in
  if maxHistorySize <? length h then List.firstn maxHistorySize h else h.

Definition clearHistory (history : list PatchHistory) : list PatchHistory := [].

Definition createFailureResult (message originalText newText : str)
    (affectedFiles : option (list str)) : PatchResult :=
  {| pr_success := false;
     pr_message := message;
     pr_originalText := originalText;
     pr_newText := newText;
     pr_patchType := PTInline;
     pr_confidence := 0;
     pr_affectedFiles := affectedFiles;
     pr_responseType := None;
     pr_hasAlternatives := false;
     pr_syntaxValidated := false |}.

(** [/^(\s+)/] *)
Definition leadingSpaces1 : regex := rseq [RBol; RGroup 1 (rplus rspace)].
(** [/^(\s* )/] *)
Definition leadingSpaces0 : regex := rseq [RBol; RGroup 1 (rstar rspace)].
(** [/^\s*/] and [/\s*$/] *)
Definition leadingBlank : regex := rseq [RBol; rstar rspace].
Definition trailingBlank : regex := rseq [rstar rspace; REol].

Fixpoint detectIndentation_loop (lines : list str) : str :=
  match lines with
  | [] => js "  "
  | line :: lines' =>
      match exec fl_none leadingSpaces1 line with
      | Some m =>
          match group m 1 with
          | Some v => v
          | None => []
          end
      | None => detectIndentation_loop lines'
      end
  end.

Definition detectIndentation (code : str) : str :=
  detectIndentation_loop (split_lines code).

Fixpoint adjust_lines (index : nat) (indentation : str) (lines : list str) : list str :=
  match lines with
  | [] => []
  | line :: lines' =>
      (if (index =? 0) || str_eqb (trim line) [] then line else indentation ++ line)
      :: adjust_lines (S index) indentation lines'
  end.

Definition adjustIndentation (code indentation : str) : str :=
  join [nl] (adjust_lines 0 indentation (split_lines code)).

Definition matched_text (fl : flags) (r : regex) (s : str) : str :=
  match exec fl r s with
  | Some m => m_text m
  | None => []
  end.

Definition processCodeForInlineEdit (code originalCode : str) : str :=
  let cleanedCode := OutputParser.cleanCode code in
  let originalIndentation := detectIndentation originalCode in
  let processedCode := adjustIndentation cleanedCode originalIndentation in
  let leadingWhitespace := matched_text fl_none leadingBlank originalCode in
  let trailingWhitespace := matched_text fl_none trailingBlank originalCode in
  leadingWhitespace ++ trim processedCode ++ trailingWhitespace.

(** [lines[position.line]] is [undefined] past the last line, and its
    [match] raises. *)
Definition getIndentationAtPosition (fileContent : str) (line : nat) : completion str :=
  match List.nth_error (split_lines fileContent) line with
  | None => Throw TypeError
  | Some currentLine =>
      match exec fl_none leadingSpaces0 currentLine with
      | Some m =>
          match group m 1 with
          | Some v => Return v
          | None => Throw TypeError
          end
      | None => Return []
      end
  end.

Definition processCodeForGeneration (code : str) (context : CodeContext) (line : nat)
    : completion str :=
  let cleanedCode := OutputParser.cleanCode code in
  let* indentation := getIndentationAtPosition (fileContent context) line in
  Return (adjustIndentation cleanedCode indentation).

Definition languageOrText (context : CodeContext) : str :=
  match language context with
  | [] => js "text"
  | l => l
  end.

Definition has_alternatives (p : ParsedOutput) : bool :=
  match alternatives p with
  | Some (_ :: _) => true
  | _ => false
  end.

(** [showAlternativesDialog]: the code of the chosen entry, the primary
    solution first. *)
Definition showAlternativesDialog (host : Host) (p : ParsedOutput)
    : completion (option str) :=
  match alternatives p with
  | Some (a :: alts) =>
      let options := po_code p :: List.map alt_code (a :: alts) in
      let* picked := quickPick host in
      Return (match picked with
              | Some i => List.nth_error options i
              | None => None
              end)
  | _ => Return (Some (po_code p))
  end.

Definition with_code (p : ParsedOutput) (c : str) : ParsedOutput :=
  {| po_code := c;
     po_explanation := po_explanation p;
     hasCodeBlocks := hasCodeBlocks p;
     po_language := po_language p;
     confidence := confidence p;
     patchType := patchType p;
     metadata := metadata p;
     alternatives := alternatives p |}.

Definition is_button (v : option str) (label : string) : bool :=
  match v with
  | Some s => str_eqb s (js label)
  | None => false
  end.

Definition showEnhancedDiffPreview (host : Host) (p : ParsedOutput) : completion bool :=
  let* result := dialogChoice host in
  if is_button result "Show Alternatives" && has_alternatives p then
    let* selectedCode := showAlternativesDialog host p in
    Return (match selectedCode with Some _ => true | None => false end)
  else Return (is_button result "Apply Changes").

Definition showEnhancedGenerationPreview (host : Host) : completion bool :=
  let* result := dialogChoice host in
  Return (is_button result "Insert Code").

Definition confirmEnhancedMultiFileChanges (host : Host) : completion bool :=
  let* result := dialogChoice host in
  Return (is_button result "Apply All Changes").

Definition applyCodeChange (host : Host) : completion (bool * str) :=
  let* success := applyEdit host in
  Return (success,
          if success then js "Code updated successfully by codeIt"
          else js "Failed to apply changes").

(** The outcome of a call: the promise is fulfilled with a result or
    rejected with an exception. *)
Definition outcome : Type := completion PatchResult * list PatchHistory.

Definition fail_with (history : list PatchHistory) (message originalText newText : str)
    (affectedFiles : option (list str)) : outcome :=
  (Return (createFailureResult message originalText newText affectedFiles), history).

(** Runs a step that may raise outside of any [try]: the call is
    rejected and the history stays. *)
Definition step {A : Type} (history : list PatchHistory) (m : completion A)
    (k : A -> outcome) : outcome :=
  match m with
  | Return a => k a
  | Throw e => (Throw e, history)
  end.

Definition patchResult (success : bool) (message originalText newText : str)
    (p : ParsedOutput) (kind : PatchType) (affected : option (list str))
    (hasAlt : bool) (options : PatchOptions) : PatchResult :=
  {| pr_success := success;
     pr_message := message;
     pr_originalText := originalText;
     pr_newText := newText;
     pr_patchType := kind;
     pr_confidence := confidence p;
     pr_affectedFiles := affected;
     pr_responseType := Some (responseType (metadata p));
     pr_hasAlternatives := hasAlt;
     pr_syntaxValidated := optValidateSyntax options |}.

Section Engine.

Variable buildCodeBlock : str -> rmatch_result -> str -> str -> CodeBlock.
Variable parseWithBlocks : str -> list CodeBlock -> ParseContext -> ParsedOutput.
Variable serializeMultiFileChanges : list MultiFileChange -> str.

(** The depth of the call stack left to the parser. *)
Variable stackDepth : nat.

Definition parse (aiResponse : str) (context : CodeContext) (multi : bool)
    : option (completion ParsedOutput) :=
  OutputParser.parseAIResponse buildCodeBlock parseWithBlocks
    serializeMultiFileChanges stackDepth aiResponse
    {| originalLanguage := Some (language context);
       expectMultiFile := Some multi;
       instruction := Some (userInstruction context) |}.

(** The choice among the alternatives, common to the inline and the
    generation patch. *)
Definition chooseAlternative (host : Host) (options : PatchOptions)
    (p : ParsedOutput) : completion (option ParsedOutput) :=
  if has_alternatives p && showAlternatives options then
    let* selectedCode := showAlternativesDialog host p in
    match selectedCode with
    | Some (c :: code) => Return (Some (with_code p (c :: code)))
    | _ => Return None
    end
  else Return (Some p).

Definition applyInlinePatch (host : Host) (fsPath originalText aiResponse : str)
    (context : CodeContext) (options : PatchOptions)
    (history : list PatchHistory) : option outcome :=
  match parse aiResponse context false with
  | None => None
  | Some parsed => Some (
      step history parsed (fun parsedOutput =>
      match po_code parsedOutput with
      | [] => fail_with history (js "No valid code found in AI response") originalText [] None
      | _ =>
      step history (chooseAlternative host options parsedOutput) (fun chosen =>
      match chosen with
      | None => fail_with history (js "User cancelled alternative selection") originalText [] None
      | Some parsedOutput =>
      let newText := processCodeForInlineEdit (po_code parsedOutput) originalText in
      if optValidateSyntax options &&
         negb (PatchEngineSyntax.validateSyntax newText (languageOrText context))
      then fail_with history (js "Generated code has syntax errors") originalText newText None
      else
      step history
        (if showDiff options && negb (autoApply options)
         then showEnhancedDiffPreview host parsedOutput else Return true)
        (fun shouldApply =>
      if negb shouldApply
      then fail_with history (js "User cancelled the patch application") originalText newText None
      else
      (* try *)
      match applyCodeChange host with
      | Throw _ =>
          fail_with history (js "Error applying patch") originalText newText None
      | Return (success, message) =>
          let history' :=
            if success && trackChanges options then
              addToHistory
                {| ph_id := generatedId host 0;
                   ph_timestamp := now host;
                   ph_filePath := fsPath;
                   ph_originalCode := originalText;
                   ph_newCode := newText;
                   ph_instruction := userInstruction context;
                   ph_success := true;
                   ph_confidence := confidence parsedOutput;
                   ph_patchType := patchType parsedOutput |}
                history
            else history in
          (Return (patchResult success message originalText newText parsedOutput
                     (patchType parsedOutput) None
                     (has_alternatives parsedOutput) options),
           history')
      end)
      end)
      end))
  end.

Definition applyGenerationPatch (host : Host) (fsPath : str) (line : nat)
    (aiResponse : str) (context : CodeContext) (options : PatchOptions)
    (history : list PatchHistory) : option outcome :=
  match parse aiResponse context false with
  | None => None
  | Some parsed => Some (
      step history parsed (fun parsedOutput =>
      match po_code parsedOutput with
      | [] => fail_with history (js "No valid code found in AI response") [] [] None
      | _ =>
      step history (chooseAlternative host options parsedOutput) (fun chosen =>
      match chosen with
      | None => fail_with history (js "User cancelled alternative selection") [] [] None
      | Some parsedOutput =>
      step history (processCodeForGeneration (po_code parsedOutput) context line)
        (fun generatedCode =>
      if optValidateSyntax options &&
         negb (PatchEngineSyntax.validateSyntax generatedCode (languageOrText context))
      then fail_with history (js "Generated code has syntax errors") [] generatedCode None
      else
      step history
        (if showDiff options && negb (autoApply options)
         then showEnhancedGenerationPreview host else Return true)
        (fun shouldApply =>
      if negb shouldApply
      then fail_with history (js "User cancelled code generation") [] generatedCode None
      else
      (* try *)
      match applyEdit host with
      | Throw _ => fail_with history (js "Error generating code") [] generatedCode None
      | Return success =>
          let history' :=
            if success && trackChanges options then
              addToHistory
                {| ph_id := generatedId host 0;
                   ph_timestamp := now host;
                   ph_filePath := fsPath;
                   ph_originalCode := [];
                   ph_newCode := generatedCode;
                   ph_instruction := userInstruction context;
                   ph_success := true;
                   ph_confidence := confidence parsedOutput;
                   ph_patchType := patchType parsedOutput |}
                history
            else history in
          let message :=
            if success then js "Code generated successfully by codeIt"
            else js "Failed to generate code" in
          match
            (if success && truthy_str (po_explanation parsedOutput)
             then showInformation host else Return tt)
          with
          | Throw _ =>
              fail_with history' (js "Error generating code") [] generatedCode None
          | Return _ =>
              (Return (patchResult success message [] generatedCode parsedOutput
                         (patchType parsedOutput) None
                         (has_alternatives parsedOutput) options),
               history')
          end
      end))
      end)
      end))
  end.

(** One entry per change, newest first, the way [forEach] adds them. *)
Fixpoint addChanges (host : Host) (i : nat) (changes : list MultiFileChange)
    (context : CodeContext) (p : ParsedOutput) (history : list PatchHistory)
    : list PatchHistory :=
  match changes with
  | [] => history
  | change :: changes' =>
      addChanges host (S i) changes' context p
        (addToHistory
           {| ph_id := generatedId host i;
              ph_timestamp := now host;
              ph_filePath := filePath change;
              ph_originalCode :=
                match originalContent change with Some c => c | None => [] end;
              ph_newCode := content change;
              ph_instruction := userInstruction context;
              ph_success := true;
              ph_confidence := confidence p;
              ph_patchType := PTMultifile |}
           history)
  end.

Definition is_PTMultifile (t : PatchType) : bool :=
  match t with
  | PTMultifile => true
  | _ => false
  end.

Definition applyMultiFilePatch (host : Host) (aiResponse : str)
    (context : CodeContext) (options : PatchOptions)
    (history : list PatchHistory) : option outcome :=
  match parse aiResponse context true with
  | None => None
  | Some parsed =>
      match parsed with
      | Throw e => Some (Throw e, history)
      | Return parsedOutput =>
      if negb (is_PTMultifile (patchType parsedOutput))
      then Some (fail_with history (js "No multi-file changes found in response") [] [] None)
      else
      match OutputParser.parseMultiFileResponse aiResponse with
      | None => None
      | Some multi => Some (
      step history multi (fun multiFileChanges =>
      match multiFileChanges with
      | [] => fail_with history (js "No multi-file changes found in response") [] [] None
      | _ =>
      let affectedFiles := Some (List.map filePath multiFileChanges) in
      step history
        (if negb (autoApply options)
         then confirmEnhancedMultiFileChanges host else Return true)
        (fun confirmed =>
      if negb confirmed
      then fail_with history (js "User cancelled multi-file changes") [] [] affectedFiles
      else
      let invalidFiles :=
        List.filter
          (fun change =>
             negb (PatchEngineSyntax.validateSyntax (content change)
                     (match mf_language change with
                      | Some (c :: l) => c :: l
                      | _ => js "text"
                      end)))
          multiFileChanges in
      if optValidateSyntax options && (0 <? length invalidFiles)
      then fail_with history
             (js "Syntax errors in files: " ++ join (js ", ") (List.map filePath invalidFiles))
             [] [] affectedFiles
      else
      let results :=
        List.map (fun change => negb (editFails host (filePath change))) multiFileChanges in
      (* try *)
      match applyEdit host with
      | Throw _ =>
          fail_with history (js "Error applying multi-file changes") [] [] affectedFiles
      | Return success =>
          let successCount := length (List.filter (fun r => r) results) in
          let history' :=
            if success && trackChanges options
            then addChanges host 0 multiFileChanges context parsedOutput history
            else history in
          let message :=
            js "codeIt applied changes to " ++ show_nat successCount ++ js "/"
            ++ show_nat (length multiFileChanges) ++ js " files" in
          (Return (patchResult success message [] [] parsedOutput
                     PTMultifile affectedFiles false options),
           history')
      end)
      end))
      end
      end
  end.

(** [applySmartPatch] parses once to choose the entry point, which
    parses again. *)
Definition applySmartPatch (host : Host) (fsPath originalText : str) (line : nat)
    (aiResponse : str) (context : CodeContext) (options : PatchOptions)
    (history : list PatchHistory) : option outcome :=
  match
    OutputParser.parseAIResponse buildCodeBlock parseWithBlocks
      serializeMultiFileChanges stackDepth aiResponse
      {| originalLanguage := Some (language context);
         expectMultiFile :=
           Some (includes aiResponse (js "File:") || includes aiResponse (js "Path:"));
         instruction := Some (userInstruction context) |}
  with
  | None => None
  | Some (Throw e) => Some (Throw e, history)
  | Some (Return parsedOutput) =>
      match patchType parsedOutput with
      | PTInline | PTRefactor =>
          applyInlinePatch host fsPath originalText aiResponse context options history
      | PTGeneration =>
          applyGenerationPatch host fsPath line aiResponse context options history
      | PTMultifile => applyMultiFilePatch host aiResponse context options history
      end
  end.

(** The calls that reach the history. *)
Inductive call : Type :=
  | CallInline (host : Host) (fsPath originalText aiResponse : str)
      (context : CodeContext) (options : PatchOptions)
  | CallGeneration (host : Host) (fsPath : str) (line : nat) (aiResponse : str)
      (context : CodeContext) (options : PatchOptions)
  | CallMultiFile (host : Host) (aiResponse : str)
      (context : CodeContext) (options : PatchOptions)
  | CallSmart (host : Host) (fsPath originalText : str) (line : nat)
      (aiResponse : str) (context : CodeContext) (options : PatchOptions)
  | CallClear.

Definition run_call (c : call) (history : list PatchHistory) : option outcome :=
  match c with
  | CallInline host fsPath originalText aiResponse context options =>
      applyInlinePatch host fsPath originalText aiResponse context options history
  | CallGeneration host fsPath line aiResponse context options =>
      applyGenerationPatch host fsPath line aiResponse context options history
  | CallMultiFile host aiResponse context options =>
      applyMultiFilePatch host aiResponse context options history
  | CallSmart host fsPath originalText line aiResponse context options =>
      applySmartPatch host fsPath originalText line aiResponse context options history
  | CallClear =>
      Some (Return (createFailureResult [] [] [] None), clearHistory history)
  end.

(** The host and the options of a patch call. *)
Definition call_host (c : call) : option (Host * PatchOptions) :=
  match c with
  | CallInline host _ _ _ _ options
  | CallGeneration host _ _ _ _ options
  | CallMultiFile host _ _ options
  | CallSmart host _ _ _ _ _ options => Some (host, options)
  | CallClear => None
  end.

(** The history after a sequence of calls; a call that does not return
    leaves it as it is. *)
Definition history_after (c : call) (history : list PatchHistory) : list PatchHistory :=
  match run_call c history with
  | Some (_, history') => history'
  | None => history
  end.

Definition run_calls (calls : list call) (history : list PatchHistory)
    : list PatchHistory :=
  fold_left (fun h c => history_after c h) calls history.

End Engine.

End PatchEngine.

Definition all_successful (history : list PatchHistory) : Prop :=
  Forall (fun entry => ph_success entry = true) history.

(** What a call can do to the history. *)
Inductive history_step (host : Host) (options : PatchOptions)
    (history : list PatchHistory) : list PatchHistory -> Prop :=
  | hs_same : history_step host options history history
  | hs_entry (entry : PatchHistory) :
      applyEdit host = Return true -> trackChanges options = true ->
      ph_success entry = true ->
      history_step host options history (PatchEngine.addToHistory entry history)
  | hs_changes (context : CodeContext) (p : ParsedOutput)
      (changes : list MultiFileChange) :
      applyEdit host = Return true -> trackChanges options = true ->
      history_step host options history (PatchEngine.addChanges host 0 changes context p history).


(** ** Paths

    The functions of Node's [path] module that the sources call, for
    POSIX paths. *)

(** A path without the slashes it ends with. *)
Fixpoint drop_slashes (reversed : str) : str :=
  match reversed with
  | c :: s' => if ascii_eqb c "/" then drop_slashes s' else reversed
  | [] => []
  end.

Definition last_segment (p : str) : str :=
  List.last (split (rev (drop_slashes (rev p))) (js "/")) [].

(** The index of the last ["."] of a segment, if any. *)
Fixpoint last_dot (s : str) (i : nat) (found : option nat) : option nat :=
  match s with
  | [] => found
  | c :: s' => last_dot s' (S i) (if ascii_eqb c "." then Some i else found)
  end.

Definition extname (p : str) : str :=
  let seg := last_segment p in
  match last_dot seg 0 None with
  | None | Some 0 => []
  | Some i => if str_eqb seg (js "..") then [] else List.skipn i seg
  end.

Definition basename (p : str) : str := last_segment p.

(** [path.basename(p, ext)] *)
Definition basename_ext (p ext : str) : str :=
  let seg := last_segment p in
  if negb (str_eqb ext []) && endsWith seg ext && negb (str_eqb seg ext)
  then List.firstn (length seg - length ext) seg
  else seg.

(** [path.relative(root, p)] for a path below the root. *)
Definition relative (root p : str) : str :=
  if startsWith p (root ++ js "/") then List.skipn (S (length root)) p else p.

(** ** ProjectIndexer *)

Record FileIndex : Type := {
  fi_path : str;
  relativePath : str;
  exports : list str;
  imports : list str;
  classes : list str;
  functions : list str;
  interfaces : list str;
  summary : str;
  fi_language : str;
  lastModified : nat;
  lineCount : nat
}.

(** The index object, a plain object used as a map: its prototype when
    an assignment has replaced it, and its own properties in the order
    in which [Object.keys] and [Object.values] list them, array indices
    first. *)
Record ProjectIndex : Type := {
  prototype : option FileIndex;
  properties : list (str * FileIndex)
}.

(** [{}] *)
Definition emptyIndex : ProjectIndex := {| prototype := None; properties := [] |}.

(** An index with the given own properties. *)
Definition indexOf (props : list (str * FileIndex)) : ProjectIndex :=
  {| prototype := None; properties := props |}.

Definition digits_value (s : str) : N :=
  fold_left (fun acc c => (10 * acc + N.of_nat (code c - 48))%N) s 0%N.

(** The number a key stands for when it is an array index: a string of
    digits in canonical form of a value up to [2^32 - 2]. *)
Definition array_index (key : str) : option N :=
  match key with
  | [] => None
  | c :: digits =>
      if forallb is_digit key
         && (negb (ascii_eqb c "0") || match digits with [] => true | _ => false end)
      then
        if (digits_value key <=? 4294967294)%N then Some (digits_value key) else None
      else None
  end.

Definition has_key (key : str) (props : list (str * FileIndex)) : bool :=
  existsb (fun p => str_eqb (fst p) key) props.

(** The value of a property that exists is replaced where it stands. *)
Fixpoint replace_value (key : str) (value : FileIndex) (props : list (str * FileIndex))
    : list (str * FileIndex) :=
  match props with
  | [] => []
  | (k, v) :: props' =>
      if str_eqb k key then (k, value) :: props'
      else (k, v) :: replace_value key value props'
  end.

(** A new array index goes among the array indices, in ascending order,
    before every other key. *)
Fixpoint insert_index (n : N) (key : str) (value : FileIndex)
    (props : list (str * FileIndex)) : list (str * FileIndex) :=
  match props with
  | [] => [(key, value)]
  | (k, v) :: props' =>
      match array_index k with
      | Some m =>
          if (m <? n)%N then (k, v) :: insert_index n key value props'
          else (key, value) :: props
      | None => (key, value) :: props
      end
  end.

(** The name that is no key of an object used as a map. *)
Definition protoKey : str := js "__proto__".

(** [index[key] = value].  The key [__proto__] is the accessor of
    [Object.prototype]: the assignment replaces the prototype and makes
    no own property.  Every other key becomes or stays an own
    property. *)
Definition index_set (key : str) (value : FileIndex) (index : ProjectIndex) : ProjectIndex :=
  if str_eqb key protoKey then
    {| prototype := Some value; properties := properties index |}
  else
    {| prototype := prototype index;
       properties :=
         if has_key key (properties index)
         then replace_value key value (properties index)
         else
           match array_index key with
           | Some n => insert_index n key value (properties index)
           | None => properties index ++ [(key, value)]
           end |}.

(** [Object.values(index)] and [Object.keys(index)] *)
Definition index_values (index : ProjectIndex) : list FileIndex :=
  List.map snd (properties index).
Definition index_keys (index : ProjectIndex) : list str :=
  List.map fst (properties index).

(** The value of the own property [key], if there is one. *)
Fixpoint own_property (key : str) (props : list (str * FileIndex)) : option FileIndex :=
  match props with
  | [] => None
  | (k, v) :: props' => if str_eqb k key then Some v else own_property key props'
  end.

Definition index_get (key : str) (index : ProjectIndex) : option FileIndex :=
  own_property key (properties index).

Record IndexingOptions : Type := {
  maxFiles : nat;
  maxFileSize : N;   (** bytes *)
  includePatterns : list str;
  excludePatterns : list str;
  enableASTParsing : bool
}.

Record ParseResult : Type := {
  r_exports : list str;
  r_imports : list str;
  r_classes : list str;
  r_functions : list str;
  r_interfaces : list str
}.

Record Stats : Type := { size : N; mtime : nat }.

(** The host: the workspace folder that [updateWorkspaceRoot] finds, the
    [glob] package and the file system.  The host answers the same at
    every call. *)
Record IndexerHost : Type := {
  workspaceFolder : str;
  glob : str -> list str -> completion (list str);
  statSync : str -> completion Stats;
  readFileSync : str -> completion str;
  clock : nat
}.

Module ProjectIndexer.

Definition defaultOptions : IndexingOptions :=
  {| maxFiles := 1000;
     maxFileSize := (1024 * 1024)%N;
     includePatterns :=
       List.map js
         ["**/*.ts"; "**/*.tsx"; "**/*.js"; "**/*.jsx"; "**/*.py"; "**/*.java";
          "**/*.cpp"; "**/*.c"; "**/*.cs"; "**/*.php"; "**/*.rb"; "**/*.go";
          "**/*.rs"; "**/*.swift"; "**/*.kt"; "**/*.scala"]%string;
     excludePatterns :=
       List.map js
         ["**/node_modules/**"; "**/dist/**"; "**/build/**"; "**/.git/**";
          "**/coverage/**"; "**/*.min.js"; "**/*.d.ts"]%string;
     enableASTParsing := true |}.

(** The options [updateFileIndex] passes to [indexFile]. *)
Definition updateOptions : IndexingOptions :=
  {| maxFiles := 1000;
     maxFileSize := (1024 * 1024)%N;
     includePatterns := [js "**/*"];
     excludePatterns := [];
     enableASTParsing := true |}.

Definition extensionMap : list (string * string) :=
  [ (".ts", "typescript"); (".tsx", "typescript"); (".js", "javascript");
    (".jsx", "javascript"); (".py", "python"); (".java", "java");
    (".cpp", "cpp"); (".cxx", "cpp"); (".cc", "cpp"); (".c", "c"); (".h", "c");
    (".cs", "csharp"); (".php", "php"); (".rb", "ruby"); (".go", "go");
    (".rs", "rust"); (".swift", "swift"); (".kt", "kotlin");
    (".scala", "scala") ]%string.

Definition detectLanguage (filePath : str) : str :=
  match OutputParser.lookup_str (toLowerCase (extname filePath)) extensionMap with
  | Some l => l
  | None => js "text"
  end.

Definition plural (n : nat) (suffix : str) : str :=
  if 1 <? n then suffix else [].

Definition generateFileSummary (content : str) (r : ParseResult) (language : str) : str :=
  let part (names : list str) (word suffix : str) (shown : nat) : list str :=
    match names with
    | [] => []
    | _ =>
        [show_nat (length names) ++ js " " ++ word ++ plural (length names) suffix
         ++ js ": " ++ join (js ", ") (List.firstn shown names)]
    end in
  let summary :=
    part (r_classes r) (js "class") (js "es") 3
    ++ part (r_functions r) (js "function") (js "s") 3
    ++ part (r_interfaces r) (js "interface") (js "s") 2 in
  let baseInfo :=
    language ++ js " file with " ++ show_nat (length (split_lines content)) ++ js " lines" in
  match summary with
  | [] => baseInfo
  | _ => baseInfo ++ js ". " ++ join (js ", ") summary
  end.

(** [a < b] in the order of [Array.prototype.sort] without a comparator. *)
Fixpoint str_ltb (a b : str) : bool :=
  match a, b with
  | _, [] => false
  | [], _ :: _ => true
  | x :: a', y :: b' =>
      (code x <? code y) || ((code x =? code y) && str_ltb a' b')
  end.

Fixpoint insert_sorted (x : str) (l : list str) : list str :=
  match l with
  | [] => [x]
  | y :: l' => if str_ltb y x then y :: insert_sorted x l' else x :: l
  end.

Definition sort_strings (l : list str) : list str :=
  fold_left (fun acc x => insert_sorted x acc) l [].

Fixpoint unique (l : list str) (seenBefore : list str) : list str :=
  match l with
  | [] => []
  | x :: l' =>
      if existsb (str_eqb x) seenBefore then unique l' seenBefore
      else x :: unique l' (x :: seenBefore)
  end.

Section Indexer.

(** The extraction of the symbols of a file (the tables of patterns per
    language, with or without [enableASTParsing]) is taken as given: it
    raises nothing and only fills the lists of the record. *)
Variable parseFile : bool -> str -> str -> ParseResult.

Variable host : IndexerHost.

Definition findFiles (workspaceRoot : str) (options : IndexingOptions) : list str :=
  match workspaceRoot with
  | [] => []
  | _ =>
      let allFiles :=
        List.concat
          (List.map
             (fun pattern =>
                match glob host pattern (excludePatterns options) with
                | Return files => files
                | Throw _ => []
                end)
             (includePatterns options)) in
      let uniqueFiles := sort_strings (unique allFiles []) in
      List.filter
        (fun file =>
           match statSync host file with
           | Return stats => (size stats <=? maxFileSize options)%N
           | Throw _ => false
           end)
        (List.firstn (maxFiles options) uniqueFiles)
  end.

(** The body of [indexFile] stands in a [try] whose handler returns
    [null]. *)
Definition indexFile (workspaceRoot filePath : str) (options : IndexingOptions)
    : completion (option FileIndex) :=
  try_catch
    (let* stats := statSync host filePath in
     let* content := readFileSync host filePath in
     let language := detectLanguage filePath in
     let relativePath := relative workspaceRoot filePath in
     let parseResult := parseFile (enableASTParsing options) content language in
     let summary := generateFileSummary content parseResult language in
     Return (Some {| fi_path := filePath;
                     relativePath := relativePath;
                     exports := r_exports parseResult;
                     imports := r_imports parseResult;
                     classes := r_classes parseResult;
                     functions := r_functions parseResult;
                     interfaces := r_interfaces parseResult;
                     summary := summary;
                     fi_language := language;
                     lastModified := mtime stats;
                     lineCount := length (split_lines content) |}))
    (fun _ => Return None).

(** *** The indexer as a state machine

    The index objects live in a store and [projectIndex] is a reference
    into it.  An asynchronous call of [buildIndex] or [updateFileIndex]
    runs up to its next [await] and is then a suspended task; other
    calls run in between. *)

Inductive Task : Type :=
  | Finding (options : IndexingOptions)
      (** a build waiting for [findFiles] *)
  | Scanning (options : IndexingOptions) (files : list str) (next : nat)
      (** a build waiting for [indexFile] of the file number [next] *)
  | Updating (filePath : str) (fileIndex : option FileIndex).
      (** an update waiting for [indexFile], which made [fileIndex] *)

Definition is_build (t : Task) : bool :=
  match t with
  | Finding _ | Scanning _ _ _ => true
  | Updating _ _ => false
  end.

Record Indexer : Type := {
  objects : gmap nat ProjectIndex;
  nextObject : nat;
  projectIndex : nat;
  isIndexing : bool;
  lastIndexTime : nat;
  workspaceRoot : str;
  tasks : list Task
}.

(** The indexer as its constructor leaves it: the empty index, and the
    workspace root that [updateWorkspaceRoot] finds. *)
Definition initial : Indexer :=
  {| objects := {[ 0 := emptyIndex ]};
     nextObject := 1;
     projectIndex := 0;
     isIndexing := false;
     lastIndexTime := 0;
     workspaceRoot := workspaceFolder host;
     tasks := [] |}.

(** The index a reference stands for. *)
Definition deref (st : Indexer) (ref : nat) : ProjectIndex :=
  match objects st !! ref with
  | Some index => index
  | None => emptyIndex
  end.

Definition getIndex (st : Indexer) : nat := projectIndex st.

Definition isIndexed (st : Indexer) : bool :=
  0 <? length (index_keys (deref st (projectIndex st))).

(** What a call of [buildIndex] gives back at once: the reference it
    returned, or a promise still pending. *)
Inductive Answer : Type :=
  | Returned (ref : nat)
  | Pending.

(** [buildIndex(options)], up to its first [await]. *)
Definition buildIndex_call (options : IndexingOptions) (st : Indexer)
    : Indexer * Answer :=
  if isIndexing st then (st, Returned (projectIndex st))
  else
    ({| objects := objects st;
        nextObject := nextObject st;
        projectIndex := projectIndex st;
        isIndexing := true;
        lastIndexTime := lastIndexTime st;
        workspaceRoot := workspaceFolder host;
        tasks := tasks st ++ [Finding options] |},
     Pending).

(** [this.projectIndex[fileName] = fileIndex], in place. *)
Definition store_record (st : Indexer) (filePath : str) (fileIndex : FileIndex)
    : gmap nat ProjectIndex :=
  <[ projectIndex st := index_set (basename filePath) fileIndex
                          (deref st (projectIndex st)) ]> (objects st).

Definition with_tasks (st : Indexer) (objs : gmap nat ProjectIndex)
    (ts : list Task) : Indexer :=
  {| objects := objs;
     nextObject := nextObject st;
     projectIndex := projectIndex st;
     isIndexing := isIndexing st;
     lastIndexTime := lastIndexTime st;
     workspaceRoot := workspaceRoot st;
     tasks := ts |}.

(** [updateFileIndex(filePath)], up to its [await]: [indexFile] has
    run, and its handler has turned every exception into [null]. *)
Definition updateFileIndex_call (filePath : str) (st : Indexer) : Indexer :=
  let fileIndex :=
    match indexFile (workspaceRoot st) filePath updateOptions with
    | Return (Some fileIndex) => Some fileIndex
    | Return None => None
    | Throw _ => None          (* caught and logged *)
    end in
  with_tasks st (objects st) (tasks st ++ [Updating filePath fileIndex]).

(** The tasks without the task number [i], which has ended. *)
Definition without_task (i : nat) (ts : list Task) : list Task :=
  List.firstn i ts ++ List.skipn (S i) ts.

(** The suspended task number [i] runs from its [await] to the next
    one, or to its end.  The second component is the reference a build
    returns when it ends. *)
Definition resume (i : nat) (st : Indexer) : Indexer * option nat :=
  match tasks st !! i with
  | None => (st, None)
  | Some (Finding options) =>
      let files := findFiles (workspaceRoot st) options in
      (* this.projectIndex = {} *)
      ({| objects := <[ nextObject st := emptyIndex ]> (objects st);
          nextObject := S (nextObject st);
          projectIndex := nextObject st;
          isIndexing := isIndexing st;
          lastIndexTime := lastIndexTime st;
          workspaceRoot := workspaceRoot st;
          tasks := <[ i := Scanning options files 0 ]> (tasks st) |},
       None)
  | Some (Scanning options files next) =>
      match files !! next with
      | Some filePath =>
          let objs :=
            match indexFile (workspaceRoot st) filePath options with
            | Return (Some fileIndex) => store_record st filePath fileIndex
            | Return None => objects st
            | Throw _ => objects st      (* caught and logged *)
            end in
          (with_tasks st objs (<[ i := Scanning options files (S next) ]> (tasks st)),
           None)
      | None =>
          (* the loop is over: lastIndexTime, return, finally *)
          ({| objects := objects st;
              nextObject := nextObject st;
              projectIndex := projectIndex st;
              isIndexing := false;
              lastIndexTime := clock host;
              workspaceRoot := workspaceRoot st;
              tasks := without_task i (tasks st) |},
           Some (projectIndex st))
      end
  | Some (Updating filePath fileIndex) =>
      let objs :=
        match fileIndex with
        | Some fileIndex => store_record st filePath fileIndex
        | None => objects st
        end in
      (with_tasks st objs (without_task i (tasks st)), None)
  end.

(** What happens to an indexer: a call of [buildIndex], a call of
    [updateFileIndex], or a suspended task going on. *)
Inductive Event : Type :=
  | EvBuild (options : IndexingOptions)
  | EvUpdate (filePath : str)
  | EvResume (i : nat).

Definition step (st : Indexer) (ev : Event) : Indexer :=
  match ev with
  | EvBuild options => fst (buildIndex_call options st)
  | EvUpdate filePath => updateFileIndex_call filePath st
  | EvResume i => fst (resume i st)
  end.

Definition run (events : list Event) (st : Indexer) : Indexer :=
  fold_left step events st.

Definition reachable (st : Indexer) : Prop :=
  exists events : list Event, st = run events initial.

(** One build run alone, from the call to the end: its task, the
    number [i], is resumed until it returns. *)
Fixpoint resume_all (fuel : nat) (i : nat) (st : Indexer) : option (Indexer * nat) :=
  match fuel with
  | O => None
  | S fuel' =>
      match resume i st with
      | (st', Some ref) => Some (st', ref)
      | (st', None) => resume_all fuel' i st'
      end
  end.

Definition buildIndex (options : IndexingOptions) (st : Indexer)
    : option (Indexer * nat) :=
  match buildIndex_call options st with
  | (st', Returned ref) => Some (st', ref)
  | (st', Pending) =>
      resume_all (length (findFiles (workspaceRoot st') options) + 2)
        (length (tasks st)) st'
  end.

(** One update run alone: the call and the resumption of its task. *)
Definition updateFileIndex (filePath : str) (st : Indexer) : Indexer :=
  fst (resume (length (tasks st)) (updateFileIndex_call filePath st)).

End Indexer.

End ProjectIndexer.

(** Did [indexFile] produce a record for the file? *)
Definition indexes (parseFile : bool -> str -> str -> ParseResult)
    (host : IndexerHost) (root : str) (options : IndexingOptions)
    (filePath : str) : bool :=
  match ProjectIndexer.indexFile parseFile host root filePath options with
  | Return (Some _) => true
  | _ => false
  end.

(** The index after the scan of [files], started from [index]. *)
Definition scan_result (parseFile : bool -> str -> str -> ParseResult)
    (host : IndexerHost) (root : str) (options : IndexingOptions)
    (files : list str) (index : ProjectIndex) : ProjectIndex :=
  fold_left
    (fun idx filePath =>
       match ProjectIndexer.indexFile parseFile host root filePath options with
       | Return (Some fileIndex) => index_set (basename filePath) fileIndex idx
       | _ => idx
       end)
    files index.

(** A workspace of ten TypeScript files, of which [f3.ts] cannot be
    read. *)
Definition tenFiles : list str :=
  List.map (fun n => js "/w/src/f" ++ show_nat n ++ js ".ts") (seq 0 10).

Definition tenFileHost : IndexerHost :=
  {| workspaceFolder := js "/w";
     glob := fun pattern _ =>
       if str_eqb pattern (js "**/*.ts") then Return tenFiles else Return [];
     statSync := fun _ => Return {| size := 120%N; mtime := 7 |};
     readFileSync := fun p =>
       if str_eqb p (js "/w/src/f3.ts") then Throw HostError
       else Return (js "export const x = 1;");
     clock := 9 |}.

Definition noSymbols : bool -> str -> str -> ParseResult :=
  fun _ _ _ =>
    {| r_exports := []; r_imports := []; r_classes := []; r_functions := [];
       r_interfaces := [] |}.

(** The number of builds among the suspended tasks. *)
Definition builds_in_flight (ts : list ProjectIndexer.Task) : nat :=
  length (List.filter ProjectIndexer.is_build ts).

(** What holds of the indexer in every state it reaches: a build is in
    flight exactly when [isIndexing] is set, there is at most one, and
    while the build scans, the current index object has a key for every
    file scanned so far of which a record was made, but for a file
    named [__proto__]. *)
Definition indexer_inv (parseFile : bool -> str -> str -> ParseResult)
    (host : IndexerHost) (st : ProjectIndexer.Indexer) : Prop :=
  builds_in_flight (ProjectIndexer.tasks st)
  = (if ProjectIndexer.isIndexing st then 1 else 0) /\
  (forall i options files next,
      ProjectIndexer.tasks st !! i = Some (ProjectIndexer.Scanning options files next) ->
      forall f,
        In f (List.firstn next files) ->
        indexes parseFile host (ProjectIndexer.workspaceRoot st) options f = true ->
        basename f <> protoKey ->
        In (basename f)
          (index_keys (ProjectIndexer.deref st (ProjectIndexer.projectIndex st)))).

(** An event other than a call of [updateFileIndex]. *)
Definition no_update (ev : ProjectIndexer.Event) : bool :=
  match ev with
  | ProjectIndexer.EvUpdate _ => false
  | _ => true
  end.

(** What holds in addition as long as [updateFileIndex] has not been
    called: every task is a build, and while the build scans, the
    current index object holds the records of the files scanned so far
    and nothing else. *)
Definition builds_inv (parseFile : bool -> str -> str -> ParseResult)
    (host : IndexerHost) (st : ProjectIndexer.Indexer) : Prop :=
  Forall (fun t => ProjectIndexer.is_build t = true) (ProjectIndexer.tasks st) /\
  (forall i options files next,
      ProjectIndexer.tasks st !! i = Some (ProjectIndexer.Scanning options files next) ->
      ProjectIndexer.deref st (ProjectIndexer.projectIndex st)
      = scan_result parseFile host (ProjectIndexer.workspaceRoot st) options
          (List.firstn next files) emptyIndex).

(** A workspace of ten files, of which [f3.ts] cannot be read and one
    is named [__proto__], and the options of a build over every file. *)
Definition protoFiles : list str :=
  js "/w/src/__proto__"
  :: List.map (fun n => js "/w/src/f" ++ show_nat n ++ js ".ts") (seq 0 9).

Definition protoHost : IndexerHost :=
  {| workspaceFolder := js "/w";
     glob := fun pattern _ =>
       if str_eqb pattern (js "**/*") then Return protoFiles else Return [];
     statSync := fun _ => Return {| size := 120%N; mtime := 7 |};
     readFileSync := fun p =>
       if str_eqb p (js "/w/src/f3.ts") then Throw HostError
       else Return (js "export const x = 1;");
     clock := 9 |}.

Definition everyFile : IndexingOptions :=
  {| maxFiles := 1000;
     maxFileSize := (1024 * 1024)%N;
     includePatterns := [js "**/*"];
     excludePatterns := excludePatterns ProjectIndexer.defaultOptions;
     enableASTParsing := true |}.

(** A workspace of two files, and the events of a first build run to
    its end followed by a second build stopped after its first file. *)
Definition twoFileHost : IndexerHost :=
  {| workspaceFolder := js "/w";
     glob := fun pattern _ =>
       if str_eqb pattern (js "**/*.ts")
       then Return [js "/w/a.ts"; js "/w/b.ts"] else Return [];
     statSync := fun _ => Return {| size := 120%N; mtime := 7 |};
     readFileSync := fun _ => Return (js "export const x = 1;");
     clock := 9 |}.

Definition firstBuild : list ProjectIndexer.Event :=
  [ProjectIndexer.EvBuild ProjectIndexer.defaultOptions;
   ProjectIndexer.EvResume 0; ProjectIndexer.EvResume 0;
   ProjectIndexer.EvResume 0; ProjectIndexer.EvResume 0].

Definition secondBuildHalfway : list ProjectIndexer.Event :=
  [ProjectIndexer.EvBuild ProjectIndexer.defaultOptions;
   ProjectIndexer.EvResume 0; ProjectIndexer.EvResume 0].

Definition afterFirstBuild : ProjectIndexer.Indexer :=
  ProjectIndexer.run noSymbols twoFileHost firstBuild
    (ProjectIndexer.initial twoFileHost).

Definition halfway : ProjectIndexer.Indexer :=
  ProjectIndexer.run noSymbols twoFileHost secondBuildHalfway afterFirstBuild.

Definition show_key (k : str) : string := string_of_list_ascii k.

(** ** SmartFileResolver *)

Inductive MatchType : Type :=
  | MExact | MClass | MFunction | MExport | MFuzzy.

Record FileMatch : Type := {
  file : FileIndex;
  score : Q;
  matchType : MatchType;
  matchReason : str
}.

Record ResolverOptions : Type := {
  maxResults : nat;
  minScore : Q;
  enableFuzzyMatching : bool;
  prioritizeExactMatches : bool
}.

(** The passes of the resolver; a run records the calls it makes to the
    five finders. *)
Inductive Pass : Type :=
  | PExact | PClass | PFunction | PExport | PFuzzy.

Module SmartFileResolver.

Definition defaultResolverOptions : ResolverOptions :=
  {| maxResults := 10; minScore := 0.1; enableFuzzyMatching := true;
     prioritizeExactMatches := true |}.

Definition upperAZ : citem := IRange "A" "Z".
Definition lowerAZ : citem := IRange "a" "z".
Definition digit09 : citem := IRange "0" "9".
Definition alnum : regex := RSet false [lowerAZ; upperAZ; digit09].

(** The five patterns of [extractIdentifiers], all with the flag [g]:
    class names with a known suffix, PascalCase, camelCase, snake_case
    and file names with an extension. *)
Definition identifierPatterns : list regex :=
  [ rseq [RWordB; RSet false [upperAZ]; rstar alnum;
          ralt [rlit "Service"; rlit "Controller"; rlit "Manager"; rlit "Handler";
                rlit "Provider"; rlit "Repository"; rlit "Model"; rlit "Entity";
                rlit "Component"; rlit "Interface"; rlit "Class"];
          RWordB];
    rseq [RWordB; RSet false [upperAZ]; ratleast 2 alnum; RWordB];
    rseq [RWordB; RSet false [lowerAZ]; ratleast 2 alnum; RWordB];
    rseq [RWordB; RSet false [lowerAZ];
          rplus (RSet false [lowerAZ; digit09; IChar "_"]);
          RSet false [lowerAZ; digit09]; RWordB];
    rseq [RWordB;
          rplus (RSet false [lowerAZ; upperAZ; digit09; IChar "_"; IChar "-"]);
          RChar "."; rbetween 1 4 (RSet false [lowerAZ; upperAZ]); RWordB] ].

(** [/[\s,\.;:!?\-_]+/] *)
Definition delimiters : regex :=
  rplus (RSet false [ISpace; IChar ","; IChar "."; IChar ";"; IChar ":";
                     IChar "!"; IChar "?"; IChar "-"; IChar "_"]).

Definition commonWords : list string :=
  ["the"; "and"; "or"; "but"; "in"; "on"; "at"; "to"; "for"; "of"; "with"; "by";
   "from"; "up"; "about"; "into"; "through"; "during"; "before"; "after";
   "above"; "below"; "between"; "among"; "update"; "add"; "remove"; "delete";
   "create"; "modify"; "change"; "fix"; "implement"; "refactor"]%string.

Definition isCommonWord (w : str) : bool :=
  existsb (fun c => str_eqb (js c) w) commonWords.

(** The matches of all patterns, pattern after pattern. *)
Fixpoint collect (patterns : list regex) (instruction : str) (identifiers : list str)
    : option (list str) :=
  match patterns with
  | [] => Some identifiers
  | pattern :: patterns' =>
      match exec_all fl_none pattern (fun acc m => acc ++ [m_text m])
              identifiers instruction with
      | None => None
      | Some identifiers' => collect patterns' instruction identifiers'
      end
  end.

(** [[...new Set(l)]] *)
Fixpoint distinct (l : list str) (seenBefore : list str) : list str :=
  match l with
  | [] => []
  | x :: l' =>
      if existsb (str_eqb x) seenBefore then distinct l' seenBefore
      else x :: distinct l' (x :: seenBefore)
  end.

Definition extractIdentifiers (instruction : str) : option (list str) :=
  match collect identifierPatterns instruction [] with
  | None => None
  | Some identifiers =>
      let words := split_re fl_none delimiters instruction in
      let all := identifiers ++ List.filter (fun word => 2 <? length word) words in
      Some (List.filter
              (fun id => (2 <? length id) && negb (isCommonWord (toLowerCase id)))
              (distinct all []))
  end.

(** [path.basename(file.path, path.extname(file.path))] *)
Definition fileBaseName (f : FileIndex) : str :=
  basename_ext (fi_path f) (extname (fi_path f)).

Definition ratio (a b : nat) : Q := ((Z.of_nat a # 1) / (Z.of_nat b # 1))%Q.

Definition exactMatchOf (identifier : str) (f : FileIndex) : list FileMatch :=
  let fileName := fileBaseName f in
  if str_eqb (toLowerCase fileName) (toLowerCase identifier) then
    [ {| file := f; score := 1.0; matchType := MExact;
         matchReason := js "Exact file name match: " ++ fileName |} ]
  else if includes (toLowerCase fileName) (toLowerCase identifier) then
    let s := ratio (length identifier) (length fileName) in
    [ {| file := f; score := (s * 0.8)%Q; matchType := MExact;
         matchReason := js "File name contains: " ++ identifier |} ]
  else [].

Definition findExactFileMatches (identifier : str) (index : ProjectIndex)
    : list FileMatch :=
  List.concat (List.map (exactMatchOf identifier) (index_values index)).

(** The common shape of the class, function and export finders. *)
Definition symbolMatchOf (kind : MatchType) (exactScore factor : Q)
    (exactReason containsReason : string)
    (identifier : str) (f : FileIndex) (name : str) : list FileMatch :=
  if str_eqb (toLowerCase name) (toLowerCase identifier) then
    [ {| file := f; score := exactScore; matchType := kind;
         matchReason := js exactReason ++ name |} ]
  else if includes (toLowerCase name) (toLowerCase identifier) then
    [ {| file := f;
         score := (ratio (length identifier) (length name) * factor)%Q;
         matchType := kind;
         matchReason := js containsReason ++ identifier ++ js " in " ++ name |} ]
  else [].

Definition findClassMatches (identifier : str) (index : ProjectIndex) : list FileMatch :=
  List.concat
    (List.map
       (fun f =>
          List.concat
            (List.map
               (symbolMatchOf MClass 0.9 0.7 "Exact class match: " "Class contains: "
                  identifier f)
               (classes f)))
       (index_values index)).

Definition findFunctionMatches (identifier : str) (index : ProjectIndex) : list FileMatch :=
  List.concat
    (List.map
       (fun f =>
          List.concat
            (List.map
               (symbolMatchOf MFunction 0.8 0.6 "Exact function match: "
                  "Function contains: " identifier f)
               (functions f)))
       (index_values index)).

Definition findExportMatches (identifier : str) (index : ProjectIndex) : list FileMatch :=
  List.concat
    (List.map
       (fun f =>
          List.concat
            (List.map
               (symbolMatchOf MExport 0.85 0.65 "Exact export match: "
                  "Export contains: " identifier f)
               (exports f)))
       (index_values index)).

(** The count of the characters of the needle found in order in the
    haystack. *)
Fixpoint subsequence_count (haystack needle : str) : nat :=
  match haystack, needle with
  | c :: haystack', d :: needle' =>
      if ascii_eqb c d then S (subsequence_count haystack' needle')
      else subsequence_count haystack' needle
  | _, _ => 0
  end.

Definition calculateFuzzyScore (needle haystack : str) : Q :=
  match needle, haystack with
  | [], _ | _, [] => 0
  | _, _ =>
      let needleLower := toLowerCase needle in
      let haystackLower := toLowerCase haystack in
      if includes haystackLower needleLower
      then ratio (length needleLower) (length haystackLower)
      else (ratio (subsequence_count haystackLower needleLower) (length needleLower)
            * 0.8)%Q
  end.

Definition Qlt_bool (a b : Q) : bool := negb (Qle_bool b a).

Definition fuzzyMatchOf (identifier : str) (f : FileIndex) : list FileMatch :=
  let pathScore := calculateFuzzyScore identifier (relativePath f) in
  let summaryScore := calculateFuzzyScore identifier (summary f) in
  (if Qlt_bool 0.3 pathScore
   then [ {| file := f; score := (pathScore * 0.5)%Q; matchType := MFuzzy;
             matchReason :=
               js "Fuzzy path match: " ++ identifier ++ js " ~ " ++ relativePath f |} ]
   else [])
  ++
  (if Qlt_bool 0.3 summaryScore
   then [ {| file := f; score := (summaryScore * 0.4)%Q; matchType := MFuzzy;
             matchReason := js "Fuzzy summary match: " ++ identifier |} ]
   else []).

Definition findFuzzyMatches (identifier : str) (index : ProjectIndex) : list FileMatch :=
  List.concat (List.map (fuzzyMatchOf identifier) (index_values index)).

(** [deduplicateMatches]: one match per path, at the place of the first
    one, the higher score winning. *)
Fixpoint replace_if_higher (m : FileMatch) (uniqueMatches : list FileMatch)
    : list FileMatch :=
  match uniqueMatches with
  | [] => []
  | u :: rest =>
      if str_eqb (fi_path (file u)) (fi_path (file m)) then
        (if Qlt_bool (score u) (score m) then m else u) :: rest
      else u :: replace_if_higher m rest
  end.

Definition deduplicateMatches (matches : list FileMatch) : list FileMatch :=
  fold_left
    (fun uniqueMatches m =>
       if existsb (fun u => str_eqb (fi_path (file u)) (fi_path (file m))) uniqueMatches
       then replace_if_higher m uniqueMatches
       else uniqueMatches ++ [m])
    matches [].

(** [.sort((a, b) => b.score - a.score)]: by descending score, matches
    of equal score staying in their order. *)
Fixpoint insert_by_score (m : FileMatch) (sorted : list FileMatch) : list FileMatch :=
  match sorted with
  | [] => [m]
  | y :: sorted' =>
      if Qlt_bool (score m) (score y) then y :: insert_by_score m sorted'
      else m :: sorted
  end.

Definition sort_by_score (matches : list FileMatch) : list FileMatch :=
  fold_right insert_by_score [] matches.

(** One finder run over every identifier, each call recorded. *)
Definition run_pass (p : Pass)
    (finder : str -> ProjectIndex -> list FileMatch)
    (identifiers : list str) (index : ProjectIndex) : list FileMatch * list Pass :=
  (List.concat (List.map (fun identifier => finder identifier index) identifiers),
   List.map (fun _ => p) identifiers).

(** [resolveFiles] on the index that [getIndex] returned.  The result
    is [None] when a loop of [extractIdentifiers] does not end. *)
Definition resolveFiles (instruction : str) (options : ResolverOptions)
    (index : ProjectIndex) : option (list FileMatch * list Pass) :=
  match extractIdentifiers instruction with
  | None => None
  | Some identifiers =>
      let '(exactMatches, t1) := run_pass PExact findExactFileMatches identifiers index in
      match exactMatches with
      | _ :: _ => Some (List.firstn 1 (sort_by_score exactMatches), t1)
      | [] =>
          let '(classMatches, t2) := run_pass PClass findClassMatches identifiers index in
          let '(functionMatches, t3) :=
            run_pass PFunction findFunctionMatches identifiers index in
          let '(exportMatches, t4) := run_pass PExport findExportMatches identifiers index in
          let '(fuzzyMatches, t5) :=
            if enableFuzzyMatching options
            then run_pass PFuzzy findFuzzyMatches identifiers index
            else ([], []) in
          let matches := classMatches ++ functionMatches ++ exportMatches ++ fuzzyMatches in
          let uniqueMatches := deduplicateMatches matches in
          let sortedMatches :=
            List.firstn (maxResults options)
              (sort_by_score
                 (List.filter (fun m => Qle_bool (minScore options) (score m))
                    uniqueMatches)) in
          Some (sortedMatches, t1 ++ t2 ++ t3 ++ t4 ++ t5)
      end
  end.

End SmartFileResolver.

(** The identifiers of an instruction, and all exact matches of a run. *)
Definition identifiersOf (instruction : str) : list str :=
  match SmartFileResolver.extractIdentifiers instruction with
  | Some l => l
  | None => []
  end.

Definition allExactMatches (instruction : str) (index : ProjectIndex) : list FileMatch :=
  List.concat
    (List.map (fun identifier => SmartFileResolver.findExactFileMatches identifier index)
       (identifiersOf instruction)).

(** The file name of a record matches an identifier: equal, or
    containing it, letter case apart. *)
Definition nameMatches (identifier : str) (f : FileIndex) : Prop :=
  toLowerCase (SmartFileResolver.fileBaseName f) = toLowerCase identifier \/
  includes (toLowerCase (SmartFileResolver.fileBaseName f)) (toLowerCase identifier) = true.

(** The file name of a record is the identifier, letter case apart. *)
Definition nameEquals (identifier : str) (f : FileIndex) : Prop :=
  toLowerCase (SmartFileResolver.fileBaseName f) = toLowerCase identifier.

(** What a file whose name matches an identifier scores: 1 when the
    name is the identifier, else the share of the name that the
    identifier covers, times 0.8. *)
Definition nameScore (identifier : str) (f : FileIndex) : Q :=
  if str_eqb (toLowerCase (SmartFileResolver.fileBaseName f)) (toLowerCase identifier)
  then 1.0
  else (SmartFileResolver.ratio (length identifier)
          (length (SmartFileResolver.fileBaseName f)) * 0.8)%Q.

(** Scenario A: [main.ts] and [mainHelper.ts], whose helper declares a
    function named [main]. *)
Definition mkFile (p : string) (fns : list string) : FileIndex :=
  {| fi_path := js "/w/" ++ js p; relativePath := js p; exports := [];
     imports := []; classes := []; functions := List.map js fns;
     interfaces := []; summary := js "typescript file with 3 lines";
     fi_language := js "typescript"; lastModified := 0; lineCount := 3 |}.

Definition scenarioIndex : ProjectIndex :=
  indexOf
    [ (js "mainHelper.ts", mkFile "mainHelper.ts" ["main"; "update"]%string);
      (js "main.ts", mkFile "main.ts" []) ].

(** ** The editor document

    The part of the host's [TextDocument] that the agent uses: positions
    by line and character, with lines ended by a line feed. *)

Record Position : Type := { line : nat; character : nat }.

Record Range : Type := { range_start : Position; range_end : Position }.

(** [document.positionAt(offset)] *)
Fixpoint positionAt (text : str) (offset : nat) : Position :=
  match offset, text with
  | S o, c :: t =>
      let p := positionAt t o in
      if ascii_eqb c nl then {| line := S (line p); character := character p |}
      else if line p =? 0 then {| line := 0; character := S (character p) |}
      else p
  | _, _ => {| line := 0; character := 0 |}
  end.

(** [document.offsetAt(position)]; a position past the end of its line,
    or of the text, stands for that end. *)
Fixpoint offsetAt (text : str) (ln ch : nat) : nat :=
  match text with
  | [] => 0
  | c :: t =>
      match ln with
      | O =>
          match ch with
          | O => 0
          | S ch' => if ascii_eqb c nl then 0 else S (offsetAt t 0 ch')
          end
      | S ln' => S (offsetAt t (if ascii_eqb c nl then ln' else ln) ch)
      end
  end.

(** The text after [editBuilder.replace(range, content)]. *)
Definition replaceRange (text : str) (r : Range) (content : str) : str :=
  let a := offsetAt text (line (range_start r)) (character (range_start r)) in
  let b := offsetAt text (line (range_end r)) (character (range_end r)) in
  List.firstn (Nat.min a b) text ++ content ++ List.skipn (Nat.max a b) text.

Definition wholeDocument (text : str) : Range :=
  {| range_start := positionAt text 0; range_end := positionAt text (length text) |}.

(** ** SmartAgent *)

Inductive ChangeType : Type :=
  | Replace | Insert | FunctionUpdate.

Record FileChange : Type := {
  fileName : str;
  newContent : str;
  startLine : option nat;
  endLine : option nat;
  changeType : ChangeType
}.

(** What the editor answers: whether it takes the edit, and whether the
    document can then be saved; either call may fail. *)
Record Editor : Type := {
  edit : Range -> str -> completion bool;
  save : completion bool
}.

Module SmartAgent.

Definition wordSet : regex := RSet false [IWord].

(** Pattern 1 of [parseFileChanges], with the flags [gi]:
    [/###?\s*File:?\s*([^\n]+?)\s*(?:\(lines?\s*(\d+)(?:\s*-\s*(\d+))?\))?\s*\n```[\w]*\n([\s\S]*?)\n```/] *)
Definition fileHeaderWithLinesPattern : regex :=
  rseq [RChar "#"; RChar "#"; ropt (RChar "#"); rstar rspace;
        rlit "File"; ropt (RChar ":"); rstar rspace;
        RGroup 1 (rplus_lazy rnotnl); rstar rspace;
        ropt (rseq [RChar "("; rlit "line"; ropt (RChar "s"); rstar rspace;
                    RGroup 2 (rplus rdigit);
                    ropt (rseq [rstar rspace; RChar "-"; rstar rspace;
                                RGroup 3 (rplus rdigit)]);
                    RChar ")"]);
        rstar rspace; rnl; rlit "```"; rstar wordSet; rnl;
        RGroup 4 (rstar_lazy rany); rnl; rlit "```"].

(** Pattern 2: a fence, then everything up to the end of a comment. *)
Definition functionDocPattern : regex :=
  rseq [rlit "```"; rstar wordSet; rnl; RGroup 1 (rstar_lazy rany); rlit "*/"].

(** Pattern 2.5: a doc comment followed by a declaration. *)
Definition functionDocWithCodePattern : regex :=
  rseq [RGroup 1 (rseq [rlit "/**"; rstar_lazy rany; rlit "*/"]);
        rstar rspace; rnl; rstar rspace;
        RGroup 2 (ralt [rlit "const"; rlit "let"; rlit "var"; rlit "function"]);
        rplus rspace; RGroup 3 (rplus rword)].

(** Pattern 3: a fenced block that starts with a line comment. *)
Definition commentedBlockPattern : regex :=
  rseq [rlit "```"; rstar wordSet; rstar rspace; rlit "//"; rstar rspace;
        RGroup 1 (rplus rnotnl); rnl; RGroup 2 (rstar_lazy rany); rlit "```"].

(** Pattern 4: any fenced block. *)
Definition anyBlockPattern : regex :=
  rseq [rlit "```"; rstar wordSet; rnl; RGroup 1 (rstar_lazy rany); rlit "```"].

(** [/[`*]/g], [/^\s*\d+:\s*/gm] and [/\*\s*(\w+)\s*-/] *)
Definition emphasisChars : regex := RSet false [IChar "`"; IChar "*"].
Definition lineNumberPrefix : regex :=
  rseq [RBol; rstar rspace; rplus rdigit; RChar ":"; rstar rspace].
Definition docNamePattern : regex :=
  rseq [RChar "*"; rstar rspace; RGroup 1 (rplus rword); rstar rspace; RChar "-"].

Definition group_or_empty (m : rmatch_result) (n : nat) : str :=
  match group m n with
  | Some v => v
  | None => []
  end.

Definition number_of (m : rmatch_result) (n : nat) : option nat :=
  match group m n with
  | Some (c :: s) => Some (parseInt (c :: s))
  | _ => None
  end.

Definition non_empty (s : str) : bool :=
  match s with
  | [] => false
  | _ => true
  end.

Definition stripLineNumbers (s : str) : str := replace_all fl_m lineNumberPrefix [] s.

Definition pattern1_body (changes : list FileChange) (m : rmatch_result)
    : list FileChange :=
  let fileName := trim (group_or_empty m 1) in
  let startLine := number_of m 2 in
  let endLine := number_of m 3 in
  let content := group_or_empty m 4 in
  if non_empty fileName && non_empty content then
    let cleanFileName := trim (replace_all fl_none emphasisChars [] fileName) in
    let cleanContent := trim content in
    if includes content (js "/**") && includes content (js "*/") then
      changes ++ [ {| fileName := cleanFileName;
                      newContent := stripLineNumbers cleanContent;
                      startLine := None; endLine := None;
                      changeType := FunctionUpdate |} ]
    else
      match startLine with
      | Some start =>
          let contentLines := length (split_lines content) in
          let last :=
            match endLine with
            | Some (S e) => S e
            | _ => start + contentLines - 1
            end in
          changes ++ [ {| fileName := cleanFileName; newContent := cleanContent;
                          startLine := Some start; endLine := Some last;
                          changeType := Replace |} ]
      | None =>
          changes ++ [ {| fileName := cleanFileName; newContent := cleanContent;
                          startLine := None; endLine := endLine;
                          changeType := Replace |} ]
      end
  else changes.

Definition pattern2_body (changes : list FileChange) (m : rmatch_result)
    : list FileChange :=
  let content := group_or_empty m 1 in
  if non_empty (trim content) && includes content (js "/**") then
    let cleanedContent := stripLineNumbers (trim content) in
    let name :=
      match exec fl_none docNamePattern cleanedContent with
      | Some nameMatch => group_or_empty nameMatch 1
      | None => js "function_update"
      end in
    changes ++ [ {| fileName := name; newContent := cleanedContent;
                    startLine := None; endLine := None;
                    changeType := FunctionUpdate |} ]
  else changes.

Definition pattern25_body (changes : list FileChange) (m : rmatch_result)
    : list FileChange :=
  let docContent := group_or_empty m 1 in
  let functionName := group_or_empty m 3 in
  if non_empty (trim docContent) && non_empty functionName then
    changes ++ [ {| fileName := functionName;
                    newContent := stripLineNumbers (trim docContent);
                    startLine := None; endLine := None;
                    changeType := FunctionUpdate |} ]
  else changes.

Definition pattern3_body (changes : list FileChange) (m : rmatch_result)
    : list FileChange :=
  let fileName := trim (group_or_empty m 1) in
  let content := group_or_empty m 2 in
  if non_empty fileName && non_empty content then
    changes ++ [ {| fileName := fileName; newContent := trim content;
                    startLine := None; endLine := None; changeType := Replace |} ]
  else changes.

(** The accumulator of the last loop carries [blockIndex]. *)
Definition pattern4_body (acc : list FileChange * nat) (m : rmatch_result)
    : list FileChange * nat :=
  let content := group_or_empty m 1 in
  if non_empty (trim content) then
    (fst acc ++ [ {| fileName := js "modified_file_" ++ show_nat (snd acc + 1);
                     newContent := trim content;
                     startLine := None; endLine := None; changeType := Replace |} ],
     S (snd acc))
  else acc.

(** A pattern is tried only when the ones before found no change. *)
Definition when_empty (changes : option (list FileChange))
    (next : unit -> option (list FileChange)) : option (list FileChange) :=
  match changes with
  | Some [] => next tt
  | other => other
  end.

Definition parseFileChanges (aiResponse : str) : option (list FileChange) :=
  when_empty (exec_all fl_i fileHeaderWithLinesPattern pattern1_body [] aiResponse)
    (fun _ =>
  when_empty (exec_all fl_i functionDocPattern pattern2_body [] aiResponse)
    (fun _ =>
  when_empty (exec_all fl_i functionDocWithCodePattern pattern25_body [] aiResponse)
    (fun _ =>
  when_empty (exec_all fl_i commentedBlockPattern pattern3_body [] aiResponse)
    (fun _ =>
  option_map fst (exec_all fl_i anyBlockPattern pattern4_body ([], 0) aiResponse))))).

(** *** findFunctionInCode *)

Definition asyncPart : regex := ropt (rseq [rlit "async"; rstar rspace]).

(** The three patterns built from the function name, all with the flag [g]:
    [(?:function|const|let|var)\s+NAME\s*[=:]?\s*(?:async\s* )?\(],
    [NAME\s*[:=]\s*(?:async\s* )?\(] and
    [(?:public|private|protected)?\s*(?:async\s* )?NAME\s*\(]. *)
Definition functionPatterns (functionName : str) : list regex :=
  [ rseq [ralt [rlit "function"; rlit "const"; rlit "let"; rlit "var"]; rplus rspace;
          rstr functionName; rstar rspace;
          ropt (RSet false [IChar "="; IChar ":"]); rstar rspace; asyncPart; RChar "("];
    rseq [rstr functionName; rstar rspace; RSet false [IChar ":"; IChar "="];
          rstar rspace; asyncPart; RChar "("];
    rseq [ropt (ralt [rlit "public"; rlit "private"; rlit "protected"]); rstar rspace;
          asyncPart; rstr functionName; rstar rspace; RChar "("] ].

(** The first pattern, in order, that matches the document. *)
Fixpoint first_match (patterns : list regex) (documentText : str) : option rmatch_result :=
  match patterns with
  | [] => None
  | pattern :: rest =>
      match exec fl_none pattern documentText with
      | Some m => Some m
      | None => first_match rest documentText
      end
  end.

(** The brace-counting loop over [documentText] from index [i]; the result
    is the value given to [endIndex] at the [break], if it is reached. *)
Fixpoint scan_braces (s : str) (i : nat) (braceCount : Z) (foundOpenBrace : bool)
    : option nat :=
  match s with
  | [] => None
  | c :: t =>
      if ascii_eqb c "{" then scan_braces t (S i) (braceCount + 1)%Z true
      else if ascii_eqb c "}" then
        if foundOpenBrace && (braceCount - 1 =? 0)%Z then Some (S i)
        else scan_braces t (S i) (braceCount - 1)%Z foundOpenBrace
      else scan_braces t (S i) braceCount foundOpenBrace
  end.

(** The loop that finds the lines of [startIndex] and [endIndex]. *)
Fixpoint locate_lines (lines : list str) (i currentPos startIndex endIndex : nat)
    (functionStartLine functionEndLine : nat) : nat * nat :=
  match lines with
  | [] => (functionStartLine, functionEndLine)
  | l :: rest =>
      let lineEnd := currentPos + length l + 1 in
      let functionStartLine' :=
        if (currentPos <=? startIndex) && (startIndex <? lineEnd) then i
        else functionStartLine in
      if (currentPos <=? endIndex) && (endIndex <=? lineEnd) then (functionStartLine', i)
      else locate_lines rest (S i) lineEnd startIndex endIndex
             functionStartLine' functionEndLine
  end.

Definition line_at (lines : list str) (i : nat) : str := trim (nth i lines []).

Definition is_doc_line (l : str) : bool :=
  startsWith l (js "/**") || startsWith l (js "*").

(** The inner [while] loop: the first line of the documentation block. *)
Fixpoint docStart (lines : list str) (docStartLine : nat) : nat :=
  match docStartLine with
  | O => 0
  | S d =>
      if startsWith (line_at lines d) (js "*") || startsWith (line_at lines d) (js "/**")
      then docStart lines d
      else S d
  end.

(** The backward loop, at [i = n - 1]. *)
Fixpoint findInsertLine (lines : list str) (functionStartLine n : nat) : nat :=
  match n with
  | O => functionStartLine
  | S i =>
      let l := line_at lines i in
      if negb (non_empty l) then findInsertLine lines functionStartLine i
      else if is_doc_line l then docStart lines i
      else if negb (startsWith l (js "//")) && negb (startsWith l (js "/*"))
      then functionStartLine
      else findInsertLine lines functionStartLine i
  end.

Definition findFunctionInCode (newContent documentText : str) : option (Range * str) :=
  match exec fl_none docNamePattern newContent with
  | None => None
  | Some functionNameMatch =>
      let functionName := group_or_empty functionNameMatch 1 in
      match first_match (functionPatterns functionName) documentText with
      | None => None
      | Some m =>
          let startIndex := m_index m in
          let endIndex :=
            match scan_braces (List.skipn startIndex documentText) startIndex 0%Z false with
            | Some e => e
            | None => startIndex
            end in
          if endIndex <=? startIndex then None
          else
            let lines := split_lines documentText in
            let '(functionStartLine, functionEndLine) :=
              locate_lines lines 0 0 startIndex endIndex 0 0 in
            let insertLine := findInsertLine lines functionStartLine functionStartLine in
            let range :=
              {| range_start := {| line := insertLine; character := 0 |};
                 range_end := {| line := functionEndLine + 1; character := 0 |} |} in
            let functionContent := substring documentText startIndex endIndex in
            Some (range, trim newContent ++ [nl] ++ functionContent)
      end
  end.

(** *** applyFileChanges *)

(** [lines.slice(0, e)] *)
Definition slice_to (lines : list str) (e : Z) : list str :=
  if (e <? 0)%Z then List.firstn (Z.to_nat (Z.of_nat (length lines) + e)) lines
  else List.firstn (Z.to_nat e) lines.

Definition lineStart (documentText : str) (startLine : nat) : Position :=
  positionAt documentText
    (length (join [nl] (slice_to (split_lines documentText) (Z.of_nat startLine - 1)))
     + (if 1 <? startLine then 1 else 0)).

(** The range and the text that [applyFileChanges] hands to the editor. *)
Definition plannedEdit (newContent : str) (startLine endLine : option nat)
    (changeType : ChangeType) (documentText : str) : Range * str :=
  match changeType, startLine, endLine with
  | FunctionUpdate, _, _ =>
      match findFunctionInCode newContent documentText with
      | Some functionMatch => functionMatch
      | None => (wholeDocument documentText, newContent)
      end
  | _, Some s, Some e =>
      ({| range_start := lineStart documentText s;
          range_end :=
            positionAt documentText
              (length (join [nl] (slice_to (split_lines documentText) (Z.of_nat e)))) |},
       newContent)
  | _, Some s, None =>
      ({| range_start := lineStart documentText s;
          range_end := positionAt documentText (length documentText) |},
       newContent)
  | _, None, _ => (wholeDocument documentText, newContent)
  end.

(** The value the call resolves to, and the text of the document after it. *)
Definition applyFileChanges (editor : Editor) (documentText newContent : str)
    (startLine endLine : option nat) (changeType : ChangeType) : completion bool * str :=
  let '(range, contentToInsert) :=
    plannedEdit newContent startLine endLine changeType documentText in
  match edit editor range contentToInsert with
  | Return true =>
      (try_catch (let* _ := save editor in Return true) (fun _ => Return false),
       replaceRange documentText range contentToInsert)
  | Return false => (Return false, documentText)
  | Throw _ => (Return false, documentText)
  end.

End SmartAgent.

(** A function-update whose name is nowhere in the document. *)
Definition docComment : str :=
  join [nl] [js "/**"; js " * render - draws the page"; js " */"].

Definition otherDocument : str :=
  join [nl] [js "const x = 1;"; js "export default x;"].

Definition acceptingEditor : Editor :=
  {| edit := fun _ _ => Return true; save := Return true |}.

(** A reply made of the header [### File: x.ts (lines 3-5)] and a fenced
    block of three lines. *)
Definition lineRangeHeader : str := js "### File: x.ts (lines 3-5)".

Definition fence : str := js "```".

Definition fencedReply (tag l1 l2 l3 : str) : str :=
  lineRangeHeader ++ [nl] ++ fence ++ tag ++ [nl] ++
  join [nl] [l1; l2; l3] ++ [nl] ++ fence.

(** No line feed inside a line. *)
Definition one_line (l : str) : bool := forallb (fun c => negb (ascii_eqb c nl)) l.

(** The test that sends a block to the function-update branch. *)
Definition has_doc_comment (content : str) : bool :=
  includes content (js "/**") && includes content (js "*/").

(** The two halves of pattern 1: up to the opening fence, and the block. *)
Definition headerPart : regex :=
  rseq [RChar "#"; RChar "#"; ropt (RChar "#"); rstar rspace;
        rlit "File"; ropt (RChar ":"); rstar rspace;
        RGroup 1 (rplus_lazy rnotnl); rstar rspace;
        ropt (rseq [RChar "("; rlit "line"; ropt (RChar "s"); rstar rspace;
                    RGroup 2 (rplus rdigit);
                    ropt (rseq [rstar rspace; RChar "-"; rstar rspace;
                                RGroup 3 (rplus rdigit)]);
                    RChar ")"]);
        rstar rspace; rnl; rlit "```"].

(** The matcher's state after the header part, before [tail]. *)
Definition afterHeader (tail : str) : mstate :=
  MState (rev (lineRangeHeader ++ [nl] ++ fence)) tail
         [(3, js "5"); (2, js "3"); (1, js "x.ts")].

Definition closingPart : regex := rseq [rnl; rlit "```"].

(** No closing fence starts inside [w] when [t] follows it. *)
Fixpoint no_early_fence (w t : str) : bool :=
  match w with
  | [] => true
  | c :: w' => negb (startsWith (w ++ t) (nl :: fence)) && no_early_fence w' t
  end.

(** The change that the header announces, for a block [content]. *)
Definition lineRangeChange (content : str) : FileChange :=
  {| fileName := js "x.ts"; newContent := trim content;
     startLine := Some 3; endLine := Some 5; changeType := Replace |}.

(** Three indented lines, as a reply echoes them from the prompt. *)
Definition indentedLines : list str :=
  [js "  const a = 1;"; js "  const b = 2;"; js "  return a + b;"].

Definition indentedReply : str :=
  fencedReply (js "ts") (js "  const a = 1;") (js "  const b = 2;") (js "  return a + b;").

(** ** FormatUtils *)

Module FormatUtils.

(** [escapeHtml]: five replacements of every occurrence of one
    character, the ampersand first. *)
Definition escapeHtml (text : str) : str :=
  replace_all fl_none (RChar squote) (js "&#39;")
    (replace_all fl_none (RChar dquote) (js "&quot;")
       (replace_all fl_none (RChar ">") (js "&gt;")
          (replace_all fl_none (RChar "<") (js "&lt;")
             (replace_all fl_none (RChar "&") (js "&amp;") text)))).

End FormatUtils.

(** The characters with a meaning in HTML text and attribute values. *)
Definition html_special (c : ascii) : bool :=
  ascii_eqb c "&" || ascii_eqb c "<" || ascii_eqb c ">"
  || ascii_eqb c dquote || ascii_eqb c squote.

(** The entity that stands for a character. *)
Definition entity (c : ascii) : str :=
  if ascii_eqb c "&" then js "&amp;"
  else if ascii_eqb c "<" then js "&lt;"
  else if ascii_eqb c ">" then js "&gt;"
  else if ascii_eqb c dquote then js "&quot;"
  else if ascii_eqb c squote then js "&#39;"
  else [c].

(** ** OutputParser: a block of a given code *)

Definition blockOf (code : str) : CodeBlock :=
  {| cb_code := code;
     cb_language := None;
     cb_label := None;
     cb_confidence := 0.7;
     cb_lineCount := length (split_lines code);
     cb_hasComments := false;
     cb_imports := [] |}.

(** A reply in prose whose first line begins with the label [File:]. *)
Definition labelledProse : str :=
  js "File: notes.txt is where I keep the list.".

(** ** PatchEngine: code style *)

(** The whitespace a text begins with. *)
Fixpoint leading_space (s : str) : str :=
  match s with
  | c :: s' => if is_space c then c :: leading_space s' else []
  | [] => []
  end.

Definition tab : ascii := "009"%char.

(** [Math.abs] *)
Definition abs (x : Q) : Q := if Qle_bool 0 x then x else (- x)%Q.

Module PatchEngineStyle.

Inductive IndentationType : Type :=
  | Tabs | Spaces.

(** The average of no line at all is the quotient of zero by zero, not a
    number: [None]. *)
Record CodeStyle : Type := {
  indentationType : IndentationType;
  averageLineLength : option Q;
  styleLineCount : nat
}.

Definition analyzeCodeStyle (code : str) : CodeStyle :=
  let lines := split_lines code in
  let nonEmptyLines := List.filter (fun line => negb (str_eqb (trim line) [])) lines in
  {| indentationType := if includes code [tab] then Tabs else Spaces;
     averageLineLength :=
       match nonEmptyLines with
       | [] => None
       | _ =>
           Some (SmartFileResolver.ratio
                   (fold_left (fun sum line => sum + length line) nonEmptyLines 0)
                   (length nonEmptyLines))
       end;
     styleLineCount := length lines |}.

Definition same_indentation (a b : IndentationType) : bool :=
  match a, b with
  | Tabs, Tabs | Spaces, Spaces => true
  | _, _ => false
  end.

(** A comparison with a value that is not a number is false. *)
Definition checkContextPreservation (originalCode newCode : str) : bool :=
  let originalStyle := analyzeCodeStyle originalCode in
  let newStyle := analyzeCodeStyle newCode in
  same_indentation (indentationType originalStyle) (indentationType newStyle)
  && match averageLineLength originalStyle, averageLineLength newStyle with
     | Some a, Some b => SmartFileResolver.Qlt_bool (abs (a - b)) 20
     | _, _ => false
     end.

End PatchEngineStyle.

(** A text without a visible character. *)
Definition blank (code : str) : bool := forallb is_space code.

(** ** PatchEngine: reading the history *)

(** The message [undoLastPatch] shows. *)
Inductive UndoMessage : Type :=
  | NoPatchHistory   (** the warning: no patch history found for this file *)
  | Reverted         (** the information: reverted last changes *)
  | UndoFailed.      (** the error: failed to undo *)

Module PatchEngineHistory.

(** [getPatchHistory(filePath?)]; an absent and an empty path give the
    whole history. *)
Definition getPatchHistory (filePath : option str) (history : list PatchHistory)
    : list PatchHistory :=
  match filePath with
  | Some (c :: p) => List.filter (fun entry => str_eqb (ph_filePath entry) (c :: p)) history
  | _ => history
  end.

(** [undoLastPatch] on the editor of the file [fsPath]; [undo] is what
    the host's undo command does. *)
Definition undoLastPatch (undo : completion unit) (fsPath : str)
    (history : list PatchHistory) : bool * UndoMessage :=
  match List.find (fun entry => str_eqb (ph_filePath entry) fsPath && ph_success entry)
          history with
  | None => (false, NoPatchHistory)
  | Some lastPatch =>
      match undo with
      | Return _ => (true, Reverted)
      | Throw _ => (false, UndoFailed)
      end
  end.

End PatchEngineHistory.

(** A host that applies every edit and answers no dialog, options that
    validate, track and apply without asking, and a reply that is one
    line of code. *)
Definition applyingHost : Host :=
  {| quickPick := Return None;
     dialogChoice := Return None;
     applyEdit := Return true;
     showInformation := Return tt;
     editFails := fun _ => false;
     generatedId := fun _ => js "k3x9";
     now := 0 |}.

Definition directOptions : PatchOptions :=
  {| autoApply := true;
     preserveSelection := false;
     showDiff := false;
     optValidateSyntax := true;
     trackChanges := true;
     showAlternatives := false |}.

Definition oneLineCall : PatchEngine.call :=
  PatchEngine.CallInline applyingHost (js "/w/a.ts") (js "let a = 0;") (js "let a = 1;")
    {| userInstruction := js "set a to one";
       language := js "typescript";
       fileContent := js "let a = 0;" |}
    directOptions.

Definition noBlocks : str -> rmatch_result -> str -> str -> CodeBlock :=
  fun _ _ _ code => blockOf code.

Definition noParse : str -> list CodeBlock -> ParseContext -> ParsedOutput :=
  fun response _ context => OutputParser.parseCodeOnlyResponse response context.

(** ** ProjectIndexer: the public methods *)

Module ProjectIndexerApi.

(** [names.some(n => n.toLowerCase().includes(name.toLowerCase()))] *)
Definition someContains (names : list str) (name : str) : bool :=
  existsb (fun n => includes (toLowerCase n) (toLowerCase name)) names.

Definition findByExport (exportName : str) (index : ProjectIndex) : list FileIndex :=
  List.filter (fun file => someContains (exports file) exportName) (index_values index).

Definition findByClass (className : str) (index : ProjectIndex) : list FileIndex :=
  List.filter (fun file => someContains (classes file) className) (index_values index).

Definition findByFunction (functionName : str) (index : ProjectIndex) : list FileIndex :=
  List.filter (fun file => someContains (functions file) functionName)
    (index_values index).

End ProjectIndexerApi.

(** The record [indexFile] makes of a file, if it makes one. *)
Definition record_of (parseFile : bool -> str -> str -> ParseResult)
    (host : IndexerHost) (root : str) (options : IndexingOptions)
    (filePath : str) : option FileIndex :=
  match ProjectIndexer.indexFile parseFile host root filePath options with
  | Return (Some fileIndex) => Some fileIndex
  | _ => None
  end.

(** The record of the last of the files, in their order, that has the
    base name [key] and of which a record is made. *)
Definition last_indexed (parseFile : bool -> str -> str -> ParseResult)
    (host : IndexerHost) (root : str) (options : IndexingOptions)
    (files : list str) (key : str) : option FileIndex :=
  match List.find
          (fun f => str_eqb (basename f) key
                    && indexes parseFile host root options f)
          (rev files) with
  | Some f => record_of parseFile host root options f
  | None => None
  end.

(** A workspace with two files of the same base name. *)
Definition sameNameHost : IndexerHost :=
  {| workspaceFolder := js "/w";
     glob := fun pattern _ =>
       if str_eqb pattern (js "**/*.ts")
       then Return [js "/w/a/index.ts"; js "/w/b/index.ts"] else Return [];
     statSync := fun _ => Return {| size := 120%N; mtime := 7 |};
     readFileSync := fun _ => Return (js "export const x = 1;");
     clock := 9 |}.

(** ** Sample workspaces for the resolver *)

(** An index of two files none of whose names occurs in the instruction
    [polish renderPage]: the first declares the function, the second a
    class whose name contains it. *)
Definition symbolIndex : ProjectIndex :=
  indexOf
  [ (js "view.ts",
     {| fi_path := js "/w/view.ts"; relativePath := js "view.ts"; exports := [];
        imports := []; classes := []; functions := [js "renderPage"];
        interfaces := []; summary := js "typescript file with 3 lines";
        fi_language := js "typescript"; lastModified := 0; lineCount := 3 |});
    (js "shell.ts",
     {| fi_path := js "/w/shell.ts"; relativePath := js "shell.ts"; exports := [];
        imports := []; classes := [js "RenderPageShell"]; functions := [];
        interfaces := []; summary := js "typescript file with 3 lines";
        fi_language := js "typescript"; lastModified := 0; lineCount := 3 |}) ].

Definition filePathOf (m : FileMatch) : str := fi_path (file m).

(** In descending order of score: no match scores more than one before
    it. *)
Fixpoint descending (l : list FileMatch) : Prop :=
  match l with
  | [] => True
  | a :: l' => List.Forall (fun b => (score b <= score a)%Q) l' /\ descending l'
  end.

Definition noFuzzy : ResolverOptions :=
  {| maxResults := 10; minScore := 0.1; enableFuzzyMatching := false;
     prioritizeExactMatches := true |}.

(** ** PromptContextComposer *)

Module PromptContextComposer.

(** The note put after the lines kept. *)
Definition truncationNote (more : nat) : str :=
  js "// ... (" ++ show_nat more ++ js " more lines truncated)".

(** [truncateContent], for a whole number of lines [maxLines]. *)
Definition truncateContent (content : str) (maxLines : nat) : str :=
  let lines := split_lines content in
  if length lines <=? maxLines then content
  else join [nl] (List.firstn maxLines lines)
       ++ [nl; nl] ++ truncationNote (length lines - maxLines).

End PromptContextComposer.

(** ** SmartAgent: the changes of a reply *)

(** What every change that [parseFileChanges] makes has in common: it
    is never an insertion, a function update carries no line numbers,
    and a start line never comes without an end line. *)
Definition well_formed_change (c : FileChange) : Prop :=
  changeType c <> Insert /\
  (changeType c = FunctionUpdate -> startLine c = None /\ endLine c = None) /\
  (forall s, startLine c = Some s -> exists e, endLine c = Some e).

(** A character that the flag [i] does not make match another one. *)
Definition caseless (d : ascii) : Prop :=
  forall (fl : flags) (c : ascii), char_mem fl d c = true -> c = d.

Definition proseOnly : str := js "The function sorts the list in place.".

(** The occurrences of a character in a text. *)
Definition count_char (d : ascii) (s : str) : nat :=
  length (List.filter (ascii_eqb d) s).

(** An editor that takes every edit. *)
Definition takesAll : Editor :=
  {| edit := fun _ _ => Return true; save := Return true |}.

Definition fourLines : str :=
  join [nl] [js "one"; js "two"; js "three"; js "four"].

(** The text of the lines [A] up to the start of the line after them,
    and the text from the end of the line before [B] on. *)
Definition lines_before (A : list str) : str :=
  match A with
  | [] => []
  | _ => join [nl] A ++ [nl]
  end.

Definition lines_after (B : list str) : str :=
  match B with
  | [] => []
  | _ => [nl] ++ join [nl] B
  end.

(** A document that declares the function [render] which [docComment]
    names. *)
Definition renderSource : str :=
  join [nl] [js "import x;"; js ""; js "function render(a) {";
             js "  if (a) { return 1; }"; js "}"; js ""; js "const y = 2;"].

(** ** SmartAgent: applying the changes of a reply

    The documents of the workspace are a map from paths to texts; a path
    without a text cannot be opened.  The host says whether a document
    can be shown, whether the handler of change previews raises, and
    what the editor of a document answers.  The preview itself is
    computed without an effect and only handed to the handler. *)

Definition Documents : Type := str -> option str.

Definition set_document (docs : Documents) (path text : str) : Documents :=
  fun p => if str_eqb p path then Some text else docs p.

Record AgentHost : Type := {
  showTextDocument : str -> completion unit;
  onChangePreview : completion unit;
  editorOf : str -> Editor
}.

Module SmartAgentApply.

(** The first test of the search for the target file of a change. *)
Definition matchesName (fileName : str) (f : FileMatch) : bool :=
  includes (relativePath (file f)) fileName
  || includes (fi_path (file f)) fileName
  || includes (toLowerCase (relativePath (file f))) (toLowerCase fileName)
  || str_eqb (toLowerCase (basename (fi_path (file f)))) (toLowerCase fileName).

(** [/\.[^/.]+$/] *)
Definition extensionPattern : regex :=
  rseq [RChar "."; rplus (RSet true [IChar "/"; IChar "."]); REol].

Definition findTargetFile (targetFiles : list FileMatch) (fileName : str)
    : option FileMatch :=
  match List.find (matchesName fileName) targetFiles with
  | Some f => Some f
  | None =>
      let fileNameWithoutExt := replace_first fl_none extensionPattern [] fileName in
      match List.find
              (fun f => str_eqb (toLowerCase (SmartFileResolver.fileBaseName (file f)))
                          (toLowerCase fileNameWithoutExt))
              targetFiles with
      | Some f => Some f
      | None =>
          match targetFiles with
          | [f] => Some f
          | _ => None
          end
      end
  end.

Definition targetNotFound (change : FileChange) (targetFiles : list FileMatch) : str :=
  js "Target file not found: " ++ fileName change ++ js ". Available files: "
  ++ join (js ", ") (List.map (fun f => relativePath (file f)) targetFiles).

Definition failedToApply (targetFile : FileMatch) : str :=
  js "Failed to apply changes to " ++ relativePath (file targetFile).

Definition errorProcessing (change : FileChange) : str :=
  js "Error processing " ++ fileName change ++ js ": ".

(** The state of the loop: the documents, [appliedCount] and [errors]. *)
Definition Progress : Type := Documents * nat * list str.

Definition with_error (st : Progress) (message : str) : Progress :=
  let '(docs, appliedCount, errors) := st in (docs, appliedCount, errors ++ [message]).

(** The body of the loop over the changes, with its handler. *)
Definition applyChange (host : AgentHost) (showDiffPreview : bool)
    (targetFiles : list FileMatch) (st : Progress) (change : FileChange) : Progress :=
  let '(docs, appliedCount, errors) := st in
  match findTargetFile targetFiles (fileName change) with
  | None => with_error st (targetNotFound change targetFiles)
  | Some targetFile =>
      let path := fi_path (file targetFile) in
      match docs path with
      | None => with_error st (errorProcessing change)
      | Some documentText =>
          match showTextDocument host path with
          | Throw _ => with_error st (errorProcessing change)
          | Return _ =>
              match (if showDiffPreview then onChangePreview host else Return tt) with
              | Throw _ => with_error st (errorProcessing change)
              | Return _ =>
                  let '(success, text) :=
                    SmartAgent.applyFileChanges (editorOf host path) documentText
                      (newContent change) (startLine change) (endLine change)
                      (changeType change) in
                  match success with
                  | Return true =>
                      (set_document docs path text, S appliedCount, errors)
                  | Return false =>
                      (set_document docs path text, appliedCount,
                       errors ++ [failedToApply targetFile])
                  | Throw _ =>
                      (set_document docs path text, appliedCount,
                       errors ++ [errorProcessing change])
                  end
              end
          end
      end
  end.

Definition parseAndApplyChanges (host : AgentHost) (showDiffPreview : bool)
    (aiResponse : str) (targetFiles : list FileMatch) (docs : Documents)
    : option Progress :=
  match SmartAgent.parseFileChanges aiResponse with
  | None => None
  | Some [] => Some (docs, 0, [])
  | Some fileChanges =>
      Some (fold_left (applyChange host showDiffPreview targetFiles) fileChanges
              (docs, 0, []))
  end.

End SmartAgentApply.

Definition documentsOf (st : SmartAgentApply.Progress) : Documents := fst (fst st).
Definition appliedOf (st : SmartAgentApply.Progress) : nat := snd (fst st).
Definition errorsOf (st : SmartAgentApply.Progress) : list str := snd st.

Definition targetPaths (targetFiles : list FileMatch) : list str :=
  List.map (fun f => fi_path (file f)) targetFiles.

(** * Properties *)

(** ** The matcher: a successful match went through its continuation *)

Section Reaches.

Lemma ahead_refl (st : mstate) : ahead st st.
Proof. exists []. split; reflexivity. Qed.

Lemma ahead_trans (a b c : mstate) : ahead a b -> ahead b c -> ahead a c.
Proof.
  intros (w1 & R1 & S1) (w2 & R2 & S2). exists (w1 ++ w2). split.
  - rewrite R1, R2. apply app_assoc.
  - rewrite S2, S1, rev_app_distr. apply app_assoc.
Qed.

Lemma ahead_advance (st : mstate) (c : ascii) (t : str) :
  rest st = c :: t -> ahead st (advance st c t).
Proof. intros H. exists [c]. split; [exact H|reflexivity]. Qed.

Lemma reaches_refl (gs : list nat) (st : mstate) : reaches gs st st.
Proof. split; [apply ahead_refl|]. intros n v H; left; exact H. Qed.

Lemma reaches_trans (g1 g2 gs : list nat) (a b c : mstate) :
  (forall n, In n g1 -> In n gs) -> (forall n, In n g2 -> In n gs) ->
  reaches g1 a b -> reaches g2 b c -> reaches gs a c.
Proof.
  intros I1 I2 [A1 C1] [A2 C2]. split; [eapply ahead_trans; eassumption|].
  intros n v H. destruct (C2 n v H) as [H'|H']; [|right; auto].
  destruct (C1 n v H') as [H''|H'']; [left; exact H''|right; auto].
Qed.

Lemma reaches_advance (gs : list nat) (st : mstate) (c : ascii) (t : str) :
  rest st = c :: t -> reaches gs st (advance st c t).
Proof.
  intros H. split; [apply ahead_advance, H|]. intros n v Hin; left; exact Hin.
Qed.

Lemma reaches_clear (gs : list nat) (st : mstate) :
  reaches [] st (clear_caps gs st).
Proof.
  destruct gs as [|g gs]; [apply reaches_refl|]. split.
  - exists []. split; reflexivity.
  - intros n v H. left. simpl in H. apply filter_In in H. tauto.
Qed.

Lemma reaches_set_cap (n : nat) (v : str) (st : mstate) :
  reaches [n] st (set_cap n v st).
Proof.
  split.
  - exists []. split; reflexivity.
  - intros m w [H|H]; [right; left; congruence|left; exact H].
Qed.

Lemma rep_loop_goes_through (body : mstate -> cont -> option mstate)
    (gs : list nat) (nul greedy : bool) (lo : nat) (hi : option nat) (k : cont) :
  goes_through gs body ->
  forall (fuel n : nat) (st x : mstate),
    rep_loop body gs nul greedy lo hi k fuel n st = Some x ->
    exists st' : mstate, k st' = Some x /\ reaches gs st st'.
Proof.
  intros Hb. induction fuel as [|fuel IH]; intros n st x H; [discriminate|].
  simpl in H.
  assert (Hmore :
    (if under n hi
     then body (clear_caps gs st)
            (fun st' =>
               if nul && (lo <=? n) && (length (rest st') =? length (rest st))
               then None
               else rep_loop body gs nul greedy lo hi k fuel (S n) st')
     else None) = Some x ->
    exists st' : mstate, k st' = Some x /\ reaches gs st st').
  { destruct (under n hi); [|discriminate]. intros Hm.
    apply Hb in Hm. destruct Hm as (st1 & Hk & R1).
    destruct (nul && (lo <=? n) && (length (rest st1) =? length (rest st)));
      [discriminate|].
    apply IH in Hk. destruct Hk as (st2 & Hk2 & R2).
    exists st2. split; [exact Hk2|].
    apply (reaches_trans gs gs gs st st1 st2); auto.
    apply (reaches_trans [] gs gs st (clear_caps gs st) st1); auto.
    - intros m [].
    - apply reaches_clear. }
  assert (Hstop :
    (if lo <=? n then k st else None) = Some x ->
    exists st' : mstate, k st' = Some x /\ reaches gs st st').
  { destruct (lo <=? n); [|discriminate]. intros Hk.
    exists st. split; [exact Hk|apply reaches_refl]. }
  destruct greedy.
  - destruct (if under n hi then _ else None) eqn:E.
    + injection H as ->. apply Hmore. reflexivity.
    + apply Hstop, H.
  - destruct (if lo <=? n then k st else None) eqn:E.
    + injection H as ->. apply Hstop. reflexivity.
    + apply Hmore, H.
Qed.

Lemma rmatch_goes_through (fl : flags) (r : regex) :
  goes_through (groups_of r) (rmatch fl r).
Proof.
  induction r as [ |d|neg items| | | | |a IHa b IHb|a IHa b IHb
                 |greedy lo hi a IHa|n a IHa];
    intros st k x H.
  - simpl in H. exists st. split; [exact H|apply reaches_refl].
  - simpl in H. destruct (rest st) as [|c t] eqn:E; [discriminate|].
    destruct (char_mem fl d c); [|discriminate].
    eexists. split; [exact H|apply reaches_advance, E].
  - simpl in H. destruct (rest st) as [|c t] eqn:E; [discriminate|].
    destruct (set_mem fl neg items c); [|discriminate].
    eexists. split; [exact H|apply reaches_advance, E].
  - simpl in H. destruct (rest st) as [|c t] eqn:E; [discriminate|].
    destruct (is_line_terminator c); [discriminate|].
    eexists. split; [exact H|apply reaches_advance, E].
  - simpl in H. destruct (at_bol fl st); [|discriminate].
    exists st. split; [exact H|apply reaches_refl].
  - simpl in H. destruct (at_eol fl st); [|discriminate].
    exists st. split; [exact H|apply reaches_refl].
  - simpl in H. destruct (at_wordb st); [|discriminate].
    exists st. split; [exact H|apply reaches_refl].
  - simpl in H. apply IHa in H. destruct H as (st1 & H & R1).
    apply IHb in H. destruct H as (st2 & H & R2).
    exists st2. split; [exact H|].
    apply (reaches_trans (groups_of a) (groups_of b) _ st st1 st2); auto;
      intros m Hm; simpl; apply in_or_app; auto.
  - simpl in H. destruct (rmatch fl a st k) eqn:E.
    + injection H as ->. apply IHa in E. destruct E as (st1 & H & R1).
      exists st1. split; [exact H|].
      destruct R1 as [A C]. split; [exact A|].
      intros m v Hm. destruct (C m v Hm); [auto|right; simpl; apply in_or_app; auto].
    + apply IHb in H. destruct H as (st1 & H & R1).
      exists st1. split; [exact H|].
      destruct R1 as [A C]. split; [exact A|].
      intros m v Hm. destruct (C m v Hm); [auto|right; simpl; apply in_or_app; auto].
  - change (rep_loop (rmatch fl a) (groups_of a) (nullable a) greedy lo hi k
              (S (length (rest st) + lo)) 0 st = Some x) in H.
    apply (rep_loop_goes_through _ _ _ _ _ _ _ IHa) in H. exact H.
  - simpl in H. apply IHa in H. destruct H as (st1 & H & R1).
    eexists. split; [exact H|].
    apply (reaches_trans (groups_of a) [n] _ st st1 _); auto.
    + intros m Hm. simpl. auto.
    + intros m [<-|[]]. simpl. auto.
    + apply reaches_set_cap.
Qed.

(** A match found by [search] starts at a split of the input and
    captures only groups of the pattern. *)
Lemma search_some (fl : flags) (r : regex) :
  forall (rs sn : str) (m : rmatch_result),
    search fl r sn rs = Some m ->
    exists pre post : str,
      rs = pre ++ post /\
      rmatch fl r (MState (rev pre ++ sn) post []) accept = Some (m_end m) /\
      m_caps m = caps (m_end m) /\
      m_index m = length pre + length sn.
Proof.
  induction rs as [|c rs IH]; intros sn m H; simpl in H.
  - destruct (rmatch fl r (MState sn [] []) accept) eqn:E; [|discriminate].
    injection H as <-. exists [], []. simpl. auto.
  - destruct (rmatch fl r (MState sn (c :: rs) []) accept) eqn:E.
    + injection H as <-. exists [], (c :: rs). simpl. auto.
    + apply IH in H. destruct H as (pre & post & -> & H & Hc & Hi).
      exists (c :: pre), post. simpl. rewrite <- app_assoc. simpl.
      repeat split; auto. rewrite Hi. simpl. lia.
Qed.

Lemma search_none_inv (fl : flags) (r : regex) :
  forall rs sn : str,
    search fl r sn rs = None ->
    forall pre post : str,
      rs = pre ++ post ->
      rmatch fl r (MState (rev pre ++ sn) post []) accept = None.
Proof.
  induction rs as [|c rs IH]; intros sn H pre post E; simpl in H.
  - destruct pre; [|discriminate]. simpl in E. subst post. simpl.
    destruct (rmatch fl r (MState sn [] []) accept); [discriminate|reflexivity].
  - destruct (rmatch fl r (MState sn (c :: rs) []) accept) eqn:E1; [discriminate|].
    destruct pre as [|c' pre]; simpl in E.
    + subst post. exact E1.
    + injection E as -> ->. simpl. rewrite <- app_assoc. simpl.
      apply (IH _ H). reflexivity.
Qed.

Lemma get_cap_In (n : nat) (cs : list (nat * str)) (v : str) :
  get_cap n cs = Some v -> In (n, v) cs.
Proof.
  induction cs as [|[m w] cs IH]; simpl; [discriminate|].
  destruct (Nat.eqb m n) eqn:E.
  - apply Nat.eqb_eq in E. intros [= ->]. left. congruence.
  - intros H. right. auto.
Qed.

(** A group the pattern does not have is [undefined] in every match. *)
Lemma search_group_absent (fl : flags) (r : regex) (rs sn : str)
    (m : rmatch_result) (n : nat) :
  search fl r sn rs = Some m -> ~ In n (groups_of r) -> group m n = None.
Proof.
  intros H Hn. apply search_some in H.
  destruct H as (pre & post & _ & H & Hc & _).
  apply rmatch_goes_through in H. destruct H as (st' & Hk & _ & C).
  injection Hk as Hk. unfold group. rewrite Hc, <- Hk.
  destruct (get_cap n (caps st')) as [v|] eqn:E; [|reflexivity].
  apply get_cap_In in E. destruct (C n v E) as [[]|Hin]. contradiction.
Qed.

End Reaches.

(** ** The matcher: a pattern that cannot match the empty string moves on *)

Section Progress.

Lemma ahead_length (st st' : mstate) :
  ahead st st' -> length (rest st') <= length (rest st).
Proof. intros (w & Hr & _). rewrite Hr, length_app. lia. Qed.

Lemma ahead_seen_length (st st' : mstate) :
  ahead st st' ->
  length (seen st') + length (rest st') = length (seen st) + length (rest st).
Proof.
  intros (w & Hr & Hs). rewrite Hr, Hs, !length_app, length_rev. lia.
Qed.

Lemma rmatch_ahead (fl : flags) (r : regex) (st : mstate) (k : cont) (x : mstate) :
  rmatch fl r st k = Some x ->
  exists st' : mstate, k st' = Some x /\ ahead st st'.
Proof.
  intros H. apply rmatch_goes_through in H. destruct H as (st' & Hk & Ha & _).
  eauto.
Qed.

Lemma rmatch_progress (fl : flags) (r : regex) :
  nullable r = false ->
  forall (st : mstate) (k : cont) (x : mstate),
    rmatch fl r st k = Some x ->
    exists st' : mstate,
      k st' = Some x /\ ahead st st' /\ length (rest st') < length (rest st).
Proof.
  induction r as [ |d|neg items| | | | |a IHa b IHb|a IHa b IHb
                 |greedy lo hi a IHa|n a IHa];
    simpl; intros Hn st k x H; try discriminate.
  - destruct (rest st) as [|c t] eqn:E; [discriminate|].
    destruct (char_mem fl d c); [|discriminate].
    eexists. split; [exact H|]. split; [apply ahead_advance, E|simpl; lia].
  - destruct (rest st) as [|c t] eqn:E; [discriminate|].
    destruct (set_mem fl neg items c); [|discriminate].
    eexists. split; [exact H|]. split; [apply ahead_advance, E|simpl; lia].
  - destruct (rest st) as [|c t] eqn:E; [discriminate|].
    destruct (is_line_terminator c); [discriminate|].
    eexists. split; [exact H|]. split; [apply ahead_advance, E|simpl; lia].
  - destruct (nullable a) eqn:Na.
    + simpl in Hn. apply rmatch_ahead in H. destruct H as (st1 & H & A1).
      apply (IHb Hn) in H. destruct H as (st2 & H & A2 & L2).
      exists st2. split; [exact H|]. split; [eapply ahead_trans; eassumption|].
      apply ahead_length in A1. lia.
    + apply (IHa eq_refl) in H. destruct H as (st1 & H & A1 & L1).
      apply rmatch_ahead in H. destruct H as (st2 & H & A2).
      exists st2. split; [exact H|]. split; [eapply ahead_trans; eassumption|].
      apply ahead_length in A2. lia.
  - apply orb_false_elim in Hn. destruct Hn as [Na Nb].
    destruct (rmatch fl a st k) eqn:E.
    + injection H as ->. apply (IHa Na _ _ _ E).
    + apply (IHb Nb _ _ _ H).
  - apply orb_false_elim in Hn. destruct Hn as [Hlo Na].
    apply Nat.eqb_neq in Hlo.
    change (rep_loop (rmatch fl a) (groups_of a) (nullable a) greedy lo hi k
              (S (length (rest st) + lo)) 0 st = Some x) in H.
    simpl in H.
    assert (Hstop : (lo <=? 0) = false) by (apply Nat.leb_gt; lia).
    rewrite Hstop in H.
    assert (Hm :
      (if under 0 hi
       then rmatch fl a (clear_caps (groups_of a) st)
              (fun st' =>
                 if nullable a && false && (length (rest st') =? length (rest st))
                 then None
                 else rep_loop (rmatch fl a) (groups_of a) (nullable a) greedy lo hi k
                        (length (rest st) + lo) 1 st')
       else None) = Some x).
    { destruct greedy; destruct (if under 0 hi then _ else None); congruence. }
    clear H. destruct (under 0 hi); [|discriminate].
    apply (IHa Na) in Hm. destruct Hm as (st1 & H & A1 & L1).
    rewrite andb_false_r in H. simpl in H.
    apply (rep_loop_goes_through _ _ _ _ _ _ _ (rmatch_goes_through fl a)) in H.
    destruct H as (st2 & H & A2 & _).
    assert (Ac : ahead st (clear_caps (groups_of a) st))
      by apply (reaches_clear (groups_of a) st).
    assert (Lc : rest (clear_caps (groups_of a) st) = rest st)
      by (destruct (groups_of a); reflexivity).
    exists st2. split; [exact H|]. split.
    + eapply ahead_trans; [exact Ac|]. eapply ahead_trans; eassumption.
    + apply ahead_length in A2. rewrite Lc in L1. lia.
  - apply (IHa Hn) in H. destruct H as (st1 & H & A1 & L1).
    eexists. split; [exact H|]. split; [|exact L1].
    destruct A1 as (w & Hr & Hs). exists w. split; assumption.
Qed.

(** A match of such a pattern found by [search] ends ahead of the point
    where the search started, with less input left. *)
Lemma search_progress (fl : flags) (r : regex) (rs sn : str) (m : rmatch_result) :
  nullable r = false ->
  search fl r sn rs = Some m ->
  length sn < length (seen (m_end m)) /\
  length (rest (m_end m)) < length rs.
Proof.
  intros Hn H. apply search_some in H.
  destruct H as (pre & post & -> & H & _ & _).
  apply (rmatch_progress fl r Hn) in H. destruct H as (st' & Hk & A & L).
  injection Hk as <-. pose proof (ahead_seen_length _ _ A) as E.
  simpl in *. rewrite length_app, length_rev in E. rewrite length_app. lia.
Qed.

(** The loop over the matches of such a pattern ends. *)
Lemma exec_loop_ends {A : Type} (fl : flags) (r : regex)
    (body : A -> rmatch_result -> A) :
  nullable r = false ->
  forall (fuel : nat) (acc : A) (sn rs : str),
    length rs < fuel ->
    exists a : A, exec_loop fuel fl r body acc sn rs = Some a.
Proof.
  intros Hn. induction fuel as [|fuel IH]; intros acc sn rs Hf; [lia|].
  simpl. destruct (search fl r sn rs) as [m|] eqn:E; [|eauto].
  destruct (search_progress fl r rs sn m Hn E) as [Hs Hr].
  replace (length (seen (m_end m)) =? length sn) with false
    by (symmetry; apply Nat.eqb_neq; lia).
  apply IH. lia.
Qed.

Lemma exec_all_ends {A : Type} (fl : flags) (r : regex)
    (body : A -> rmatch_result -> A) (acc : A) (s : str) :
  nullable r = false ->
  exists a : A, exec_all fl r body acc s = Some a.
Proof. intros Hn. apply exec_loop_ends; [exact Hn|lia]. Qed.

End Progress.

(** ** Bracket validation *)

Section BracketLoop.

Lemma tok_of_char_open (c : ascii) (k : bracket_kind) :
  tok_of_char c = Some (Open k) ->
  bracket_close c = Some (closing_char k).
Proof.
  unfold tok_of_char, bracket_close.
  destruct (ascii_eqb c "(") eqn:E1; [intros [= <-]; reflexivity|].
  destruct (ascii_eqb c ")") eqn:E2; [discriminate|].
  destruct (ascii_eqb c "[") eqn:E3; [intros [= <-]; reflexivity|].
  destruct (ascii_eqb c "]") eqn:E4; [discriminate|].
  destruct (ascii_eqb c "{") eqn:E5; [intros [= <-]; reflexivity|].
  destruct (ascii_eqb c "}") eqn:E6; discriminate.
Qed.

Lemma tok_of_char_close (c : ascii) (k : bracket_kind) :
  tok_of_char c = Some (Close k) ->
  bracket_close c = None /\ is_closing c = true /\ c = closing_char k.
Proof.
  unfold tok_of_char, bracket_close, is_closing, ascii_eqb.
  destruct (Ascii.eqb c "(") eqn:E1; [discriminate|].
  destruct (Ascii.eqb c ")") eqn:E2.
  { apply Ascii.eqb_eq in E2; subst c; intros [= <-]; auto. }
  destruct (Ascii.eqb c "[") eqn:E3; [discriminate|].
  destruct (Ascii.eqb c "]") eqn:E4.
  { apply Ascii.eqb_eq in E4; subst c; intros [= <-]; auto. }
  destruct (Ascii.eqb c "{") eqn:E5; [discriminate|].
  destruct (Ascii.eqb c "}") eqn:E6; [|discriminate].
  apply Ascii.eqb_eq in E6; subst c; intros [= <-]; auto.
Qed.

Lemma tok_of_char_none (c : ascii) :
  tok_of_char c = None ->
  bracket_close c = None /\ is_closing c = false.
Proof.
  unfold tok_of_char, bracket_close, is_closing.
  destruct (ascii_eqb c "("); [discriminate|].
  destruct (ascii_eqb c ")"); [discriminate|].
  destruct (ascii_eqb c "["); [discriminate|].
  destruct (ascii_eqb c "]"); [discriminate|].
  destruct (ascii_eqb c "{"); [discriminate|].
  destruct (ascii_eqb c "}"); [discriminate|auto].
Qed.

Lemma closing_char_eqb (a b : bracket_kind) :
  ascii_eqb (closing_char a) (closing_char b) = kind_eqb a b.
Proof. destruct a, b; reflexivity. Qed.

(** The loop over characters is the loop over their bracket tokens. *)
Lemma bracket_loop_tok (s : str) (st : list bracket_kind) :
  bracket_loop s (List.map closing_char st) =
  option_map (List.map closing_char) (tok_loop (brackets_of s) st).
Proof.
  revert st; induction s as [|c s IH]; intros st; simpl; [reflexivity|].
  destruct (tok_of_char c) as [[k|k]|] eqn:E.
  - rewrite (tok_of_char_open _ _ E). simpl. apply (IH (k :: st)).
  - destruct (tok_of_char_close _ _ E) as (-> & -> & ->).
    destruct st as [|top st]; simpl; [reflexivity|].
    rewrite closing_char_eqb. destruct (kind_eqb top k); [apply IH|reflexivity].
  - destruct (tok_of_char_none _ E) as (-> & ->). apply IH.
Qed.

Lemma stack_empty_tok (s : str) :
  stack_empty (bracket_loop s []) = true <-> tok_loop (brackets_of s) [] = Some [].
Proof.
  pose proof (bracket_loop_tok s []) as H. simpl in H. rewrite H.
  destruct (tok_loop (brackets_of s) []) as [[|k st]|]; simpl; split;
    intros; try reflexivity; discriminate.
Qed.

Lemma kind_eqb_refl (k : bracket_kind) : kind_eqb k k = true.
Proof. destruct k; reflexivity. Qed.

Lemma kind_eqb_eq (a b : bracket_kind) : kind_eqb a b = true -> a = b.
Proof. destruct a, b; simpl; congruence. Qed.

(** A balanced stretch leaves the stack as it found it. *)
Lemma tok_loop_balanced (l : list bracket_tok) :
  balanced l ->
  forall (more : list bracket_tok) (st : list bracket_kind),
    tok_loop (l ++ more) st = tok_loop more st.
Proof.
  induction 1 as [|k l1 l2 _ IH1 _ IH2]; intros more st; [reflexivity|].
  simpl. rewrite <- app_assoc. rewrite IH1. simpl.
  rewrite kind_eqb_refl. apply IH2.
Qed.

Lemma closes_open (k : bracket_kind) (st : list bracket_kind)
    (l0 l : list bracket_tok) :
  balanced l0 -> closes st l -> closes st (Open k :: l0 ++ Close k :: l).
Proof.
  intros H0 H. inversion H as [l' Hl|k' st' m0 m Hm0 Hm]; subst.
  - apply closes_nil. apply balanced_cons; assumption.
  - replace (Open k :: l0 ++ Close k :: m0 ++ Close k' :: m)
      with ((Open k :: l0 ++ Close k :: m0) ++ Close k' :: m).
    + apply closes_cons; [apply balanced_cons|]; assumption.
    + simpl. rewrite <- app_assoc. reflexivity.
Qed.

(** A run of the loop that empties the stack [st] reads a text that
    closes [st]. *)
Lemma tok_loop_closes (l : list bracket_tok) :
  forall st : list bracket_kind, tok_loop l st = Some [] -> closes st l.
Proof.
  induction l as [|[k|k] l IH]; intros st H; simpl in H.
  - injection H as ->. apply closes_nil, balanced_nil.
  - specialize (IH _ H).
    inversion IH as [|k' st' l0 l' H0 H']; subst.
    apply closes_open; assumption.
  - destruct st as [|top st]; [discriminate|].
    destruct (kind_eqb top k) eqn:E; [|discriminate].
    apply kind_eqb_eq in E; subst top.
    apply (closes_cons k st [] l); [apply balanced_nil|apply IH, H].
Qed.

Lemma tok_loop_iff (l : list bracket_tok) :
  tok_loop l [] = Some [] <-> balanced l.
Proof.
  split.
  - intros H. apply tok_loop_closes in H. inversion H; assumption.
  - intros H. pose proof (tok_loop_balanced l H [] []) as E.
    rewrite app_nil_r in E. exact E.
Qed.

End BracketLoop.

(** C9.  Both validators return [true] exactly when the bracket
    characters of the text, read in order and whatever surrounds them,
    form a balanced and properly nested sequence; a text whose one
    unmatched bracket stands inside a string literal is therefore
    rejected. *)
Theorem validateSyntax_iff_balanced :
  (forall code language : str,
      PatchEngineSyntax.validateSyntax code language = true
      <-> balanced (brackets_of code)) /\
  (forall code language : str,
      OutputParserSyntax.hasValidSyntax code language = true
      <-> balanced (brackets_of code)) /\
  PatchEngineSyntax.validateSyntax (js "const s = '(';") (js "typescript") = false /\
  OutputParserSyntax.hasValidSyntax (js "const s = '(';") (js "typescript") = false.
Proof.
  repeat split; try reflexivity; intros H.
  - apply tok_loop_iff, stack_empty_tok, H.
  - apply stack_empty_tok, tok_loop_iff, H.
  - apply tok_loop_iff, stack_empty_tok, H.
  - apply stack_empty_tok, tok_loop_iff, H.
Qed.

(** ** The matcher: searches without a match *)

Section Search.

Lemma search_none (fl : flags) (r : regex) :
  forall rs sn : str,
    (forall pre post : str,
        rs = pre ++ post ->
        rmatch fl r (MState (rev pre ++ sn) post []) accept = None) ->
    search fl r sn rs = None.
Proof.
  induction rs as [|c rs IH]; intros sn H; simpl.
  - pose proof (H [] [] eq_refl) as H0. simpl in H0. rewrite H0. reflexivity.
  - pose proof (H [] (c :: rs) eq_refl) as H0. simpl in H0. rewrite H0.
    apply IH. intros pre post ->.
    specialize (H (c :: pre) post eq_refl).
    simpl in H. rewrite <- app_assoc in H. exact H.
Qed.

Lemma includes_suffix (p pre post : str) :
  includes (pre ++ post) p = false -> startsWith post p = false.
Proof.
  induction pre as [|c pre IH]; simpl.
  - destruct post; simpl; intros H; apply orb_false_elim in H; tauto.
  - intros H. apply orb_false_elim in H. tauto.
Qed.

Lemma exec_none_test (fl : flags) (r : regex) (s : str) :
  test fl r s = false -> exec fl r s = None.
Proof. unfold test. destruct (exec fl r s); [discriminate|reflexivity]. Qed.

Lemma replace_first_none (fl : flags) (r : regex) (rep s : str) :
  exec fl r s = None -> replace_first fl r rep s = s.
Proof. unfold replace_first. intros ->. reflexivity. Qed.

Lemma replace_all_none (fl : flags) (r : regex) (rep s : str) :
  exec fl r s = None -> replace_all fl r rep s = s.
Proof. unfold replace_all, exec. simpl. intros ->. reflexivity. Qed.

End Search.

(** ** cleanCode *)

Section CleanCode.

Import OutputParser.

Lemma three_backticks_fail (fl : flags) (post : str) (sn : str) (k : cont) :
  ignoreCase fl = false ->
  startsWith post (js "```") = false ->
  rmatch fl (rlit "```") (MState sn post []) k = None.
Proof.
  intros Hi H. unfold rlit, js, rstr; simpl. unfold char_mem. rewrite Hi.
  simpl in H.
  destruct post as [|c1 [|c2 [|c3 t]]]; simpl in *;
    repeat match goal with
           | |- context [ascii_eqb ?a ?b] => destruct (ascii_eqb a b); simpl in *
           end; try reflexivity; discriminate.
Qed.

Lemma openingFence_no_match (code : str) :
  includes code (js "```") = false ->
  exec fl_none openingFence code = None.
Proof.
  intros H. apply search_none. intros pre post ->.
  change (rmatch fl_none openingFence ?st ?k)
    with (if at_bol fl_none st
          then rmatch fl_none (rlit "```") st
                 (fun st' => rmatch fl_none (rseq [RGroup 1 (rstar rword); rnl]) st' k)
          else None).
  rewrite app_nil_r.
  destruct pre as [|c pre].
  - unfold at_bol; cbn [seen rev]. apply three_backticks_fail; [reflexivity|].
    apply (includes_suffix _ [] _ H).
  - unfold at_bol; cbn [seen rev multiline fl_none andb].
    destruct (rev pre ++ [c]) eqn:E; [|reflexivity].
    apply (f_equal (@length ascii)) in E. rewrite length_app in E. simpl in E. lia.
Qed.

Lemma closingFence_no_match (code : str) :
  includes code (js "```") = false ->
  exec fl_none closingFence code = None.
Proof.
  intros H. apply search_none. intros pre post ->.
  change (rmatch fl_none closingFence ?st ?k)
    with (match rest st with
          | c :: t =>
              if char_mem fl_none nl c
              then rmatch fl_none (rlit "```") (advance st c t)
                     (fun st' => rmatch fl_none REol st' k)
              else None
          | [] => None
          end).
  cbn [rest]. destruct post as [|c t]; [reflexivity|].
  destruct (char_mem fl_none nl c); [|reflexivity].
  unfold advance; cbn [seen caps].
  apply three_backticks_fail; [reflexivity|].
  apply (includes_suffix _ (pre ++ [c]) t). rewrite <- app_assoc. exact H.
Qed.

Lemma cleanCode_is_trim (code : str) :
  includes code (js "```") = false -> cleanCode code = trim code.
Proof.
  intros H. unfold cleanCode.
  rewrite (replace_first_none _ _ _ _ (openingFence_no_match code H)).
  rewrite (replace_all_none _ _ _ _ (closingFence_no_match code H)).
  reflexivity.
Qed.

Lemma drop_space_length (s : str) : length (drop_space s) <= length s.
Proof.
  induction s as [|c s IH]; simpl; [lia|].
  destruct (is_space c); simpl; lia.
Qed.

Lemma drop_space_id (s : str) :
  starts_with_space s = false -> drop_space s = s.
Proof. destruct s as [|c s]; simpl; [reflexivity|]. intros ->. reflexivity. Qed.

Lemma trim_length (s : str) : length (trim s) <= length s.
Proof.
  unfold trim, trimEnd, trimStart. rewrite length_rev.
  pose proof (drop_space_length (rev (drop_space s))) as H1.
  pose proof (drop_space_length s) as H2.
  rewrite length_rev in H1. lia.
Qed.

Lemma trim_id_iff (s : str) :
  trim s = s <-> starts_with_space s = false /\ ends_with_space s = false.
Proof.
  split.
  - intros H.
    assert (Hs : starts_with_space s = false).
    { destruct s as [|c s]; [reflexivity|]. simpl.
      destruct (is_space c) eqn:E; [|reflexivity].
      apply (f_equal (@length ascii)) in H.
      unfold trim, trimEnd, trimStart in H. simpl in H. rewrite E in H.
      rewrite length_rev in H.
      pose proof (drop_space_length (rev (drop_space s))) as H1.
      pose proof (drop_space_length s) as H2.
      rewrite length_rev in H1. simpl in H. lia. }
    split; [exact Hs|].
    unfold trim, trimEnd, trimStart in H. rewrite (drop_space_id s Hs) in H.
    unfold ends_with_space. destruct (rev s) as [|c r] eqn:Er; [reflexivity|].
    simpl. destruct (is_space c) eqn:E; [|reflexivity].
    simpl in H. rewrite E in H.
    apply (f_equal (@length ascii)) in H. rewrite length_rev in H.
    apply (f_equal (@length ascii)) in Er. rewrite length_rev in Er. simpl in Er.
    pose proof (drop_space_length r). lia.
  - intros [Hs He]. unfold trim, trimEnd, trimStart.
    rewrite (drop_space_id s Hs).
    rewrite (drop_space_id (rev s) He). apply rev_involutive.
Qed.

End CleanCode.

(** C8, as stated, fails: the text [" x"] holds no fence marker, and
    [cleanCode] returns ["x"]. *)
Lemma cleanCode_not_identity :
  includes (js " x") (js "```") = false /\
  OutputParser.cleanCode (js " x") = js "x" /\
  OutputParser.cleanCode (js " x") <> js " x".
Proof. repeat split; try reflexivity. discriminate. Qed.

(** C8, amended.  On a text without fence markers [cleanCode] removes
    the leading and trailing whitespace and nothing else; the text comes
    back unchanged exactly when it neither begins nor ends with
    whitespace. *)
Theorem cleanCode_without_fences (code : str) :
  includes code (js "```") = false ->
  OutputParser.cleanCode code = trim code /\
  (OutputParser.cleanCode code = code <->
   starts_with_space code = false /\ ends_with_space code = false).
Proof.
  intros H. rewrite (cleanCode_is_trim code H).
  split; [reflexivity|apply trim_id_iff].
Qed.

Lemma cleanCode_without_fences_witness :
  includes (js "let x = 1;") (js "```") = false /\
  (OutputParser.cleanCode (js "let x = 1;") = trim (js "let x = 1;") /\
   (OutputParser.cleanCode (js "let x = 1;") = js "let x = 1;" <->
    starts_with_space (js "let x = 1;") = false /\
    ends_with_space (js "let x = 1;") = false)).
Proof.
  split; [reflexivity|].
  apply (cleanCode_without_fences (js "let x = 1;")). reflexivity.
Defined.

(** ** The fence pattern of the output parser *)

Section SixBackticks.

Import OutputParser.

Lemma upper_char_backtick (c : ascii) : upper_char c = backtick -> c = backtick.
Proof.
  unfold upper_char.
  destruct (is_lower c || in_range 224 254 c && negb (code c =? 247)) eqn:E;
    [|auto].
  intros H. exfalso.
  apply (f_equal nat_of_ascii) in H.
  assert (Hc : code c < 256) by apply nat_ascii_bounded.
  rewrite nat_ascii_embedding in H by lia.
  change (nat_of_ascii backtick) with 96 in H.
  unfold is_lower, in_range in E.
  apply orb_true_iff in E. destruct E as [E|E].
  - apply andb_true_iff in E. destruct E as [E1 E2].
    apply Nat.leb_le in E1. apply Nat.leb_le in E2. lia.
  - apply andb_true_iff in E. destruct E as [E _].
    apply andb_true_iff in E. destruct E as [E1 E2].
    apply Nat.leb_le in E1. lia.
Qed.

Lemma ascii_eqb_eq (a b : ascii) : ascii_eqb a b = true -> a = b.
Proof. apply Ascii.eqb_eq. Qed.

Lemma ascii_eqb_refl (a : ascii) : ascii_eqb a a = true.
Proof. apply Ascii.eqb_refl. Qed.

Lemma char_mem_backtick (fl : flags) (c : ascii) :
  char_mem fl backtick c = true -> c = backtick.
Proof.
  unfold char_mem. destruct (ignoreCase fl); intros H; apply ascii_eqb_eq in H.
  - apply upper_char_backtick. symmetry. exact H.
  - symmetry. exact H.
Qed.

Ltac step_backtick H :=
  match type of H with
  | match ?rs with [] => None | c :: t => _ end = Some _ =>
      let c := fresh "c" in
      let E := fresh "E" in
      destruct rs as [|c ?]; [discriminate|];
      destruct (char_mem _ _ c) eqn:E; [|discriminate];
      apply char_mem_backtick in E; subst c
  end.

Lemma six_match_starts (fl : flags) (st : mstate) (k : cont) (x : mstate) :
  rmatch fl sixBackticks st k = Some x ->
  startsWith (rest st) (js "``````") = true.
Proof.
  destruct st as [sn rs cs]. unfold sixBackticks, rlit, rstr, js. simpl.
  intros H. do 6 step_backtick H. reflexivity.
Qed.

Lemma six_starts_match (sn rs : str) :
  startsWith rs (js "``````") = true ->
  rmatch fl_none sixBackticks (MState sn rs []) accept <> None.
Proof.
  unfold sixBackticks, rlit, rstr, js. simpl. unfold char_mem. simpl.
  intros H.
  repeat match type of H with
         | match ?l with [] => _ | _ :: _ => _ end = true =>
             destruct l; [discriminate|];
             apply andb_true_iff in H; destruct H as [-> H]
         end.
  discriminate.
Qed.

Lemma includes_split (w : str) :
  forall t : str,
    includes t w = true ->
    exists pre post : str, t = pre ++ post /\ startsWith post w = true.
Proof.
  induction t as [|c t IH]; simpl; intros H.
  - apply orb_true_iff in H. destruct H as [H|H]; [|discriminate].
    exists [], []. auto.
  - apply orb_true_iff in H. destruct H as [H|H].
    + exists [], (c :: t). auto.
    + destruct (IH H) as (pre & post & -> & Hs). exists (c :: pre), post. auto.
Qed.

Lemma includes_of_split (w pre post : str) :
  startsWith post w = true -> includes (pre ++ post) w = true.
Proof.
  intros H. destruct (includes (pre ++ post) w) eqn:E; [reflexivity|].
  rewrite (includes_suffix _ _ _ E) in H. discriminate.
Qed.

Lemma test_six_includes (t : str) :
  test fl_none sixBackticks t = false -> includes t (js "``````") = false.
Proof.
  intros H. apply exec_none_test in H.
  destruct (includes t (js "``````")) eqn:E; [|reflexivity].
  apply includes_split in E. destruct E as (pre & post & -> & Hs).
  pose proof (search_none_inv _ _ _ _ H pre post eq_refl) as Hn.
  exfalso. exact (six_starts_match _ _ Hs Hn).
Qed.

Lemma rseq_cons (a b : regex) (l : list regex) :
  rseq (a :: b :: l) = RSeq a (rseq (b :: l)).
Proof. reflexivity. Qed.

(** A match of a sequence matched its last pattern at a later point. *)
Lemma rmatch_rseq_last (fl : flags) (r : regex) (l : list regex) :
  forall (st : mstate) (k : cont) (x : mstate),
    rmatch fl (rseq (l ++ [r])) st k = Some x ->
    exists st' : mstate, ahead st st' /\ rmatch fl r st' k = Some x.
Proof.
  induction l as [|a l IH]; intros st k x H.
  - exists st. split; [apply ahead_refl|exact H].
  - assert (E : rseq ((a :: l) ++ [r]) = RSeq a (rseq (l ++ [r]))).
    { simpl. destruct (l ++ [r]) eqn:El; [|reflexivity].
      destruct l; discriminate. }
    rewrite E in H. simpl in H.
    apply rmatch_goes_through in H. destruct H as (st1 & H & [A _]).
    apply IH in H. destruct H as (st2 & A2 & H).
    exists st2. split; [eapply ahead_trans; eassumption|exact H].
Qed.

(** Without six backticks in a row, no pattern that ends in them
    matches anywhere. *)
Lemma no_six_no_match (fl : flags) (l : list regex) (t : str) :
  includes t (js "``````") = false ->
  search fl (rseq (l ++ [sixBackticks])) [] t = None.
Proof.
  intros H. apply search_none. intros pre post ->.
  destruct (rmatch fl _ _ accept) as [x|] eqn:E; [|reflexivity].
  exfalso. apply rmatch_rseq_last in E. destruct E as (st' & (w & Hr & _) & E).
  apply six_match_starts in E. simpl in Hr.
  rewrite Hr, app_assoc in H.
  rewrite (includes_of_split _ _ _ E) in H. discriminate.
Qed.

Lemma exec_all_c_none {A : Type} (fl : flags) (r : regex)
    (body : A -> rmatch_result -> completion A) (acc : A) (t : str) :
  search fl r [] t = None ->
  exec_all_c fl r body acc t = Some (Return acc).
Proof. unfold exec_all_c. simpl. intros ->. reflexivity. Qed.

Lemma parseMultiFileResponse_no_six (t : str) :
  includes t (js "``````") = false ->
  parseMultiFileResponse t = Some (Return []).
Proof.
  intros H. unfold parseMultiFileResponse.
  rewrite (exec_all_c_none fl_none fileHeaderRegex);
    [|apply (no_six_no_match fl_none
               [ralt [RBol; rnl];
                ropt (rseq [RChar "#"; ropt (RChar "#"); rstar rspace]);
                ralt [rlit "File:"; rlit "Path:"];
                rstar rspace; RGroup 1 (rplus rnotnl); rnl]), H].
  rewrite (exec_all_c_none fl_none simpleFileRegex);
    [|apply (no_six_no_match fl_none []), H].
  apply (exec_all_c_none fl_i actionRegex).
  apply (no_six_no_match fl_i
           [ralt [rlit "CREATE"; rlit "MODIFY"; rlit "DELETE"];
            rplus rspace; RGroup 1 (rplus rnotnl); rnl]), H.
Qed.

Lemma extractEnhancedCodeBlocks_no_six
    (buildCodeBlock : str -> rmatch_result -> str -> str -> CodeBlock) (t : str) :
  includes t (js "``````") = false ->
  extractEnhancedCodeBlocks buildCodeBlock t = Some (Return []).
Proof.
  intros H. unfold extractEnhancedCodeBlocks.
  rewrite (exec_all_c_none fl_none sixBackticks);
    [reflexivity|apply (no_six_no_match fl_none []), H].
Qed.

End SixBackticks.

(** ** trim *)

Section Trim.

Lemma drop_space_starts (s : str) : starts_with_space (drop_space s) = false.
Proof.
  induction s as [|c s IH]; simpl; [reflexivity|].
  destruct (is_space c) eqn:E; [exact IH|]. simpl. exact E.
Qed.

Lemma drop_space_snoc (a : str) (c : ascii) :
  is_space c = false -> drop_space (a ++ [c]) = drop_space a ++ [c].
Proof.
  intros Hc. induction a as [|x a IH]; simpl.
  - rewrite Hc. reflexivity.
  - destruct (is_space x); [exact IH|reflexivity].
Qed.

Lemma trim_idempotent (s : str) : trim (trim s) = trim s.
Proof.
  apply trim_id_iff. split.
  - unfold trim, trimEnd, trimStart.
    pose proof (drop_space_starts s) as H.
    destruct (drop_space s) as [|c u]; [reflexivity|].
    simpl in H. simpl rev. rewrite (drop_space_snoc _ _ H).
    rewrite rev_app_distr. simpl. exact H.
  - unfold ends_with_space, trim, trimEnd. rewrite rev_involutive.
    apply drop_space_starts.
Qed.

End Trim.

(** ** parseAIResponse on replies in prose *)

Section ParseProse.

Import OutputParser.

Variable buildCodeBlock : str -> rmatch_result -> str -> str -> CodeBlock.
Variable parseWithBlocks : str -> list CodeBlock -> ParseContext -> ParsedOutput.
Variable serializeMultiFileChanges : list MultiFileChange -> str.

Local Abbreviation parseAI :=
  (parseAIResponse buildCodeBlock parseWithBlocks serializeMultiFileChanges).

Lemma explanation_only_facts (t : str) :
  detectResponseType t = ExplanationOnly ->
  includes t (js "``````") = false /\ isCodeLike t = false.
Proof.
  unfold detectResponseType.
  destruct (test fl_i fileHeaderProbe t || (4 <? length (split t (js "```"))));
    [discriminate|].
  destruct (test fl_none sixBackticks t) eqn:E6; simpl.
  - destruct (50 <? _); discriminate.
  - destruct (isCodeLike t); [discriminate|].
    intros _. split; [apply test_six_includes, E6|reflexivity].
Qed.

Lemma parseAI_S (depth : nat) (response : str) (context : ParseContext) :
  parseAI (S depth) response context =
  let trimmed := trim response in
  if is_multifile (detectResponseType trimmed)
     || truthy_bool (expectMultiFile context)
  then
    match parseMultiFileResponse trimmed with
    | None => None
    | Some (Throw e) => Some (Throw e)
    | Some (Return []) =>
        parseAI depth trimmed
          {| originalLanguage := originalLanguage context;
             expectMultiFile := Some false;
             instruction := instruction context |}
    | Some (Return changes) =>
        Some (Return (multiFileOutput serializeMultiFileChanges trimmed changes))
    end
  else
    match extractEnhancedCodeBlocks buildCodeBlock trimmed with
    | None => None
    | Some (Throw e) => Some (Throw e)
    | Some (Return []) => Some (Return (parseCodeOnlyResponse trimmed context))
    | Some (Return codeBlocks) =>
        Some (Return (parseWithBlocks trimmed codeBlocks context))
    end.
Proof. reflexivity. Qed.

Lemma codeOnly_confidence (t : str) (context : ParseContext) :
  isCodeLike t = false ->
  (calculateCodeOnlyConfidence t context
   == if languageMatches context t then 0.8 else 0.6)%Q.
Proof.
  intros H. unfold calculateCodeOnlyConfidence, languageMatches. rewrite H.
  destruct (originalLanguage context) as [[|c l]|]; simpl; try reflexivity.
  destruct (str_eqb (detectLanguageFromCode t) (c :: l)); reflexivity.
Qed.

Lemma languageMatches_ext (c1 c2 : ParseContext) (t : str) :
  originalLanguage c1 = originalLanguage c2 ->
  languageMatches c1 t = languageMatches c2 t.
Proof. unfold languageMatches. intros ->. reflexivity. Qed.

Lemma parseAI_prose (depth : nat) (response : str) (context : ParseContext) :
  detectResponseType (trim response) = ExplanationOnly ->
  exists context' : ParseContext,
    originalLanguage context' = originalLanguage context /\
    parseAI (S (S depth)) response context =
    Some (Return (parseCodeOnlyResponse (trim response) context')).
Proof.
  intros H. destruct (explanation_only_facts _ H) as [H6 _].
  rewrite parseAI_S. cbv zeta. rewrite H. simpl is_multifile. simpl orb.
  destruct (truthy_bool (expectMultiFile context)).
  - rewrite (parseMultiFileResponse_no_six _ H6).
    rewrite parseAI_S. cbv zeta. rewrite trim_idempotent, H. simpl.
    rewrite (extractEnhancedCodeBlocks_no_six _ _ H6).
    eexists. split; [|reflexivity]. reflexivity.
  - rewrite (extractEnhancedCodeBlocks_no_six _ _ H6).
    exists context. split; reflexivity.
Qed.

End ParseProse.


(** ** parseMultiFileResponse *)

Section MultiFile.

Import OutputParser.

(** A loop whose body raises at every match returns what it was given,
    if it returns. *)
Lemma exec_loop_c_throws {A : Type} (fl : flags) (r : regex)
    (body : A -> rmatch_result -> completion A) :
  (forall (acc : A) (sn rs : str) (m : rmatch_result),
      search fl r sn rs = Some m -> exists e : error, body acc m = Throw e) ->
  forall (fuel : nat) (acc : A) (sn rs : str) (acc' : A),
    exec_loop_c fuel fl r body acc sn rs = Some (Return acc') -> acc' = acc.
Proof.
  intros Hb. induction fuel as [|fuel IH]; intros acc sn rs acc' H; [discriminate|].
  simpl in H. destruct (search fl r sn rs) as [m|] eqn:E.
  - destruct (length (seen (m_end m)) =? length sn); [discriminate|].
    destruct (Hb acc _ _ _ E) as [e He]. rewrite He in H. discriminate.
  - injection H as ->. reflexivity.
Qed.

Lemma exec_loop_c_agree {A : Type} (fl : flags) (r : regex)
    (body1 body2 : A -> rmatch_result -> completion A) :
  (forall (acc : A) (sn rs : str) (m : rmatch_result),
      search fl r sn rs = Some m -> body1 acc m = body2 acc m) ->
  forall (fuel : nat) (acc : A) (sn rs : str),
    exec_loop_c fuel fl r body1 acc sn rs = exec_loop_c fuel fl r body2 acc sn rs.
Proof.
  intros Hb. induction fuel as [|fuel IH]; intros acc sn rs; [reflexivity|].
  simpl. destruct (search fl r sn rs) as [m|] eqn:E; [|reflexivity].
  destruct (length (seen (m_end m)) =? length sn); [reflexivity|].
  rewrite (Hb acc _ _ _ E). destruct (body2 acc m); [apply IH|reflexivity].
Qed.

Lemma pattern1_body_throws (acc : list MultiFileChange) (sn rs : str)
    (m : rmatch_result) :
  search fl_none fileHeaderRegex sn rs = Some m ->
  exists e : error, pattern1_body acc m = Throw e.
Proof.
  intros H. unfold pattern1_body.
  rewrite (search_group_absent _ _ _ _ _ 3 H)
    by (simpl; intros [E|[]]; discriminate).
  destruct (trim_of (group m 1)); simpl; eauto.
Qed.

Lemma pattern2_body_throws (acc : list MultiFileChange) (sn rs : str)
    (m : rmatch_result) :
  search fl_none simpleFileRegex sn rs = Some m ->
  exists e : error, pattern2_body acc m = Throw e.
Proof.
  intros H. unfold pattern2_body.
  rewrite (search_group_absent _ _ _ _ _ 2 H) by (simpl; tauto).
  simpl. eauto.
Qed.

Lemma pattern3_body_throws (acc : list MultiFileChange) (sn rs : str)
    (m : rmatch_result) :
  search fl_i actionRegex sn rs = Some m ->
  exists e : error, pattern3_body acc m = Throw e.
Proof.
  intros H. unfold pattern3_body.
  rewrite (search_group_absent _ _ _ _ _ 3 H)
    by (simpl; intros [E|[]]; discriminate).
  destruct (trim_of (group m 1)); simpl; eauto.
Qed.

(** Whatever the reply, [parseMultiFileResponse] returns no change. *)
Lemma parseMultiFileResponse_never_changes (response : str)
    (changes : list MultiFileChange) :
  parseMultiFileResponse response = Some (Return changes) -> changes = [].
Proof.
  unfold parseMultiFileResponse, exec_all_c. intros H.
  destruct (exec_loop_c _ fl_none fileHeaderRegex _ _ _ _) as [[c1|e]|] eqn:E1;
    try discriminate.
  apply (exec_loop_c_throws _ _ _ pattern1_body_throws) in E1. subst c1.
  destruct (exec_loop_c _ fl_none simpleFileRegex _ _ _ _) as [[c2|e]|] eqn:E2;
    try discriminate.
  apply (exec_loop_c_throws _ _ _ pattern2_body_throws) in E2. subst c2.
  apply (exec_loop_c_throws _ _ _ pattern3_body_throws) in H. exact H.
Qed.

Lemma codeBlock_body_throws
    (buildCodeBlock : str -> rmatch_result -> str -> str -> CodeBlock)
    (response : str) (acc : list CodeBlock) (sn rs : str) (m : rmatch_result) :
  search fl_none sixBackticks sn rs = Some m ->
  codeBlock_body buildCodeBlock response acc m = Throw TypeError.
Proof.
  intros H. unfold codeBlock_body.
  rewrite (search_group_absent _ _ _ _ _ 2 H) by (simpl; tauto).
  reflexivity.
Qed.

(** Whatever the reply, the block loop finds no block, and what builds a
    block has no part in its result. *)
Lemma extractEnhancedCodeBlocks_never_blocks
    (buildCodeBlock : str -> rmatch_result -> str -> str -> CodeBlock)
    (response : str) (blocks : list CodeBlock) :
  extractEnhancedCodeBlocks buildCodeBlock response = Some (Return blocks) ->
  blocks = [].
Proof.
  unfold extractEnhancedCodeBlocks, exec_all_c. intros H.
  destruct (exec_loop_c _ _ _ _ _ _ _) as [[c1|e]|] eqn:E1; try discriminate.
  apply (exec_loop_c_throws fl_none sixBackticks) in E1.
  - subst c1. injection H as <-. reflexivity.
  - intros acc sn rs m Hm. exists TypeError.
    apply (codeBlock_body_throws _ _ _ _ _ _ Hm).
Qed.

Lemma extractEnhancedCodeBlocks_agree
    (build1 build2 : str -> rmatch_result -> str -> str -> CodeBlock)
    (response : str) :
  extractEnhancedCodeBlocks build1 response = extractEnhancedCodeBlocks build2 response.
Proof.
  unfold extractEnhancedCodeBlocks, exec_all_c.
  rewrite (exec_loop_c_agree fl_none sixBackticks
             (codeBlock_body build1 response) (codeBlock_body build2 response));
    [reflexivity|].
  intros acc sn rs m Hm.
  rewrite (codeBlock_body_throws build1 _ _ _ _ _ Hm).
  rewrite (codeBlock_body_throws build2 _ _ _ _ _ Hm). reflexivity.
Qed.

(** The three stretches taken as given never run: the parser's result
    is the same whatever they are. *)
Lemma parseAIResponse_given_irrelevant
    (build1 build2 : str -> rmatch_result -> str -> str -> CodeBlock)
    (tail1 tail2 : str -> list CodeBlock -> ParseContext -> ParsedOutput)
    (ser1 ser2 : list MultiFileChange -> str) :
  forall (depth : nat) (response : str) (context : ParseContext),
    parseAIResponse build1 tail1 ser1 depth response context =
    parseAIResponse build2 tail2 ser2 depth response context.
Proof.
  induction depth as [|depth IH]; intros response context; [reflexivity|].
  rewrite !parseAI_S. cbv zeta.
  destruct (is_multifile _ || _).
  - destruct (parseMultiFileResponse (trim response)) as [[changes|e]|] eqn:E;
      try reflexivity.
    apply parseMultiFileResponse_never_changes in E. subst changes. apply IH.
  - rewrite (extractEnhancedCodeBlocks_agree build1 build2).
    destruct (extractEnhancedCodeBlocks build2 (trim response))
      as [[blocks|e]|] eqn:E; try reflexivity.
    apply extractEnhancedCodeBlocks_never_blocks in E. subst blocks. reflexivity.
Qed.

End MultiFile.

(** C3.  On the reply [twoFileReply] (two headers [File: a.ts] and
    [File: b.ts], each followed by a fenced block of five lines)
    [parseMultiFileResponse] returns the empty list, not two entries;
    and on no reply at all does it return an entry, because each of its
    three patterns ends in six backticks and lacks the capture group
    whose text the loop body trims. *)
Theorem parseMultiFileResponse_two_files :
  OutputParser.parseMultiFileResponse twoFileReply = Some (Return []) /\
  forall (response : str) (changes : list MultiFileChange),
    OutputParser.parseMultiFileResponse response = Some (Return changes) ->
    changes = [].
Proof.
  split; [vm_compute; reflexivity|].
  exact parseMultiFileResponse_never_changes.
Qed.

(** ** The matcher: what a match has passed *)

Section Passed.

Lemma rseq_step (fl : flags) (a : regex) (l : list regex) (st : mstate) (k : cont) :
  rmatch fl (rseq (a :: l)) st k
  = rmatch fl a st (fun st' => rmatch fl (rseq l) st' k).
Proof. destruct l; reflexivity. Qed.

(** A match of an alternation is a match of one of its branches. *)
Lemma ralt_inv (fl : flags) (l : list regex) (st : mstate) (k : cont) (x : mstate) :
  l <> [] ->
  rmatch fl (ralt l) st k = Some x ->
  exists r : regex, In r l /\ rmatch fl r st k = Some x.
Proof.
  induction l as [|a l IH]; intros Hne H; [contradiction|].
  destruct l as [|b l].
  - exists a. split; [left; reflexivity|exact H].
  - change (rmatch fl (RAlt a (ralt (b :: l))) st k = Some x) in H.
    cbn [rmatch] in H. destruct (rmatch fl a st k) as [y|] eqn:E.
    + exists a. split; [left; reflexivity|]. now rewrite E.
    + destruct (IH ltac:(discriminate) H) as (r & Hr & Hm).
      exists r. split; [right; exact Hr|exact Hm].
Qed.

(** A match of a quantified class has passed a run of characters of
    the class, at least as many as the lower bound. *)
Lemma rep_loop_class_inv (fl : flags) (neg : bool) (items : list citem)
    (greedy : bool) (lo : nat) (hi : option nat) (k : cont) (x : mstate) :
  forall (fuel n : nat) (st : mstate),
    rep_loop (rmatch fl (RSet neg items)) [] false greedy lo hi k fuel n st = Some x ->
    exists (w : str) (st' : mstate),
      rest st = w ++ rest st' /\
      seen st' = rev w ++ seen st /\
      Forall (fun c => set_mem fl neg items c = true) w /\
      lo <= n + length w /\
      k st' = Some x.
Proof.
  induction fuel as [|fuel IH]; intros n st H; [discriminate|].
  assert (Hstop : (if lo <=? n then k st else None) = Some x ->
                  exists (w : str) (st' : mstate),
                    rest st = w ++ rest st' /\
                    seen st' = rev w ++ seen st /\
                    Forall (fun c => set_mem fl neg items c = true) w /\
                    lo <= n + length w /\
                    k st' = Some x).
  { destruct (lo <=? n) eqn:E; [|discriminate]. intros Hk.
    exists [], st. apply Nat.leb_le in E. cbn. repeat split; auto. lia. }
  assert (Hmore : (if under n hi
                   then rmatch fl (RSet neg items) st
                          (fun st' =>
                             rep_loop (rmatch fl (RSet neg items)) [] false greedy lo hi k
                               fuel (S n) st')
                   else None) = Some x ->
                  exists (w : str) (st' : mstate),
                    rest st = w ++ rest st' /\
                    seen st' = rev w ++ seen st /\
                    Forall (fun c => set_mem fl neg items c = true) w /\
                    lo <= n + length w /\
                    k st' = Some x).
  { destruct (under n hi); [|discriminate]. cbn [rmatch].
    destruct (rest st) as [|c t] eqn:Er; [discriminate|].
    destruct (set_mem fl neg items c) eqn:Em; [|discriminate].
    intros Hk. apply IH in Hk. destruct Hk as (w & st' & Hr & Hs & Hw & Hlo & Hk).
    exists (c :: w), st'. cbn [advance rest seen] in Hr, Hs.
    repeat split.
    - cbn [app]. now rewrite Hr.
    - cbn [rev]. rewrite <- app_assoc. exact Hs.
    - constructor; assumption.
    - cbn [length]. lia.
    - exact Hk. }
  cbn [rep_loop clear_caps andb] in H.
  destruct greedy.
  - destruct (if under n hi then _ else None) as [y|] eqn:E.
    + injection H as ->. exact (Hmore eq_refl).
    + exact (Hstop H).
  - destruct (if lo <=? n then k st else None) as [y|] eqn:E.
    + injection H as ->. exact (Hstop eq_refl).
    + exact (Hmore H).
Qed.

Lemma rquant_class_inv (fl : flags) (neg : bool) (items : list citem)
    (greedy : bool) (lo : nat) (hi : option nat) (st : mstate) (k : cont) (x : mstate) :
  rmatch fl (RQuant greedy lo hi (RSet neg items)) st k = Some x ->
  exists (w : str) (st' : mstate),
    rest st = w ++ rest st' /\
    seen st' = rev w ++ seen st /\
    Forall (fun c => set_mem fl neg items c = true) w /\
    lo <= length w /\
    k st' = Some x.
Proof.
  intros H.
  change (rep_loop (rmatch fl (RSet neg items)) [] false greedy lo hi k
            (S (length (rest st) + lo)) 0 st = Some x) in H.
  exact (rep_loop_class_inv fl neg items greedy lo hi k x _ 0 st H).
Qed.

Lemma rstr_cons (fl : flags) (d : ascii) (w : str) (st : mstate) (k : cont) :
  rmatch fl (rstr (d :: w)) st k
  = rmatch fl (RChar d) st (fun st' => rmatch fl (rstr w) st' k).
Proof. destruct w; reflexivity. Qed.

(** A match of a literal has passed characters that match it one by
    one. *)
Lemma rstr_inv (fl : flags) (w : str) :
  forall (st : mstate) (k : cont) (x : mstate),
    rmatch fl (rstr w) st k = Some x ->
    exists (u : str) (st' : mstate),
      rest st = u ++ rest st' /\
      seen st' = rev u ++ seen st /\
      Forall2 (fun d c => char_mem fl d c = true) w u /\
      k st' = Some x.
Proof.
  induction w as [|d w IH]; intros st k x H.
  - exists [], st. repeat split; [constructor|exact H].
  - rewrite rstr_cons in H. cbn [rmatch] in H.
    destruct (rest st) as [|c t] eqn:Er; [discriminate|].
    destruct (char_mem fl d c) eqn:Em; [|discriminate].
    apply IH in H. destruct H as (u & st' & Hr & Hs & Hu & Hk).
    cbn [advance rest seen] in Hr, Hs.
    exists (c :: u), st'. repeat split.
    + cbn [app]. now rewrite Hr.
    + cbn [rev]. rewrite <- app_assoc. exact Hs.
    + constructor; assumption.
    + exact Hk.
Qed.

(** Without the flag [i] a literal matches itself only. *)
Lemma rstr_inv_exact (fl : flags) (w : str) (st : mstate) (k : cont) (x : mstate) :
  ignoreCase fl = false ->
  rmatch fl (rstr w) st k = Some x ->
  exists st' : mstate, rest st = w ++ rest st' /\ k st' = Some x.
Proof.
  intros Hi H. apply rstr_inv in H. destruct H as (u & st' & Hr & _ & Hu & Hk).
  exists st'. split; [|exact Hk]. rewrite Hr. f_equal.
  clear Hr Hk. induction Hu as [|d c w u Hd _ IH]; [reflexivity|].
  unfold char_mem in Hd. rewrite Hi in Hd. apply ascii_eqb_eq in Hd. congruence.
Qed.

(** Under the flag [i] a literal matches its case variants only. *)
Lemma rstr_inv_folded (w : str) (st : mstate) (k : cont) (x : mstate) :
  Forall folds w ->
  rmatch fl_i (rstr w) st k = Some x ->
  exists (u : str) (st' : mstate),
    rest st = u ++ rest st' /\ toLowerCase u = toLowerCase w /\ k st' = Some x.
Proof.
  intros Hw H. apply rstr_inv in H. destruct H as (u & st' & Hr & _ & Hu & Hk).
  exists u, st'. split; [exact Hr|]. split; [|exact Hk]. clear Hr Hk.
  induction Hu as [|d c w u Hd _ IH]; [reflexivity|].
  apply Forall_cons_1 in Hw. destruct Hw as [Hf Hw].
  cbn [toLowerCase List.map]. rewrite (Hf c Hd). f_equal. exact (IH Hw).
Qed.

(** A match of an optional pattern has skipped it or matched it
    once. *)
Lemma ropt_inv (fl : flags) (r : regex) (st : mstate) (k : cont) (x : mstate) :
  rmatch fl (ropt r) st k = Some x ->
  k st = Some x \/
  exists k' : cont,
    (forall st' y, k' st' = Some y -> k st' = Some y) /\
    rmatch fl r (clear_caps (groups_of r) st) k' = Some x.
Proof.
  intros H. unfold ropt in H.
  change (rep_loop (rmatch fl r) (groups_of r) (nullable r) true 0 (Some 1) k
            (S (length (rest st) + 0)) 0 st = Some x) in H.
  cbn [rep_loop under] in H. change (0 <? 1) with true in H. cbv iota in H.
  match type of H with
  | match rmatch fl r ?s ?c with _ => _ end = _ =>
      destruct (rmatch fl r s c) as [y|] eqn:E
  end.
  - injection H as ->. right. eexists. split; [|exact E].
    intros st' y Hy. cbv beta in Hy.
    destruct (nullable r && (0 <=? 0) && (length (rest st') =? length (rest st)));
      [discriminate|].
    destruct (length (rest st) + 0) as [|fuel]; [discriminate|].
    cbn [rep_loop under] in Hy. change (1 <? 1) with false in Hy. cbv iota in Hy.
    exact Hy.
  - left. exact H.
Qed.

(** The point of a match at the start of a line. *)
Lemma after_each_app (p : ascii -> bool) (pre : str) (c : ascii) (post : str) :
  p c = true -> In post (after_each p (pre ++ c :: post)).
Proof.
  intros Hc. induction pre as [|d pre IH]; cbn [app after_each].
  - rewrite Hc. left. reflexivity.
  - destruct (p d); [right|]; exact IH.
Qed.

Lemma at_bol_line_start (pre post : str) (cs : list (nat * str)) :
  at_bol fl_m (MState (rev pre) post cs) = true ->
  In post (line_starts (pre ++ post)).
Proof.
  unfold at_bol, line_starts. cbn [seen multiline fl_m andb].
  destruct pre as [|d pre] using rev_ind; [left; reflexivity|].
  rewrite rev_app_distr. cbn [rev app]. intros Hc. right.
  rewrite <- app_assoc. cbn [app]. exact (after_each_app _ pre d post Hc).
Qed.

End Passed.

(** ** Texts in plain prose *)

Section Prose.

Import OutputParser.

Lemma startsWith_app (s t p : str) :
  startsWith s p = true -> startsWith (s ++ t) p = true.
Proof.
  revert s. induction p as [|x p IH]; intros s H; [reflexivity|].
  destruct s as [|y s]; [discriminate|]. cbn [startsWith app] in *.
  apply andb_true_iff in H. destruct H as [-> H]. cbn [andb]. exact (IH s H).
Qed.

Lemma startsWith_prefix (s p q : str) :
  startsWith s (p ++ q) = true -> startsWith s p = true.
Proof.
  revert s. induction p as [|x p IH]; intros s H; [reflexivity|].
  destruct s as [|y s]; [discriminate|]. cbn [startsWith app] in *.
  apply andb_true_iff in H. destruct H as [-> H]. cbn [andb]. exact (IH s H).
Qed.

Lemma startsWith_self (p t : str) : startsWith (p ++ t) p = true.
Proof.
  induction p as [|x p IH]; [reflexivity|].
  cbn [startsWith app]. now rewrite ascii_eqb_refl.
Qed.

Lemma startsWith_len (s p : str) : startsWith s p = true -> length p <= length s.
Proof.
  revert s. induction p as [|x p IH]; intros s H; cbn [length]; [lia|].
  destruct s as [|y s]; [discriminate|]. cbn [startsWith] in H.
  apply andb_true_iff in H. destruct H as [_ H]. apply IH in H. cbn [length]. lia.
Qed.

(** A text has what a piece of it has. *)
Lemma includes_window (a u b w : str) :
  includes (a ++ u ++ b) w = false -> includes u w = false.
Proof.
  intros H. destruct (includes u w) eqn:E; [|reflexivity].
  apply includes_split in E. destruct E as (pre & post & -> & Hs).
  rewrite <- app_assoc, app_assoc in H.
  rewrite (includes_of_split w (a ++ pre) (post ++ b) (startsWith_app _ _ _ Hs)) in H.
  discriminate.
Qed.

Lemma includes_longer (t p q : str) :
  includes t p = false -> includes t (p ++ q) = false.
Proof.
  intros H. destruct (includes t (p ++ q)) eqn:E; [|reflexivity].
  apply includes_split in E. destruct E as (pre & post & -> & Hs).
  rewrite (includes_of_split p pre post (startsWith_prefix _ _ _ Hs)) in H.
  discriminate.
Qed.

(** [trim] cuts whitespace off both ends. *)
Lemma drop_space_prefix (s : str) :
  exists a : str, s = a ++ drop_space s /\ Forall (fun c => is_space c = true) a.
Proof.
  induction s as [|c s (a & Ha & Hs)]; [exists []; split; [reflexivity|constructor]|].
  cbn [drop_space]. destruct (is_space c) eqn:E.
  - exists (c :: a). split; [cbn [app]; now rewrite <- Ha|constructor; assumption].
  - exists []. split; [reflexivity|constructor].
Qed.

Lemma trim_window (s : str) :
  exists a b : str,
    s = a ++ trim s ++ b /\
    Forall (fun c => is_space c = true) a /\ Forall (fun c => is_space c = true) b.
Proof.
  destruct (drop_space_prefix s) as (a & Ha & Hsa).
  destruct (drop_space_prefix (rev (drop_space s))) as (b & Hb & Hsb).
  exists a, (rev b). split; [|split; [exact Hsa|apply Forall_rev, Hsb]].
  unfold trim, trimEnd, trimStart. rewrite <- rev_app_distr, <- Hb, rev_involutive.
  exact Ha.
Qed.

Lemma drop_space_run (w s : str) :
  Forall (fun c => is_space c = true) w -> drop_space (w ++ s) = drop_space s.
Proof.
  induction 1 as [|c w Hc _ IH]; [reflexivity|]. cbn [app drop_space]. now rewrite Hc.
Qed.

Lemma drop_space_word (s : str) : starts_with_space s = false -> drop_space s = s.
Proof. destruct s as [|c s]; [reflexivity|]. cbn. now intros ->. Qed.

Lemma drop_space_app (s b : str) :
  drop_space s <> [] -> drop_space (s ++ b) = drop_space s ++ b.
Proof.
  induction s as [|c s IH]; cbn [drop_space app]; [contradiction|].
  destruct (is_space c); [exact IH|reflexivity].
Qed.

Lemma blank_run (w s : str) :
  Forall (fun c => is_space c = true) w ->
  blank_to_eol s = true -> blank_to_eol (w ++ s) = true.
Proof.
  induction 1 as [|c w Hc _ IH]; intros Hs; [exact Hs|].
  cbn [app blank_to_eol]. rewrite Hc, (IH Hs). apply orb_true_r.
Qed.

Lemma blank_spaces (b : str) :
  Forall (fun c => is_space c = true) b -> blank_to_eol b = true.
Proof. intros H. rewrite <- (app_nil_r b). now apply blank_run. Qed.

Lemma blank_app (x b : str) :
  Forall (fun c => is_space c = true) b ->
  blank_to_eol x = true -> blank_to_eol (x ++ b) = true.
Proof.
  intros Hb. induction x as [|c x IH]; cbn [app blank_to_eol].
  - intros _. now apply blank_spaces.
  - intros H. apply orb_true_iff in H. destruct H as [->|H]; [reflexivity|].
    apply andb_true_iff in H. destruct H as [-> H]. rewrite (IH H). apply orb_true_r.
Qed.

Lemma existsb_impl {A : Type} (f g : A -> bool) (l : list A) :
  (forall x, f x = true -> g x = true) -> existsb f l = true -> existsb g l = true.
Proof.
  intros Hfg H. apply existsb_exists in H. destruct H as (x & Hx & Hf).
  apply existsb_exists. exists x. auto.
Qed.

Lemma skipn_word (w t : str) : List.skipn (length w) (w ++ t) = t.
Proof. induction w as [|c w IH]; [reflexivity|exact IH]. Qed.

Lemma skipn_longer (n : nat) (s b : str) :
  n <= length s -> List.skipn n (s ++ b) = List.skipn n s ++ b.
Proof.
  revert s. induction n as [|n IH]; intros s H; [reflexivity|].
  destruct s as [|c s]; [cbn in H; lia|]. cbn [List.skipn app]. apply IH.
  cbn in H. lia.
Qed.

(** Whitespace after a text does not make it less like code. *)
Lemma begins_like_code_app (line b : str) :
  Forall (fun c => is_space c = true) b ->
  begins_like_code line = true -> begins_like_code (line ++ b) = true.
Proof.
  intros Hb H. unfold begins_like_code in *.
  assert (Hne : drop_space line <> []).
  { intros E. rewrite E in H. vm_compute in H. discriminate H. }
  rewrite (drop_space_app _ _ Hne). cbv zeta in *.
  set (text := drop_space line) in *.
  apply orb_true_iff in H. destruct H as [H|H];
    [apply orb_true_iff in H; destruct H as [H|H]|].
  - apply orb_true_iff. left. apply orb_true_iff. left.
    revert H. apply existsb_impl. intros w Hw.
    apply andb_true_iff in Hw. destruct Hw as [Hs Hw].
    rewrite (startsWith_app _ _ _ Hs). cbn [andb].
    rewrite (skipn_longer _ _ _ (startsWith_len _ _ Hs)).
    destruct (List.skipn (length (js w)) text); [discriminate|exact Hw].
  - apply orb_true_iff. left. apply orb_true_iff. right.
    revert H. apply existsb_impl. intros w Hw.
    apply andb_true_iff in Hw. destruct Hw as [Hs Hw].
    rewrite (startsWith_app _ _ _ Hs). cbn [andb].
    rewrite (skipn_longer _ _ _ (startsWith_len _ _ Hs)).
    now apply blank_app.
  - apply orb_true_iff. right.
    revert H. apply existsb_impl. intros w Hw. exact (startsWith_app _ _ _ Hw).
Qed.

Lemma after_each_left (p : ascii -> bool) (a x line : str) :
  In line (after_each p x) -> In line (after_each p (a ++ x)).
Proof.
  intros H. induction a as [|c a IH]; [exact H|].
  cbn [app after_each]. destruct (p c); [right|]; exact IH.
Qed.

Lemma after_each_right (p : ascii -> bool) (u b line : str) :
  In line (after_each p u) -> In (line ++ b) (after_each p (u ++ b)).
Proof.
  induction u as [|c u IH]; cbn [app after_each]; [intros []|].
  destruct (p c); [|exact IH].
  intros [<-|H]; [left; reflexivity|right; exact (IH H)].
Qed.

(** A piece of prose between whitespace is prose. *)
Lemma proseText_window (a u b : str) :
  Forall (fun c => is_space c = true) a ->
  Forall (fun c => is_space c = true) b ->
  proseText (a ++ u ++ b) = true -> proseText u = true.
Proof.
  intros Ha Hb H. unfold proseText in *.
  apply andb_true_iff in H. destruct H as [H Hlines].
  apply andb_true_iff in H. destruct H as [H Hchars].
  apply negb_true_iff in H.
  apply andb_true_iff; split; [apply andb_true_iff; split|].
  - apply negb_true_iff. exact (includes_window _ _ _ _ H).
  - rewrite !forallb_app in Hchars.
    apply andb_true_iff in Hchars. destruct Hchars as [_ Hchars].
    apply andb_true_iff in Hchars. tauto.
  - apply forallb_forall. intros line Hl. apply negb_true_iff.
    destruct (begins_like_code line) eqn:E; [|reflexivity]. exfalso.
    pose proof (begins_like_code_app line b Hb E) as E'.
    pose proof (proj1 (forallb_forall _ _) Hlines) as Hall.
    destruct Hl as [<-|Hl].
    + specialize (Hall (a ++ u ++ b) (or_introl eq_refl)).
      apply negb_true_iff in Hall. unfold begins_like_code in Hall, E'.
      rewrite (drop_space_run a _ Ha) in Hall. congruence.
    + assert (Hin : In (line ++ b) (line_starts (a ++ u ++ b))).
      { right. apply after_each_left, after_each_right, Hl. }
      specialize (Hall _ Hin). apply negb_true_iff in Hall. congruence.
Qed.

Lemma plainProse_trim (reply : str) :
  plainProse reply = true -> plainProse (trim reply) = true.
Proof.
  unfold plainProse. intros H. apply andb_true_iff in H. destruct H as [Hp Hh].
  apply andb_true_iff. split; [|now rewrite trim_idempotent].
  destruct (trim_window reply) as (a & b & E & Ha & Hb).
  rewrite E in Hp. exact (proseText_window _ _ _ Ha Hb Hp).
Qed.

End Prose.

(** ** detectResponseType on plain prose *)

Section Classified.

Import OutputParser.

Lemma space_class (fl : flags) (c : ascii) :
  set_mem fl false [ISpace] c = true -> is_space c = true.
Proof.
  unfold set_mem, items_mem. cbn [existsb citem_mem].
  destruct (ignoreCase fl); [|now rewrite orb_false_r].
  intros H. rewrite !orb_false_r in H.
  destruct (is_space c) eqn:E; [reflexivity|]. exfalso.
  destruct c as [[] [] [] [] [] [] [] []]; vm_compute in E, H; discriminate.
Qed.

Lemma space_run (fl : flags) (w : str) :
  Forall (fun c => set_mem fl false [ISpace] c = true) w ->
  Forall (fun c => is_space c = true) w.
Proof.
  induction 1 as [|c w Hc _ IH]; constructor; [exact (space_class fl c Hc)|exact IH].
Qed.

(** A line start followed by whitespace and a word: what the three
    patterns of [isCodeLike] that are anchored at a line start have in
    common. *)
Lemma line_word (words : list string) (tail : regex) (pre post : str) (x : mstate) :
  rmatch fl_m (rseq [RBol; rstar rspace; ralt (List.map rlit words); tail])
    (MState (rev pre) post []) accept = Some x ->
  words <> [] ->
  exists (w : str) (word : string) (st' : mstate),
    In post (line_starts (pre ++ post)) /\
    Forall (fun c => is_space c = true) w /\
    In word words /\
    post = w ++ js word ++ rest st' /\
    rmatch fl_m tail st' accept = Some x.
Proof.
  intros H Hne. rewrite rseq_step in H. cbn [rmatch] in H.
  destruct (at_bol fl_m (MState (rev pre) post [])) eqn:Eb; [|discriminate].
  rewrite rseq_step in H. unfold rstar, rspace in H.
  apply rquant_class_inv in H. destruct H as (w & st1 & Hr & _ & Hw & _ & H).
  cbn [rest] in Hr. rewrite rseq_step in H.
  apply ralt_inv in H; [|destruct words; [contradiction|discriminate]].
  destruct H as (r & Hin & H). apply in_map_iff in Hin.
  destruct Hin as (word & <- & Hword).
  apply rstr_inv_exact in H; [|reflexivity]. destruct H as (st2 & Hr2 & H).
  exists w, word, st2. split; [exact (at_bol_line_start _ _ _ Eb)|].
  split; [exact (space_run _ _ Hw)|]. split; [exact Hword|].
  split; [now rewrite Hr, Hr2|exact H].
Qed.

(** A line that begins, after whitespace, with one of the words. *)
Lemma drop_to_word (w : str) (word : string) (t : str) :
  Forall (fun c => is_space c = true) w ->
  starts_with_space (js word) = false -> js word <> [] ->
  drop_space (w ++ js word ++ t) = js word ++ t.
Proof.
  intros Hw Hs Hne. rewrite (drop_space_run _ _ Hw). apply drop_space_word.
  destruct (js word) as [|c s]; [contradiction|exact Hs].
Qed.

Lemma declaration_line (pre post : str) (x : mstate) :
  rmatch fl_m (rseq [RBol; rstar rspace; ralt (List.map rlit declarationWords);
                     rplus rspace])
    (MState (rev pre) post []) accept = Some x ->
  In post (line_starts (pre ++ post)) /\ begins_like_code post = true.
Proof.
  intros H. apply line_word in H; [|discriminate].
  destruct H as (w & word & st' & Hl & Hw & Hword & -> & H).
  split; [exact Hl|]. unfold rplus, rspace in H.
  apply rquant_class_inv in H. destruct H as (w2 & st2 & Hr & _ & Hw2 & Hlo & _).
  unfold begins_like_code.
  assert (Hd : drop_space (w ++ js word ++ rest st') = js word ++ rest st').
  { apply drop_to_word; [exact Hw| |];
      cbn [In declarationWords] in Hword;
      repeat (destruct Hword as [<-|Hword]; [try reflexivity; discriminate|]);
      destruct Hword. }
  rewrite Hd. cbv zeta. apply orb_true_iff. left. apply orb_true_iff. left.
  apply existsb_exists. exists word. split; [exact Hword|].
  rewrite startsWith_self, skipn_word, Hr. cbn [andb].
  destruct w2 as [|c w2]; [cbn in Hlo; lia|].
  apply Forall_cons_1 in Hw2. destruct Hw2 as [Hc _].
  exact (space_class _ _ Hc).
Qed.

Lemma control_line (pre post : str) (x : mstate) :
  rmatch fl_m (rseq [RBol; rstar rspace; ralt (List.map rlit controlWords);
                     rseq [rstar rspace; REol; REol]])
    (MState (rev pre) post []) accept = Some x ->
  In post (line_starts (pre ++ post)) /\ begins_like_code post = true.
Proof.
  intros H. apply line_word in H; [|discriminate].
  destruct H as (w & word & st' & Hl & Hw & Hword & -> & H).
  split; [exact Hl|]. rewrite rseq_step in H. unfold rstar, rspace in H.
  apply rquant_class_inv in H. destruct H as (w2 & st2 & Hr & _ & Hw2 & _ & H).
  rewrite rseq_step in H. cbn [rmatch] in H.
  destruct (at_eol fl_m st2) eqn:Ee; [|discriminate]. clear H.
  unfold begins_like_code.
  assert (Hd : drop_space (w ++ js word ++ rest st') = js word ++ rest st').
  { apply drop_to_word; [exact Hw| |];
      cbn [In controlWords] in Hword;
      repeat (destruct Hword as [<-|Hword]; [try reflexivity; discriminate|]);
      destruct Hword. }
  rewrite Hd. cbv zeta. apply orb_true_iff. left. apply orb_true_iff. right.
  apply existsb_exists. exists word. split; [exact Hword|].
  rewrite startsWith_self, skipn_word, Hr. cbn [andb].
  apply blank_run; [exact (space_run _ _ Hw2)|].
  unfold at_eol in Ee. destruct (rest st2) as [|c t]; [reflexivity|].
  cbn [multiline fl_m andb] in Ee. cbn [blank_to_eol]. now rewrite Ee.
Qed.

Lemma comment_line (pre post : str) (x : mstate) :
  rmatch fl_m
    (ralt (List.map (fun mark => rseq [RBol; rstar rspace; rlit mark]) commentMarks))
    (MState (rev pre) post []) accept = Some x ->
  In post (line_starts (pre ++ post)) /\ begins_like_code post = true.
Proof.
  intros H. apply ralt_inv in H; [|discriminate].
  destruct H as (r & Hin & H). apply in_map_iff in Hin.
  destruct Hin as (mark & <- & Hmark).
  rewrite rseq_step in H. cbn [rmatch] in H.
  destruct (at_bol fl_m (MState (rev pre) post [])) eqn:Eb; [|discriminate].
  split; [exact (at_bol_line_start _ _ _ Eb)|].
  rewrite rseq_step in H. unfold rstar, rspace in H.
  apply rquant_class_inv in H. destruct H as (w & st1 & Hr & _ & Hw & _ & H).
  cbn [rest] in Hr. cbn [rseq] in H.
  apply rstr_inv_exact in H; [|reflexivity]. destruct H as (st2 & Hr2 & _).
  unfold begins_like_code.
  assert (Hd : drop_space post = js mark ++ rest st2).
  { rewrite Hr, Hr2. apply drop_to_word; [exact (space_run _ _ Hw)| |];
      cbn [In commentMarks] in Hmark;
      repeat (destruct Hmark as [<-|Hmark]; [try reflexivity; discriminate|]);
      destruct Hmark. }
  rewrite Hd. cbv zeta. apply orb_true_iff. right.
  apply existsb_exists. exists mark. split; [exact Hmark|apply startsWith_self].
Qed.

Lemma punctuation_char (pre post : str) (x : mstate) :
  rmatch fl_none (RSet false [IChar "{"; IChar "}"; IChar "("; IChar ")"; IChar ";"])
    (MState (rev pre) post []) accept = Some x ->
  exists (c : ascii) (t : str), post = c :: t /\ codePunctuation c = true.
Proof.
  cbn [rmatch rest]. destruct post as [|c t]; [discriminate|].
  destruct (set_mem _ _ _ c) eqn:E; [|discriminate]. intros _.
  exists c, t. split; [reflexivity|exact E].
Qed.

(** A run of three backticks is in every run of six. *)
Lemma no_fence_no_six (t : str) :
  includes t (js "```") = false -> includes t (js "``````") = false.
Proof. exact (includes_longer t (js "```") (js "```")). Qed.

Lemma no_six_no_test (t : str) :
  includes t (js "``````") = false -> test fl_none sixBackticks t = false.
Proof.
  intros H. unfold test, exec.
  now rewrite (no_six_no_match fl_none [] t H : search fl_none sixBackticks [] t = None).
Qed.

(** A text without the separator is one piece. *)
Lemma split_aux_none (sep : str) :
  forall (s cur : str) (fuel : nat),
    length s < fuel -> includes s sep = false ->
    split_aux fuel sep cur s = [rev cur ++ s].
Proof.
  induction s as [|c s IH]; intros cur fuel Hf H.
  - destruct fuel; [inversion Hf|]. cbn. now rewrite app_nil_r.
  - destruct fuel as [|fuel]; [inversion Hf|].
    cbn [includes] in H. apply orb_false_iff in H. destruct H as [Hs H].
    cbn [split_aux]. rewrite Hs. rewrite IH; [|cbn in Hf; lia|exact H].
    cbn [rev]. now rewrite <- app_assoc.
Qed.

Lemma split_none (s sep : str) : includes s sep = false -> split s sep = [s].
Proof. intros H. unfold split. now rewrite split_aux_none by (auto; lia). Qed.

(** A fact about one character of a pattern, by cases on the character
    of the text. *)
Ltac fold_case :=
  let c := fresh "c" in
  let H := fresh "H" in
  intros c H; destruct c as [[] [] [] [] [] [] [] []];
  vm_compute in H; try discriminate H; reflexivity.

Lemma label_file_folds : Forall folds (js "File:").
Proof. repeat (constructor; [fold_case|]). constructor. Qed.

Lemma label_path_folds : Forall folds (js "Path:").
Proof. repeat (constructor; [fold_case|]). constructor. Qed.

Lemma line_feed_only (c : ascii) : char_mem fl_i nl c = true -> c = nl.
Proof. revert c. fold_case. Qed.

Lemma hash_only (c : ascii) : char_mem fl_i "#" c = true -> c = "#"%char.
Proof. revert c. fold_case. Qed.

(** The first character of a label is no whitespace and no [#]. *)
Lemma label_head (c : ascii) :
  lower_char c = "f"%char \/ lower_char c = "p"%char ->
  is_space c = false /\ ascii_eqb c "#" = false.
Proof.
  intros H. destruct c as [[] [] [] [] [] [] [] []];
    vm_compute in H; destruct H as [H|H]; try discriminate H;
    split; reflexivity.
Qed.

Lemma not_line_feed (c : ascii) :
  set_mem fl_i true [IChar nl] c = true -> negb (ascii_eqb nl c) = true.
Proof.
  unfold set_mem, items_mem. cbn [ignoreCase fl_i existsb citem_mem].
  destruct (ascii_eqb nl c); [discriminate|reflexivity].
Qed.

(** Where the probe has passed the start of the line and the optional
    [#]: a label stands there. *)
Lemma label_at (st : mstate) (x : mstate) :
  rmatch fl_i (rseq [ralt [rlit "File:"; rlit "Path:"]; rstar rspace; rplus rnotnl])
    st accept = Some x ->
  begins_with_label (rest st) = true /\
  exists (c : ascii) (t : str),
    rest st = c :: t /\ is_space c = false /\ ascii_eqb c "#" = false.
Proof.
  intros H. rewrite rseq_step in H. apply ralt_inv in H; [|discriminate].
  destruct H as (r & Hin & H).
  assert (Hlabel : forall label : string,
             In label ["file:"; "path:"]%string ->
             (exists (u : str) (st3 : mstate),
                 rest st = u ++ rest st3 /\ toLowerCase u = js label /\
                 rmatch fl_i (rseq [rstar rspace; rplus rnotnl]) st3 accept = Some x) ->
             begins_with_label (rest st) = true /\
             exists (c : ascii) (t : str),
               rest st = c :: t /\ is_space c = false /\ ascii_eqb c "#" = false).
  { intros label Hl (u & st3 & Hr & Hu & Hm).
    rewrite rseq_step in Hm. unfold rstar, rspace in Hm.
    apply rquant_class_inv in Hm. destruct Hm as (w3 & st4 & Hr3 & _ & _ & _ & Hm).
    cbn [rseq] in Hm. unfold rplus, rnotnl in Hm.
    apply rquant_class_inv in Hm. destruct Hm as (w4 & st5 & Hr4 & _ & Hw4 & Hlo & _).
    assert (Hlen : length u = length (js label)).
    { rewrite <- Hu. unfold toLowerCase. now rewrite length_map. }
    split.
    - unfold begins_with_label. apply existsb_exists. exists label.
      split; [exact Hl|]. rewrite Hr. apply andb_true_iff. split.
      + unfold toLowerCase. rewrite map_app. fold (toLowerCase u). rewrite Hu.
        apply startsWith_self.
      + rewrite <- Hlen, skipn_word, Hr3, Hr4.
        destruct w4 as [|c w4]; [cbn in Hlo; lia|].
        apply Forall_cons_1 in Hw4. destruct Hw4 as [Hc _].
        rewrite existsb_app. apply orb_true_iff. right.
        cbn [app existsb]. now rewrite (not_line_feed c Hc).
    - destruct u as [|c u]; [destruct Hl as [<-|[<-|[]]]; discriminate Hlen|].
      exists c, (u ++ rest st3). split; [exact Hr|].
      apply label_head.
      destruct Hl as [<-|[<-|[]]]; cbn [toLowerCase List.map] in Hu;
        injection Hu as Hc _; [left|right]; exact Hc. }
  destruct Hin as [<-|[<-|[]]].
  - apply (Hlabel "file:"%string); [left; reflexivity|].
    destruct (rstr_inv_folded _ _ _ _ label_file_folds H) as (u & st3 & Hr & Hu & Hm).
    exists u, st3. auto.
  - apply (Hlabel "path:"%string); [right; left; reflexivity|].
    destruct (rstr_inv_folded _ _ _ _ label_path_folds H) as (u & st3 & Hr & Hu & Hm).
    exists u, st3. auto.
Qed.

(** After the whitespace that follows the [#], the label. *)
Lemma label_after_space (st : mstate) (k : cont) (x : mstate) :
  (forall st' y, k st' = Some y ->
                 rmatch fl_i
                   (rseq [ralt [rlit "File:"; rlit "Path:"]; rstar rspace; rplus rnotnl])
                   st' accept = Some y) ->
  rmatch fl_i (rseq [rstar rspace]) st k = Some x ->
  begins_with_label (drop_space (rest st)) = true /\
  match rest st with
  | c :: _ => ascii_eqb c "#" = false
  | [] => True
  end.
Proof.
  intros Hk H. cbn [rseq] in H. unfold rstar, rspace in H.
  apply rquant_class_inv in H. destruct H as (w & st2 & Hr & _ & Hw & _ & H).
  apply Hk, label_at in H. destruct H as (Hb & c & t & Hc & Hs & Hh).
  apply space_run in Hw. rewrite Hr, (drop_space_run _ _ Hw), Hc.
  cbn [drop_space]. rewrite Hs, <- Hc. split; [exact Hb|].
  rewrite Hc. destruct w as [|d w]; cbn [app]; [exact Hh|].
  apply Forall_cons_1 in Hw. destruct Hw as [Hd _].
  destruct (ascii_eqb d "#") eqn:E; [|reflexivity].
  apply ascii_eqb_eq in E. subst d. vm_compute in Hd. discriminate Hd.
Qed.

Lemma header_at (st : mstate) (x : mstate) :
  rmatch fl_i
    (rseq [ropt (rseq [RChar "#"; ropt (RChar "#"); rstar rspace]);
           ralt [rlit "File:"; rlit "Path:"]; rstar rspace; rplus rnotnl])
    st accept = Some x ->
  is_file_header (rest st) = true.
Proof.
  intros H. rewrite rseq_step in H. apply ropt_inv in H.
  unfold is_file_header. apply orb_true_iff.
  destruct H as [H|(k1 & Hk1 & H)].
  { left. exact (proj1 (label_at st x H)). }
  right. change (clear_caps _ st) with st in H.
  rewrite rseq_step in H. cbn [rmatch] in H.
  destruct (rest st) as [|c s] eqn:Er; [discriminate|].
  destruct (char_mem fl_i "#" c) eqn:Ec; [|discriminate].
  apply hash_only in Ec. subst c.
  unfold after_hashes. rewrite ascii_eqb_refl.
  rewrite rseq_step in H. apply ropt_inv in H.
  destruct H as [H|(k2 & Hk2 & H)].
  - apply (label_after_space _ _ _ Hk1) in H. cbn [advance rest] in H.
    destruct H as [Hb Hh]. destruct s as [|d s']; [exact Hb|]. now rewrite Hh.
  - change (clear_caps _ ?a) with a in H. cbn [rmatch advance rest] in H.
    destruct s as [|d s']; [discriminate|].
    destruct (char_mem fl_i "#" d) eqn:Ed; [|discriminate].
    apply hash_only in Ed. subst d. rewrite ascii_eqb_refl.
    apply Hk2 in H. apply (label_after_space _ _ _ Hk1) in H.
    cbn [advance rest] in H. exact (proj1 H).
Qed.

(** The probe for a file header matches only at a header line. *)
Lemma header_line (pre post : str) (x : mstate) :
  rmatch fl_i fileHeaderProbe (MState (rev pre) post []) accept = Some x ->
  exists line : str,
    In line (header_starts (pre ++ post)) /\ is_file_header line = true.
Proof.
  intros H. unfold fileHeaderProbe in H.
  rewrite rseq_step in H. apply ralt_inv in H; [|discriminate].
  destruct H as (r & Hin & H). destruct Hin as [<-|[<-|[]]].
  - cbn [rmatch] in H. unfold at_bol in H. cbn [seen multiline fl_i andb] in H.
    destruct (rev pre) as [|c q] eqn:Ep; [|discriminate].
    apply (f_equal (@rev ascii)) in Ep. rewrite rev_involutive in Ep. subst pre.
    exists post. split; [left; reflexivity|]. exact (header_at _ _ H).
  - unfold rnl in H. cbn [rmatch rest] in H.
    destruct post as [|c post']; [discriminate|].
    destruct (char_mem fl_i nl c) eqn:Ec; [|discriminate].
    apply line_feed_only in Ec. subst c.
    exists post'. split; [|exact (header_at _ _ H)].
    right. apply after_each_app. apply ascii_eqb_refl.
Qed.

Lemma no_header_no_test (t : str) :
  forallb (fun line => negb (is_file_header line)) (header_starts t) = true ->
  test fl_i fileHeaderProbe t = false.
Proof.
  intros Hh. unfold test, exec.
  rewrite search_none; [reflexivity|]. intros pre post ->.
  destruct (rmatch fl_i fileHeaderProbe _ accept) as [x|] eqn:E; [|reflexivity].
  exfalso. rewrite app_nil_r in E. apply header_line in E.
  destruct E as (line & Hin & Hl).
  pose proof (proj1 (forallb_forall _ _) Hh line Hin) as Hn. cbv beta in Hn.
  rewrite Hl in Hn. discriminate.
Qed.

Lemma plain_not_code_like (t : str) :
  forallb (fun c => negb (codePunctuation c)) t = true ->
  forallb (fun line => negb (begins_like_code line)) (line_starts t) = true ->
  isCodeLike t = false.
Proof.
  intros Hchars Hlines. destruct (isCodeLike t) eqn:E; [|reflexivity]. exfalso.
  assert (Hline : forall pre post,
             t = pre ++ post ->
             In post (line_starts (pre ++ post)) /\ begins_like_code post = true ->
             False).
  { intros pre post -> [Hin Hb].
    pose proof (proj1 (forallb_forall _ _) Hlines post Hin) as Hn.
    cbv beta in Hn. rewrite Hb in Hn. discriminate. }
  unfold isCodeLike in E. apply existsb_exists in E.
  destruct E as (p & Hin & Ht).
  assert (Hm : exists pre post x,
             t = pre ++ post /\
             rmatch (fst p) (snd p) (MState (rev pre) post []) accept = Some x).
  { unfold test, exec in Ht.
    destruct (search (fst p) (snd p) [] t) as [m|] eqn:Es; [|discriminate].
    apply search_some in Es. destruct Es as (pre & post & Et & Hm & _).
    rewrite app_nil_r in Hm. eauto. }
  destruct Hm as (pre & post & x & Et & Hm).
  destruct Hin as [<-|[<-|[<-|[<-|[]]]]]; cbn [fst snd] in Hm.
  - apply punctuation_char in Hm. destruct Hm as (c & u & -> & Hc).
    rewrite Et, forallb_app in Hchars. apply andb_true_iff in Hchars.
    destruct Hchars as [_ Hchars]. cbn [forallb] in Hchars. rewrite Hc in Hchars.
    discriminate.
  - exact (Hline pre post Et (declaration_line pre post x Hm)).
  - exact (Hline pre post Et (control_line pre post x Hm)).
  - exact (Hline pre post Et (comment_line pre post x Hm)).
Qed.

(** Plain prose, whitespace at its ends cut off, is classified
    [explanation_only]. *)
Lemma plainProse_classified (reply : str) :
  plainProse reply = true -> detectResponseType (trim reply) = ExplanationOnly.
Proof.
  intros Hp. apply plainProse_trim in Hp. unfold plainProse in Hp.
  rewrite trim_idempotent in Hp.
  apply andb_true_iff in Hp. destruct Hp as [Hp Hh]. unfold proseText in Hp.
  apply andb_true_iff in Hp. destruct Hp as [Hp Hlines].
  apply andb_true_iff in Hp. destruct Hp as [H Hchars].
  apply negb_true_iff in H.
  unfold detectResponseType.
  rewrite (no_header_no_test _ Hh).
  rewrite (split_none _ _ H).
  rewrite (no_six_no_test _ (no_fence_no_six _ H)).
  rewrite (plain_not_code_like _ Hchars Hlines).
  reflexivity.
Qed.

End Classified.

(** C5, as stated, fails.  The reply [proseReply] is plain prose: no
    fence, no punctuation of code, no line that begins like code, no
    header of a file, and [detectResponseType] classifies it
    [explanation_only].
    Parsed for a TypeScript file it comes back with confidence 0.8,
    because its second line begins with the word "type", and tagged
    [code_only]. *)
Lemma parseAIResponse_prose_counterexample :
  plainProse proseReply = true /\
  OutputParser.detectResponseType (trim proseReply) = ExplanationOnly /\
  forall (buildCodeBlock : str -> rmatch_result -> str -> str -> CodeBlock)
         (parseWithBlocks : str -> list CodeBlock -> ParseContext -> ParsedOutput)
         (serializeMultiFileChanges : list MultiFileChange -> str),
  exists out : ParsedOutput,
    OutputParser.parseAIResponse buildCodeBlock parseWithBlocks
      serializeMultiFileChanges 2 proseReply typescriptContext
    = Some (Return out) /\
    hasCodeBlocks out = false /\
    responseType (metadata out) = CodeOnly /\
    (confidence out == 0.8)%Q /\
    ~ (confidence out <= 0.6)%Q.
Proof.
  split; [vm_compute; reflexivity|].
  split; [vm_compute; reflexivity|]. intros bb pw ser.
  eexists. split; [vm_compute; reflexivity|].
  repeat split; try reflexivity. vm_compute. intros H. apply H. reflexivity.
Qed.

(** C5, amended.  A reply in plain prose (no run of three backticks,
    none of the characters [{ } ( ) ;], no line that begins like code,
    no line that is a header [File:] or [Path:]) is classified
    [explanation_only] by [detectResponseType] and is parsed without an
    exception into an output whose [hasCodeBlocks] is false and whose
    confidence is 0.6, or 0.8 when the caller names an original
    language and it is the language detected in the reply; it is 0.6
    when the caller names no language. *)
Theorem parseAIResponse_explanation_only
    (buildCodeBlock : str -> rmatch_result -> str -> str -> CodeBlock)
    (parseWithBlocks : str -> list CodeBlock -> ParseContext -> ParsedOutput)
    (serializeMultiFileChanges : list MultiFileChange -> str)
    (depth : nat) (response : str) (context : ParseContext) :
  plainProse response = true ->
  OutputParser.detectResponseType (trim response) = ExplanationOnly /\
  exists out : ParsedOutput,
    OutputParser.parseAIResponse buildCodeBlock parseWithBlocks
      serializeMultiFileChanges (S (S depth)) response context
    = Some (Return out) /\
    hasCodeBlocks out = false /\
    (confidence out
     == if languageMatches context (trim response) then 0.8 else 0.6)%Q /\
    (originalLanguage context = None -> (confidence out == 0.6)%Q).
Proof.
  intros Hp.
  pose proof (plainProse_classified _ Hp) as H.
  split; [exact H|].
  destruct (parseAI_prose buildCodeBlock parseWithBlocks
              serializeMultiFileChanges depth response context H)
    as (context' & Hl & ->).
  assert (Hc : (confidence (OutputParser.parseCodeOnlyResponse (trim response) context')
                == if languageMatches context (trim response) then 0.8 else 0.6)%Q).
  { simpl confidence.
    rewrite (languageMatches_ext context context') by (symmetry; exact Hl).
    apply codeOnly_confidence.
    apply (explanation_only_facts _ H). }
  eexists. split; [reflexivity|]. split; [reflexivity|]. split; [exact Hc|].
  intros Hn. rewrite Hc. unfold languageMatches. rewrite Hn. reflexivity.
Qed.

Lemma parseAIResponse_explanation_only_witness :
  plainProse (js "Looks good to me.") = true /\
  OutputParser.detectResponseType (trim (js "Looks good to me.")) = ExplanationOnly /\
  exists out : ParsedOutput,
    OutputParser.parseAIResponse
      (fun _ _ _ code => Build_CodeBlock code None None 0 0 false [])
      (fun response _ context => OutputParser.parseCodeOnlyResponse response context)
      (fun _ => [])
      2 (js "Looks good to me.") no_context
    = Some (Return out) /\
    hasCodeBlocks out = false /\
    (confidence out
     == if languageMatches no_context (trim (js "Looks good to me."))
        then 0.8 else 0.6)%Q /\
    (originalLanguage no_context = None -> (confidence out == 0.6)%Q).
Proof.
  split; [vm_compute; reflexivity|].
  apply (parseAIResponse_explanation_only _ _ _ 0 (js "Looks good to me.") no_context).
  vm_compute; reflexivity.
Defined.

(** ** The patch history *)

Section History.

Import PatchEngine.

Variable buildCodeBlock : str -> rmatch_result -> str -> str -> CodeBlock.
Variable parseWithBlocks : str -> list CodeBlock -> ParseContext -> ParsedOutput.
Variable serializeMultiFileChanges : list MultiFileChange -> str.
Variable stackDepth : nat.

Local Abbreviation inline :=
  (applyInlinePatch buildCodeBlock parseWithBlocks serializeMultiFileChanges stackDepth).
Local Abbreviation generation :=
  (applyGenerationPatch buildCodeBlock parseWithBlocks serializeMultiFileChanges stackDepth).
Local Abbreviation multifile :=
  (applyMultiFilePatch buildCodeBlock parseWithBlocks serializeMultiFileChanges stackDepth).
Local Abbreviation smart :=
  (applySmartPatch buildCodeBlock parseWithBlocks serializeMultiFileChanges stackDepth).

Lemma addToHistory_successful (entry : PatchHistory) (history : list PatchHistory) :
  ph_success entry = true -> all_successful history ->
  all_successful (addToHistory entry history).
Proof.
  intros He Hh. unfold addToHistory, all_successful.
  assert (H : Forall (fun e => ph_success e = true) (entry :: history))
    by (constructor; assumption).
  destruct (maxHistorySize <? length (entry :: history)); [|exact H].
  apply Forall_take, H.
Qed.

Lemma addChanges_successful (host : Host) (context : CodeContext)
    (p : ParsedOutput) (changes : list MultiFileChange) :
  forall (i : nat) (history : list PatchHistory),
    all_successful history ->
    all_successful (addChanges host i changes context p history).
Proof.
  induction changes as [|c changes IH]; intros i history H; simpl; [exact H|].
  apply IH. apply addToHistory_successful; [reflexivity|exact H].
Qed.

Ltac crush_step :=
  repeat first
    [ progress (unfold step, fail_with in *)
    | match goal with
      | H : Some _ = Some _ |- _ => injection H as H
      | H : (_, _) = (_, _) |- _ => injection H as ? ?
      | H : None = Some _ |- _ => discriminate H
      | H : context [match ?x with _ => _ end] |- _ =>
          let E := fresh "E" in destruct x eqn:E
      end
    | progress subst ].

Ltac finish_step :=
  try apply hs_same;
  repeat match goal with
         | H : bindc ?m _ = _ |- _ =>
             unfold bindc in H; destruct m eqn:?; [|discriminate H];
             injection H as ? ?; subst
         | |- context [if ?c then _ else _] => destruct c eqn:?
         | H : _ && _ = true |- _ => apply andb_true_iff in H; destruct H
         end;
  subst; try discriminate; try apply hs_same;
  try (apply hs_entry; auto; congruence);
  try (apply hs_changes; auto; congruence).

Lemma inline_step host fsPath originalText aiResponse context options history out history' :
  inline host fsPath originalText aiResponse context options history = Some (out, history') ->
  history_step host options history history'.
Proof.
  unfold applyInlinePatch, applyCodeChange. intros H. crush_step; finish_step.
Qed.

Lemma generation_step host fsPath line aiResponse context options history out history' :
  generation host fsPath line aiResponse context options history = Some (out, history') ->
  history_step host options history history'.
Proof.
  unfold applyGenerationPatch. intros H. crush_step; finish_step.
Qed.

Lemma multifile_step host aiResponse context options history out history' :
  multifile host aiResponse context options history = Some (out, history') ->
  history_step host options history history'.
Proof.
  unfold applyMultiFilePatch, step, fail_with. intros H.
  destruct (parse _ _ _ _ _ _ _) as [[p|e]|]; try discriminate;
    [|injection H as _ <-; apply hs_same].
  destruct (negb (is_PTMultifile (patchType p)));
    [injection H as _ <-; apply hs_same|].
  destruct (OutputParser.parseMultiFileResponse aiResponse) as [[changes|e]|];
    try discriminate; [|injection H as _ <-; apply hs_same].
  destruct changes as [|c changes]; [injection H as _ <-; apply hs_same|].
  destruct (if negb (autoApply options) then _ else _) as [confirmed|e];
    [|injection H as _ <-; apply hs_same].
  destruct (negb confirmed); [injection H as _ <-; apply hs_same|].
  destruct (optValidateSyntax options && _);
    [injection H as _ <-; apply hs_same|].
  destruct (applyEdit host) as [success|e] eqn:Ea;
    [|injection H as _ <-; apply hs_same].
  destruct (success && trackChanges options) eqn:Et;
    injection H as _ <-; [|apply hs_same].
  apply andb_true_iff in Et. destruct Et as [-> Ht].
  apply (hs_changes host options history context p (c :: changes)); assumption.
Qed.

Lemma smart_step host fsPath originalText line aiResponse context options history out history' :
  smart host fsPath originalText line aiResponse context options history
  = Some (out, history') ->
  history_step host options history history'.
Proof.
  unfold applySmartPatch. intros H.
  destruct (OutputParser.parseAIResponse _ _ _ _ _ _) as [[p|e]|]; try discriminate.
  - destruct (patchType p);
      eauto using inline_step, generation_step, multifile_step.
  - injection H as _ <-. apply hs_same.
Qed.

Lemma history_step_successful host options history history' :
  history_step host options history history' ->
  all_successful history -> all_successful history'.
Proof.
  intros [|entry _ _ He|context p changes _ _] H.
  - exact H.
  - apply addToHistory_successful; assumption.
  - apply addChanges_successful, H.
Qed.

Lemma history_step_needs_edit host options history history' :
  history_step host options history history' ->
  applyEdit host <> Return true \/ trackChanges options = false ->
  history' = history.
Proof.
  intros [|entry Ha Ht _|context p changes Ha Ht] [H|H];
    try reflexivity; try contradiction; congruence.
Qed.

Lemma history_after_successful (c : call) (history : list PatchHistory) :
  all_successful history ->
  all_successful
    (history_after buildCodeBlock parseWithBlocks serializeMultiFileChanges
       stackDepth c history).
Proof.
  intros H. unfold history_after.
  destruct (run_call _ _ _ _ c history) as [[out history']|] eqn:E; [|exact H].
  destruct c; simpl in E.
  - eapply history_step_successful; [eapply inline_step, E|exact H].
  - eapply history_step_successful; [eapply generation_step, E|exact H].
  - eapply history_step_successful; [eapply multifile_step, E|exact H].
  - eapply history_step_successful; [eapply smart_step, E|exact H].
  - injection E as _ <-. constructor.
Qed.

Lemma run_calls_successful (calls : list call) :
  forall history : list PatchHistory,
    all_successful history ->
    all_successful
      (run_calls buildCodeBlock parseWithBlocks serializeMultiFileChanges
         stackDepth calls history).
Proof.
  induction calls as [|c calls IH]; intros history H; simpl; [exact H|].
  apply IH, history_after_successful, H.
Qed.

End History.

(** C10.  Whatever calls are made on the engine, in whatever order and
    with whatever answers of the host, every entry of the patch history
    has [success = true]; and the inline, generation and multi-file
    patches leave the history as it was unless the host applied the edit
    (and changes are tracked): a failed application is never recorded. *)
Theorem patch_history_all_successful :
  (forall (buildCodeBlock : str -> rmatch_result -> str -> str -> CodeBlock)
          (parseWithBlocks : str -> list CodeBlock -> ParseContext -> ParsedOutput)
          (serializeMultiFileChanges : list MultiFileChange -> str)
          (stackDepth : nat) (calls : list PatchEngine.call),
      all_successful
        (PatchEngine.run_calls buildCodeBlock parseWithBlocks
           serializeMultiFileChanges stackDepth calls [])) /\
  (forall (buildCodeBlock : str -> rmatch_result -> str -> str -> CodeBlock)
          (parseWithBlocks : str -> list CodeBlock -> ParseContext -> ParsedOutput)
          (serializeMultiFileChanges : list MultiFileChange -> str)
          (stackDepth : nat) (c : PatchEngine.call) (host : Host)
          (options : PatchOptions) (history : list PatchHistory),
      PatchEngine.call_host c = Some (host, options) ->
      applyEdit host <> Return true \/ trackChanges options = false ->
      PatchEngine.history_after buildCodeBlock parseWithBlocks
        serializeMultiFileChanges stackDepth c history = history).
Proof.
  split.
  - intros bb pw ser d calls. apply run_calls_successful. constructor.
  - intros bb pw ser d c host options history Hc Hf.
    unfold PatchEngine.history_after.
    destruct (PatchEngine.run_call _ _ _ _ c history) as [[out history']|] eqn:E;
      [|reflexivity].
    destruct c; simpl in E, Hc; try discriminate;
      injection Hc as <- <-;
      eapply history_step_needs_edit; eauto using inline_step, generation_step,
        multifile_step, smart_step.
Qed.

(** ** ProjectIndexer: the index object *)

Lemma str_eqb_eq (a b : str) : str_eqb a b = true <-> a = b.
Proof.
  revert b; induction a as [|x a IH]; intros [|y b]; simpl; split; intros H;
    try reflexivity; try discriminate.
  - apply andb_true_iff in H. destruct H as [H1 H2].
    apply ascii_eqb_eq in H1. apply IH in H2. congruence.
  - injection H as -> ->. rewrite ascii_eqb_refl. simpl. apply IH. reflexivity.
Qed.

Lemma str_eqb_neq (a b : str) : str_eqb a b = false <-> a <> b.
Proof.
  split.
  - intros H E. apply str_eqb_eq in E. congruence.
  - intros H. destruct (str_eqb a b) eqn:E; [|reflexivity].
    apply str_eqb_eq in E. contradiction.
Qed.

Lemma str_eqb_same (a : str) : str_eqb a a = true.
Proof. apply str_eqb_eq. reflexivity. Qed.

Section IndexObject.

Implicit Types (key k : str) (value : FileIndex) (index : ProjectIndex).
Implicit Types props : list (str * FileIndex).

Lemma has_key_In key props :
  has_key key props = true <-> In key (List.map fst props).
Proof.
  unfold has_key. rewrite existsb_exists. split.
  - intros (p & Hp & E). apply str_eqb_eq in E. subst key.
    exact (in_map fst props p Hp).
  - intros H. apply in_map_iff in H. destruct H as (p & <- & Hp).
    exists p. split; [exact Hp|apply str_eqb_same].
Qed.

Lemma has_key_cons key k value props :
  has_key key ((k, value) :: props) = str_eqb k key || has_key key props.
Proof. reflexivity. Qed.

Lemma replace_value_keys key value props :
  List.map fst (replace_value key value props) = List.map fst props.
Proof.
  induction props as [|[k v] props IH]; [reflexivity|].
  cbn [replace_value]. destruct (str_eqb k key); cbn [List.map fst]; congruence.
Qed.

Lemma insert_index_keys (n : N) key value props :
  Permutation (List.map fst (insert_index n key value props))
    (key :: List.map fst props).
Proof.
  induction props as [|[k v] props IH]; [reflexivity|].
  cbn [insert_index].
  destruct (array_index k) as [m|]; [destruct (m <? n)%N|]; try reflexivity.
  cbn [List.map fst]. rewrite IH. apply perm_swap.
Qed.

(** An assignment to [__proto__] leaves the own properties alone. *)
Lemma index_set_proto value index :
  properties (index_set protoKey value index) = properties index.
Proof. reflexivity. Qed.

Lemma index_set_keys_old key value index :
  In key (index_keys index) ->
  index_keys (index_set key value index) = index_keys index.
Proof.
  intros H. unfold index_set, index_keys.
  destruct (str_eqb key protoKey); [reflexivity|].
  cbn [properties]. rewrite (proj2 (has_key_In _ _) H).
  apply replace_value_keys.
Qed.

Lemma index_set_keys_new key value index :
  key <> protoKey -> ~ In key (index_keys index) ->
  Permutation (index_keys (index_set key value index)) (key :: index_keys index).
Proof.
  intros Hk H. unfold index_set, index_keys.
  rewrite (proj2 (str_eqb_neq _ _) Hk).
  cbn [properties].
  destruct (has_key key (properties index)) eqn:E.
  { apply has_key_In in E. contradiction. }
  destruct (array_index key) as [n|]; [apply insert_index_keys|].
  rewrite map_app. cbn [List.map fst]. symmetry. apply Permutation_cons_append.
Qed.

(** No assignment removes a key. *)
Lemma index_set_keys_mono key value index k :
  In k (index_keys index) -> In k (index_keys (index_set key value index)).
Proof.
  intros H.
  destruct (List.in_dec (List.list_eq_dec ascii_dec) key (index_keys index))
    as [Hin|Hout].
  { now rewrite index_set_keys_old. }
  destruct (str_eqb key protoKey) eqn:E.
  - apply str_eqb_eq in E. subst key. unfold index_keys.
    now rewrite index_set_proto.
  - apply str_eqb_neq in E.
    apply (Permutation_in _ (Permutation_sym (index_set_keys_new _ value _ E Hout))).
    right. exact H.
Qed.

Lemma index_set_keys_self key value index :
  key <> protoKey -> In key (index_keys (index_set key value index)).
Proof.
  intros Hk.
  destruct (List.in_dec (List.list_eq_dec ascii_dec) key (index_keys index))
    as [Hin|Hout].
  { now rewrite index_set_keys_old. }
  apply (Permutation_in _ (Permutation_sym (index_set_keys_new _ value _ Hk Hout))).
  left. reflexivity.
Qed.

Lemma index_set_keys_NoDup key value index :
  List.NoDup (index_keys index) -> List.NoDup (index_keys (index_set key value index)).
Proof.
  intros H.
  destruct (List.in_dec (List.list_eq_dec ascii_dec) key (index_keys index))
    as [Hin|Hout].
  { now rewrite index_set_keys_old. }
  destruct (str_eqb key protoKey) eqn:E.
  - apply str_eqb_eq in E. subst key. unfold index_keys.
    now rewrite index_set_proto.
  - apply str_eqb_neq in E.
    apply (Permutation_NoDup (Permutation_sym (index_set_keys_new _ value _ E Hout))).
    constructor; assumption.
Qed.

Lemma own_property_replace key value props k :
  has_key key props = true ->
  own_property k (replace_value key value props) =
  if str_eqb key k then Some value else own_property k props.
Proof.
  induction props as [|[k0 v0] props IH]; [discriminate|].
  rewrite has_key_cons. cbn [replace_value].
  destruct (str_eqb k0 key) eqn:E; cbn [orb own_property]; intros H.
  - apply str_eqb_eq in E. subst k0. destruct (str_eqb key k); reflexivity.
  - rewrite (IH H). destruct (str_eqb k0 k) eqn:E2; [|reflexivity].
    apply str_eqb_eq in E2. subst k0.
    destruct (str_eqb key k) eqn:E3; [|reflexivity].
    apply str_eqb_eq in E3. subst key. rewrite str_eqb_same in E. discriminate.
Qed.

Lemma own_property_insert (n : N) key value props k :
  has_key key props = false ->
  own_property k (insert_index n key value props) =
  if str_eqb key k then Some value else own_property k props.
Proof.
  induction props as [|[k0 v0] props IH]; [reflexivity|].
  rewrite has_key_cons. intros H. apply orb_false_iff in H. destruct H as [H1 H2].
  cbn [insert_index].
  destruct (array_index k0) as [m|]; [destruct (m <? n)%N|]; try reflexivity.
  cbn [own_property]. rewrite (IH H2).
  destruct (str_eqb k0 k) eqn:E2; [|reflexivity].
  apply str_eqb_eq in E2. subst k0.
  destruct (str_eqb key k) eqn:E3; [|reflexivity].
  apply str_eqb_eq in E3. subst key. rewrite str_eqb_same in H1. discriminate.
Qed.

Lemma own_property_app key value props k :
  has_key key props = false ->
  own_property k (props ++ [(key, value)]) =
  if str_eqb key k then Some value else own_property k props.
Proof.
  induction props as [|[k0 v0] props IH]; [reflexivity|].
  rewrite has_key_cons. intros H. apply orb_false_iff in H. destruct H as [H1 H2].
  cbn [app own_property]. rewrite (IH H2).
  destruct (str_eqb k0 k) eqn:E2; [|reflexivity].
  apply str_eqb_eq in E2. subst k0.
  destruct (str_eqb key k) eqn:E3; [|reflexivity].
  apply str_eqb_eq in E3. subst key. rewrite str_eqb_same in H1. discriminate.
Qed.

(** What a read finds after an assignment. *)
Lemma index_get_set key k value index :
  index_get k (index_set key value index) =
  if str_eqb key protoKey then index_get k index
  else if str_eqb key k then Some value else index_get k index.
Proof.
  unfold index_get, index_set.
  destruct (str_eqb key protoKey); [reflexivity|]. cbn [properties].
  destruct (has_key key (properties index)) eqn:E.
  - now apply own_property_replace.
  - destruct (array_index key) as [n|].
    + now apply own_property_insert.
    + now apply own_property_app.
Qed.

End IndexObject.

(** ** ProjectIndexer: the tasks *)

Section Tasks.

Import ProjectIndexer.

Implicit Types (ts : list Task) (t : Task).

Lemma builds_app ts ts' :
  builds_in_flight (ts ++ ts') = builds_in_flight ts + builds_in_flight ts'.
Proof. unfold builds_in_flight. now rewrite List.filter_app, length_app. Qed.

Lemma builds_cons t ts :
  builds_in_flight (t :: ts) = (if is_build t then 1 else 0) + builds_in_flight ts.
Proof. unfold builds_in_flight. cbn [List.filter]. now destruct (is_build t). Qed.

Lemma builds_split ts (i : nat) t :
  ts !! i = Some t ->
  builds_in_flight ts
  = builds_in_flight (without_task i ts) + (if is_build t then 1 else 0).
Proof.
  intros H. rewrite <- (take_drop_middle ts i t H) at 1.
  unfold without_task. rewrite !builds_app, builds_cons. lia.
Qed.

Lemma builds_insert ts (i : nat) t t' :
  ts !! i = Some t -> is_build t' = is_build t ->
  builds_in_flight (<[i:=t']> ts) = builds_in_flight ts.
Proof.
  intros H E. rewrite <- (take_drop_middle ts i t H) at 2.
  pose proof (lookup_lt_Some _ _ _ H) as Hlt.
  rewrite <- (take_drop_middle (<[i:=t']> ts) i t').
  2:{ now apply list_lookup_insert_eq. }
  rewrite take_insert_ge by lia. rewrite drop_insert_lt by lia.
  rewrite !builds_app, !builds_cons, E. reflexivity.
Qed.

Lemma builds_pos ts (i : nat) t :
  ts !! i = Some t -> is_build t = true -> 1 <= builds_in_flight ts.
Proof. intros H E. rewrite (builds_split ts i t H), E. lia. Qed.

(** Of a single build there is one position. *)
Lemma builds_unique ts :
  forall (i j : nat) t t',
    builds_in_flight ts <= 1 ->
    ts !! i = Some t -> is_build t = true ->
    ts !! j = Some t' -> is_build t' = true -> i = j.
Proof.
  induction ts as [|a ts IH]; intros i j t t' Hc Hi Ei Hj Ej.
  { rewrite lookup_nil in Hi. discriminate. }
  rewrite builds_cons in Hc.
  destruct i as [|i], j as [|j]; [reflexivity| | |].
  - cbn in Hi. injection Hi as ->. rewrite Ei in Hc.
    cbn in Hj. pose proof (builds_pos ts j t' Hj Ej). lia.
  - cbn in Hj. injection Hj as ->. rewrite Ej in Hc.
    cbn in Hi. pose proof (builds_pos ts i t Hi Ei). lia.
  - f_equal. apply (IH i j t t'); auto. lia.
Qed.

Lemma without_task_In ts (i : nat) t : In t (without_task i ts) -> In t ts.
Proof.
  unfold without_task. intros H. apply in_app_or in H.
  destruct H as [H|H].
  - rewrite <- (firstn_skipn i ts). apply in_or_app. left. exact H.
  - rewrite <- (firstn_skipn (S i) ts). apply in_or_app. right. exact H.
Qed.

Lemma without_task_insert ts (i : nat) t :
  without_task i (<[i:=t]> ts) = without_task i ts.
Proof.
  unfold without_task. rewrite take_insert_ge by lia.
  now rewrite drop_insert_lt by lia.
Qed.

Lemma without_last ts t : without_task (length ts) (ts ++ [t]) = ts.
Proof.
  unfold without_task. rewrite take_app_length.
  rewrite skipn_all2 by (rewrite length_app; simpl; lia).
  apply app_nil_r.
Qed.

Lemma lookup_In ts (i : nat) t : ts !! i = Some t -> In t ts.
Proof. intros H. apply list_elem_of_In. exact (list_elem_of_lookup_2 _ _ _ H). Qed.

Lemma In_lookup ts t : In t ts -> exists i : nat, ts !! i = Some t.
Proof. intros H. apply list_elem_of_In in H. exact (list_elem_of_lookup_1 _ _ H). Qed.

End Tasks.

(** ** ProjectIndexer: builds and updates *)

Section IndexerFacts.

Import ProjectIndexer.

Variable parseFile : bool -> str -> str -> ParseResult.
Variable host : IndexerHost.

Local Abbreviation call := (buildIndex_call host).
Local Abbreviation resume' := (resume parseFile host).
Local Abbreviation step' := (step parseFile host).
Local Abbreviation run' := (run parseFile host).

Lemma scan_result_snoc (root : str) (options : IndexingOptions)
    (files : list str) (f : str) (index : ProjectIndex) :
  scan_result parseFile host root options (files ++ [f]) index =
  match indexFile parseFile host root f options with
  | Return (Some fileIndex) =>
      index_set (basename f) fileIndex
        (scan_result parseFile host root options files index)
  | _ => scan_result parseFile host root options files index
  end.
Proof. unfold scan_result. rewrite fold_left_app. reflexivity. Qed.

(** The keys after a scan of files with distinct base names, none of
    them a key before and none of them [__proto__]: the old keys and the
    base names of the files that were indexed. *)
Lemma scan_result_keys (root : str) (options : IndexingOptions) (files : list str) :
  forall index : ProjectIndex,
    List.NoDup (List.map basename files) ->
    (forall f, In f files -> ~ In (basename f) (index_keys index)) ->
    (forall f, In f files -> basename f <> protoKey) ->
    Permutation
      (index_keys (scan_result parseFile host root options files index))
      (index_keys index
       ++ List.map basename (List.filter (indexes parseFile host root options) files)).
Proof.
  induction files as [|f files IH]; intros index Hnd Hfresh Hproto.
  { cbn. now rewrite app_nil_r. }
  apply NoDup_cons_iff in Hnd. destruct Hnd as [Hb Hnd].
  cbn [scan_result fold_left List.filter].
  assert (Hrest : forall g, In g files -> basename g <> protoKey).
  { intros g Hg. apply Hproto. right. exact Hg. }
  assert (Ei : indexes parseFile host root options f
               = match indexFile parseFile host root f options with
                 | Return (Some _) => true
                 | _ => false
                 end) by reflexivity.
  rewrite Ei. clear Ei.
  destruct (indexFile parseFile host root f options) as [[fi|]|e] eqn:E.
  - fold (scan_result parseFile host root options files
            (index_set (basename f) fi index)).
    assert (Hnew : Permutation (index_keys (index_set (basename f) fi index))
                     (basename f :: index_keys index)).
    { apply index_set_keys_new; [apply Hproto|apply Hfresh]; left; reflexivity. }
    rewrite IH; [|exact Hnd| |exact Hrest].
    + rewrite Hnew. cbn [List.map]. apply Permutation_middle.
    + intros g Hg Hin. apply (Permutation_in _ Hnew) in Hin.
      destruct Hin as [Hin|Hin].
      * apply Hb. rewrite Hin. exact (in_map basename files g Hg).
      * apply (Hfresh g); [right; exact Hg|exact Hin].
  - apply IH; [exact Hnd| |exact Hrest]. intros g Hg. apply Hfresh. right. exact Hg.
  - apply IH; [exact Hnd| |exact Hrest]. intros g Hg. apply Hfresh. right. exact Hg.
Qed.

Lemma scan_result_length (root : str) (options : IndexingOptions) (files : list str) :
  List.NoDup (List.map basename files) ->
  (forall f, In f files -> basename f <> protoKey) ->
  length (index_keys (scan_result parseFile host root options files emptyIndex)) =
  length (List.filter (indexes parseFile host root options) files).
Proof.
  intros Hnd Hproto.
  rewrite (Permutation_length
             (scan_result_keys root options files emptyIndex Hnd (fun _ _ H => H) Hproto)).
  cbn. now rewrite length_map.
Qed.

Lemma scan_result_NoDup (root : str) (options : IndexingOptions) (files : list str) :
  List.NoDup (index_keys (scan_result parseFile host root options files emptyIndex)).
Proof.
  induction files as [|f files IH] using rev_ind; [constructor|].
  rewrite scan_result_snoc.
  destruct (indexFile parseFile host root f options) as [[fileIndex|]|e]; auto.
  apply index_set_keys_NoDup, IH.
Qed.

(** *** The invariant *)

Lemma inv_initial : indexer_inv parseFile host (initial host).
Proof.
  split; [reflexivity|]. intros i ? ? ? H. cbn in H.
  rewrite lookup_nil in H. discriminate.
Qed.

(** A state with no build in flight has no scanning task. *)
Lemma no_build_no_scan (ts : list Task) (i : nat) (options : IndexingOptions)
    (files : list str) (next : nat) :
  builds_in_flight ts = 0 -> ts !! i = Some (Scanning options files next) -> False.
Proof. intros H0 H. pose proof (builds_pos ts i _ H eq_refl). lia. Qed.

Lemma inv_call (options : IndexingOptions) (st : Indexer) :
  indexer_inv parseFile host st ->
  indexer_inv parseFile host (fst (call options st)).
Proof.
  intros H. unfold buildIndex_call.
  destruct (isIndexing st) eqn:E; cbn [fst]; [exact H|].
  destruct H as (Hc & Hs). rewrite E in Hc. split.
  - cbn [tasks isIndexing]. rewrite builds_app, Hc. reflexivity.
  - cbn [tasks]. intros i o fs n Hl.
    apply lookup_app_Some in Hl. destruct Hl as [Hl|[_ Hl]].
    + destruct (no_build_no_scan _ _ _ _ _ Hc Hl).
    + destruct (i - length (tasks st)) as [|d]; cbn in Hl; discriminate.
Qed.

Lemma inv_update_call (filePath : str) (st : Indexer) :
  indexer_inv parseFile host st ->
  indexer_inv parseFile host (updateFileIndex_call parseFile host filePath st).
Proof.
  intros (Hc & Hs). unfold updateFileIndex_call, with_tasks. split.
  - cbn [tasks isIndexing]. rewrite builds_app, Hc.
    destruct (isIndexing st); reflexivity.
  - cbn [tasks workspaceRoot projectIndex]. intros i o fs n Hl.
    apply lookup_app_Some in Hl. destruct Hl as [Hl|[_ Hl]].
    + exact (Hs i o fs n Hl).
    + destruct (i - length (tasks st)) as [|d]; cbn in Hl; discriminate.
Qed.

(** A write into the current object removes none of its keys. *)
Lemma store_record_keeps (st : Indexer) (filePath : str) (fileIndex : FileIndex)
    (ts : list Task) (k : str) :
  In k (index_keys (deref st (projectIndex st))) ->
  In k (index_keys
          (deref (with_tasks st (store_record st filePath fileIndex) ts)
             (projectIndex st))).
Proof.
  intros H. unfold deref at 1, with_tasks, store_record. cbn [objects].
  rewrite lookup_insert_eq. apply index_set_keys_mono, H.
Qed.

Lemma inv_resume (i : nat) (st : Indexer) :
  indexer_inv parseFile host st ->
  indexer_inv parseFile host (fst (resume' i st)).
Proof.
  intros (Hc & Hs). unfold resume.
  destruct (tasks st !! i) as [[options|options files next|filePath fileIndex]|] eqn:Et;
    [| | |exact (conj Hc Hs)].
  - (* the files are found: a new object *)
    cbn [fst]. split.
    + cbn [tasks isIndexing].
      rewrite (builds_insert _ _ _ _ Et); [exact Hc|reflexivity].
    + cbn [tasks workspaceRoot projectIndex]. intros j o fs n Hl f Hf.
      destruct (Nat.eq_dec j i) as [->|Hne].
      * rewrite list_lookup_insert_eq in Hl by exact (lookup_lt_Some _ _ _ Et).
        injection Hl as <- <- <-. destruct Hf.
      * rewrite list_lookup_insert_ne in Hl by congruence.
        exfalso. apply Hne.
        apply (builds_unique (tasks st) j i (Scanning o fs n) (Finding options));
          [|exact Hl|reflexivity|exact Et|reflexivity].
        rewrite Hc. destruct (isIndexing st); lia.
  - destruct (files !! next) as [f|] eqn:El; cbn [fst].
    + (* one more file *)
      split.
      * cbn [with_tasks tasks isIndexing].
        rewrite (builds_insert _ _ _ _ Et); [exact Hc|reflexivity].
      * unfold with_tasks at 1 2 3. cbn [tasks workspaceRoot projectIndex].
        intros j o fs n Hl g Hg Hi Hp.
        destruct (Nat.eq_dec j i) as [->|Hne].
        2:{ rewrite list_lookup_insert_ne in Hl by congruence.
            exfalso. apply Hne.
            apply (builds_unique (tasks st) j i (Scanning o fs n)
                     (Scanning options files next));
              [|exact Hl|reflexivity|exact Et|reflexivity].
            rewrite Hc. destruct (isIndexing st); lia. }
        rewrite list_lookup_insert_eq in Hl by exact (lookup_lt_Some _ _ _ Et).
        injection Hl as <- <- <-.
        rewrite (take_S_r _ _ _ El) in Hg. apply in_app_or in Hg.
        destruct Hg as [Hg|[<-|[]]].
        -- specialize (Hs i options files next Et g Hg Hi Hp).
           destruct (indexFile parseFile host (workspaceRoot st) f options)
             as [[fi|]|e]; try exact Hs.
           exact (store_record_keeps st f fi _ (basename g) Hs).
        -- unfold indexes in Hi.
           destruct (indexFile parseFile host (workspaceRoot st) f options)
             as [[fi|]|e]; try discriminate.
           unfold deref, with_tasks, store_record. cbn [objects].
           rewrite lookup_insert_eq. apply index_set_keys_self, Hp.
    + (* the build ends *)
      assert (H1 : builds_in_flight (tasks st) = 1).
      { pose proof (builds_pos _ _ _ Et eq_refl). rewrite Hc in *.
        destruct (isIndexing st); [reflexivity|lia]. }
      assert (H0 : builds_in_flight (without_task i (tasks st)) = 0).
      { pose proof (builds_split _ _ _ Et) as Hsp. cbn in Hsp. lia. }
      split; [exact H0|]. cbn [tasks]. intros j o fs n Hl.
      destruct (no_build_no_scan _ _ _ _ _ H0 Hl).
  - (* an update writes its record *)
    cbn [fst]. split.
    + cbn [with_tasks tasks isIndexing].
      pose proof (builds_split _ _ _ Et) as Hsp. cbn in Hsp. lia.
    + unfold with_tasks at 1 2 3. cbn [tasks workspaceRoot projectIndex].
      intros j o fs n Hl g Hg Hi Hp.
      apply lookup_In, without_task_In, In_lookup in Hl. destruct Hl as [j' Hl].
      specialize (Hs j' o fs n Hl g Hg Hi Hp).
      destruct fileIndex as [fi|]; [|exact Hs].
      exact (store_record_keeps st filePath fi _ (basename g) Hs).
Qed.

Lemma inv_step (ev : Event) (st : Indexer) :
  indexer_inv parseFile host st -> indexer_inv parseFile host (step' st ev).
Proof. destruct ev; [apply inv_call|apply inv_update_call|apply inv_resume]. Qed.

Lemma inv_run (events : list Event) :
  forall st : Indexer,
    indexer_inv parseFile host st -> indexer_inv parseFile host (run' events st).
Proof.
  induction events as [|ev events IH]; intros st H; [exact H|].
  simpl. apply IH, inv_step, H.
Qed.

Lemma inv_reachable (st : Indexer) :
  reachable parseFile host st -> indexer_inv parseFile host st.
Proof. intros [events ->]. apply inv_run, inv_initial. Qed.

(** *** Runs without a call of [updateFileIndex] *)

Lemma binv_initial : builds_inv parseFile host (initial host).
Proof.
  split; [constructor|]. intros i ? ? ? H. cbn in H.
  rewrite lookup_nil in H. discriminate.
Qed.

Lemma binv_call (options : IndexingOptions) (st : Indexer) :
  indexer_inv parseFile host st -> builds_inv parseFile host st ->
  builds_inv parseFile host (fst (call options st)).
Proof.
  intros (Hc & _) (Hb & Hs). unfold buildIndex_call.
  destruct (isIndexing st) eqn:E; cbn [fst]; [exact (conj Hb Hs)|].
  split.
  - cbn [tasks]. apply Forall_app_2; [exact Hb|]. repeat constructor.
  - cbn [tasks]. intros i o fs n Hl.
    apply lookup_app_Some in Hl. destruct Hl as [Hl|[_ Hl]].
    + destruct (no_build_no_scan _ _ _ _ _ Hc Hl).
    + destruct (i - length (tasks st)) as [|d]; cbn in Hl; discriminate.
Qed.

Lemma binv_resume (i : nat) (st : Indexer) :
  indexer_inv parseFile host st -> builds_inv parseFile host st ->
  builds_inv parseFile host (fst (resume' i st)).
Proof.
  intros (Hc & _) (Hb & Hs). unfold resume.
  assert (H1 : builds_in_flight (tasks st) <= 1).
  { rewrite Hc. destruct (isIndexing st); lia. }
  destruct (tasks st !! i) as [[options|options files next|filePath fileIndex]|] eqn:Et;
    [| | |exact (conj Hb Hs)].
  - cbn [fst]. split.
    + cbn [tasks]. apply Forall_insert; [exact Hb|reflexivity].
    + cbn [tasks workspaceRoot projectIndex]. intros j o fs n Hl.
      destruct (Nat.eq_dec j i) as [->|Hne].
      * rewrite list_lookup_insert_eq in Hl by exact (lookup_lt_Some _ _ _ Et).
        injection Hl as <- <- <-. unfold deref. cbn [objects].
        rewrite lookup_insert_eq. reflexivity.
      * rewrite list_lookup_insert_ne in Hl by congruence.
        exfalso. apply Hne.
        exact (builds_unique (tasks st) j i (Scanning o fs n) (Finding options)
                 H1 Hl eq_refl Et eq_refl).
  - destruct (files !! next) as [f|] eqn:El; cbn [fst].
    + split.
      * cbn [with_tasks tasks]. apply Forall_insert; [exact Hb|reflexivity].
      * cbn [with_tasks tasks workspaceRoot projectIndex].
        intros j o fs n Hl.
        destruct (Nat.eq_dec j i) as [->|Hne].
        2:{ rewrite list_lookup_insert_ne in Hl by congruence.
            exfalso. apply Hne.
            exact (builds_unique (tasks st) j i (Scanning o fs n)
                     (Scanning options files next) H1 Hl eq_refl Et eq_refl). }
        rewrite list_lookup_insert_eq in Hl by exact (lookup_lt_Some _ _ _ Et).
        injection Hl as <- <- <-.
        rewrite (take_S_r _ _ _ El), scan_result_snoc.
        specialize (Hs i options files next Et).
        destruct (indexFile parseFile host (workspaceRoot st) f options)
          as [[fi|]|e]; try exact Hs.
        unfold deref at 1, store_record. cbn [with_tasks objects].
        rewrite lookup_insert_eq. now rewrite Hs.
    + split.
      * cbn [tasks]. unfold without_task.
        apply Forall_app_2; [apply Forall_take|apply Forall_drop]; exact Hb.
      * assert (H0 : builds_in_flight (without_task i (tasks st)) = 0).
        { pose proof (builds_split _ _ _ Et) as Hsp. cbn in Hsp. lia. }
        cbn [tasks]. intros j o fs n Hl.
        destruct (no_build_no_scan _ _ _ _ _ H0 Hl).
  - pose proof (Forall_lookup_1 _ _ _ _ Hb Et) as Hu. discriminate Hu.
Qed.

Lemma binv_run (events : list Event) :
  forall st : Indexer,
    forallb no_update events = true ->
    indexer_inv parseFile host st -> builds_inv parseFile host st ->
    builds_inv parseFile host (run' events st).
Proof.
  induction events as [|ev events IH]; intros st He Hi Hb; [exact Hb|].
  cbn [forallb] in He. apply andb_true_iff in He. destruct He as [Hev He].
  cbn [run fold_left]. apply (IH _ He); [apply inv_step, Hi|].
  destruct ev as [options|filePath|i]; [|discriminate|].
  - exact (binv_call options st Hi Hb).
  - exact (binv_resume i st Hi Hb).
Qed.

(** *** One build run alone *)

(** The loop of a build run alone: from the file number [length done]
    on, the task scans the rest and returns the reference of the object
    it fills. *)
Lemma resume_all_scanning (options : IndexingOptions) (todo : list str) :
  forall (done : list str) (st : Indexer) (fuel i : nat),
    tasks st !! i = Some (Scanning options (done ++ todo) (length done)) ->
    length todo < fuel ->
    exists st' : Indexer,
      resume_all parseFile host fuel i st = Some (st', projectIndex st) /\
      deref st' (projectIndex st) =
        scan_result parseFile host (workspaceRoot st) options todo
          (deref st (projectIndex st)) /\
      isIndexing st' = false /\ tasks st' = without_task i (tasks st) /\
      projectIndex st' = projectIndex st.
Proof.
  induction todo as [|f todo IH]; intros done st fuel i Ht Hf.
  - destruct fuel as [|fuel]; [simpl in Hf; lia|].
    cbn [resume_all]. unfold resume. rewrite Ht.
    rewrite app_nil_r. rewrite lookup_ge_None_2 by lia.
    eexists. split; [reflexivity|]. cbn. auto.
  - destruct fuel as [|fuel]; [simpl in Hf; lia|].
    simpl in Hf. cbn [resume_all]. unfold resume. rewrite Ht.
    assert (Hl : (done ++ f :: todo) !! length done = Some f).
    { rewrite lookup_app_r by lia. rewrite Nat.sub_diag. reflexivity. }
    rewrite Hl. cbv zeta.
    set (objs := match indexFile parseFile host (workspaceRoot st) f options with
                 | Return (Some fileIndex) => store_record st f fileIndex
                 | _ => objects st
                 end).
    set (st1 := with_tasks st objs _).
    assert (Ht1 : tasks st1 !! i
                  = Some (Scanning options ((done ++ [f]) ++ todo) (length (done ++ [f])))).
    { unfold st1. cbn [with_tasks tasks].
      rewrite list_lookup_insert_eq by exact (lookup_lt_Some _ _ _ Ht).
      rewrite <- app_assoc. rewrite length_app. cbn [length app].
      rewrite Nat.add_1_r. reflexivity. }
    destruct (IH (done ++ [f]) st1 fuel i Ht1 ltac:(lia))
      as (st' & Hr & Hd & Hi & Htk & Hp).
    exists st'.
    change (projectIndex st1) with (projectIndex st) in *.
    change (workspaceRoot st1) with (workspaceRoot st) in *.
    split; [exact Hr|]. split; [|split; [exact Hi|split; [|exact Hp]]].
    + rewrite Hd. cbn [scan_result fold_left]. f_equal.
      unfold deref at 1. unfold st1, objs. cbn [with_tasks objects].
      destruct (indexFile parseFile host (workspaceRoot st) f options) as [[fi|]|e];
        try reflexivity.
      unfold store_record. rewrite lookup_insert_eq. reflexivity.
    + rewrite Htk. unfold st1. cbn [with_tasks tasks]. apply without_task_insert.
Qed.

(** A build run alone on an indexer that is not building: it ends, and
    the index it returns is the new object with the records of the scan;
    the suspended updates are where they were. *)
Lemma buildIndex_alone (options : IndexingOptions) (st : Indexer) :
  isIndexing st = false ->
  exists st' ref,
    buildIndex parseFile host options st = Some (st', ref) /\
    deref st' ref =
      scan_result parseFile host (workspaceFolder host) options
        (findFiles host (workspaceFolder host) options) emptyIndex /\
    isIndexing st' = false /\ projectIndex st' = ref /\ tasks st' = tasks st.
Proof.
  intros Hi. unfold buildIndex, buildIndex_call. rewrite Hi.
  cbn [workspaceRoot].
  set (files := findFiles host (workspaceFolder host) options).
  replace (length files + 2) with (S (length files + 1)) by lia.
  cbn [resume_all]. unfold resume at 1. cbn [tasks].
  rewrite lookup_app_r by lia. rewrite Nat.sub_diag. cbn [lookup list_lookup].
  cbn [workspaceRoot]. fold files.
  match goal with
  | |- context [resume_all _ _ _ _ ?s] => set (st1 := s)
  end.
  destruct (resume_all_scanning options files [] st1 (length files + 1)
              (length (tasks st)))
    as (st' & Hr & Hd & Hi' & Ht' & Hp).
  { unfold st1. cbn [tasks].
    rewrite list_lookup_insert_eq by (rewrite length_app; cbn; lia).
    reflexivity. }
  { lia. }
  exists st', (projectIndex st1). split; [exact Hr|].
  split; [|split; [exact Hi'|split; [exact Hp|]]].
  - rewrite Hd. f_equal.
    unfold deref, st1. cbn [objects projectIndex]. rewrite lookup_insert_eq. reflexivity.
  - rewrite Ht'. unfold st1. cbn [tasks].
    rewrite without_task_insert. apply without_last.
Qed.

End IndexerFacts.

(** C7, where it fails.  In a workspace of ten files with distinct base
    names, of which [f3.ts] cannot be read and one is named
    [__proto__], a build over every file ends without an exception and
    makes a record of nine files, which is the number it logs as
    indexed; but the index it returns has eight records: the
    assignment under the key [__proto__] has replaced the prototype of
    the index object and made no property. *)
Theorem buildIndex_proto_file_lost :
  exists (st' : ProjectIndexer.Indexer) (ref : nat),
    ProjectIndexer.buildIndex noSymbols protoHost everyFile
      (ProjectIndexer.initial protoHost) = Some (st', ref) /\
    ProjectIndexer.findFiles protoHost (workspaceFolder protoHost) everyFile
    = protoFiles /\
    length protoFiles = 10 /\
    List.NoDup (List.map basename protoFiles) /\
    List.map show_key
      (List.map basename
         (List.filter (indexes noSymbols protoHost (workspaceFolder protoHost) everyFile)
            protoFiles))
    = ["__proto__"; "f0.ts"; "f1.ts"; "f2.ts"; "f4.ts"; "f5.ts"; "f6.ts"; "f7.ts";
       "f8.ts"]%string /\
    List.map show_key (index_keys (ProjectIndexer.deref st' ref))
    = ["f0.ts"; "f1.ts"; "f2.ts"; "f4.ts"; "f5.ts"; "f6.ts"; "f7.ts"; "f8.ts"]%string /\
    length (index_values (ProjectIndexer.deref st' ref)) = 8 /\
    option_map fi_path (prototype (ProjectIndexer.deref st' ref))
    = Some (js "/w/src/__proto__").
Proof.
  eexists. eexists. split; [vm_compute; reflexivity|].
  split; [vm_compute; reflexivity|]. split; [reflexivity|].
  split.
  { vm_compute. repeat (constructor; [simpl; intuition discriminate|]). constructor. }
  repeat split; vm_compute; reflexivity.
Qed.

(** C6, as stated, fails.  After a first build of a workspace of two
    files, a second build is started and stopped when it has scanned one
    file.  A call of [buildIndex] at that point returns the object the
    second build is filling: it holds the record of [a.ts] only, not the
    previous index of two records, and the next step of the build
    writes the record of [b.ts] into that same object. *)
Lemma buildIndex_reentrant_counterexample :
  ProjectIndexer.isIndexing halfway = true /\
  List.map show_key
    (index_keys (ProjectIndexer.deref afterFirstBuild
                   (ProjectIndexer.getIndex afterFirstBuild)))
  = ["a.ts"; "b.ts"]%string /\
  ProjectIndexer.buildIndex_call twoFileHost ProjectIndexer.defaultOptions halfway
  = (halfway, ProjectIndexer.Returned 2) /\
  List.map show_key (index_keys (ProjectIndexer.deref halfway 2))
  = ["a.ts"]%string /\
  List.map show_key
    (index_keys
       (ProjectIndexer.deref
          (ProjectIndexer.step noSymbols twoFileHost halfway
             (ProjectIndexer.EvResume 0)) 2))
  = ["a.ts"; "b.ts"]%string.
Proof. vm_compute. repeat split; reflexivity. Qed.

(** C6, amended.  In every state the indexer reaches, by calls of
    [buildIndex] and of [updateFileIndex] interleaved in any way, with a
    build in progress: that build is the only one; a call of
    [buildIndex] returns at once the reference of the current index
    object and changes nothing; and while the build scans, that object
    is the one the build fills in place: it has a record under the base
    name of every file scanned so far of which a record was made, a file
    named [__proto__] apart, and the next step of the build writes the
    record of the next file into that same object.  As long as
    [updateFileIndex] has not been called, the object holds the records
    of the files scanned so far and nothing else. *)
Theorem buildIndex_while_indexing
    (parseFile : bool -> str -> str -> ParseResult) (host : IndexerHost)
    (options : IndexingOptions) (st : ProjectIndexer.Indexer) :
  ProjectIndexer.reachable parseFile host st ->
  ProjectIndexer.isIndexing st = true ->
  ProjectIndexer.buildIndex_call host options st
  = (st, ProjectIndexer.Returned (ProjectIndexer.getIndex st)) /\
  builds_in_flight (ProjectIndexer.tasks st) = 1 /\
  (forall i running files next,
      ProjectIndexer.tasks st !! i = Some (ProjectIndexer.Scanning running files next) ->
      (forall f,
          In f (List.firstn next files) ->
          indexes parseFile host (ProjectIndexer.workspaceRoot st) running f = true ->
          basename f <> protoKey ->
          In (basename f)
            (index_keys (ProjectIndexer.deref st (ProjectIndexer.getIndex st)))) /\
      (forall f fileIndex,
          files !! next = Some f ->
          ProjectIndexer.indexFile parseFile host (ProjectIndexer.workspaceRoot st)
            f running = Return (Some fileIndex) ->
          let st' := ProjectIndexer.step parseFile host st (ProjectIndexer.EvResume i) in
          ProjectIndexer.getIndex st' = ProjectIndexer.getIndex st /\
          ProjectIndexer.deref st' (ProjectIndexer.getIndex st)
          = index_set (basename f) fileIndex
              (ProjectIndexer.deref st (ProjectIndexer.getIndex st)))) /\
  (forall events i running files next,
      st = ProjectIndexer.run parseFile host events (ProjectIndexer.initial host) ->
      forallb no_update events = true ->
      ProjectIndexer.tasks st !! i = Some (ProjectIndexer.Scanning running files next) ->
      ProjectIndexer.deref st (ProjectIndexer.getIndex st)
      = scan_result parseFile host (ProjectIndexer.workspaceRoot st) running
          (List.firstn next files) emptyIndex).
Proof.
  intros Hr Hi. destruct (inv_reachable _ _ _ Hr) as (Hc & Hs).
  split; [|split; [|split]].
  4:{ intros events i running files next -> He Ht.
      exact (proj2 (binv_run parseFile host events _ He
                      (inv_initial parseFile host) (binv_initial parseFile host))
               i running files next Ht). }
  - unfold ProjectIndexer.buildIndex_call. rewrite Hi. reflexivity.
  - rewrite Hc, Hi. reflexivity.
  - intros i running files next Ht. split; [exact (Hs i running files next Ht)|].
    intros f fileIndex Hf Hx. cbv zeta.
    unfold ProjectIndexer.step, ProjectIndexer.resume. rewrite Ht, Hf, Hx.
    cbn [fst]. split; [reflexivity|].
    unfold ProjectIndexer.deref at 1, ProjectIndexer.with_tasks,
      ProjectIndexer.store_record, ProjectIndexer.getIndex.
    cbn [ProjectIndexer.objects]. rewrite lookup_insert_eq. reflexivity.
Qed.

Lemma buildIndex_while_indexing_witness :
  ProjectIndexer.tasks halfway
  = [ProjectIndexer.Scanning ProjectIndexer.defaultOptions
       [js "/w/a.ts"; js "/w/b.ts"] 1] /\
  ProjectIndexer.buildIndex_call twoFileHost ProjectIndexer.defaultOptions halfway
  = (halfway, ProjectIndexer.Returned (ProjectIndexer.getIndex halfway)) /\
  builds_in_flight (ProjectIndexer.tasks halfway) = 1 /\
  (forall i running files next,
      ProjectIndexer.tasks halfway !! i
      = Some (ProjectIndexer.Scanning running files next) ->
      (forall f,
          In f (List.firstn next files) ->
          indexes noSymbols twoFileHost (ProjectIndexer.workspaceRoot halfway) running f
          = true ->
          basename f <> protoKey ->
          In (basename f)
            (index_keys (ProjectIndexer.deref halfway (ProjectIndexer.getIndex halfway)))) /\
      (forall f fileIndex,
          files !! next = Some f ->
          ProjectIndexer.indexFile noSymbols twoFileHost
            (ProjectIndexer.workspaceRoot halfway) f running = Return (Some fileIndex) ->
          let st' :=
            ProjectIndexer.step noSymbols twoFileHost halfway (ProjectIndexer.EvResume i) in
          ProjectIndexer.getIndex st' = ProjectIndexer.getIndex halfway /\
          ProjectIndexer.deref st' (ProjectIndexer.getIndex halfway)
          = index_set (basename f) fileIndex
              (ProjectIndexer.deref halfway (ProjectIndexer.getIndex halfway)))) /\
  (forall events i running files next,
      halfway
      = ProjectIndexer.run noSymbols twoFileHost events
          (ProjectIndexer.initial twoFileHost) ->
      forallb no_update events = true ->
      ProjectIndexer.tasks halfway !! i
      = Some (ProjectIndexer.Scanning running files next) ->
      ProjectIndexer.deref halfway (ProjectIndexer.getIndex halfway)
      = scan_result noSymbols twoFileHost (ProjectIndexer.workspaceRoot halfway) running
          (List.firstn next files) emptyIndex).
Proof.
  split; [vm_compute; reflexivity|].
  apply (buildIndex_while_indexing noSymbols twoFileHost
           ProjectIndexer.defaultOptions halfway).
  - exists (firstBuild ++ secondBuildHalfway).
    unfold halfway, afterFirstBuild, ProjectIndexer.run.
    rewrite fold_left_app. reflexivity.
  - vm_compute. reflexivity.
Defined.

(** ** SmartFileResolver *)

Section Resolver.

Import SmartFileResolver.

Lemma ratio_unit (a b : nat) : a <= b -> (0 <= ratio a b)%Q /\ (ratio a b <= 1)%Q.
Proof.
  intros H. unfold ratio, Qdiv, Qinv, Qmult, Qle. cbn [Qnum Qden].
  destruct (Z.of_nat b) as [|p|p] eqn:Eb; cbn [Qnum Qden]; lia.
Qed.

Lemma scaled_ratio (a b : nat) (factor bound : Q) :
  a <= b -> (0 <= factor)%Q -> (factor <= bound)%Q ->
  (0 <= ratio a b * factor)%Q /\ (ratio a b * factor <= bound)%Q.
Proof.
  intros H F B. destruct (ratio_unit a b H) as [R0 R1]. split.
  - apply Qmult_le_0_compat; assumption.
  - apply Qle_trans with (1 * factor)%Q.
    + apply Qmult_le_compat_r; assumption.
    + rewrite Qmult_1_l. exact B.
Qed.

Lemma includes_length (s p : str) : includes s p = true -> length p <= length s.
Proof.
  induction s as [|c s IH]; cbn [includes]; intros H; apply orb_true_iff in H.
  - destruct H as [H|H]; [exact (startsWith_len _ _ H)|discriminate].
  - destruct H as [H|H]; [exact (startsWith_len _ _ H)|].
    apply IH in H. cbn [length]. lia.
Qed.

Lemma includes_lower_length (name identifier : str) :
  includes (toLowerCase name) (toLowerCase identifier) = true ->
  length identifier <= length name.
Proof.
  intros H. apply includes_length in H. unfold toLowerCase in H.
  now rewrite !length_map in H.
Qed.

(** [extractIdentifiers] always returns. *)
Lemma collect_ends (instruction : str) (patterns : list regex) :
  Forall (fun r => nullable r = false) patterns ->
  forall identifiers : list str,
    exists l : list str, collect patterns instruction identifiers = Some l.
Proof.
  induction 1 as [|r patterns Hr _ IH]; intros identifiers; simpl; [eauto|].
  destruct (exec_all_ends fl_none r (fun acc m => acc ++ [m_text m])
              identifiers instruction Hr) as [l ->].
  apply IH.
Qed.

Lemma extractIdentifiers_ends (instruction : str) :
  exists l : list str, extractIdentifiers instruction = Some l.
Proof.
  unfold extractIdentifiers.
  destruct (collect_ends instruction identifierPatterns) with (identifiers := @nil str)
    as [l ->]; [|eauto].
  repeat constructor.
Qed.

Lemma Qlt_bool_false (a b : Q) : Qlt_bool a b = false -> (b <= a)%Q.
Proof.
  unfold Qlt_bool. intros H. apply negb_false_iff in H.
  apply Qle_bool_iff, H.
Qed.

Lemma Qlt_bool_true (a b : Q) : Qlt_bool a b = true -> (a <= b)%Q.
Proof.
  unfold Qlt_bool. intros H. apply negb_true_iff in H.
  destruct (Qlt_le_dec a b) as [L|L]; [apply Qlt_le_weak, L|].
  apply Qle_bool_iff in L. congruence.
Qed.

Lemma insert_by_score_In (m x : FileMatch) (l : list FileMatch) :
  In x (insert_by_score m l) <-> x = m \/ In x l.
Proof.
  induction l as [|y l IH]; simpl; [intuition|].
  destruct (Qlt_bool (score m) (score y)); simpl; rewrite ?IH; intuition.
Qed.

Lemma sort_by_score_In (x : FileMatch) (l : list FileMatch) :
  In x (sort_by_score l) <-> In x l.
Proof.
  induction l as [|m l IH]; simpl; [tauto|].
  rewrite insert_by_score_In, IH. intuition.
Qed.

(** The first match after sorting has the highest score. *)
Lemma sort_by_score_head (l : list FileMatch) :
  forall (m : FileMatch) (tail : list FileMatch),
    sort_by_score l = m :: tail ->
    forall x : FileMatch, In x l -> (score x <= score m)%Q.
Proof.
  induction l as [|a l IH]; intros m tail H x Hx; [contradiction|].
  simpl in H. destruct (sort_by_score l) as [|y sorted] eqn:E.
  - simpl in H. injection H as <- <-.
    destruct Hx as [<-|Hx]; [apply Qle_refl|].
    apply sort_by_score_In in Hx. rewrite E in Hx. contradiction.
  - simpl in H. destruct (Qlt_bool (score a) (score y)) eqn:L.
    + injection H as <- <-.
      destruct Hx as [<-|Hx]; [apply Qlt_bool_true, L|].
      apply (IH y sorted eq_refl x Hx).
    + injection H as <- <-.
      destruct Hx as [<-|Hx]; [apply Qle_refl|].
      eapply Qle_trans; [apply (IH y sorted eq_refl x Hx)|].
      apply Qlt_bool_false, L.
Qed.

Lemma exactMatchOf_type (identifier : str) (f : FileIndex) (m : FileMatch) :
  In m (exactMatchOf identifier f) -> matchType m = MExact.
Proof.
  unfold exactMatchOf.
  destruct (str_eqb _ _); [intros [<-|[]]; reflexivity|].
  destruct (includes _ _); [intros [<-|[]]; reflexivity|intros []].
Qed.

Lemma findExactFileMatches_type (identifier : str) (index : ProjectIndex)
    (m : FileMatch) :
  In m (findExactFileMatches identifier index) -> matchType m = MExact.
Proof.
  unfold findExactFileMatches. intros H. apply in_concat in H.
  destruct H as (l & Hl & Hm). apply in_map_iff in Hl.
  destruct Hl as (f & <- & _). apply (exactMatchOf_type _ _ _ Hm).
Qed.

Lemma exactMatchOf_nonempty (identifier : str) (f : FileIndex) :
  nameMatches identifier f -> exactMatchOf identifier f <> [].
Proof.
  unfold nameMatches, exactMatchOf. intros [H|H].
  - rewrite (proj2 (str_eqb_eq _ _) H). discriminate.
  - destruct (str_eqb _ _); [discriminate|]. rewrite H. discriminate.
Qed.

Lemma allExactMatches_nonempty (instruction : str) (index : ProjectIndex)
    (identifier : str) (f : FileIndex) :
  In identifier (identifiersOf instruction) ->
  In f (index_values index) ->
  nameMatches identifier f ->
  allExactMatches instruction index <> [].
Proof.
  intros Hi Hf Hn E.
  destruct (exactMatchOf identifier f) as [|m l] eqn:Em;
    [exact (exactMatchOf_nonempty _ _ Hn Em)|].
  assert (Hin : In m (allExactMatches instruction index)).
  { unfold allExactMatches. apply in_concat.
    exists (findExactFileMatches identifier index). split.
    - apply in_map_iff. exists identifier. auto.
    - unfold findExactFileMatches. apply in_concat.
      exists (exactMatchOf identifier f). split.
      + apply in_map_iff. exists f. auto.
      + rewrite Em. left. reflexivity. }
  rewrite E in Hin. contradiction.
Qed.

(** What the exact finder makes of a file, and of which files. *)
Lemma exactMatchOf_inv (identifier : str) (f : FileIndex) (m : FileMatch) :
  In m (exactMatchOf identifier f) ->
  file m = f /\ matchType m = MExact /\ nameMatches identifier f /\
  score m = nameScore identifier f.
Proof.
  unfold exactMatchOf, nameMatches, nameScore.
  destruct (str_eqb _ _) eqn:E.
  - intros [<-|[]]. apply str_eqb_eq in E. cbn. auto.
  - destruct (includes _ _) eqn:Ei; [|intros []].
    intros [<-|[]]. cbn. auto.
Qed.

Lemma exactMatchOf_complete (identifier : str) (f : FileIndex) :
  nameMatches identifier f ->
  exists m : FileMatch,
    In m (exactMatchOf identifier f) /\ score m = nameScore identifier f.
Proof.
  unfold exactMatchOf, nameMatches, nameScore. intros [H|H].
  - rewrite (proj2 (str_eqb_eq _ _) H). eexists. split; [left; reflexivity|reflexivity].
  - destruct (str_eqb _ _); [eexists; split; [left; reflexivity|reflexivity]|].
    rewrite H. eexists. split; [left; reflexivity|reflexivity].
Qed.

Lemma allExactMatches_inv (instruction : str) (index : ProjectIndex) (m : FileMatch) :
  In m (allExactMatches instruction index) ->
  exists identifier : str,
    In identifier (identifiersOf instruction) /\
    In (file m) (index_values index) /\
    matchType m = MExact /\
    nameMatches identifier (file m) /\
    score m = nameScore identifier (file m).
Proof.
  unfold allExactMatches, findExactFileMatches. intros H.
  apply in_concat in H. destruct H as (l & Hl & Hm).
  apply in_map_iff in Hl. destruct Hl as (identifier & <- & Hi).
  apply in_concat in Hm. destruct Hm as (l & Hl & Hm).
  apply in_map_iff in Hl. destruct Hl as (f & <- & Hf).
  apply exactMatchOf_inv in Hm. destruct Hm as (<- & Ht & Hn & Hs).
  exists identifier. auto.
Qed.

Lemma allExactMatches_complete (instruction : str) (index : ProjectIndex)
    (identifier : str) (f : FileIndex) :
  In identifier (identifiersOf instruction) ->
  In f (index_values index) ->
  nameMatches identifier f ->
  exists m : FileMatch,
    In m (allExactMatches instruction index) /\ score m = nameScore identifier f.
Proof.
  intros Hi Hf Hn. destruct (exactMatchOf_complete _ _ Hn) as (m & Hm & Hs).
  exists m. split; [|exact Hs].
  unfold allExactMatches. apply in_concat.
  exists (findExactFileMatches identifier index). split.
  - apply in_map_iff. exists identifier. auto.
  - unfold findExactFileMatches. apply in_concat.
    exists (exactMatchOf identifier f). split; [|exact Hm].
    apply in_map_iff. exists f. auto.
Qed.

(** A name that only contains the identifier scores at most 0.8. *)
Lemma nameScore_contained (identifier : str) (f : FileIndex) :
  nameMatches identifier f -> ~ nameEquals identifier f ->
  (nameScore identifier f <= 0.8)%Q.
Proof.
  unfold nameMatches, nameEquals, nameScore. intros [H|H] Hne; [contradiction|].
  rewrite (proj2 (str_eqb_neq _ _) Hne).
  apply scaled_ratio; [exact (includes_lower_length _ _ H)|discriminate|apply Qle_refl].
Qed.

Lemma nameScore_equal (identifier : str) (f : FileIndex) :
  nameEquals identifier f -> nameScore identifier f = 1.0%Q.
Proof.
  unfold nameEquals, nameScore. intros H. now rewrite (proj2 (str_eqb_eq _ _) H).
Qed.

End Resolver.

(** C1.  When an identifier extracted from the instruction equals, or
    is contained in, the base name of an indexed file, letter case
    apart, [resolveFiles] returns exactly one match.  It is of type
    [exact]; its file is an indexed file whose name equals or contains
    one of the identifiers, and its score is the score of that pair: 1
    for the same name, else the share of the name that the identifier
    covers, times 0.8.  No identifier and indexed file with a matching
    name score higher, so that when some file bears the very name of an
    identifier, the file returned does and scores 1.  The run called the
    exact finder once for each identifier and no other finder. *)
Theorem resolveFiles_exact_short_circuit
    (instruction : str) (options : ResolverOptions) (index : ProjectIndex) :
  (exists (identifier : str) (f : FileIndex),
      In identifier (identifiersOf instruction) /\
      In f (index_values index) /\
      nameMatches identifier f) ->
  exists (m : FileMatch) (passes : list Pass) (identifier : str),
    SmartFileResolver.resolveFiles instruction options index = Some ([m], passes) /\
    matchType m = MExact /\
    In identifier (identifiersOf instruction) /\
    In (file m) (index_values index) /\
    nameMatches identifier (file m) /\
    score m = nameScore identifier (file m) /\
    (forall (identifier' : str) (f' : FileIndex),
        In identifier' (identifiersOf instruction) ->
        In f' (index_values index) ->
        nameMatches identifier' f' ->
        (nameScore identifier' f' <= score m)%Q) /\
    ((exists (identifier' : str) (f' : FileIndex),
         In identifier' (identifiersOf instruction) /\
         In f' (index_values index) /\
         nameEquals identifier' f') ->
     nameEquals identifier (file m) /\ (score m == 1)%Q) /\
    In m (allExactMatches instruction index) /\
    (forall m' : FileMatch,
        In m' (allExactMatches instruction index) -> (score m' <= score m)%Q) /\
    passes = List.map (fun _ => PExact) (identifiersOf instruction) /\
    Forall (fun p => p = PExact) passes.
Proof.
  intros (identifier0 & f0 & Hi0 & Hf0 & Hn0).
  pose proof (allExactMatches_nonempty _ _ _ _ Hi0 Hf0 Hn0) as Hne.
  destruct (SmartFileResolver.sort_by_score (allExactMatches instruction index))
    as [|m tail] eqn:Es.
  { destruct (allExactMatches instruction index) as [|e0 l] eqn:Ex; [contradiction|].
    assert (Hin : In e0 (SmartFileResolver.sort_by_score (e0 :: l)))
      by (apply sort_by_score_In; left; reflexivity).
    rewrite Es in Hin. contradiction. }
  assert (Hm : In m (allExactMatches instruction index)).
  { apply sort_by_score_In. rewrite Es. left. reflexivity. }
  assert (Hmax : forall m', In m' (allExactMatches instruction index) ->
                            (score m' <= score m)%Q).
  { intros m' Hm'. exact (sort_by_score_head _ _ _ Es _ Hm'). }
  assert (Hbest : forall identifier' f',
             In identifier' (identifiersOf instruction) ->
             In f' (index_values index) ->
             nameMatches identifier' f' ->
             (nameScore identifier' f' <= score m)%Q).
  { intros identifier' f' Hi' Hf' Hn'.
    destruct (allExactMatches_complete _ _ _ _ Hi' Hf' Hn') as (m' & Hm' & <-).
    exact (Hmax m' Hm'). }
  destruct (allExactMatches_inv _ _ _ Hm) as (identifier & Hi & Hf & Ht & Hn & Hs).
  exists m, (List.map (fun _ => PExact) (identifiersOf instruction)), identifier.
  split; [|repeat (split; [assumption|])].
  - unfold SmartFileResolver.resolveFiles.
    unfold allExactMatches, identifiersOf in *.
    destruct (extractIdentifiers_ends instruction) as [ids E]. rewrite E in *.
    unfold SmartFileResolver.run_pass.
    destruct (List.concat _) as [|e0 l]; [contradiction|].
    rewrite Es. reflexivity.
  - split; [|split; [exact Hm|split; [exact Hmax|split; [reflexivity|]]]].
    + intros (identifier' & f' & Hi' & Hf' & He').
      assert (H1 : (1 <= score m)%Q).
      { apply Qle_trans with (nameScore identifier' f').
        - rewrite (nameScore_equal _ _ He'). discriminate.
        - apply Hbest; [exact Hi'|exact Hf'|left; exact He']. }
      assert (He : nameEquals identifier (file m)).
      { destruct (List.list_eq_dec ascii_dec
                    (toLowerCase (SmartFileResolver.fileBaseName (file m)))
                    (toLowerCase identifier)) as [He|Hne']; [exact He|].
        exfalso. pose proof (nameScore_contained _ _ Hn Hne') as H8.
        rewrite <- Hs in H8.
        assert (C : (1 <= 0.8)%Q) by (eapply Qle_trans; eassumption).
        revert C. vm_compute. intros C. apply C. reflexivity. }
      split; [exact He|]. rewrite Hs, (nameScore_equal _ _ He). reflexivity.
    + apply Forall_forall. intros p Hp. apply list_elem_of_In in Hp.
      apply in_map_iff in Hp. destruct Hp as (_ & <- & _). reflexivity.
Qed.

Lemma resolveFiles_exact_short_circuit_witness :
  List.map show_key (identifiersOf (js "update main.ts")) = ["main"; "main.ts"]%string /\
  exists (m : FileMatch) (passes : list Pass),
    SmartFileResolver.resolveFiles (js "update main.ts")
      SmartFileResolver.defaultResolverOptions scenarioIndex = Some ([m], passes) /\
    file m = mkFile "main.ts" [] /\
    (score m == 1)%Q /\
    matchType m = MExact /\
    nameEquals (js "main") (file m) /\
    passes = [PExact; PExact].
Proof.
  split; [vm_compute; reflexivity|].
  destruct (resolveFiles_exact_short_circuit (js "update main.ts")
              SmartFileResolver.defaultResolverOptions scenarioIndex)
    as (m & passes & identifier & Hres & Htype & Hi & Hf & Hn & Hs & Hbest & Heq
        & Hin & Hmax & Hp & Hall).
  { exists (js "main"), (mkFile "main.ts" []).
    split; [vm_compute; auto|]. split; [vm_compute; auto|].
    left. vm_compute. reflexivity. }
  exists m, passes. split; [exact Hres|].
  assert (Hmain : nameEquals identifier (file m) /\ (score m == 1)%Q).
  { apply Heq. exists (js "main"), (mkFile "main.ts" []).
    split; [vm_compute; auto|]. split; [vm_compute; auto|].
    vm_compute. reflexivity. }
  destruct Hmain as [He H1].
  assert (Hfile : file m = mkFile "main.ts" []).
  { assert (Hv : index_values scenarioIndex
                 = [mkFile "mainHelper.ts" ["main"; "update"]%string; mkFile "main.ts" []])
      by reflexivity.
    rewrite Hv in Hf. destruct Hf as [Hf|[Hf|[]]]; [|symmetry; exact Hf].
    exfalso. rewrite <- Hf in He.
    assert (Hids : identifiersOf (js "update main.ts") = [js "main"; js "main.ts"])
      by (vm_compute; reflexivity).
    rewrite Hids in Hi. unfold nameEquals in He.
    destruct Hi as [<-|[<-|[]]]; vm_compute in He; discriminate He. }
  split; [exact Hfile|]. split; [exact H1|]. split; [exact Htype|].
  split.
  - rewrite Hfile. vm_compute. reflexivity.
  - rewrite Hp. vm_compute. reflexivity.
Defined.

(** ** SmartAgent: applying a function update *)

Section AgentEdits.

Import SmartAgent.

Lemma offsetAt_positionAt (text : str) :
  forall offset, offset <= length text ->
    offsetAt text (line (positionAt text offset)) (character (positionAt text offset)) = offset.
Proof.
  induction text as [|c t IH]; intros [|o] Hle; cbn [length] in Hle; try reflexivity.
  - lia.
  - assert (Ho : o <= length t) by lia.
    specialize (IH o Ho).
    cbn [positionAt].
    destruct (ascii_eqb c nl) eqn:Ec.
    + cbn [line character offsetAt]. rewrite Ec. now rewrite IH.
    + destruct (line (positionAt t o)) as [|l] eqn:El.
      * cbn [Nat.eqb line character offsetAt]. rewrite Ec. now rewrite IH.
      * cbn [Nat.eqb]. rewrite El. cbn [offsetAt]. rewrite Ec.
        now rewrite IH.
Qed.

Lemma replaceRange_wholeDocument (text content : str) :
  replaceRange text (wholeDocument text) content = content.
Proof.
  unfold replaceRange, wholeDocument. cbn [range_start range_end].
  rewrite (offsetAt_positionAt text 0) by lia.
  rewrite (offsetAt_positionAt text (length text)) by lia.
  rewrite Nat.min_0_l, Nat.max_0_l.
  cbn [List.firstn]. rewrite List.skipn_all. cbn [app]. apply app_nil_r.
Qed.

(** The locator gives up when the comment names no function, or none of
    the three patterns finds the name in the document. *)
Lemma findFunctionInCode_no_match (newContent documentText : str) (m : rmatch_result) :
  exec fl_none docNamePattern newContent = Some m ->
  first_match (functionPatterns (group_or_empty m 1)) documentText = None ->
  findFunctionInCode newContent documentText = None.
Proof.
  intros Hn Hp. unfold findFunctionInCode. now rewrite Hn, Hp.
Qed.

(** C4: when [findFunctionInCode] returns null for a function update,
    [applyFileChanges] hands the editor the range of the whole document
    with the new content; the call returns a boolean and never throws; if
    the editor takes the edit the document becomes exactly the new content,
    and otherwise the call returns false and the document is unchanged. *)
Theorem applyFileChanges_function_update_fallback
    (editor : Editor) (documentText content : str) (first last : option nat) :
  findFunctionInCode content documentText = None ->
  plannedEdit content first last FunctionUpdate documentText
    = (wholeDocument documentText, content) /\
  (exists b, fst (applyFileChanges editor documentText content first last FunctionUpdate)
             = Return b) /\
  (edit editor (wholeDocument documentText) content = Return true ->
   snd (applyFileChanges editor documentText content first last FunctionUpdate) = content) /\
  (edit editor (wholeDocument documentText) content <> Return true ->
   applyFileChanges editor documentText content first last FunctionUpdate
     = (Return false, documentText)).
Proof.
  intros Hnull.
  assert (Hplan : plannedEdit content first last FunctionUpdate documentText
                  = (wholeDocument documentText, content)).
  { unfold plannedEdit. now rewrite Hnull. }
  split; [exact Hplan|].
  unfold applyFileChanges. rewrite Hplan.
  destruct (edit editor (wholeDocument documentText) content) as [[|]|e] eqn:He.
  - split; [|split].
    + cbn [fst]. destruct (save editor) as [b|e]; cbn; eauto.
    + intros _. cbn [snd]. apply replaceRange_wholeDocument.
    + intros Hne. now elim Hne.
  - split; [|split]; cbn [fst snd]; eauto. discriminate.
  - split; [|split]; cbn [fst snd]; eauto. discriminate.
Qed.

Lemma applyFileChanges_function_update_fallback_witness :
  findFunctionInCode docComment otherDocument = None /\
  (plannedEdit docComment None None FunctionUpdate otherDocument
     = (wholeDocument otherDocument, docComment) /\
   (exists b, fst (applyFileChanges acceptingEditor otherDocument docComment None None
                     FunctionUpdate) = Return b) /\
   (edit acceptingEditor (wholeDocument otherDocument) docComment = Return true ->
    snd (applyFileChanges acceptingEditor otherDocument docComment None None FunctionUpdate)
      = docComment) /\
   (edit acceptingEditor (wholeDocument otherDocument) docComment <> Return true ->
    applyFileChanges acceptingEditor otherDocument docComment None None FunctionUpdate
      = (Return false, otherDocument))).
Proof.
  split.
  - vm_compute. reflexivity.
  - apply (applyFileChanges_function_update_fallback
             acceptingEditor otherDocument docComment None None).
    vm_compute. reflexivity.
Defined.

End AgentEdits.

(** ** SmartAgent: a header with a line range *)

Section LineRange.

Import SmartAgent.

(** Pattern 1 is the header part followed by the parts of the block. *)
Lemma pattern1_split (st : mstate) (k : cont) :
  rmatch fl_i fileHeaderWithLinesPattern st k
  = rmatch fl_i headerPart st (fun st1 =>
      rmatch fl_i (rstar wordSet) st1 (fun st2 =>
        rmatch fl_i rnl st2 (fun st3 =>
          rmatch fl_i (RGroup 4 (rstar_lazy rany)) st3 (fun st4 =>
            rmatch fl_i closingPart st4 k)))).
Proof. reflexivity. Qed.

(** On the header the first way through the header part that the
    matcher tries takes [x.ts], [3] and [5] as its groups. *)
Lemma header_match (tail : str) (k : cont) (x : mstate) :
  k (afterHeader tail) = Some x ->
  rmatch fl_i headerPart (MState [] (lineRangeHeader ++ [nl] ++ fence ++ tail) []) k = Some x.
Proof.
  intros H. vm_compute in H. vm_compute. rewrite H. reflexivity.
Qed.

(** A greedy starred class takes the whole run of class characters
    when what follows is outside the class. *)
Lemma rep_loop_class_run (fl : flags) (neg : bool) (items : list citem)
    (body : mstate -> cont -> option mstate) (k : cont)
    (x : mstate) (t : str) (cs : list (nat * str)) :
  (forall st k0, body st k0 = rmatch fl (RSet neg items) st k0) ->
  match t with
  | [] => True
  | c :: _ => set_mem fl neg items c = false
  end ->
  forall (w sn : str) (fuel n : nat),
    length w < fuel ->
    Forall (fun c => set_mem fl neg items c = true) w ->
    k (MState (rev w ++ sn) t cs) = Some x ->
    rep_loop body [] false true 0 None k fuel n (MState sn (w ++ t) cs) = Some x.
Proof.
  intros Hbody Ht. induction w as [|c w IH]; intros sn fuel n Hf Hw Hk.
  - destruct fuel as [|fuel]; [inversion Hf|].
    cbn [rep_loop under clear_caps app rev] in *.
    rewrite Hbody. cbn [rmatch rest].
    destruct t as [|c t].
    + exact Hk.
    + rewrite Ht. exact Hk.
  - destruct fuel as [|fuel]; [inversion Hf|].
    apply Forall_cons_1 in Hw. destruct Hw as [Hc Hw].
    cbn [rep_loop under clear_caps app andb].
    rewrite Hbody. cbn [rmatch rest].
    rewrite Hc. unfold advance. cbn [seen caps].
    rewrite (IH (c :: sn) fuel (S n)); trivial.
    + cbn [length] in Hf. lia.
    + cbn [rev] in Hk. now rewrite <- app_assoc in Hk.
Qed.

Lemma rstar_class_run (fl : flags) (neg : bool) (items : list citem) (k : cont)
    (x : mstate) (w t sn : str) (cs : list (nat * str)) :
  match t with
  | [] => True
  | c :: _ => set_mem fl neg items c = false
  end ->
  Forall (fun c => set_mem fl neg items c = true) w ->
  k (MState (rev w ++ sn) t cs) = Some x ->
  rmatch fl (rstar (RSet neg items)) (MState sn (w ++ t) cs) k = Some x.
Proof.
  intros Ht Hw Hk. unfold rstar.
  change (rep_loop (rmatch fl (RSet neg items)) [] false true 0 None k
            (S (length (w ++ t) + 0)) 0 (MState sn (w ++ t) cs) = Some x).
  apply (rep_loop_class_run fl neg items); trivial.
  rewrite length_app. lia.
Qed.

Lemma rany_any (fl : flags) (c : ascii) : set_mem fl false [ISpace; INotSpace] c = true.
Proof.
  unfold set_mem, items_mem. cbn [existsb citem_mem].
  destruct (ignoreCase fl); destruct (is_space c); reflexivity.
Qed.

(** A lazy [[\s\S]*?] stops at the first point where the rest of the
    pattern succeeds. *)
Lemma rep_loop_lazy_any (fl : flags) (body : mstate -> cont -> option mstate)
    (k : cont) (x : mstate) (t : str) (cs : list (nat * str)) :
  (forall st k0, body st k0 = rmatch fl rany st k0) ->
  forall (w sn : str) (fuel n : nat),
    length w < fuel ->
    (forall pre c post, w = pre ++ c :: post ->
       k (MState (rev pre ++ sn) (c :: post ++ t) cs) = None) ->
    k (MState (rev w ++ sn) t cs) = Some x ->
    rep_loop body [] false false 0 None k fuel n (MState sn (w ++ t) cs) = Some x.
Proof.
  intros Hbody.
  induction w as [|c w IH]; intros sn fuel n Hf Hearly Hk.
  - destruct fuel as [|fuel]; [inversion Hf|].
    cbn [rep_loop Nat.leb app rev] in *. now rewrite Hk.
  - destruct fuel as [|fuel]; [inversion Hf|].
    cbn [rep_loop Nat.leb app].
    pose proof (Hearly [] c w eq_refl) as H0. cbn [rev app] in H0. rewrite H0.
    cbn [under clear_caps andb]. rewrite Hbody. unfold rany. cbn [rmatch rest].
    rewrite rany_any. unfold advance. cbn [seen caps].
    apply IH.
    + cbn [length] in Hf. lia.
    + intros pre c' post ->.
      specialize (Hearly (c :: pre) c' post eq_refl).
      cbn [rev] in Hearly. now rewrite <- app_assoc in Hearly.
    + cbn [rev] in Hk. now rewrite <- app_assoc in Hk.
Qed.

Lemma rstar_lazy_any (fl : flags) (k : cont) (x : mstate) (w t sn : str)
    (cs : list (nat * str)) :
  (forall pre c post, w = pre ++ c :: post ->
     k (MState (rev pre ++ sn) (c :: post ++ t) cs) = None) ->
  k (MState (rev w ++ sn) t cs) = Some x ->
  rmatch fl (rstar_lazy rany) (MState sn (w ++ t) cs) k = Some x.
Proof.
  intros Hearly Hk. unfold rstar_lazy.
  change (rep_loop (rmatch fl rany) [] false false 0 None k
            (S (length (w ++ t) + 0)) 0 (MState sn (w ++ t) cs) = Some x).
  apply (rep_loop_lazy_any fl); trivial.
  rewrite length_app. lia.
Qed.

Lemma char_mem_i_nl (c : ascii) : char_mem fl_i nl c = ascii_eqb nl c.
Proof. destruct c as [[] [] [] [] [] [] [] []]; reflexivity. Qed.

Lemma char_mem_i_backtick (c : ascii) : char_mem fl_i "`" c = ascii_eqb "`" c.
Proof. destruct c as [[] [] [] [] [] [] [] []]; reflexivity. Qed.

(** The closing part needs a line feed and three backticks. *)
Lemma closingPart_fails (sn r : str) (cs : list (nat * str)) (k : cont) :
  startsWith r (nl :: fence) = false ->
  rmatch fl_i closingPart (MState sn r cs) k = None.
Proof.
  intros H. unfold closingPart, rnl, rlit, rstr.
  cbn [js list_ascii_of_string List.map rseq rmatch rest].
  unfold fence in H. cbn [js list_ascii_of_string startsWith] in H.
  destruct r as [|c1 r]; [reflexivity|].
  rewrite char_mem_i_nl. destruct (ascii_eqb nl c1); [|reflexivity].
  unfold advance. cbn [rest andb] in *.
  destruct r as [|c2 r]; [reflexivity|].
  rewrite char_mem_i_backtick. destruct (ascii_eqb "`" c2); [|reflexivity].
  cbn [rest andb] in *.
  destruct r as [|c3 r]; [reflexivity|].
  rewrite char_mem_i_backtick. destruct (ascii_eqb "`" c3); [|reflexivity].
  cbn [rest andb] in *.
  destruct r as [|c4 r]; [reflexivity|].
  rewrite char_mem_i_backtick. destruct (ascii_eqb "`" c4); [|reflexivity].
  discriminate H.
Qed.

Lemma closingPart_matches (sn t : str) (cs : list (nat * str)) (k : cont) :
  rmatch fl_i closingPart (MState sn (nl :: fence ++ t) cs) k
  = k (MState (rev fence ++ nl :: sn) t cs).
Proof. reflexivity. Qed.

Lemma no_early_fence_split (t : str) :
  forall w pre c post,
    no_early_fence w t = true -> w = pre ++ c :: post ->
    startsWith (c :: post ++ t) (nl :: fence) = false.
Proof.
  induction w as [|a w IH]; intros pre c post H E.
  - destruct pre; discriminate E.
  - cbn [no_early_fence] in H. apply andb_true_iff in H. destruct H as [H1 H2].
    destruct pre as [|b pre]; cbn [app] in E.
    + injection E as -> ->. apply negb_true_iff in H1. exact H1.
    + injection E as -> E. exact (IH pre c post H2 E).
Qed.

Lemma ascii_eqb_sym (a b : ascii) : ascii_eqb a b = ascii_eqb b a.
Proof.
  destruct (ascii_eqb a b) eqn:E1, (ascii_eqb b a) eqn:E2; trivial.
  - apply ascii_eqb_eq in E1. subst. now rewrite ascii_eqb_refl in E2.
  - apply ascii_eqb_eq in E2. subst. now rewrite ascii_eqb_refl in E1.
Qed.

Lemma no_early_fence_line (l r t : str) :
  one_line l = true -> no_early_fence (l ++ r) t = no_early_fence r t.
Proof.
  induction l as [|c l IH]; intros H; [reflexivity|].
  cbn [one_line forallb] in H. apply andb_true_iff in H. destruct H as [Hc Hl].
  apply negb_true_iff in Hc.
  cbn [app no_early_fence startsWith].
  rewrite ascii_eqb_sym, Hc. cbn [andb negb]. exact (IH Hl).
Qed.

Lemma no_early_fence_nl (r t : str) :
  no_early_fence (nl :: r) t = negb (startsWith (r ++ t) fence) && no_early_fence r t.
Proof.
  cbn [no_early_fence app startsWith]. now rewrite ascii_eqb_refl.
Qed.

(** Whether a line begins with a fence does not depend on what comes
    after the line. *)
Lemma startsWith_fence_line (l z : str) :
  one_line l = true -> startsWith (l ++ nl :: z) fence = startsWith l fence.
Proof.
  assert (Hnl : ascii_eqb "`" nl = false) by reflexivity.
  unfold fence. cbn [js list_ascii_of_string].
  intros _.
  destruct l as [|a [|b [|c l]]]; cbn [app startsWith];
    rewrite ?Hnl, ?andb_false_r; reflexivity.
Qed.

Lemma no_early_fence_block (l1 l2 l3 : str) :
  one_line l1 = true -> one_line l2 = true -> one_line l3 = true ->
  startsWith l2 fence = false -> startsWith l3 fence = false ->
  no_early_fence (join [nl] [l1; l2; l3]) (nl :: fence) = true.
Proof.
  intros H1 H2 H3 F2 F3.
  change (join [nl] [l1; l2; l3]) with (l1 ++ nl :: l2 ++ nl :: l3).
  rewrite (no_early_fence_line _ _ _ H1), no_early_fence_nl.
  rewrite <- app_assoc. cbn [app].
  rewrite (startsWith_fence_line _ _ H2), F2. cbn [negb andb].
  rewrite (no_early_fence_line _ _ _ H2), no_early_fence_nl.
  rewrite (startsWith_fence_line _ _ H3), F3. cbn [negb andb].
  rewrite <- (app_nil_r l3) at 1.
  now rewrite (no_early_fence_line _ _ _ H3).
Qed.

Lemma cap_between_app (s w : str) : cap_between s (rev w ++ s) = w.
Proof.
  unfold cap_between. rewrite length_app, length_rev.
  replace (length w + length s - length s) with (length (rev w)) by (rewrite length_rev; lia).
  rewrite firstn_app, Nat.sub_diag, firstn_all. cbn [List.firstn].
  rewrite app_nil_r. apply rev_involutive.
Qed.

Lemma word_in_class (c : ascii) : is_word c = true -> set_mem fl_i false [IWord] c = true.
Proof.
  intros H. unfold set_mem, items_mem. cbn [ignoreCase fl_i existsb citem_mem].
  now rewrite H.
Qed.

Section Block.

Variables tag l1 l2 l3 : str.

Hypothesis tag_word : forallb is_word tag = true.
Hypothesis line1 : one_line l1 = true.
Hypothesis line2 : one_line l2 = true.
Hypothesis line3 : one_line l3 = true.
Hypothesis no_fence2 : startsWith l2 fence = false.
Hypothesis no_fence3 : startsWith l3 fence = false.

Local Abbreviation block := (join [nl] [l1; l2; l3]).

(** Pattern 1 matches the whole reply, from its first character, and
    its fourth group is the block. *)
Lemma pattern1_on_reply :
  exists sn : str,
    rmatch fl_i fileHeaderWithLinesPattern (MState [] (fencedReply tag l1 l2 l3) []) accept
    = Some (MState ("`"%char :: sn) []
              [(4, block); (3, js "5"); (2, js "3"); (1, js "x.ts")]).
Proof using All.
  eexists.
  rewrite pattern1_split. unfold fencedReply.
  apply header_match. unfold afterHeader.
  apply rstar_class_run.
  - reflexivity.
  - apply List.Forall_forall. intros c Hc. apply word_in_class.
    exact (proj1 (forallb_forall _ _) tag_word c Hc).
  - cbn [app]. unfold rnl. cbn [rmatch rest]. rewrite char_mem_i_nl, ascii_eqb_refl.
    unfold advance. cbn [seen caps rmatch].
    apply rstar_lazy_any.
    + intros pre c post E. cbn [seen rest caps set_cap].
      apply closingPart_fails.
      apply (no_early_fence_split (nl :: fence) block pre c post); [|exact E].
      now apply no_early_fence_block.
    + unfold set_cap. cbn [seen rest caps].
      change (nl :: fence) with (nl :: fence ++ []).
      rewrite closingPart_matches. unfold accept.
      rewrite cap_between_app. reflexivity.
Qed.

End Block.

Lemma search_at_start (fl : flags) (r : regex) (sn rs : str) (st : mstate) :
  rmatch fl r (MState sn rs []) accept = Some st ->
  search fl r sn rs = Some (MatchResult (length sn) (cap_between sn (seen st)) (caps st) st).
Proof.
  intros H. destruct rs; cbn [search]; now rewrite H.
Qed.

Lemma pattern1_at_end (sn : str) : search fl_i fileHeaderWithLinesPattern sn [] = None.
Proof. reflexivity. Qed.

Lemma pattern1_body_block (m : rmatch_result) (content : str) :
  m_caps m = [(4, content); (3, js "5"); (2, js "3"); (1, js "x.ts")] ->
  non_empty content = true ->
  has_doc_comment content = false ->
  pattern1_body [] m = [lineRangeChange content].
Proof.
  intros Hc Hn Hd.
  unfold pattern1_body, group_or_empty, number_of, group. rewrite Hc.
  cbn [get_cap Nat.eqb].
  change (trim (js "x.ts")) with (js "x.ts").
  change (non_empty (js "x.ts")) with true. rewrite Hn. cbn [andb].
  unfold has_doc_comment in Hd. rewrite Hd.
  change (trim (replace_all fl_none emphasisChars [] (js "x.ts"))) with (js "x.ts").
  reflexivity.
Qed.

(** None of the five loops of [parseFileChanges] can run forever: no
    pattern matches the empty string. *)
Lemma parseFileChanges_returns (aiResponse : str) :
  exists changes : list FileChange, parseFileChanges aiResponse = Some changes.
Proof.
  unfold parseFileChanges.
  destruct (exec_all_ends fl_i fileHeaderWithLinesPattern pattern1_body [] aiResponse
              eq_refl) as [c1 ->].
  destruct c1; cbn [when_empty]; [|eauto].
  destruct (exec_all_ends fl_i functionDocPattern pattern2_body [] aiResponse
              eq_refl) as [c2 ->].
  destruct c2; cbn [when_empty]; [|eauto].
  destruct (exec_all_ends fl_i functionDocWithCodePattern pattern25_body [] aiResponse
              eq_refl) as [c3 ->].
  destruct c3; cbn [when_empty]; [|eauto].
  destruct (exec_all_ends fl_i commentedBlockPattern pattern3_body [] aiResponse
              eq_refl) as [c4 ->].
  destruct c4; cbn [when_empty]; [|eauto].
  destruct (exec_all_ends fl_i anyBlockPattern pattern4_body ([], 0) aiResponse
              eq_refl) as [c5 ->].
  cbn [option_map]. eauto.
Qed.

End LineRange.

(** C2, as stated, fails: for the header followed by a block of three
    indented lines the parser extracts the one change with the announced
    file and lines, but its replacement text has lost the indentation of
    the first line. *)
Lemma parseFileChanges_block_lines_counterexample :
  exists c : FileChange,
    SmartAgent.parseFileChanges indentedReply = Some [c] /\
    fileName c = js "x.ts" /\ startLine c = Some 3 /\ endLine c = Some 5 /\
    changeType c = Replace /\
    newContent c = join [nl] [js "const a = 1;"; js "  const b = 2;"; js "  return a + b;"] /\
    newContent c <> join [nl] indentedLines.
Proof.
  eexists. split; [vm_compute; reflexivity|].
  repeat split; try reflexivity. discriminate.
Qed.

(** C2, amended.  For a reply made of the header
    [### File: x.ts (lines 3-5)] and a fenced block whose tag is made of
    word characters and whose body is three lines, the second and third
    not starting with a fence, and which does not hold both the opening
    and the closing mark of a doc comment, [parseFileChanges] returns
    exactly one change: file [x.ts], lines 3 to 5, type replace, and as
    replacement the three lines joined by line feeds and trimmed.  The
    replacement is the block itself exactly when the block neither begins
    nor ends with whitespace. *)
Theorem parseFileChanges_line_range (tag l1 l2 l3 : str) :
  forallb is_word tag = true ->
  one_line l1 = true -> one_line l2 = true -> one_line l3 = true ->
  startsWith l2 fence = false -> startsWith l3 fence = false ->
  has_doc_comment (join [nl] [l1; l2; l3]) = false ->
  SmartAgent.parseFileChanges (fencedReply tag l1 l2 l3)
    = Some [ {| fileName := js "x.ts";
                newContent := trim (join [nl] [l1; l2; l3]);
                startLine := Some 3; endLine := Some 5;
                changeType := Replace |} ] /\
  (trim (join [nl] [l1; l2; l3]) = join [nl] [l1; l2; l3] <->
   starts_with_space (join [nl] [l1; l2; l3]) = false /\
   ends_with_space (join [nl] [l1; l2; l3]) = false).
Proof.
  intros Htag H1 H2 H3 F2 F3 Hdoc.
  split; [|apply trim_id_iff].
  destruct (pattern1_on_reply tag l1 l2 l3 Htag H1 H2 H3 F2 F3) as [sn Hm].
  unfold SmartAgent.parseFileChanges, exec_all.
  cbn [exec_loop].
  rewrite (search_at_start _ _ _ _ _ Hm).
  cbn [m_end seen rest length Nat.eqb].
  destruct (length (fencedReply tag l1 l2 l3)) as [|fuel] eqn:El.
  - apply length_zero_iff_nil in El. discriminate El.
  - cbn [exec_loop]. rewrite pattern1_at_end.
    rewrite (pattern1_body_block _ (join [nl] [l1; l2; l3])); trivial.
    destruct l1; reflexivity.
Qed.

Lemma parseFileChanges_line_range_witness :
  (forallb is_word (js "ts") = true /\
   one_line (js "  const a = 1;") = true /\
   one_line (js "  const b = 2;") = true /\
   one_line (js "  return a + b;") = true /\
   startsWith (js "  const b = 2;") fence = false /\
   startsWith (js "  return a + b;") fence = false /\
   has_doc_comment (join [nl] indentedLines) = false) /\
  (SmartAgent.parseFileChanges indentedReply
     = Some [ {| fileName := js "x.ts";
                 newContent := trim (join [nl] indentedLines);
                 startLine := Some 3; endLine := Some 5;
                 changeType := Replace |} ] /\
   (trim (join [nl] indentedLines) = join [nl] indentedLines <->
    starts_with_space (join [nl] indentedLines) = false /\
    ends_with_space (join [nl] indentedLines) = false)).
Proof.
  split.
  - repeat split; reflexivity.
  - apply (parseFileChanges_line_range (js "ts") (js "  const a = 1;")
             (js "  const b = 2;") (js "  return a + b;")); reflexivity.
Defined.

(** ** Texts and lists *)

Section Texts.

Lemma take_In {A : Type} (x : A) (n : nat) (l : list A) :
  In x (List.firstn n l) -> In x l.
Proof.
  revert n. induction l as [|a l IH]; intros [|n]; cbn [List.firstn In]; try tauto.
  intros [->|H]; [auto|right; eauto].
Qed.

Lemma take_NoDup {A : Type} (n : nat) (l : list A) :
  List.NoDup l -> List.NoDup (List.firstn n l).
Proof.
  revert n. induction l as [|a l IH]; intros [|n] H; cbn [List.firstn]; try constructor.
  - apply NoDup_cons_iff in H. destruct H as [Ha _]. intros Hin. apply Ha.
    eapply take_In. exact Hin.
  - apply IH. now apply NoDup_cons_iff in H.
Qed.

Lemma startsWith_refl (s : str) : startsWith s s = true.
Proof.
  induction s as [|c s IH]; [reflexivity|].
  cbn [startsWith]. now rewrite ascii_eqb_refl.
Qed.

Lemma includes_refl (s : str) : includes s s = true.
Proof. destruct s; cbn [includes]; rewrite startsWith_refl; reflexivity. Qed.

Lemma split_lines_aux_nonempty (s : str) : forall cur, split_lines_aux cur s <> [].
Proof.
  induction s as [|c s IH]; intros cur; cbn [split_lines_aux]; [discriminate|].
  destruct (ascii_eqb c nl); [discriminate|apply IH].
Qed.

Lemma join_split_lines_aux (s : str) :
  forall cur, join [nl] (split_lines_aux cur s) = rev cur ++ s.
Proof.
  induction s as [|c s IH]; intros cur; cbn [split_lines_aux].
  - cbn [join]. now rewrite app_nil_r.
  - destruct (ascii_eqb c nl) eqn:E.
    + apply ascii_eqb_eq in E. subst c.
      destruct (split_lines_aux [] s) as [|x l] eqn:El.
      * exfalso. exact (split_lines_aux_nonempty _ _ El).
      * change (join [nl] (rev cur :: x :: l)) with (rev cur ++ [nl] ++ join [nl] (x :: l)).
        rewrite <- El, IH. reflexivity.
    + rewrite IH. cbn [rev]. now rewrite <- app_assoc.
Qed.

(** Splitting a text into lines and joining them again gives the text. *)
Lemma join_split_lines (s : str) : join [nl] (split_lines s) = s.
Proof. apply (join_split_lines_aux s []). Qed.

Lemma split_lines_nonempty (s : str) : split_lines s <> [].
Proof. apply split_lines_aux_nonempty. Qed.

Lemma join_cons (sep x : str) (y : str) (l : list str) :
  join sep (x :: y :: l) = x ++ sep ++ join sep (y :: l).
Proof. reflexivity. Qed.

Lemma join_app (sep : str) (l1 l2 : list str) :
  l1 <> [] -> l2 <> [] ->
  join sep (l1 ++ l2) = join sep l1 ++ sep ++ join sep l2.
Proof.
  intros H1 H2. induction l1 as [|x l1 IH]; [contradiction|].
  destruct l1 as [|y l1].
  - destruct l2 as [|z l2]; [contradiction|]. reflexivity.
  - cbn [app]. rewrite !join_cons. cbn [app] in IH. rewrite IH by discriminate.
    now rewrite <- !app_assoc.
Qed.

End Texts.

(** ** FormatUtils: escaping *)

Section Escaping.

Variables (d : ascii) (rep : str).

Local Abbreviation sub := (fun c : ascii => if ascii_eqb d c then rep else [c]).

Lemma replace_loop_hit (fuel : nat) (held sn rs : str) :
  replace_loop (S fuel) fl_none (RChar d) rep held sn (d :: rs)
  = rev held ++ rep ++ replace_loop fuel fl_none (RChar d) rep [] (d :: sn) rs.
Proof.
  cbn [replace_loop search rmatch rest].
  unfold char_mem. cbn [ignoreCase fl_none]. rewrite ascii_eqb_refl.
  unfold accept, advance.
  cbn [seen rest caps m_index m_end].
  rewrite Nat.sub_diag. cbn [List.firstn app].
  change (length (d :: sn)) with (S (length sn)).
  replace (S (length sn) =? length sn) with false
    by (symmetry; apply Nat.eqb_neq; lia).
  now rewrite <- app_assoc.
Qed.

Lemma replace_loop_skip (fuel : nat) (held sn rs : str) (c : ascii) :
  ascii_eqb d c = false ->
  replace_loop (S fuel) fl_none (RChar d) rep held sn (c :: rs)
  = replace_loop (S fuel) fl_none (RChar d) rep (c :: held) (c :: sn) rs.
Proof.
  intros Hc. cbn [replace_loop].
  assert (E : search fl_none (RChar d) sn (c :: rs) = search fl_none (RChar d) (c :: sn) rs).
  { cbn [search rmatch rest]. unfold char_mem. cbn [ignoreCase fl_none].
    now rewrite Hc. }
  rewrite E.
  destruct (search fl_none (RChar d) (c :: sn) rs) as [m|] eqn:Es.
  - destruct (search_some _ _ _ _ _ Es) as (pre & post & _ & _ & _ & Hi).
    cbn [length] in Hi.
    replace (m_index m - length sn) with (S (m_index m - S (length sn))) by lia.
    cbn [List.firstn rev]. rewrite <- !app_assoc. reflexivity.
  - cbn [rev]. now rewrite <- app_assoc.
Qed.

Lemma replace_loop_char (rs : str) :
  forall (fuel : nat) (held sn : str),
    length rs < fuel ->
    replace_loop fuel fl_none (RChar d) rep held sn rs = rev held ++ flat_map sub rs.
Proof.
  induction rs as [|c rs IH]; intros fuel held sn Hf;
    (destruct fuel as [|fuel]; [inversion Hf|]).
  - reflexivity.
  - cbn [length] in Hf. cbn [flat_map].
    destruct (ascii_eqb d c) eqn:E.
    + apply ascii_eqb_eq in E. subst c.
      rewrite replace_loop_hit, IH by lia. reflexivity.
    + rewrite (replace_loop_skip _ _ _ _ _ E), IH by (cbn [length]; lia).
      cbn [rev]. now rewrite <- app_assoc.
Qed.

Lemma replace_all_char (s : str) :
  replace_all fl_none (RChar d) rep s = flat_map sub s.
Proof. unfold replace_all. rewrite replace_loop_char by lia. reflexivity. Qed.

End Escaping.

Section Entities.

Import FormatUtils.

Lemma escapeHtml_app (a b : str) : escapeHtml (a ++ b) = escapeHtml a ++ escapeHtml b.
Proof.
  unfold escapeHtml. rewrite !replace_all_char.
  now rewrite !flat_map_app.
Qed.

Lemma escapeHtml_char (c : ascii) : escapeHtml [c] = entity c.
Proof. destruct c as [[] [] [] [] [] [] [] []]; reflexivity. Qed.

Lemma entity_safe (c : ascii) :
  forallb (fun x => negb (ascii_eqb x "<" || ascii_eqb x ">"
                          || ascii_eqb x dquote || ascii_eqb x squote))
    (entity c) = true.
Proof. destruct c as [[] [] [] [] [] [] [] []]; reflexivity. Qed.

Lemma escapeHtml_entities (text : str) : escapeHtml text = flat_map entity text.
Proof.
  induction text as [|c text IH]; [reflexivity|].
  change (c :: text) with ([c] ++ text).
  rewrite escapeHtml_app, escapeHtml_char, IH. reflexivity.
Qed.

End Entities.

(** X25.  [escapeHtml] replaces each of the five characters [&], [<],
    [>], the double and the single quote by its entity, once, and keeps
    every other character: the ampersands of the entities it writes are
    not escaped again.  So it can be applied piece by piece, and its
    result holds no [<], [>] or quote. *)
Theorem escapeHtml_entity_per_character :
  (forall text : str, FormatUtils.escapeHtml text = flat_map entity text) /\
  (forall a b : str,
      FormatUtils.escapeHtml (a ++ b)
      = FormatUtils.escapeHtml a ++ FormatUtils.escapeHtml b) /\
  (forall text : str,
      forallb (fun x => negb (ascii_eqb x "<" || ascii_eqb x ">"
                              || ascii_eqb x dquote || ascii_eqb x squote))
        (FormatUtils.escapeHtml text) = true) /\
  (forall text : str,
      forallb (fun c => negb (html_special c)) text = true ->
      FormatUtils.escapeHtml text = text).
Proof.
  split; [exact escapeHtml_entities|]. split; [exact escapeHtml_app|]. split.
  - intros text. rewrite escapeHtml_entities.
    induction text as [|c text IH]; [reflexivity|].
    cbn [flat_map]. rewrite forallb_app, IH, entity_safe. reflexivity.
  - intros text H. rewrite escapeHtml_entities.
    induction text as [|c text IH]; [reflexivity|].
    cbn [forallb] in H. apply andb_true_iff in H. destruct H as [Hc Ht].
    cbn [flat_map]. rewrite (IH Ht).
    unfold html_special in Hc. unfold entity.
    destruct (ascii_eqb c "&"); [discriminate|].
    destruct (ascii_eqb c "<"); [discriminate|].
    destruct (ascii_eqb c ">"); [discriminate|].
    destruct (ascii_eqb c dquote); [discriminate|].
    destruct (ascii_eqb c squote); [discriminate|].
    reflexivity.
Qed.

(** ** OutputParser: code blocks with the same hash *)

Section Hashes.

Import OutputParser.

Local Abbreviation hashOf := (fun b : CodeBlock => hashCode (cb_code b)).

Lemma existsb_eqb (h : Z) (l : list Z) : existsb (Z.eqb h) l = true <-> In h l.
Proof.
  rewrite existsb_exists. split.
  - intros (x & Hx & E). apply Z.eqb_eq in E. now subst.
  - intros H. exists h. split; [exact H|apply Z.eqb_refl].
Qed.

Lemma dedup_loop_In (b : CodeBlock) (blocks : list CodeBlock) :
  forall seenHashes,
    In b (dedup_loop blocks seenHashes) ->
    In b blocks /\ ~ In (hashOf b) seenHashes.
Proof.
  induction blocks as [|a blocks IH]; intros seenHashes H; cbn [dedup_loop] in H;
    [contradiction|].
  destruct (existsb (Z.eqb (hashCode (cb_code a))) seenHashes) eqn:E.
  - destruct (IH _ H). split; [now right|assumption].
  - destruct H as [<-|H].
    + split; [now left|]. intros Hin. apply existsb_eqb in Hin. congruence.
    + destruct (IH _ H) as [H1 H2]. split; [now right|].
      intros Hin. apply H2. now right.
Qed.

Lemma dedup_loop_NoDup (blocks : list CodeBlock) :
  forall seenHashes, List.NoDup (List.map hashOf (dedup_loop blocks seenHashes)).
Proof.
  induction blocks as [|a blocks IH]; intros seenHashes; cbn [dedup_loop];
    [constructor|].
  destruct (existsb (Z.eqb (hashCode (cb_code a))) seenHashes); [apply IH|].
  cbn [List.map]. constructor; [|apply IH].
  intros H. apply in_map_iff in H. destruct H as (u & Hu & Hin).
  apply dedup_loop_In in Hin. destruct Hin as [_ Hn]. apply Hn.
  left. now rewrite Hu.
Qed.

Lemma dedup_loop_covers (b : CodeBlock) (blocks : list CodeBlock) :
  forall seenHashes,
    In b blocks ->
    In (hashOf b) seenHashes \/
    exists u, In u (dedup_loop blocks seenHashes) /\ hashOf u = hashOf b.
Proof.
  induction blocks as [|a blocks IH]; intros seenHashes H; [contradiction|].
  cbn [dedup_loop].
  destruct (existsb (Z.eqb (hashCode (cb_code a))) seenHashes) eqn:E.
  - destruct H as [<-|H]; [left; now apply existsb_eqb|]. now apply IH.
  - destruct H as [<-|H]; [right; exists a; split; [now left|reflexivity]|].
    destruct (IH (hashCode (cb_code a) :: seenHashes) H) as [[E1|Hin]|(u & Hu & E1)].
    + right. exists a. split; [now left|exact E1].
    + now left.
    + right. exists u. split; [now right|exact E1].
Qed.

Lemma dedup_loop_fixed (blocks : list CodeBlock) :
  forall seenHashes,
    List.NoDup (List.map hashOf blocks) ->
    (forall b, In b blocks -> ~ In (hashOf b) seenHashes) ->
    dedup_loop blocks seenHashes = blocks.
Proof.
  induction blocks as [|a blocks IH]; intros seenHashes Hn Hs; [reflexivity|].
  cbn [dedup_loop].
  destruct (existsb (Z.eqb (hashCode (cb_code a))) seenHashes) eqn:E.
  - apply existsb_eqb in E. exfalso. exact (Hs a (or_introl eq_refl) E).
  - cbn [List.map] in Hn. apply NoDup_cons_iff in Hn. destruct Hn as [Ha Hn].
    f_equal. apply IH; [exact Hn|].
    intros b Hb [E1|Hin].
    + apply Ha. rewrite E1. exact (in_map hashOf blocks b Hb).
    + exact (Hs b (or_intror Hb) Hin).
Qed.

End Hashes.

(** X24.  [deduplicateCodeBlocks] keeps, in their order, the first block
    of every hash value: the blocks kept are blocks given, their hashes
    are pairwise different, every block given has the hash of a block
    kept, and doing it twice changes nothing more.  Blocks are compared
    by the 32-bit hash alone: of two blocks with the different codes
    [Aa] and [BB], whose hashes agree, the second is dropped. *)
Theorem deduplicateCodeBlocks_by_hash :
  (forall blocks : list CodeBlock,
      List.NoDup (List.map (fun b => OutputParser.hashCode (cb_code b))
                    (OutputParser.deduplicateCodeBlocks blocks)) /\
      (forall b, In b (OutputParser.deduplicateCodeBlocks blocks) -> In b blocks) /\
      (forall b, In b blocks ->
         exists u, In u (OutputParser.deduplicateCodeBlocks blocks) /\
                   OutputParser.hashCode (cb_code u) = OutputParser.hashCode (cb_code b)) /\
      OutputParser.deduplicateCodeBlocks (OutputParser.deduplicateCodeBlocks blocks)
      = OutputParser.deduplicateCodeBlocks blocks) /\
  (js "Aa" <> js "BB" /\
   OutputParser.deduplicateCodeBlocks [blockOf (js "Aa"); blockOf (js "BB")]
   = [blockOf (js "Aa")]).
Proof.
  split.
  - intros blocks. unfold OutputParser.deduplicateCodeBlocks. repeat split.
    + apply dedup_loop_NoDup.
    + intros b H. now apply dedup_loop_In in H.
    + intros b H. destruct (dedup_loop_covers b blocks [] H) as [[]|H0]. exact H0.
    + apply dedup_loop_fixed; [apply dedup_loop_NoDup|]. intros b _ [].
  - split; [discriminate|reflexivity].
Qed.

(** ** OutputParser: a file header without a block *)

(** X30.  When [detectResponseType] classifies the trimmed reply
    [multifile] and the reply holds no run of six backticks,
    [parseMultiFileResponse] finds no change, [parseMultiFileResponseData]
    falls back to [parseAIResponse], which classifies the same text
    [multifile] again: the two functions call each other until the call
    stack is exhausted, and the call ends with a [RangeError] whatever
    depth the stack allows.  A line of prose that begins with [File:]
    is such a reply. *)
Theorem parseAIResponse_header_without_block
    (buildCodeBlock : str -> rmatch_result -> str -> str -> CodeBlock)
    (parseWithBlocks : str -> list CodeBlock -> ParseContext -> ParsedOutput)
    (serializeMultiFileChanges : list MultiFileChange -> str)
    (depth : nat) (response : str) (context : ParseContext) :
  OutputParser.detectResponseType (trim response) = Multifile ->
  includes (trim response) (js "``````") = false ->
  OutputParser.parseAIResponse buildCodeBlock parseWithBlocks
    serializeMultiFileChanges depth response context
  = Some (Throw RangeError).
Proof.
  revert response context.
  induction depth as [|depth IH]; intros response context Hm H6; [reflexivity|].
  rewrite parseAI_S. cbv zeta. rewrite Hm. cbn [OutputParser.is_multifile orb].
  rewrite (parseMultiFileResponse_no_six _ H6).
  apply IH; rewrite trim_idempotent; assumption.
Qed.

Lemma parseAIResponse_header_without_block_witness :
  plainProse labelledProse = false /\
  forallb (fun c => negb (codePunctuation c)) labelledProse = true /\
  OutputParser.parseAIResponse
    (fun _ _ _ code => Build_CodeBlock code None None 0 0 false [])
    (fun response _ context => OutputParser.parseCodeOnlyResponse response context)
    (fun _ => [])
    1000 labelledProse no_context
  = Some (Throw RangeError).
Proof.
  split; [vm_compute; reflexivity|]. split; [vm_compute; reflexivity|].
  apply (parseAIResponse_header_without_block _ _ _ 1000 labelledProse no_context);
    vm_compute; reflexivity.
Defined.

(** ** PatchEngine: the size of the history *)

Section HistorySize.

Import PatchEngine.

Lemma addToHistory_take (entry : PatchHistory) (history : list PatchHistory) :
  addToHistory entry history = List.firstn maxHistorySize (entry :: history).
Proof.
  unfold addToHistory.
  destruct (maxHistorySize <? length (entry :: history)) eqn:E; [reflexivity|].
  apply Nat.ltb_ge in E. symmetry. apply List.firstn_all2. exact E.
Qed.

Lemma addToHistory_bounded (entry : PatchHistory) (history : list PatchHistory) :
  length (addToHistory entry history) <= maxHistorySize.
Proof. rewrite addToHistory_take, length_firstn. lia. Qed.

Lemma addChanges_bounded (host : Host) (context : CodeContext)
    (p : ParsedOutput) (changes : list MultiFileChange) :
  forall (i : nat) (history : list PatchHistory),
    length history <= maxHistorySize ->
    length (addChanges host i changes context p history) <= maxHistorySize.
Proof.
  induction changes as [|c changes IH]; intros i history H; cbn [addChanges]; [exact H|].
  apply IH, addToHistory_bounded.
Qed.

Lemma history_step_bounded host options history history' :
  history_step host options history history' ->
  length history <= maxHistorySize -> length history' <= maxHistorySize.
Proof.
  intros [|entry _ _ _|context p changes _ _] H.
  - exact H.
  - apply addToHistory_bounded.
  - apply addChanges_bounded, H.
Qed.

End HistorySize.

(** X16.  The patch history holds the fifty most recent entries, the
    newest first: [addToHistory] puts the entry in front and cuts the
    list to fifty, and whatever calls are made on the engine, the history
    never holds more than fifty entries. *)
Theorem patch_history_bounded :
  (forall (entry : PatchHistory) (history : list PatchHistory),
      PatchEngine.addToHistory entry history
      = List.firstn 50 (entry :: history)) /\
  (forall (buildCodeBlock : str -> rmatch_result -> str -> str -> CodeBlock)
          (parseWithBlocks : str -> list CodeBlock -> ParseContext -> ParsedOutput)
          (serializeMultiFileChanges : list MultiFileChange -> str)
          (stackDepth : nat) (calls : list PatchEngine.call),
      length (PatchEngine.run_calls buildCodeBlock parseWithBlocks
                serializeMultiFileChanges stackDepth calls []) <= 50).
Proof.
  split; [exact addToHistory_take|].
  intros bb pw ser d calls.
  assert (G : forall history, length history <= 50 ->
                length (PatchEngine.run_calls bb pw ser d calls history) <= 50).
  { induction calls as [|c calls IH]; intros history H; [exact H|].
    cbn [PatchEngine.run_calls fold_left]. apply IH.
    unfold PatchEngine.history_after.
    destruct (PatchEngine.run_call bb pw ser d c history) as [[out history']|] eqn:E;
      [|exact H].
    destruct c; cbn [PatchEngine.run_call] in E.
    - eapply history_step_bounded; [eapply inline_step, E|exact H].
    - eapply history_step_bounded; [eapply generation_step, E|exact H].
    - eapply history_step_bounded; [eapply multifile_step, E|exact H].
    - eapply history_step_bounded; [eapply smart_step, E|exact H].
    - injection E as _ <-. cbn. lia. }
  apply G. cbn. lia.
Qed.

(** ** PatchEngine: indentation *)

Section Indentation.

Import PatchEngine.

Lemma leading_space_split (s : str) : s = leading_space s ++ drop_space s.
Proof.
  induction s as [|c s IH]; cbn [leading_space drop_space]; [reflexivity|].
  destruct (is_space c); [cbn [app]; now rewrite <- IH|reflexivity].
Qed.

Lemma leading_space_spaces (s : str) :
  Forall (fun c => set_mem fl_none false [ISpace] c = true) (leading_space s).
Proof.
  induction s as [|c s IH]; cbn [leading_space]; [constructor|].
  destruct (is_space c) eqn:E; constructor; [|exact IH].
  unfold set_mem, items_mem. cbn [ignoreCase fl_none existsb citem_mem]. now rewrite E.
Qed.

Lemma drop_space_head (s : str) :
  match drop_space s with
  | [] => True
  | c :: _ => set_mem fl_none false [ISpace] c = false
  end.
Proof.
  induction s as [|c s IH]; cbn [drop_space]; [exact I|].
  destruct (is_space c) eqn:E; [exact IH|].
  unfold set_mem, items_mem. cbn [ignoreCase fl_none existsb citem_mem]. now rewrite E.
Qed.

(** [/^(\s* )/] on a line: the match is the whitespace the line begins
    with. *)
Lemma leadingSpaces0_rmatch (line : str) :
  rmatch fl_none leadingSpaces0 (MState [] line []) accept
  = Some (MState (rev (leading_space line)) (drop_space line) [(1, leading_space line)]).
Proof.
  change (rmatch fl_none (rstar rspace) (MState [] line [])
            (fun st' => accept (set_cap 1 (cap_between [] (seen st')) st'))
          = Some (MState (rev (leading_space line)) (drop_space line)
                    [(1, leading_space line)])).
  pose proof (leading_space_split line) as E.
  pose proof (leading_space_spaces line) as S.
  pose proof (drop_space_head line) as D.
  remember (leading_space line) as w. remember (drop_space line) as t.
  clear Heqw Heqt. subst line.
  apply rstar_class_run; [exact D|exact S|].
  cbn [seen]. unfold accept, set_cap. cbn [seen rest caps].
  now rewrite cap_between_app, app_nil_r.
Qed.

Lemma leadingSpaces0_exec (line : str) :
  exists m : rmatch_result,
    exec fl_none leadingSpaces0 line = Some m /\ group m 1 = Some (leading_space line).
Proof.
  eexists. split.
  - unfold exec. apply search_at_start, leadingSpaces0_rmatch.
  - reflexivity.
Qed.

(** A greedy class repeated at least [lo] times takes the whole run. *)
Lemma rep_loop_class_run_from (fl : flags) (neg : bool) (items : list citem)
    (body : mstate -> cont -> option mstate) (k : cont) (lo : nat)
    (x : mstate) (t : str) (cs : list (nat * str)) :
  (forall st k0, body st k0 = rmatch fl (RSet neg items) st k0) ->
  match t with
  | [] => True
  | c :: _ => set_mem fl neg items c = false
  end ->
  forall (w sn : str) (fuel n : nat),
    length w < fuel ->
    lo <= n + length w ->
    Forall (fun c => set_mem fl neg items c = true) w ->
    k (MState (rev w ++ sn) t cs) = Some x ->
    rep_loop body [] false true lo None k fuel n (MState sn (w ++ t) cs) = Some x.
Proof.
  intros Hbody Ht. induction w as [|c w IH]; intros sn fuel n Hf Hlo Hw Hk.
  - destruct fuel as [|fuel]; [inversion Hf|].
    cbn [length] in Hlo.
    assert (E : (lo <=? n) = true) by (apply Nat.leb_le; lia).
    cbn [rep_loop under clear_caps app rev] in *.
    rewrite Hbody. cbn [rmatch rest]. rewrite E.
    destruct t as [|c t].
    + exact Hk.
    + rewrite Ht. exact Hk.
  - destruct fuel as [|fuel]; [inversion Hf|].
    apply Forall_cons_1 in Hw. destruct Hw as [Hc Hw].
    cbn [rep_loop under clear_caps app andb].
    rewrite Hbody. cbn [rmatch rest].
    rewrite Hc. unfold advance. cbn [seen caps].
    rewrite (IH (c :: sn) fuel (S n)); trivial.
    + cbn [length] in Hf. lia.
    + cbn [length] in Hlo. lia.
    + cbn [rev] in Hk. now rewrite <- app_assoc in Hk.
Qed.

(** [/^(\s+)/] on a line that begins with whitespace. *)
Lemma leadingSpaces1_rmatch (line : str) :
  starts_with_space line = true ->
  rmatch fl_none leadingSpaces1 (MState [] line []) accept
  = Some (MState (rev (leading_space line)) (drop_space line) [(1, leading_space line)]).
Proof.
  intros Hs.
  change (rep_loop (rmatch fl_none rspace) [] false true 1 None
            (fun st' => accept (set_cap 1 (cap_between [] (seen st')) st'))
            (S (length line + 1)) 0 (MState [] line [])
          = Some (MState (rev (leading_space line)) (drop_space line)
                    [(1, leading_space line)])).
  assert (L : 1 <= length (leading_space line)).
  { destruct line as [|c line]; [discriminate|].
    cbn [starts_with_space] in Hs. cbn [leading_space]. rewrite Hs. cbn [length]. lia. }
  pose proof (leading_space_split line) as E.
  pose proof (leading_space_spaces line) as S.
  pose proof (drop_space_head line) as D.
  remember (leading_space line) as w. remember (drop_space line) as t.
  clear Heqw Heqt. subst line.
  apply (rep_loop_class_run_from fl_none false [ISpace]); trivial.
  - rewrite length_app. lia.
  - cbn [seen]. unfold accept, set_cap. cbn [seen rest caps].
    now rewrite cap_between_app, app_nil_r.
Qed.

Lemma leadingSpaces1_exec (line : str) :
  starts_with_space line = true ->
  exists m : rmatch_result,
    exec fl_none leadingSpaces1 line = Some m /\ group m 1 = Some (leading_space line).
Proof.
  intros Hs. eexists. split.
  - unfold exec. apply search_at_start, leadingSpaces1_rmatch, Hs.
  - reflexivity.
Qed.

(** [/^(\s+)/] on a line that does not begin with whitespace. *)
Lemma leadingSpaces1_none (line : str) :
  starts_with_space line = false -> exec fl_none leadingSpaces1 line = None.
Proof.
  intros Hs. unfold exec. apply search_none. intros pre post E.
  destruct pre as [|c pre].
  - cbn [rev app] in *. subst post.
    change (rep_loop (rmatch fl_none rspace) [] false true 1 None
              (fun st' => accept (set_cap 1 (cap_between [] (seen st')) st'))
              (S (length line + 1)) 0 (MState [] line []) = None).
    cbn [rep_loop under clear_caps Nat.leb].
    unfold rspace. cbn [rmatch rest].
    destruct line as [|c line]; [reflexivity|].
    cbn [starts_with_space] in Hs.
    unfold set_mem, items_mem. cbn [ignoreCase fl_none existsb citem_mem].
    now rewrite Hs.
  - unfold leadingSpaces1. cbn [rseq]. cbn [rmatch].
    unfold at_bol. cbn [seen rev]. rewrite app_nil_r.
    destruct (rev pre ++ [c]) eqn:R; [now destruct (rev pre)|reflexivity].
Qed.

Lemma detectIndentation_loop_find (lines : list str) :
  detectIndentation_loop lines
  = match List.find starts_with_space lines with
    | Some line => leading_space line
    | None => js "  "
    end.
Proof.
  induction lines as [|line lines IH]; cbn [detectIndentation_loop List.find]; [reflexivity|].
  destruct (starts_with_space line) eqn:E.
  - destruct (leadingSpaces1_exec line E) as (m & -> & ->). reflexivity.
  - now rewrite (leadingSpaces1_none line E).
Qed.

End Indentation.

(** X17.  [getIndentationAtPosition] returns the whitespace the given
    line of the file begins with, and raises a type error when the file
    has no such line. *)
Theorem getIndentationAtPosition_line (fileContent : str) (line : nat) :
  PatchEngine.getIndentationAtPosition fileContent line
  = match List.nth_error (split_lines fileContent) line with
    | Some currentLine => Return (leading_space currentLine)
    | None => Throw TypeError
    end.
Proof.
  unfold PatchEngine.getIndentationAtPosition.
  destruct (List.nth_error (split_lines fileContent) line) as [currentLine|]; [|reflexivity].
  destruct (leadingSpaces0_exec currentLine) as (m & -> & ->). reflexivity.
Qed.

(** X18.  [detectIndentation] returns the leading whitespace of the
    first line that begins with a whitespace character, and two spaces
    when no line does. *)
Theorem detectIndentation_first_indented (code : str) :
  PatchEngine.detectIndentation code
  = match List.find starts_with_space (split_lines code) with
    | Some line => leading_space line
    | None => js "  "
    end.
Proof. apply detectIndentation_loop_find. Qed.

(** ** PatchEngine: indenting the lines of a text *)

Section Adjusting.

Import PatchEngine.

Lemma forallb_reverse {A : Type} (f : A -> bool) (l : list A) :
  forallb f (rev l) = forallb f l.
Proof.
  induction l as [|a l IH]; [reflexivity|].
  cbn [rev forallb]. rewrite forallb_app, IH. cbn [forallb].
  rewrite andb_true_r. apply andb_comm.
Qed.

Lemma split_lines_aux_line (l : str) :
  one_line l = true ->
  forall cur, split_lines_aux cur l = [rev cur ++ l].
Proof.
  induction l as [|c l IH]; intros H cur; cbn [split_lines_aux].
  - now rewrite app_nil_r.
  - cbn [one_line forallb] in H. apply andb_true_iff in H. destruct H as [Hc Hl].
    apply negb_true_iff in Hc. rewrite Hc.
    rewrite (IH Hl). cbn [rev]. now rewrite <- app_assoc.
Qed.

Lemma split_lines_aux_first (l s : str) :
  one_line l = true ->
  forall cur, split_lines_aux cur (l ++ nl :: s) = (rev cur ++ l) :: split_lines s.
Proof.
  induction l as [|c l IH]; intros H cur; cbn [split_lines_aux app].
  - rewrite ascii_eqb_refl. now rewrite app_nil_r.
  - cbn [one_line forallb] in H. apply andb_true_iff in H. destruct H as [Hc Hl].
    apply negb_true_iff in Hc. rewrite Hc.
    rewrite (IH Hl). cbn [rev]. now rewrite <- app_assoc.
Qed.

(** Splitting undoes joining, for lines without a line feed. *)
Lemma split_lines_join (lines : list str) :
  lines <> [] ->
  Forall (fun l => one_line l = true) lines ->
  split_lines (join [nl] lines) = lines.
Proof.
  induction lines as [|l lines IH]; intros Hn Hl; [contradiction|].
  apply Forall_cons_1 in Hl. destruct Hl as [H1 Hl].
  destruct lines as [|l' lines].
  - cbn [join]. unfold split_lines. now rewrite split_lines_aux_line.
  - rewrite join_cons. cbn [app]. unfold split_lines at 1.
    rewrite split_lines_aux_first by exact H1. cbn [rev app].
    f_equal. apply IH; [discriminate|exact Hl].
Qed.

Lemma split_lines_aux_one_line (s : str) :
  forall cur, one_line cur = true ->
    Forall (fun l => one_line l = true) (split_lines_aux cur s).
Proof.
  induction s as [|c s IH]; intros cur H; cbn [split_lines_aux].
  - constructor; [|constructor]. unfold one_line in *.
    rewrite forallb_reverse. exact H.
  - destruct (ascii_eqb c nl) eqn:E.
    + constructor; [|apply IH; reflexivity].
      unfold one_line in *. rewrite forallb_reverse. exact H.
    + apply IH. cbn [one_line forallb]. now rewrite E.
Qed.

Lemma split_lines_one_line (s : str) :
  Forall (fun l => one_line l = true) (split_lines s).
Proof. apply split_lines_aux_one_line. reflexivity. Qed.

Lemma adjust_lines_one_line (indentation : str) (lines : list str) :
  one_line indentation = true ->
  Forall (fun l => one_line l = true) lines ->
  forall index, Forall (fun l => one_line l = true) (adjust_lines index indentation lines).
Proof.
  intros Hi. induction lines as [|l lines IH]; intros Hl index; cbn [adjust_lines];
    [constructor|].
  apply Forall_cons_1 in Hl. destruct Hl as [H1 Hl].
  constructor; [|apply IH, Hl].
  destruct ((index =? 0) || str_eqb (trim l) []); [exact H1|].
  unfold one_line in *. rewrite forallb_app, Hi, H1. reflexivity.
Qed.

Lemma adjust_lines_nonempty (index : nat) (indentation : str) (lines : list str) :
  lines <> [] -> adjust_lines index indentation lines <> [].
Proof. destruct lines; [contradiction|discriminate]. Qed.

Lemma split_lines_adjusted (code indentation : str) :
  one_line indentation = true ->
  split_lines (adjustIndentation code indentation)
  = adjust_lines 0 indentation (split_lines code).
Proof.
  intros H. unfold adjustIndentation. apply split_lines_join.
  - apply adjust_lines_nonempty, split_lines_nonempty.
  - apply adjust_lines_one_line; [exact H|apply split_lines_one_line].
Qed.

Lemma adjust_lines_nth (indentation : str) (lines : list str) :
  forall index i,
    List.nth_error (adjust_lines index indentation lines) i
    = option_map
        (fun line =>
           if (index + i =? 0) || str_eqb (trim line) [] then line
           else indentation ++ line)
        (List.nth_error lines i).
Proof.
  induction lines as [|l lines IH]; intros index i; cbn [adjust_lines].
  - destruct i; reflexivity.
  - destruct i as [|i]; cbn [List.nth_error option_map].
    + now rewrite Nat.add_0_r.
    + rewrite IH. now replace (S index + i) with (index + S i) by lia.
Qed.

Lemma adjust_lines_nothing (lines : list str) :
  forall index, adjust_lines index [] lines = lines.
Proof.
  induction lines as [|l lines IH]; intros index; cbn [adjust_lines]; [reflexivity|].
  rewrite IH. now destruct ((index =? 0) || str_eqb (trim l) []).
Qed.

Lemma drop_space_nil (s : str) : drop_space s = [] <-> forallb is_space s = true.
Proof.
  induction s as [|c s IH]; cbn [drop_space forallb]; [tauto|].
  destruct (is_space c); cbn [andb]; [exact IH|].
  split; discriminate.
Qed.

Lemma drop_space_spaces (s : str) :
  forallb is_space (drop_space s) = true -> forallb is_space s = true.
Proof.
  induction s as [|c s IH]; cbn [drop_space forallb]; [trivial|].
  destruct (is_space c) eqn:E; cbn [andb]; [exact IH|].
  cbn [forallb]. now rewrite E.
Qed.

(** A line is blank for [line.trim() === ''] when all its characters
    are whitespace. *)
Lemma trim_blank (s : str) : str_eqb (trim s) [] = blank s.
Proof.
  unfold blank, trim, trimEnd, trimStart.
  destruct (forallb is_space s) eqn:E.
  - apply drop_space_nil in E. rewrite E. reflexivity.
  - destruct (rev (drop_space (rev (drop_space s)))) as [|c r] eqn:R; [|reflexivity].
    exfalso. apply (f_equal (@rev ascii)) in R. rewrite rev_involutive in R.
    cbn [rev] in R. apply drop_space_nil in R. rewrite forallb_reverse in R.
    apply drop_space_spaces in R. congruence.
Qed.

Lemma adjust_lines_twice (a b : str) (lines : list str) :
  forall index,
    adjust_lines index b (adjust_lines index a lines) = adjust_lines index (b ++ a) lines.
Proof.
  induction lines as [|l lines IH]; intros index; cbn [adjust_lines]; [reflexivity|].
  rewrite IH. f_equal.
  destruct (index =? 0); cbn [orb]; [reflexivity|].
  destruct (str_eqb (trim l) []) eqn:E; [now rewrite E|].
  rewrite trim_blank in *. unfold blank in *.
  rewrite forallb_app, E, andb_false_r.
  now rewrite app_assoc.
Qed.

End Adjusting.

(** X19.  With an indentation that holds no line feed, [adjustIndentation]
    keeps the number of lines, keeps the first line and every blank
    line as they are, and puts the indentation in front of every other
    line. *)
Theorem adjustIndentation_lines (code indentation : str) (i : nat) :
  one_line indentation = true ->
  List.nth_error (split_lines (PatchEngine.adjustIndentation code indentation)) i
  = option_map
      (fun line => if (i =? 0) || blank line then line else indentation ++ line)
      (List.nth_error (split_lines code) i).
Proof.
  intros H. rewrite split_lines_adjusted by exact H.
  rewrite adjust_lines_nth. cbn [Nat.add].
  destruct (List.nth_error (split_lines code) i) as [line|]; [|reflexivity].
  cbn [option_map]. now rewrite trim_blank.
Qed.

Lemma adjustIndentation_lines_witness :
  one_line (js "  ") = true /\
  List.nth_error
    (split_lines (PatchEngine.adjustIndentation (js "a
b

c") (js "  "))) 1
  = Some (js "  b").
Proof.
  split; [reflexivity|].
  exact (adjustIndentation_lines (js "a
b

c") (js "  ") 1 eq_refl).
Defined.

(** X20.  Indenting twice is indenting once by both indentations, when
    the first one holds no line feed. *)
Theorem adjustIndentation_twice (code a b : str) :
  one_line a = true ->
  PatchEngine.adjustIndentation (PatchEngine.adjustIndentation code a) b
  = PatchEngine.adjustIndentation code (b ++ a).
Proof.
  intros H. unfold PatchEngine.adjustIndentation at 1.
  rewrite split_lines_adjusted by exact H.
  now rewrite adjust_lines_twice.
Qed.

Lemma adjustIndentation_twice_witness :
  one_line (js "  ") = true /\
  PatchEngine.adjustIndentation
    (PatchEngine.adjustIndentation (js "if (x) {
y();
}") (js "  ")) [tab]
  = PatchEngine.adjustIndentation (js "if (x) {
y();
}") ([tab] ++ js "  ").
Proof.
  split; [reflexivity|].
  exact (adjustIndentation_twice (js "if (x) {
y();
}") (js "  ") [tab] eq_refl).
Defined.

(** X21.  With the empty indentation [adjustIndentation] returns the
    code unchanged. *)
Theorem adjustIndentation_nothing (code : str) :
  PatchEngine.adjustIndentation code [] = code.
Proof.
  unfold PatchEngine.adjustIndentation.
  rewrite adjust_lines_nothing. apply join_split_lines.
Qed.

(** ** PatchEngine: brackets of a concatenation *)

Section Brackets.

Lemma bracket_loop_app (a b : str) :
  forall stack,
    bracket_loop (a ++ b) stack
    = match bracket_loop a stack with
      | Some stack' => bracket_loop b stack'
      | None => None
      end.
Proof.
  induction a as [|c a IH]; intros stack; cbn [app bracket_loop]; [reflexivity|].
  destruct (bracket_close c); [apply IH|].
  destruct (is_closing c); [|apply IH].
  destruct stack as [|top stack]; [reflexivity|].
  destruct (ascii_eqb top c); [apply IH|reflexivity].
Qed.

(** What lies deeper in the stack than a text reaches is left alone. *)
Lemma bracket_loop_deeper (a : str) (below : list ascii) :
  forall stack stack',
    bracket_loop a stack = Some stack' ->
    bracket_loop a (stack ++ below) = Some (stack' ++ below).
Proof.
  induction a as [|c a IH]; intros stack stack' H; cbn [bracket_loop] in *.
  - now injection H as <-.
  - destruct (bracket_close c); [exact (IH (a0 :: stack) stack' H)|].
    destruct (is_closing c); [|exact (IH stack stack' H)].
    destruct stack as [|top stack]; [discriminate|]. cbn [app].
    destruct (ascii_eqb top c); [exact (IH stack stack' H)|discriminate].
Qed.

Lemma stack_empty_some (o : option (list ascii)) : stack_empty o = true -> o = Some [].
Proof. destruct o as [[|]|]; try discriminate. reflexivity. Qed.

End Brackets.

(** X22.  Code whose brackets are valid can be put in front of or
    after any other code without changing the verdict on that code. *)
Theorem validateSyntax_append (a b language : str) :
  PatchEngineSyntax.validateSyntax a language = true ->
  PatchEngineSyntax.validateSyntax (a ++ b) language
  = PatchEngineSyntax.validateSyntax b language /\
  PatchEngineSyntax.validateSyntax (b ++ a) language
  = PatchEngineSyntax.validateSyntax b language.
Proof.
  unfold PatchEngineSyntax.validateSyntax. intros H.
  apply stack_empty_some in H. split.
  - now rewrite bracket_loop_app, H.
  - rewrite bracket_loop_app.
    destruct (bracket_loop b []) as [stack|]; [|reflexivity].
    exact (f_equal stack_empty (bracket_loop_deeper a stack [] [] H)).
Qed.

Lemma validateSyntax_append_witness :
  PatchEngineSyntax.validateSyntax (js "f(x[0]);") (js "typescript") = true /\
  PatchEngineSyntax.validateSyntax (js "f(x[0]);" ++ js "}") (js "typescript")
  = PatchEngineSyntax.validateSyntax (js "}") (js "typescript") /\
  PatchEngineSyntax.validateSyntax (js "}" ++ js "f(x[0]);") (js "typescript")
  = PatchEngineSyntax.validateSyntax (js "}") (js "typescript").
Proof.
  split; [reflexivity|].
  exact (validateSyntax_append (js "f(x[0]);") (js "}") (js "typescript") eq_refl).
Defined.

(** ** PatchEngine: the style of a text *)

Section Style.

Import PatchEngineStyle.

Lemma blank_join (lines : list str) :
  blank (join [nl] lines) = forallb blank lines.
Proof.
  induction lines as [|l lines IH]; [reflexivity|].
  destruct lines as [|l' lines].
  - cbn [join forallb]. now rewrite andb_true_r.
  - rewrite join_cons. unfold blank in *. rewrite !forallb_app, IH.
    reflexivity.
Qed.

Lemma filter_none {A : Type} (p : A -> bool) (l : list A) :
  List.filter (fun x => negb (p x)) l = [] <-> forallb p l = true.
Proof.
  induction l as [|a l IH]; cbn [List.filter forallb]; [tauto|].
  destruct (p a); cbn [negb andb]; [exact IH|].
  split; discriminate.
Qed.

(** A text has no line to take the average of exactly when it is blank. *)
Lemma averageLineLength_none (code : str) :
  averageLineLength (analyzeCodeStyle code) = None <-> blank code = true.
Proof.
  unfold analyzeCodeStyle. cbn [averageLineLength].
  rewrite <- (join_split_lines code) at 2. rewrite blank_join.
  rewrite <- (filter_none blank (split_lines code)).
  assert (E : List.filter (fun line => negb (str_eqb (trim line) [])) (split_lines code)
              = List.filter (fun line => negb (blank line)) (split_lines code)).
  { apply List.filter_ext. intros line. now rewrite trim_blank. }
  rewrite E.
  destruct (List.filter (fun line => negb (blank line)) (split_lines code));
    split; try discriminate; reflexivity.
Qed.

End Style.

(** X23.  [checkContextPreservation] never reports the context as
    preserved when the original or the new code is blank (the average
    line length of no line is not a number, and comparing with it is
    false), nor when only one of the two holds a tab. *)
Theorem checkContextPreservation_needs (originalCode newCode : str) :
  PatchEngineStyle.checkContextPreservation originalCode newCode = true ->
  blank originalCode = false /\ blank newCode = false /\
  includes originalCode [tab] = includes newCode [tab].
Proof.
  unfold PatchEngineStyle.checkContextPreservation. intros H.
  apply andb_true_iff in H. destruct H as [Hi Ha].
  destruct (PatchEngineStyle.averageLineLength (PatchEngineStyle.analyzeCodeStyle originalCode))
    as [a|] eqn:Ea; [|discriminate].
  destruct (PatchEngineStyle.averageLineLength (PatchEngineStyle.analyzeCodeStyle newCode))
    as [b|] eqn:Eb; [|discriminate].
  repeat split.
  - destruct (blank originalCode) eqn:B; [|reflexivity].
    apply averageLineLength_none in B. congruence.
  - destruct (blank newCode) eqn:B; [|reflexivity].
    apply averageLineLength_none in B. congruence.
  - unfold PatchEngineStyle.analyzeCodeStyle in Hi.
    cbn [PatchEngineStyle.indentationType] in Hi.
    destruct (includes originalCode [tab]), (includes newCode [tab]);
      try reflexivity; discriminate.
Qed.

Lemma checkContextPreservation_needs_witness :
  PatchEngineStyle.checkContextPreservation (js "let a = 1;") (js "const a = 1;") = true /\
  blank (js "let a = 1;") = false /\ blank (js "const a = 1;") = false /\
  includes (js "let a = 1;") [tab] = includes (js "const a = 1;") [tab].
Proof.
  split; [reflexivity|].
  exact (checkContextPreservation_needs (js "let a = 1;") (js "const a = 1;") eq_refl).
Defined.

(** ** PatchEngine: undoing *)

Section Undoing.

Import PatchEngineHistory.

Lemma find_successful (fsPath : str) (history : list PatchHistory) :
  all_successful history ->
  List.find (fun entry => str_eqb (ph_filePath entry) fsPath && ph_success entry) history
  = List.find (fun entry => str_eqb (ph_filePath entry) fsPath) history.
Proof.
  induction 1 as [|entry history He _ IH]; [reflexivity|].
  cbn [List.find]. rewrite He, andb_true_r, IH. reflexivity.
Qed.

Lemma find_none_filter {A : Type} (p : A -> bool) (l : list A) :
  List.find p l = None <-> List.filter p l = [].
Proof.
  induction l as [|a l IH]; cbn [List.find List.filter]; [tauto|].
  destruct (p a); [split; discriminate|exact IH].
Qed.

End Undoing.

(** X27.  On the history the engine has built, [undoLastPatch] answers
    that there is no patch history for the file exactly when
    [getPatchHistory] lists no entry for it (every recorded patch is a
    successful one); otherwise it runs the undo command of the host and
    returns whether that command went through. *)
Theorem undoLastPatch_agrees_with_history
    (buildCodeBlock : str -> rmatch_result -> str -> str -> CodeBlock)
    (parseWithBlocks : str -> list CodeBlock -> ParseContext -> ParsedOutput)
    (serializeMultiFileChanges : list MultiFileChange -> str)
    (stackDepth : nat) (calls : list PatchEngine.call)
    (undo : completion unit) (c : ascii) (p : str) :
  PatchEngineHistory.undoLastPatch undo (c :: p)
    (PatchEngine.run_calls buildCodeBlock parseWithBlocks serializeMultiFileChanges
       stackDepth calls [])
  = match PatchEngineHistory.getPatchHistory (Some (c :: p))
            (PatchEngine.run_calls buildCodeBlock parseWithBlocks
               serializeMultiFileChanges stackDepth calls []) with
    | [] => (false, NoPatchHistory)
    | _ :: _ =>
        match undo with
        | Return _ => (true, Reverted)
        | Throw _ => (false, UndoFailed)
        end
    end.
Proof.
  pose proof (run_calls_successful buildCodeBlock parseWithBlocks
                serializeMultiFileChanges stackDepth calls [] (List.Forall_nil _)) as H.
  unfold PatchEngineHistory.undoLastPatch, PatchEngineHistory.getPatchHistory.
  rewrite (find_successful (c :: p) _ H).
  destruct (List.find _ _) as [entry|] eqn:E.
  - destruct (List.filter _ _) eqn:F; [|reflexivity].
    apply find_none_filter in F. congruence.
  - apply find_none_filter in E. now rewrite E.
Qed.

(** ** PatchEngine: what a successful result means *)

Section Success.

Import PatchEngine.

Variable buildCodeBlock : str -> rmatch_result -> str -> str -> CodeBlock.
Variable parseWithBlocks : str -> list CodeBlock -> ParseContext -> ParsedOutput.
Variable serializeMultiFileChanges : list MultiFileChange -> str.
Variable stackDepth : nat.

(** What holds of a call that returned a successful result. *)
Local Abbreviation applied host options before r after :=
  (applyEdit host = Return true /\
   (optValidateSyntax options = true ->
    forall language, PatchEngineSyntax.validateSyntax (pr_newText r) language = true) /\
   (trackChanges options = true ->
    exists entry, hd_error after%list = Some entry /\ ph_timestamp entry = now host) /\
   (trackChanges options = false -> after%list = before%list)).

Ltac walk H :=
  repeat first
    [ progress (unfold step, fail_with, bindc in H)
    | match type of H with
      | Some _ = Some _ => injection H as H
      | (_, _) = (_, _) => injection H as ? ?
      | None = Some _ => discriminate H
      | context [match ?x with _ => _ end] =>
          let E := fresh "E" in destruct x eqn:E
      end ];
  repeat match goal with
         | X : Return _ = Return _ |- _ => injection X as X
         end.

Lemma addToHistory_head (entry : PatchHistory) (history : list PatchHistory) :
  hd_error (addToHistory entry history) = Some entry.
Proof. unfold addToHistory. now destruct (maxHistorySize <? _). Qed.

Lemma addChanges_head (host : Host) (context : CodeContext) (p : ParsedOutput)
    (changes : list MultiFileChange) :
  forall (i : nat) (history : list PatchHistory),
    (exists entry, hd_error history = Some entry /\ ph_timestamp entry = now host) ->
    exists entry,
      hd_error (addChanges host i changes context p history) = Some entry /\
      ph_timestamp entry = now host.
Proof.
  induction changes as [|c changes IH]; intros i history H; [exact H|].
  cbn [addChanges]. apply IH.
  eexists. split; [apply addToHistory_head|reflexivity].
Qed.

Lemma valid_of_check (v : bool) (code : str) (l : str) :
  v && negb (PatchEngineSyntax.validateSyntax code l) = false ->
  v = true -> forall language, PatchEngineSyntax.validateSyntax code language = true.
Proof.
  intros H -> language. cbn [andb] in H. apply negb_false_iff in H. exact H.
Qed.

Lemma inline_applied host fsPath originalText aiResponse context options history r history' :
  applyInlinePatch buildCodeBlock parseWithBlocks serializeMultiFileChanges stackDepth
    host fsPath originalText aiResponse context options history
  = Some (Return r, history') ->
  pr_success r = true ->
  applied host options history r history'.
Proof using Type.
  unfold applyInlinePatch, applyCodeChange. intros H Hs.
  destruct (applyEdit host) as [success|e] eqn:Ea; cbn [bindc] in H;
    walk H; subst; try discriminate.
  cbn [pr_success patchResult] in Hs. subst.
  cbn [pr_newText patchResult andb].
  repeat split.
  - intros Hv. eapply valid_of_check; eassumption.
  - intros ->. eexists. split; [apply addToHistory_head|reflexivity].
  - intros ->. reflexivity.
Qed.

Lemma generation_applied host fsPath line aiResponse context options history r history' :
  applyGenerationPatch buildCodeBlock parseWithBlocks serializeMultiFileChanges stackDepth
    host fsPath line aiResponse context options history
  = Some (Return r, history') ->
  pr_success r = true ->
  applied host options history r history'.
Proof using Type.
  unfold applyGenerationPatch. intros H Hs.
  destruct (applyEdit host) as [success|e] eqn:Ea;
    walk H; subst; try discriminate.
  all: cbn [pr_success patchResult] in Hs; subst;
    cbn [pr_newText patchResult andb];
    repeat split;
    [ intros Hv; eapply valid_of_check; eassumption
    | intros ->; eexists; (split; [apply addToHistory_head|reflexivity])
    | intros ->; reflexivity ].
Qed.

Lemma multifile_applied host aiResponse context options history r history' :
  applyMultiFilePatch buildCodeBlock parseWithBlocks serializeMultiFileChanges stackDepth
    host aiResponse context options history
  = Some (Return r, history') ->
  pr_success r = true ->
  applied host options history r history'.
Proof using Type.
  unfold applyMultiFilePatch. intros H Hs.
  destruct (applyEdit host) as [success|e] eqn:Ea;
    walk H; subst; try discriminate.
  all: cbn [pr_success patchResult] in Hs; subst;
    cbn [pr_newText patchResult andb];
    repeat split;
    [ intros ->; apply addChanges_head; eexists;
      (split; [apply addToHistory_head|reflexivity])
    | intros ->; reflexivity ].
Qed.

Lemma smart_applied host fsPath originalText line aiResponse context options history
    r history' :
  applySmartPatch buildCodeBlock parseWithBlocks serializeMultiFileChanges stackDepth
    host fsPath originalText line aiResponse context options history
  = Some (Return r, history') ->
  pr_success r = true ->
  applied host options history r history'.
Proof using Type.
  unfold applySmartPatch. intros H Hs.
  destruct (OutputParser.parseAIResponse _ _ _ _ _ _) as [[p|e]|]; try discriminate.
  destruct (patchType p);
    eauto using inline_applied, generation_applied, multifile_applied.
Qed.

End Success.

(** X28.  A patch call that returns a successful result has had its
    edit applied by the host; with syntax validation switched on, the
    new text of the result has valid brackets; and with change tracking
    switched on the history is not empty and its newest entry bears the
    time of the call, while without it the history is left as it was. *)
Theorem patch_success_means_applied
    (buildCodeBlock : str -> rmatch_result -> str -> str -> CodeBlock)
    (parseWithBlocks : str -> list CodeBlock -> ParseContext -> ParsedOutput)
    (serializeMultiFileChanges : list MultiFileChange -> str)
    (stackDepth : nat) (c : PatchEngine.call) (host : Host) (options : PatchOptions)
    (history history' : list PatchHistory) (r : PatchResult) :
  PatchEngine.call_host c = Some (host, options) ->
  PatchEngine.run_call buildCodeBlock parseWithBlocks serializeMultiFileChanges
    stackDepth c history = Some (Return r, history') ->
  pr_success r = true ->
  applyEdit host = Return true /\
  (optValidateSyntax options = true ->
   forall language, PatchEngineSyntax.validateSyntax (pr_newText r) language = true) /\
  (trackChanges options = true ->
   exists entry, hd_error history' = Some entry /\ ph_timestamp entry = now host) /\
  (trackChanges options = false -> history' = history).
Proof.
  intros Hc H Hs.
  destruct c; cbn [PatchEngine.call_host] in Hc; try discriminate;
    injection Hc as <- <-; cbn [PatchEngine.run_call] in H.
  - exact (inline_applied _ _ _ _ _ _ _ _ _ _ _ _ _ H Hs).
  - exact (generation_applied _ _ _ _ _ _ _ _ _ _ _ _ _ H Hs).
  - exact (multifile_applied _ _ _ _ _ _ _ _ _ _ _ H Hs).
  - exact (smart_applied _ _ _ _ _ _ _ _ _ _ _ _ _ _ H Hs).
Qed.

Lemma patch_success_means_applied_witness :
  exists (r : PatchResult) (history' : list PatchHistory),
    PatchEngine.run_call noBlocks noParse (fun _ => []) 8 oneLineCall []
    = Some (Return r, history') /\
    pr_success r = true /\
    pr_newText r = js "let a = 1;" /\
    (forall language, PatchEngineSyntax.validateSyntax (pr_newText r) language = true) /\
    length history' = 1.
Proof.
  destruct (PatchEngine.run_call noBlocks noParse (fun _ => []) 8 oneLineCall [])
    as [[[r|e] h]|] eqn:E;
    pose proof E as E'; vm_compute in E'; try discriminate E'.
  injection E' as Er Eh.
  exists r, h. split; [reflexivity|].
  assert (S : pr_success r = true) by (rewrite <- Er; reflexivity).
  split; [exact S|]. split; [rewrite <- Er; reflexivity|].
  split; [|rewrite <- Eh; reflexivity].
  exact (proj1 (proj2 (patch_success_means_applied noBlocks noParse (fun _ => []) 8
                         oneLineCall applyingHost directOptions [] h r
                         eq_refl E S)) eq_refl).
Defined.

(** ** ProjectIndexer: what a build leaves in the index *)

Section IndexContents.

Import ProjectIndexer.

Variable parseFile : bool -> str -> str -> ParseResult.
Variable host : IndexerHost.

Lemma indexFile_path (root filePath : str) (options : IndexingOptions)
    (fileIndex : FileIndex) :
  indexFile parseFile host root filePath options = Return (Some fileIndex) ->
  fi_path fileIndex = filePath.
Proof.
  unfold indexFile.
  destruct (statSync host filePath) as [stats|e]; cbn; [|discriminate].
  destruct (readFileSync host filePath) as [content|e]; cbn; [|discriminate].
  intros H. injection H as <-. reflexivity.
Qed.

Lemma index_set_prototype (key : str) (value : FileIndex) (index : ProjectIndex) :
  prototype (index_set key value index) =
  if str_eqb key protoKey then Some value else prototype index.
Proof.
  unfold index_set.
  destruct (str_eqb key protoKey); reflexivity.
Qed.

(** The index after a scan, key by key: the own properties. *)
Lemma scan_result_get (root : str) (options : IndexingOptions) (key : str)
    (files : list str) :
  key <> protoKey ->
  index_get key (scan_result parseFile host root options files emptyIndex) =
  last_indexed parseFile host root options files key.
Proof.
  intros Hk. induction files as [|f files IH] using rev_ind; [reflexivity|].
  rewrite scan_result_snoc. unfold last_indexed.
  rewrite rev_app_distr. cbn [rev app List.find].
  unfold indexes at 1.
  destruct (indexFile parseFile host root f options) as [[fileIndex|]|e] eqn:E.
  - rewrite index_get_set.
    destruct (str_eqb (basename f) protoKey) eqn:Ep.
    + apply str_eqb_eq in Ep. rewrite Ep.
      rewrite (proj2 (str_eqb_neq protoKey key)) by congruence. exact IH.
    + destruct (str_eqb (basename f) key); cbn [andb]; [|exact IH].
      unfold record_of. now rewrite E.
  - rewrite andb_false_r. exact IH.
  - rewrite andb_false_r. exact IH.
Qed.

(** No scan makes a property named [__proto__]. *)
Lemma scan_result_get_proto (root : str) (options : IndexingOptions)
    (files : list str) :
  index_get protoKey (scan_result parseFile host root options files emptyIndex) = None.
Proof.
  induction files as [|f files IH] using rev_ind; [reflexivity|].
  rewrite scan_result_snoc.
  destruct (indexFile parseFile host root f options) as [[fileIndex|]|e]; try exact IH.
  rewrite index_get_set.
  destruct (str_eqb (basename f) protoKey) eqn:Ep; exact IH.
Qed.

(** The record of a file named [__proto__] becomes the prototype. *)
Lemma scan_result_prototype (root : str) (options : IndexingOptions)
    (files : list str) :
  prototype (scan_result parseFile host root options files emptyIndex) =
  last_indexed parseFile host root options files protoKey.
Proof.
  induction files as [|f files IH] using rev_ind; [reflexivity|].
  rewrite scan_result_snoc. unfold last_indexed.
  rewrite rev_app_distr. cbn [rev app List.find].
  unfold indexes at 1.
  destruct (indexFile parseFile host root f options) as [[fileIndex|]|e] eqn:E.
  - rewrite index_set_prototype.
    destruct (str_eqb (basename f) protoKey); cbn [andb]; [|exact IH].
    unfold record_of. now rewrite E.
  - rewrite andb_false_r. exact IH.
  - rewrite andb_false_r. exact IH.
Qed.

(** An update run alone: the call and the resumption of its task. *)
Lemma updateFileIndex_alone (filePath : str) (st : Indexer) :
  updateFileIndex parseFile host filePath st =
  with_tasks st
    match indexFile parseFile host (workspaceRoot st) filePath updateOptions with
    | Return (Some fileIndex) => store_record st filePath fileIndex
    | _ => objects st
    end
    (tasks st).
Proof.
  unfold updateFileIndex, updateFileIndex_call, resume.
  cbn [with_tasks tasks].
  rewrite lookup_app_r by lia. rewrite Nat.sub_diag. cbn [lookup list_lookup].
  rewrite without_last.
  destruct (indexFile parseFile host (workspaceRoot st) filePath updateOptions)
    as [[fileIndex|]|e]; reflexivity.
Qed.

End IndexContents.

(** X6.  A build run on an indexer that is not building ends.  In the
    index it returns the keys are pairwise different base names, and the
    record under a key other than [__proto__] is that of the last of the
    files found, in their order, that has this base name and could be
    indexed: of two files of one base name only the later one is in the
    index.  There is no property [__proto__]: the last record made of a
    file of that name is the prototype of the index object. *)
Theorem buildIndex_last_file_wins
    (parseFile : bool -> str -> str -> ParseResult) (host : IndexerHost)
    (options : IndexingOptions) (st : ProjectIndexer.Indexer) :
  ProjectIndexer.isIndexing st = false ->
  exists (st' : ProjectIndexer.Indexer) (ref : nat),
    ProjectIndexer.buildIndex parseFile host options st = Some (st', ref) /\
    List.NoDup (index_keys (ProjectIndexer.deref st' ref)) /\
    (forall key : str,
        key <> protoKey ->
        index_get key (ProjectIndexer.deref st' ref) =
        last_indexed parseFile host (workspaceFolder host) options
          (ProjectIndexer.findFiles host (workspaceFolder host) options) key) /\
    index_get protoKey (ProjectIndexer.deref st' ref) = None /\
    prototype (ProjectIndexer.deref st' ref) =
    last_indexed parseFile host (workspaceFolder host) options
      (ProjectIndexer.findFiles host (workspaceFolder host) options) protoKey.
Proof.
  intros Hi.
  destruct (buildIndex_alone parseFile host options st Hi)
    as (st' & ref & Hb & Hd & _).
  exists st', ref. split; [exact Hb|]. rewrite Hd. split; [|split; [|split]].
  - apply scan_result_NoDup.
  - intros key Hk. now apply scan_result_get.
  - apply scan_result_get_proto.
  - apply scan_result_prototype.
Qed.

Lemma buildIndex_last_file_wins_witness :
  ProjectIndexer.isIndexing (ProjectIndexer.initial sameNameHost) = false /\
  List.map basename
    (ProjectIndexer.findFiles sameNameHost (js "/w") ProjectIndexer.defaultOptions)
    = [js "index.ts"; js "index.ts"] /\
  option_map fi_path
    (last_indexed noSymbols sameNameHost (js "/w") ProjectIndexer.defaultOptions
       (ProjectIndexer.findFiles sameNameHost (js "/w") ProjectIndexer.defaultOptions)
       (js "index.ts"))
    = Some (js "/w/b/index.ts") /\
  exists (st' : ProjectIndexer.Indexer) (ref : nat),
    ProjectIndexer.buildIndex noSymbols sameNameHost ProjectIndexer.defaultOptions
      (ProjectIndexer.initial sameNameHost) = Some (st', ref) /\
    List.NoDup (index_keys (ProjectIndexer.deref st' ref)) /\
    (forall key : str,
        key <> protoKey ->
        index_get key (ProjectIndexer.deref st' ref) =
        last_indexed noSymbols sameNameHost (workspaceFolder sameNameHost)
          ProjectIndexer.defaultOptions
          (ProjectIndexer.findFiles sameNameHost (workspaceFolder sameNameHost)
             ProjectIndexer.defaultOptions) key) /\
    index_get protoKey (ProjectIndexer.deref st' ref) = None /\
    prototype (ProjectIndexer.deref st' ref) =
    last_indexed noSymbols sameNameHost (workspaceFolder sameNameHost)
      ProjectIndexer.defaultOptions
      (ProjectIndexer.findFiles sameNameHost (workspaceFolder sameNameHost)
         ProjectIndexer.defaultOptions) protoKey.
Proof.
  split; [reflexivity|].
  split; [vm_compute; reflexivity|].
  split; [vm_compute; reflexivity|].
  apply (buildIndex_last_file_wins noSymbols sameNameHost ProjectIndexer.defaultOptions
           (ProjectIndexer.initial sameNameHost)).
  reflexivity.
Defined.

(** X29.  A build run on an indexer that is not building, over files
    with distinct base names none of which is [__proto__], ends without
    an exception and returns an index with exactly one record for each
    file of which [indexFile] made a record: a file that cannot be read
    or indexed is left out and stops nothing.  Of ten such files of
    which nine are indexed, the index has nine records. *)
Theorem buildIndex_skips_unreadable_file
    (parseFile : bool -> str -> str -> ParseResult) (host : IndexerHost)
    (options : IndexingOptions) (st : ProjectIndexer.Indexer) (files : list str) :
  ProjectIndexer.isIndexing st = false ->
  ProjectIndexer.findFiles host (workspaceFolder host) options = files ->
  List.NoDup (List.map basename files) ->
  List.Forall (fun f => basename f <> protoKey) files ->
  exists (st' : ProjectIndexer.Indexer) (ref : nat),
    ProjectIndexer.buildIndex parseFile host options st = Some (st', ref) /\
    Permutation (index_keys (ProjectIndexer.deref st' ref))
      (List.map basename
         (List.filter (indexes parseFile host (workspaceFolder host) options) files)) /\
    length (index_values (ProjectIndexer.deref st' ref))
    = length (List.filter (indexes parseFile host (workspaceFolder host) options) files) /\
    (length files = 10 ->
     length (List.filter (indexes parseFile host (workspaceFolder host) options) files)
     = 9 ->
     length (index_values (ProjectIndexer.deref st' ref)) = 9) /\
    ProjectIndexer.isIndexing st' = false /\
    ProjectIndexer.getIndex st' = ref.
Proof.
  intros Hi Hf Hnd Hp.
  destruct (buildIndex_alone parseFile host options st Hi)
    as (st' & ref & Hb & Hd & Hi' & Hr & _).
  assert (Hp' : forall f, In f files -> basename f <> protoKey).
  { intros f Hin. exact (proj1 (List.Forall_forall _ _) Hp f Hin). }
  assert (Hl : length (index_values (ProjectIndexer.deref st' ref))
               = length (List.filter
                           (indexes parseFile host (workspaceFolder host) options) files)).
  { rewrite Hd, Hf. unfold index_values. rewrite length_map.
    rewrite <- (scan_result_length parseFile host _ options files Hnd Hp').
    unfold index_keys. now rewrite length_map. }
  exists st', ref. split; [exact Hb|]. split; [|split; [exact Hl|split; [|auto]]].
  - rewrite Hd, Hf.
    exact (scan_result_keys parseFile host _ options files emptyIndex Hnd
             (fun _ _ H => H) Hp').
  - intros _ H9. now rewrite Hl.
Qed.

Lemma buildIndex_skips_unreadable_file_witness :
  length tenFiles = 10 /\
  length (List.filter (indexes noSymbols tenFileHost (workspaceFolder tenFileHost)
                         ProjectIndexer.defaultOptions) tenFiles) = 9 /\
  exists (st' : ProjectIndexer.Indexer) (ref : nat),
    ProjectIndexer.buildIndex noSymbols tenFileHost ProjectIndexer.defaultOptions
      (ProjectIndexer.initial tenFileHost) = Some (st', ref) /\
    Permutation (index_keys (ProjectIndexer.deref st' ref))
      (List.map basename
         (List.filter (indexes noSymbols tenFileHost (workspaceFolder tenFileHost)
                         ProjectIndexer.defaultOptions) tenFiles)) /\
    length (index_values (ProjectIndexer.deref st' ref))
    = length (List.filter (indexes noSymbols tenFileHost (workspaceFolder tenFileHost)
                             ProjectIndexer.defaultOptions) tenFiles) /\
    (length tenFiles = 10 ->
     length (List.filter (indexes noSymbols tenFileHost (workspaceFolder tenFileHost)
                            ProjectIndexer.defaultOptions) tenFiles) = 9 ->
     length (index_values (ProjectIndexer.deref st' ref)) = 9) /\
    ProjectIndexer.isIndexing st' = false /\
    ProjectIndexer.getIndex st' = ref.
Proof.
  split; [reflexivity|]. split; [vm_compute; reflexivity|].
  apply (buildIndex_skips_unreadable_file noSymbols tenFileHost
           ProjectIndexer.defaultOptions (ProjectIndexer.initial tenFileHost) tenFiles).
  - reflexivity.
  - vm_compute. reflexivity.
  - vm_compute.
    repeat (constructor; [simpl; intuition discriminate|]). constructor.
  - vm_compute. repeat (constructor; [discriminate|]). constructor.
Defined.

(** ** ProjectIndexer: the files of a build *)

Section FindFiles.

Import ProjectIndexer.

Lemma unique_from (l : list str) :
  forall seenBefore x, In x (unique l seenBefore) -> In x l /\ ~ In x seenBefore.
Proof.
  induction l as [|y l IH]; intros seenBefore x; cbn [unique]; [intros []|].
  destruct (existsb (str_eqb y) seenBefore) eqn:E.
  - intros H. apply IH in H. cbn [In]. tauto.
  - intros [<-|H].
    + split; [left; reflexivity|]. intros Hin.
      assert (T : existsb (str_eqb y) seenBefore = true).
      { apply existsb_exists. exists y. split; [exact Hin|now apply str_eqb_eq]. }
      congruence.
    + apply IH in H. cbn [In] in *. tauto.
Qed.

Lemma unique_NoDup (l : list str) : forall seenBefore, List.NoDup (unique l seenBefore).
Proof.
  induction l as [|y l IH]; intros seenBefore; cbn [unique]; [constructor|].
  destruct (existsb (str_eqb y) seenBefore); [apply IH|].
  constructor; [|apply IH].
  intros H. apply unique_from in H. cbn [In] in H. tauto.
Qed.

Lemma insert_sorted_perm (x : str) (l : list str) :
  Permutation (insert_sorted x l) (x :: l).
Proof.
  induction l as [|y l IH]; cbn [insert_sorted]; [reflexivity|].
  destruct (str_ltb y x); [|reflexivity].
  rewrite IH. apply perm_swap.
Qed.

Lemma sort_strings_perm (l : list str) : Permutation (sort_strings l) l.
Proof.
  unfold sort_strings.
  assert (G : forall acc, Permutation (fold_left (fun acc x => insert_sorted x acc) l acc)
                            (acc ++ l)).
  { induction l as [|x l IH]; intros acc; cbn [fold_left].
    - now rewrite app_nil_r.
    - rewrite IH, insert_sorted_perm. apply Permutation_middle. }
  exact (G []).
Qed.

End FindFiles.

(** X7.  The files [findFiles] hands to a build are at most [maxFiles],
    pairwise different, each found by one of the include patterns and
    each of a size, as [statSync] reports it, of at most [maxFileSize];
    without a workspace root there is none. *)
Theorem findFiles_valid (host : IndexerHost) (root : str) (options : IndexingOptions) :
  length (ProjectIndexer.findFiles host root options) <= maxFiles options /\
  List.NoDup (ProjectIndexer.findFiles host root options) /\
  List.Forall
    (fun f =>
       (exists stats, statSync host f = Return stats /\
                      (size stats <= maxFileSize options)%N) /\
       (exists pattern found,
           In pattern (includePatterns options) /\
           glob host pattern (excludePatterns options) = Return found /\
           In f found))
    (ProjectIndexer.findFiles host root options) /\
  (root = [] -> ProjectIndexer.findFiles host root options = []).
Proof.
  unfold ProjectIndexer.findFiles.
  destruct root as [|c root].
  { cbn. repeat split; try constructor. lia. }
  split; [|split; [|split; [|discriminate]]].
  - etransitivity; [apply List.filter_length_le|]. rewrite length_firstn. lia.
  - apply List.NoDup_filter, take_NoDup.
    apply (Permutation_NoDup (Permutation_sym (sort_strings_perm _))).
    apply unique_NoDup.
  - apply List.Forall_forall. intros f Hf. apply filter_In in Hf.
    destruct Hf as [Hf Hs]. split.
    + destruct (statSync host f) as [stats|e]; [|discriminate].
      exists stats. split; [reflexivity|]. apply N.leb_le, Hs.
    + apply take_In in Hf.
      apply (Permutation_in _ (sort_strings_perm _)) in Hf.
      apply unique_from in Hf. destruct Hf as [Hf _].
      apply in_concat in Hf. destruct Hf as (l & Hl & Hf).
      apply in_map_iff in Hl. destruct Hl as (pattern & <- & Hp).
      destruct (glob host pattern (excludePatterns options)) as [found|e] eqn:E;
        [|destruct Hf].
      exists pattern, found. auto.
Qed.

(** ** ProjectIndexer: updates and queries *)

Section Queries.

Import ProjectIndexer ProjectIndexerApi.

Lemma symbolMatchOf_some (kind : MatchType) (a b : Q) (r1 r2 : string)
    (identifier : str) (f : FileIndex) (name : str) :
  includes (toLowerCase name) (toLowerCase identifier) = true <->
  exists m, In m (SmartFileResolver.symbolMatchOf kind a b r1 r2 identifier f name).
Proof.
  unfold SmartFileResolver.symbolMatchOf.
  destruct (str_eqb (toLowerCase name) (toLowerCase identifier)) eqn:E.
  - apply str_eqb_eq in E. rewrite E, includes_refl.
    split; [intros _; eexists; left; reflexivity|reflexivity].
  - destruct (includes _ _).
    + split; [intros _; eexists; left; reflexivity|reflexivity].
    + split; [discriminate|intros [m []]].
Qed.

Lemma symbolMatchOf_file (kind : MatchType) (a b : Q) (r1 r2 : string)
    (identifier : str) (f : FileIndex) (name : str) (m : FileMatch) :
  In m (SmartFileResolver.symbolMatchOf kind a b r1 r2 identifier f name) -> file m = f.
Proof.
  unfold SmartFileResolver.symbolMatchOf.
  destruct (str_eqb _ _); [intros [<-|[]]; reflexivity|].
  destruct (includes _ _); [intros [<-|[]]; reflexivity|intros []].
Qed.

(** A file is found by symbol exactly when the resolver's finder for
    that kind of symbol makes a match for it. *)
Lemma found_iff_matched (kind : MatchType) (a b : Q) (r1 r2 : string)
    (names : FileIndex -> list str) (name : str) (index : ProjectIndex)
    (f : FileIndex) :
  In f (List.filter (fun file => someContains (names file) name) (index_values index)) <->
  exists m,
    In m (List.concat
            (List.map
               (fun f =>
                  List.concat
                    (List.map (SmartFileResolver.symbolMatchOf kind a b r1 r2 name f)
                       (names f)))
               (index_values index))) /\
    file m = f.
Proof.
  rewrite filter_In. unfold someContains. rewrite existsb_exists. split.
  - intros (Hf & n & Hn & Hi).
    apply (symbolMatchOf_some kind a b r1 r2 name f n) in Hi. destruct Hi as [m Hm].
    exists m. split; [|exact (symbolMatchOf_file _ _ _ _ _ _ _ _ _ Hm)].
    apply in_concat. eexists. split; [apply in_map_iff; exists f; eauto|].
    apply in_concat. eexists. split; [apply in_map_iff; exists n; eauto|exact Hm].
  - intros (m & Hm & <-).
    apply in_concat in Hm. destruct Hm as (l & Hl & Hm).
    apply in_map_iff in Hl. destruct Hl as (f & <- & Hf).
    apply in_concat in Hm. destruct Hm as (l & Hl & Hm).
    apply in_map_iff in Hl. destruct Hl as (n & <- & Hn).
    rewrite (symbolMatchOf_file _ _ _ _ _ _ _ _ _ Hm).
    split; [exact Hf|]. exists n. split; [exact Hn|].
    apply (symbolMatchOf_some kind a b r1 r2 name f n). eauto.
Qed.

End Queries.

(** X8.  [updateFileIndex], run from its call to its end, writes the
    record of a file that can be indexed into the current index object,
    under the file's base name, and leaves the records under all other
    keys as they are; for a file named [__proto__] the record becomes
    the prototype of the object and its properties stay as they are.
    When the file cannot be indexed, for instance because it has been
    deleted, the call changes nothing, so the record it had stays in the
    index.  The call does not test whether a build is in progress. *)
Theorem updateFileIndex_sets_record
    (parseFile : bool -> str -> str -> ParseResult) (host : IndexerHost)
    (filePath : str) (st : ProjectIndexer.Indexer) :
  let st' := ProjectIndexer.updateFileIndex parseFile host filePath st in
  let before := ProjectIndexer.deref st (ProjectIndexer.getIndex st) in
  let after := ProjectIndexer.deref st' (ProjectIndexer.getIndex st') in
  ProjectIndexer.getIndex st' = ProjectIndexer.getIndex st /\
  ProjectIndexer.isIndexing st' = ProjectIndexer.isIndexing st /\
  ProjectIndexer.tasks st' = ProjectIndexer.tasks st /\
  match record_of parseFile host (ProjectIndexer.workspaceRoot st)
          ProjectIndexer.updateOptions filePath with
  | Some record =>
      fi_path record = filePath /\
      if str_eqb (basename filePath) protoKey
      then properties after = properties before /\ prototype after = Some record
      else index_get (basename filePath) after = Some record /\
           forall key, key <> basename filePath ->
                       index_get key after = index_get key before
  | None => st' = st
  end.
Proof.
  cbn zeta. rewrite updateFileIndex_alone. unfold record_of.
  destruct (ProjectIndexer.indexFile parseFile host (ProjectIndexer.workspaceRoot st)
              filePath ProjectIndexer.updateOptions) as [[record|]|e] eqn:E.
  2,3: (repeat split; destruct st; reflexivity).
  split; [reflexivity|]. split; [reflexivity|]. split; [reflexivity|].
  split; [exact (indexFile_path parseFile host _ _ _ _ E)|].
  unfold ProjectIndexer.getIndex.
  cbn [ProjectIndexer.with_tasks ProjectIndexer.projectIndex].
  set (before := ProjectIndexer.deref st (ProjectIndexer.projectIndex st)).
  assert (Ea : ProjectIndexer.deref
                 (ProjectIndexer.with_tasks st
                    (ProjectIndexer.store_record st filePath record)
                    (ProjectIndexer.tasks st))
                 (ProjectIndexer.projectIndex st)
               = index_set (basename filePath) record before).
  { unfold ProjectIndexer.deref at 1, ProjectIndexer.store_record.
    cbn [ProjectIndexer.with_tasks ProjectIndexer.objects].
    now rewrite lookup_insert_eq. }
  change (ProjectIndexer.deref _ (ProjectIndexer.projectIndex st))
    with (ProjectIndexer.deref
            (ProjectIndexer.with_tasks st
               (ProjectIndexer.store_record st filePath record)
               (ProjectIndexer.tasks st))
            (ProjectIndexer.projectIndex st)).
  rewrite Ea. clear Ea.
  destruct (str_eqb (basename filePath) protoKey) eqn:Ep.
  - apply str_eqb_eq in Ep. rewrite Ep. split; reflexivity.
  - split.
    + rewrite index_get_set, Ep. now rewrite str_eqb_same.
    + intros key Hk. rewrite index_get_set, Ep.
      destruct (str_eqb (basename filePath) key) eqn:Ek; [|reflexivity].
      apply str_eqb_eq in Ek. congruence.
Qed.

(** X9.  [findByClass], [findByFunction] and [findByExport] return
    exactly the files for which the class, function and export finders
    of the resolver make a match. *)
Theorem findBy_agrees_with_resolver (name : str) (index : ProjectIndex) (f : FileIndex) :
  (In f (ProjectIndexerApi.findByClass name index) <->
   exists m, In m (SmartFileResolver.findClassMatches name index) /\ file m = f) /\
  (In f (ProjectIndexerApi.findByFunction name index) <->
   exists m, In m (SmartFileResolver.findFunctionMatches name index) /\ file m = f) /\
  (In f (ProjectIndexerApi.findByExport name index) <->
   exists m, In m (SmartFileResolver.findExportMatches name index) /\ file m = f).
Proof.
  split; [|split]; apply found_iff_matched.
Qed.

(** ** SmartFileResolver: the ranked list *)

Section Ranking.

Import SmartFileResolver.

Lemma replace_if_higher_paths (m : FileMatch) (l : list FileMatch) :
  List.map filePathOf (replace_if_higher m l) = List.map filePathOf l.
Proof.
  induction l as [|u l IH]; [reflexivity|].
  cbn [replace_if_higher].
  destruct (str_eqb (fi_path (file u)) (fi_path (file m))) eqn:E.
  - apply str_eqb_eq in E.
    destruct (Qlt_bool (score u) (score m)); cbn [List.map]; [|reflexivity].
    unfold filePathOf. now rewrite E.
  - cbn [List.map]. now rewrite IH.
Qed.

Lemma replace_if_higher_from (m x : FileMatch) (l : list FileMatch) :
  In x (replace_if_higher m l) -> x = m \/ In x l.
Proof.
  induction l as [|u l IH]; cbn [replace_if_higher]; [tauto|].
  destruct (str_eqb (fi_path (file u)) (fi_path (file m))).
  - destruct (Qlt_bool (score u) (score m)); cbn [In]; intuition.
  - cbn [In]. intuition.
Qed.

Lemma replace_if_higher_keeps (m x : FileMatch) (l : list FileMatch) :
  In x l ->
  exists u, In u (replace_if_higher m l) /\ filePathOf u = filePathOf x /\
            (score x <= score u)%Q.
Proof.
  induction l as [|y l IH]; [intros []|].
  intros [->|Hx]; cbn [replace_if_higher].
  - destruct (str_eqb (fi_path (file x)) (fi_path (file m))) eqn:E.
    + destruct (Qlt_bool (score x) (score m)) eqn:L.
      * exists m. apply str_eqb_eq in E. apply Qlt_bool_true in L.
        unfold filePathOf. cbn [In]. auto.
      * exists x. cbn [In]. split; [auto|]. split; [reflexivity|apply Qle_refl].
    + exists x. cbn [In]. split; [auto|]. split; [reflexivity|apply Qle_refl].
  - destruct (str_eqb (fi_path (file y)) (fi_path (file m))).
    + exists x. split; [|split; [reflexivity|apply Qle_refl]].
      destruct (Qlt_bool (score y) (score m)); cbn [In]; auto.
    + destruct (IH Hx) as (u & Hu & Hp & Hs). exists u. cbn [In]. auto.
Qed.

Lemma replace_if_higher_takes (m : FileMatch) (l : list FileMatch) :
  existsb (fun u => str_eqb (fi_path (file u)) (fi_path (file m))) l = true ->
  exists u, In u (replace_if_higher m l) /\ filePathOf u = filePathOf m /\
            (score m <= score u)%Q.
Proof.
  induction l as [|y l IH]; [discriminate|].
  cbn [existsb replace_if_higher].
  destruct (str_eqb (fi_path (file y)) (fi_path (file m))) eqn:E.
  - intros _. destruct (Qlt_bool (score y) (score m)) eqn:L.
    + exists m. cbn [In]. split; [auto|]. split; [reflexivity|apply Qle_refl].
    + exists y. apply str_eqb_eq in E. apply Qlt_bool_false in L.
      unfold filePathOf. cbn [In]. auto.
  - cbn [orb]. intros H. destruct (IH H) as (u & Hu & Hp & Hs).
    exists u. cbn [In]. auto.
Qed.

Lemma existsb_path_false (m : FileMatch) (l : list FileMatch) :
  existsb (fun u => str_eqb (fi_path (file u)) (fi_path (file m))) l = false ->
  ~ In (filePathOf m) (List.map filePathOf l).
Proof.
  intros H Hin. apply in_map_iff in Hin. destruct Hin as (u & Hp & Hu).
  assert (T : existsb (fun u => str_eqb (fi_path (file u)) (fi_path (file m))) l = true).
  { apply existsb_exists. exists u. split; [exact Hu|]. apply str_eqb_eq. exact Hp. }
  congruence.
Qed.

(** What the loop of [deduplicateMatches] keeps true of its list. *)
Lemma dedup_fold (matches : list FileMatch) :
  forall acc : list FileMatch,
    List.NoDup (List.map filePathOf acc) ->
    let result :=
      fold_left
        (fun uniqueMatches m =>
           if existsb (fun u => str_eqb (fi_path (file u)) (fi_path (file m))) uniqueMatches
           then replace_if_higher m uniqueMatches
           else uniqueMatches ++ [m])
        matches acc in
    List.NoDup (List.map filePathOf result) /\
    (forall x, In x result -> In x (acc ++ matches)) /\
    (forall x, In x (acc ++ matches) ->
       exists u, In u result /\ filePathOf u = filePathOf x /\ (score x <= score u)%Q).
Proof.
  induction matches as [|m matches IH]; intros acc Hnd; cbn [fold_left].
  - rewrite app_nil_r. split; [exact Hnd|]. split; [auto|].
    intros x Hx. exists x. split; [exact Hx|]. split; [reflexivity|apply Qle_refl].
  - destruct (existsb (fun u => str_eqb (fi_path (file u)) (fi_path (file m))) acc) eqn:E.
    + destruct (IH (replace_if_higher m acc)) as (N & F & K).
      { now rewrite replace_if_higher_paths. }
      split; [exact N|]. split.
      * intros x Hx. apply F in Hx. apply in_app_or in Hx. apply in_or_app.
        destruct Hx as [Hx|Hx]; [|right; right; exact Hx].
        apply replace_if_higher_from in Hx. destruct Hx as [->|Hx]; [right; left|left]; auto.
      * intros x Hx. apply in_app_or in Hx.
        assert (Hrep : exists u, In u (replace_if_higher m acc ++ matches) /\
                                 filePathOf u = filePathOf x /\ (score x <= score u)%Q).
        { destruct Hx as [Hx|[<-|Hx]].
          - destruct (replace_if_higher_keeps m x acc Hx) as (u & Hu & Hp & Hs).
            exists u. split; [apply in_or_app; auto|auto].
          - destruct (replace_if_higher_takes m acc E) as (u & Hu & Hp & Hs).
            exists u. split; [apply in_or_app; auto|auto].
          - exists x. split; [apply in_or_app; auto|].
            split; [reflexivity|apply Qle_refl]. }
        destruct Hrep as (u & Hu & Hp & Hs).
        destruct (K u Hu) as (v & Hv & Hpv & Hsv).
        exists v. split; [exact Hv|]. split; [congruence|].
        eapply Qle_trans; eauto.
    + destruct (IH (acc ++ [m])) as (N & F & K).
      { rewrite map_app. cbn [List.map]. apply List.NoDup_app; [exact Hnd| |].
        - repeat constructor. intros [].
        - intros p Hp [<-|[]]. exact (existsb_path_false m acc E Hp). }
      rewrite <- app_assoc in F, K. cbn [app] in F, K. auto.
Qed.

Lemma deduplicateMatches_NoDup_from (matches : list FileMatch) :
  List.NoDup (List.map filePathOf (deduplicateMatches matches)) /\
  (forall u, In u (deduplicateMatches matches) -> In u matches).
Proof.
  destruct (dedup_fold matches [] (List.NoDup_nil _)) as (N & F & _). auto.
Qed.

Lemma NoDup_map_filter {A B : Type} (f : A -> B) (p : A -> bool) (l : list A) :
  List.NoDup (List.map f l) -> List.NoDup (List.map f (List.filter p l)).
Proof.
  induction l as [|a l IH]; cbn [List.map List.filter]; [auto|].
  intros H. apply NoDup_cons_iff in H. destruct H as [Ha Hl].
  destruct (p a); cbn [List.map]; [|auto].
  apply NoDup_cons_iff. split; [|auto].
  intros Hin. apply Ha. apply in_map_iff in Hin. destruct Hin as (x & <- & Hx).
  apply filter_In in Hx. apply in_map. tauto.
Qed.

Lemma insert_by_score_perm (m : FileMatch) (l : list FileMatch) :
  Permutation (insert_by_score m l) (m :: l).
Proof.
  induction l as [|y l IH]; cbn [insert_by_score]; [reflexivity|].
  destruct (Qlt_bool (score m) (score y)); [|reflexivity].
  rewrite IH. apply perm_swap.
Qed.

Lemma sort_by_score_perm (l : list FileMatch) : Permutation (sort_by_score l) l.
Proof.
  induction l as [|m l IH]; cbn [sort_by_score fold_right]; [reflexivity|].
  fold (sort_by_score l). rewrite insert_by_score_perm. now rewrite IH.
Qed.

Lemma insert_by_score_sorted (m : FileMatch) (l : list FileMatch) :
  descending l -> descending (insert_by_score m l).
Proof.
  induction l as [|y l IH]; intros H; cbn [insert_by_score].
  - cbn. auto.
  - destruct H as [Hy Hl].
    destruct (Qlt_bool (score m) (score y)) eqn:L.
    + cbn [descending]. split; [|auto].
      apply List.Forall_forall. intros x Hx. apply insert_by_score_In in Hx.
      destruct Hx as [->|Hx].
      * apply Qlt_bool_true in L. exact L.
      * rewrite List.Forall_forall in Hy. auto.
    + apply Qlt_bool_false in L. cbn [descending]. split; [|split; auto].
      constructor; [exact L|].
      rewrite List.Forall_forall in Hy. apply List.Forall_forall. intros x Hx.
      eapply Qle_trans; [apply Hy, Hx|exact L].
Qed.

Lemma sort_by_score_sorted (l : list FileMatch) : descending (sort_by_score l).
Proof.
  induction l as [|m l IH]; cbn [sort_by_score fold_right]; [exact I|].
  apply insert_by_score_sorted, IH.
Qed.

Lemma firstn_descending (n : nat) (l : list FileMatch) :
  descending l -> descending (List.firstn n l).
Proof.
  revert n. induction l as [|a l IH]; intros [|n] H; cbn [List.firstn]; try exact I.
  destruct H as [Ha Hl]. cbn [descending]. split; [|auto].
  rewrite List.Forall_forall in Ha. apply List.Forall_forall.
  intros x Hx. apply Ha. eapply take_In. exact Hx.
Qed.

Lemma symbolMatchOf_type (kind : MatchType) (a b : Q) (r1 r2 : string)
    (identifier : str) (f : FileIndex) (name : str) (m : FileMatch) :
  In m (symbolMatchOf kind a b r1 r2 identifier f name) -> matchType m = kind.
Proof.
  unfold symbolMatchOf.
  destruct (str_eqb _ _); [intros [<-|[]]; reflexivity|].
  destruct (includes _ _); [intros [<-|[]]; reflexivity|intros []].
Qed.

Lemma symbol_finder_type (kind : MatchType) (a b : Q) (r1 r2 : string)
    (names : FileIndex -> list str) (identifier : str) (index : ProjectIndex)
    (m : FileMatch) :
  In m (List.concat
          (List.map
             (fun f =>
                List.concat
                  (List.map (symbolMatchOf kind a b r1 r2 identifier f) (names f)))
             (index_values index))) ->
  matchType m = kind.
Proof.
  intros H. apply in_concat in H. destruct H as (l & Hl & Hm).
  apply in_map_iff in Hl. destruct Hl as (f & <- & _).
  apply in_concat in Hm. destruct Hm as (l & Hl & Hm).
  apply in_map_iff in Hl. destruct Hl as (name & <- & _).
  exact (symbolMatchOf_type _ _ _ _ _ _ _ _ _ Hm).
Qed.

Lemma findFuzzyMatches_type (identifier : str) (index : ProjectIndex) (m : FileMatch) :
  In m (findFuzzyMatches identifier index) -> matchType m = MFuzzy.
Proof.
  unfold findFuzzyMatches. intros H. apply in_concat in H.
  destruct H as (l & Hl & Hm). apply in_map_iff in Hl. destruct Hl as (f & <- & _).
  unfold fuzzyMatchOf in Hm. apply in_app_or in Hm.
  destruct Hm as [Hm|Hm];
    [destruct (Qlt_bool 0.3 (calculateFuzzyScore identifier (relativePath f)))
    |destruct (Qlt_bool 0.3 (calculateFuzzyScore identifier (summary f)))];
    try contradiction; destruct Hm as [<-|[]]; reflexivity.
Qed.

Lemma run_pass_In (p : Pass) (finder : str -> ProjectIndex -> list FileMatch)
    (identifiers : list str) (index : ProjectIndex) (m : FileMatch) :
  In m (fst (run_pass p finder identifiers index)) ->
  exists identifier, In identifier identifiers /\ In m (finder identifier index).
Proof.
  cbn [run_pass fst]. intros H. apply in_concat in H. destruct H as (l & Hl & Hm).
  apply in_map_iff in Hl. destruct Hl as (identifier & <- & Hi). eauto.
Qed.

(** The matches gathered when no file name matched: none is of the
    type exact, and without fuzzy matching none is fuzzy. *)
Lemma gathered_types (identifiers : list str) (index : ProjectIndex) (fuzzy : bool)
    (m : FileMatch) :
  In m (fst (run_pass PClass findClassMatches identifiers index)
        ++ fst (run_pass PFunction findFunctionMatches identifiers index)
        ++ fst (run_pass PExport findExportMatches identifiers index)
        ++ (if fuzzy then fst (run_pass PFuzzy findFuzzyMatches identifiers index)
            else [])) ->
  matchType m <> MExact /\ (fuzzy = false -> matchType m <> MFuzzy).
Proof.
  intros H.
  apply in_app_or in H. destruct H as [H|H].
  { apply run_pass_In in H. destruct H as (i & _ & H).
    apply symbol_finder_type in H. rewrite H. split; [|intros _]; discriminate. }
  apply in_app_or in H. destruct H as [H|H].
  { apply run_pass_In in H. destruct H as (i & _ & H).
    apply symbol_finder_type in H. rewrite H. split; [|intros _]; discriminate. }
  apply in_app_or in H. destruct H as [H|H].
  { apply run_pass_In in H. destruct H as (i & _ & H).
    apply symbol_finder_type in H. rewrite H. split; [|intros _]; discriminate. }
  destruct fuzzy; [|destruct H].
  apply run_pass_In in H. destruct H as (i & _ & H).
  apply findFuzzyMatches_type in H. rewrite H. split; [|intros E]; discriminate.
Qed.

(** The shape of a run that found no exact match. *)
Lemma resolveFiles_without_exact (instruction : str) (options : ResolverOptions)
    (index : ProjectIndex) (result : list FileMatch) (passes : list Pass) :
  resolveFiles instruction options index = Some (result, passes) ->
  allExactMatches instruction index = [] ->
  exists matches : list FileMatch,
    result = List.firstn (maxResults options)
               (sort_by_score
                  (List.filter (fun m => Qle_bool (minScore options) (score m))
                     (deduplicateMatches matches))) /\
    (forall m, In m matches ->
       matchType m <> MExact /\
       (enableFuzzyMatching options = false -> matchType m <> MFuzzy)).
Proof.
  unfold resolveFiles, allExactMatches, identifiersOf.
  destruct (extractIdentifiers instruction) as [identifiers|]; [|discriminate].
  intros H Hex.
  change (List.concat (List.map (fun identifier => findExactFileMatches identifier index)
                         identifiers))
    with (fst (run_pass PExact findExactFileMatches identifiers index)) in Hex.
  destruct (run_pass PExact findExactFileMatches identifiers index) as [exact t1].
  cbn [fst] in Hex. subst exact.
  pose proof (gathered_types identifiers index (enableFuzzyMatching options)) as T.
  destruct (run_pass PClass findClassMatches identifiers index) as [c t2].
  destruct (run_pass PFunction findFunctionMatches identifiers index) as [f t3].
  destruct (run_pass PExport findExportMatches identifiers index) as [e t4].
  cbn [fst] in T.
  destruct (enableFuzzyMatching options).
  - destruct (run_pass PFuzzy findFuzzyMatches identifiers index) as [z t5].
    cbn [fst] in T. injection H as <- _. eauto.
  - injection H as <- _. eauto.
Qed.

End Ranking.

(** X1.  [deduplicateMatches] returns one match per file path; each is
    one of the matches given, and every match given is represented by the
    returned match of its file, whose score is at least as high. *)
Theorem deduplicateMatches_keeps_best (matches : list FileMatch) :
  List.NoDup (List.map filePathOf (SmartFileResolver.deduplicateMatches matches)) /\
  (forall u, In u (SmartFileResolver.deduplicateMatches matches) -> In u matches) /\
  (forall m, In m matches ->
     exists u, In u (SmartFileResolver.deduplicateMatches matches) /\
               filePathOf u = filePathOf m /\ (score m <= score u)%Q).
Proof.
  exact (dedup_fold matches [] (List.NoDup_nil _)).
Qed.

(** X2.  When no file name matches an identifier of the instruction,
    [resolveFiles] returns at most [maxResults] matches, in descending
    order of score, each of a score of at least [minScore], no two for
    the same file, and none of the type exact. *)
Theorem resolveFiles_ranked (instruction : str) (options : ResolverOptions)
    (index : ProjectIndex) (result : list FileMatch) (passes : list Pass) :
  SmartFileResolver.resolveFiles instruction options index = Some (result, passes) ->
  allExactMatches instruction index = [] ->
  length result <= maxResults options /\
  descending result /\
  List.Forall (fun m => (minScore options <= score m)%Q /\ matchType m <> MExact) result /\
  List.NoDup (List.map filePathOf result).
Proof.
  intros H Hex.
  destruct (resolveFiles_without_exact _ _ _ _ _ H Hex) as (matches & -> & T).
  destruct (deduplicateMatches_NoDup_from matches) as (N & F).
  split; [rewrite length_firstn; lia|].
  split; [apply firstn_descending, sort_by_score_sorted|].
  split.
  - apply List.Forall_forall. intros m Hm.
    apply take_In in Hm. apply (proj1 (sort_by_score_In _ _)) in Hm.
    apply filter_In in Hm. destruct Hm as [Hm Hs].
    split; [apply Qle_bool_iff, Hs|].
    exact (proj1 (T m (F m Hm))).
  - rewrite <- List.firstn_map. apply take_NoDup.
    apply (Permutation_NoDup
             (Permutation_sym (Permutation_map filePathOf (sort_by_score_perm _)))).
    apply NoDup_map_filter. exact N.
Qed.

Lemma resolveFiles_ranked_witness :
  exists (result : list FileMatch) (passes : list Pass),
    SmartFileResolver.resolveFiles (js "polish renderPage")
      SmartFileResolver.defaultResolverOptions symbolIndex = Some (result, passes) /\
    allExactMatches (js "polish renderPage") symbolIndex = [] /\
    List.map filePathOf result = [js "/w/view.ts"; js "/w/shell.ts"] /\
    (length result <= maxResults SmartFileResolver.defaultResolverOptions /\
     descending result /\
     List.Forall
       (fun m => (minScore SmartFileResolver.defaultResolverOptions <= score m)%Q /\
                 matchType m <> MExact) result /\
     List.NoDup (List.map filePathOf result)).
Proof.
  eexists. eexists.
  split; [vm_compute; reflexivity|].
  split; [vm_compute; reflexivity|].
  split; [vm_compute; reflexivity|].
  eapply (resolveFiles_ranked (js "polish renderPage")
            SmartFileResolver.defaultResolverOptions symbolIndex);
    vm_compute; reflexivity.
Defined.

(** X3.  With [enableFuzzyMatching] off the fuzzy finder is not called
    and no returned match is of the type fuzzy. *)
Theorem resolveFiles_without_fuzzy (instruction : str) (options : ResolverOptions)
    (index : ProjectIndex) (result : list FileMatch) (passes : list Pass) :
  enableFuzzyMatching options = false ->
  SmartFileResolver.resolveFiles instruction options index = Some (result, passes) ->
  ~ In PFuzzy passes /\ List.Forall (fun m => matchType m <> MFuzzy) result.
Proof.
  intros Hoff H. split.
  - revert H. unfold SmartFileResolver.resolveFiles.
    destruct (SmartFileResolver.extractIdentifiers instruction) as [identifiers|];
      [|discriminate].
    unfold SmartFileResolver.run_pass. rewrite Hoff.
    destruct (List.concat _) as [|m0 l0].
    + intros H. injection H as _ <-. intros Hin.
      repeat (apply in_app_or in Hin; destruct Hin as [Hin|Hin]);
        try (apply in_map_iff in Hin; destruct Hin as (x & Hx & _); discriminate Hx).
      destruct Hin.
    + intros H. injection H as _ <-. intros Hin.
      apply in_map_iff in Hin. destruct Hin as (x & Hx & _). discriminate Hx.
  - destruct (allExactMatches instruction index) as [|m0 l0] eqn:Hex.
    + destruct (resolveFiles_without_exact _ _ _ _ _ H Hex) as (matches & -> & T).
      apply List.Forall_forall. intros m Hm.
      apply take_In in Hm. apply (proj1 (sort_by_score_In _ _)) in Hm.
      apply filter_In in Hm. destruct Hm as [Hm _].
      destruct (deduplicateMatches_NoDup_from matches) as (_ & F).
      exact (proj2 (T m (F m Hm)) Hoff).
    + revert H Hex. unfold SmartFileResolver.resolveFiles, allExactMatches, identifiersOf.
      destruct (SmartFileResolver.extractIdentifiers instruction) as [identifiers|];
        [|discriminate].
      unfold SmartFileResolver.run_pass.
      destruct (List.concat
                  (List.map
                     (fun identifier =>
                        SmartFileResolver.findExactFileMatches identifier index)
                     identifiers)) as [|m1 l1] eqn:Hc; [discriminate 2|].
      intros H _.
      assert (Hr : result = List.firstn 1 (SmartFileResolver.sort_by_score (m1 :: l1)))
        by congruence.
      subst result.
      apply List.Forall_forall. intros m Hm.
      apply take_In in Hm. apply (proj1 (sort_by_score_In _ _)) in Hm.
      rewrite <- Hc in Hm. apply in_concat in Hm. destruct Hm as (l & Hl & Hm).
      apply in_map_iff in Hl. destruct Hl as (i & <- & _).
      apply findExactFileMatches_type in Hm. rewrite Hm. discriminate.
Qed.

Lemma resolveFiles_without_fuzzy_witness :
  exists (result : list FileMatch) (passes : list Pass),
    enableFuzzyMatching noFuzzy = false /\
    SmartFileResolver.resolveFiles (js "polish renderPage") noFuzzy symbolIndex
      = Some (result, passes) /\
    (~ In PFuzzy passes /\ List.Forall (fun m => matchType m <> MFuzzy) result).
Proof.
  eexists. eexists.
  split; [reflexivity|].
  split; [vm_compute; reflexivity|].
  eapply (resolveFiles_without_fuzzy (js "polish renderPage") noFuzzy symbolIndex);
    vm_compute; reflexivity.
Defined.

(** ** SmartFileResolver: scores *)

Section Scores.

Import SmartFileResolver.

Lemma symbolMatchOf_score (kind : MatchType) (exactScore factor : Q) (r1 r2 : string)
    (identifier : str) (f : FileIndex) (name : str) (m : FileMatch) :
  (0 <= factor)%Q -> (factor <= exactScore)%Q ->
  In m (symbolMatchOf kind exactScore factor r1 r2 identifier f name) ->
  (0 <= score m)%Q /\ (score m <= exactScore)%Q.
Proof.
  intros F B. unfold symbolMatchOf.
  destruct (str_eqb _ _).
  - intros [<-|[]]. cbn [score]. split; [eapply Qle_trans; eauto|apply Qle_refl].
  - destruct (includes _ _) eqn:E; [|intros []].
    intros [<-|[]]. cbn [score].
    apply scaled_ratio; auto. exact (includes_lower_length _ _ E).
Qed.

Lemma symbol_finder_score (kind : MatchType) (exactScore factor : Q) (r1 r2 : string)
    (names : FileIndex -> list str) (identifier : str) (index : ProjectIndex)
    (m : FileMatch) :
  (0 <= factor)%Q -> (factor <= exactScore)%Q ->
  In m (List.concat
          (List.map
             (fun f =>
                List.concat
                  (List.map (symbolMatchOf kind exactScore factor r1 r2 identifier f)
                     (names f)))
             (index_values index))) ->
  (0 <= score m)%Q /\ (score m <= exactScore)%Q.
Proof.
  intros F B H. apply in_concat in H. destruct H as (l & Hl & Hm).
  apply in_map_iff in Hl. destruct Hl as (f & <- & _).
  apply in_concat in Hm. destruct Hm as (l & Hl & Hm).
  apply in_map_iff in Hl. destruct Hl as (name & <- & _).
  exact (symbolMatchOf_score _ _ _ _ _ _ _ _ _ F B Hm).
Qed.

Lemma subsequence_count_le (needle : str) :
  forall haystack, subsequence_count haystack needle <= length needle.
Proof.
  induction needle as [|d needle IH]; intros haystack.
  - destruct haystack; cbn; lia.
  - induction haystack as [|c haystack IHh]; cbn [subsequence_count length]; [lia|].
    destruct (ascii_eqb c d).
    + specialize (IH haystack). lia.
    + cbn [length] in IHh. exact IHh.
Qed.

Lemma fuzzy_unit (needle haystack : str) :
  (0 <= calculateFuzzyScore needle haystack)%Q /\
  (calculateFuzzyScore needle haystack <= 1)%Q.
Proof.
  unfold calculateFuzzyScore.
  destruct needle as [|d needle]; [split; [apply Qle_refl|discriminate]|].
  destruct haystack as [|c haystack]; [split; [apply Qle_refl|discriminate]|].
  destruct (includes _ _) eqn:E.
  - apply ratio_unit. exact (includes_length _ _ E).
  - apply scaled_ratio; [apply subsequence_count_le|discriminate|discriminate].
Qed.

End Scores.

(** X4.  The scores of the five finders are ranked by kind: a file-name
    match scores at most 1, a class match at most 0.9, an export match at
    most 0.85, a function match at most 0.8 and a fuzzy match at most
    0.5, and no score is negative. *)
Theorem finder_scores_bounded (identifier : str) (index : ProjectIndex) (m : FileMatch) :
  (In m (SmartFileResolver.findExactFileMatches identifier index) ->
   (0 <= score m <= 1)%Q) /\
  (In m (SmartFileResolver.findClassMatches identifier index) ->
   (0 <= score m <= 0.9)%Q) /\
  (In m (SmartFileResolver.findExportMatches identifier index) ->
   (0 <= score m <= 0.85)%Q) /\
  (In m (SmartFileResolver.findFunctionMatches identifier index) ->
   (0 <= score m <= 0.8)%Q) /\
  (In m (SmartFileResolver.findFuzzyMatches identifier index) ->
   (0 <= score m <= 0.5)%Q).
Proof.
  split; [|split; [|split; [|split]]].
  - unfold SmartFileResolver.findExactFileMatches. intros H.
    apply in_concat in H. destruct H as (l & Hl & Hm).
    apply in_map_iff in Hl. destruct Hl as (f & <- & _).
    unfold SmartFileResolver.exactMatchOf in Hm.
    destruct (str_eqb _ _).
    + destruct Hm as [<-|[]]. cbn [score]. split; discriminate.
    + destruct (includes _ _) eqn:E; [|destruct Hm].
      destruct Hm as [<-|[]]. cbn [score].
      apply scaled_ratio; [exact (includes_lower_length _ _ E)|discriminate|discriminate].
  - intros H. eapply symbol_finder_score; [| |exact H]; discriminate.
  - intros H. eapply symbol_finder_score; [| |exact H]; discriminate.
  - intros H. eapply symbol_finder_score; [| |exact H]; discriminate.
  - unfold SmartFileResolver.findFuzzyMatches. intros H.
    apply in_concat in H. destruct H as (l & Hl & Hm).
    apply in_map_iff in Hl. destruct Hl as (f & <- & _).
    unfold SmartFileResolver.fuzzyMatchOf in Hm. apply in_app_or in Hm.
    destruct Hm as [Hm|Hm].
    + destruct (SmartFileResolver.Qlt_bool _ _); [|destruct Hm].
      destruct Hm as [<-|[]]. cbn [score].
      destruct (fuzzy_unit identifier (relativePath f)) as [A B]. split.
      * apply Qmult_le_0_compat; [exact A|discriminate].
      * apply Qle_trans with (1 * 0.5)%Q; [|discriminate].
        apply Qmult_le_compat_r; [exact B|discriminate].
    + destruct (SmartFileResolver.Qlt_bool _ _); [|destruct Hm].
      destruct Hm as [<-|[]]. cbn [score].
      destruct (fuzzy_unit identifier (summary f)) as [A B]. split.
      * apply Qmult_le_0_compat; [exact A|discriminate].
      * apply Qle_trans with (1 * 0.4)%Q; [|discriminate].
        apply Qmult_le_compat_r; [exact B|discriminate].
Qed.

Lemma finder_scores_bounded_witness :
  exists m : FileMatch,
    In m (SmartFileResolver.findFunctionMatches (js "renderPage") symbolIndex) /\
    (0 <= score m <= 0.8)%Q.
Proof.
  eexists. split; [vm_compute; left; reflexivity|].
  apply (proj1 (proj2 (proj2 (proj2
           (finder_scores_bounded (js "renderPage") symbolIndex _))))).
  vm_compute. left. reflexivity.
Defined.

Section Identifiers.

Import SmartFileResolver.

Lemma existsb_str_eqb (x : str) (l : list str) :
  existsb (str_eqb x) l = true <-> In x l.
Proof.
  rewrite existsb_exists. split.
  - intros (y & Hy & E). apply str_eqb_eq in E. now subst.
  - intros H. exists x. split; [exact H|]. now apply str_eqb_eq.
Qed.

Lemma distinct_fresh (l : list str) :
  forall seenBefore x, In x (distinct l seenBefore) -> In x l /\ ~ In x seenBefore.
Proof.
  induction l as [|y l IH]; intros seenBefore x; cbn [distinct]; [intros []|].
  destruct (existsb (str_eqb y) seenBefore) eqn:E.
  - intros H. apply IH in H. cbn [In]. tauto.
  - intros [<-|H].
    + split; [left; reflexivity|]. intros Hin. apply existsb_str_eqb in Hin. congruence.
    + apply IH in H. cbn [In] in *. tauto.
Qed.

Lemma distinct_NoDup (l : list str) :
  forall seenBefore, List.NoDup (distinct l seenBefore).
Proof.
  induction l as [|y l IH]; intros seenBefore; cbn [distinct]; [constructor|].
  destruct (existsb (str_eqb y) seenBefore); [apply IH|].
  constructor; [|apply IH].
  intros H. apply distinct_fresh in H. cbn [In] in H. tauto.
Qed.

End Identifiers.

(** X5.  [extractIdentifiers] returns for every instruction, and the
    identifiers it returns are pairwise different, have at least three
    characters each, and none of them is, letter case apart, one of the
    common words. *)
Theorem extractIdentifiers_filtered (instruction : str) :
  exists identifiers : list str,
    SmartFileResolver.extractIdentifiers instruction = Some identifiers /\
    List.NoDup identifiers /\
    List.Forall
      (fun id => 3 <= length id /\
                 SmartFileResolver.isCommonWord (toLowerCase id) = false)
      identifiers.
Proof.
  destruct (extractIdentifiers_ends instruction) as [identifiers H].
  exists identifiers. split; [exact H|].
  unfold SmartFileResolver.extractIdentifiers in H.
  destruct (SmartFileResolver.collect _ _ _) as [found|]; [|discriminate].
  injection H as <-. split.
  - apply List.NoDup_filter, distinct_NoDup.
  - apply List.Forall_forall. intros id Hid. apply filter_In in Hid.
    destruct Hid as [_ Hid]. apply andb_true_iff in Hid. destruct Hid as [Hl Hc].
    apply Nat.ltb_lt in Hl. apply negb_true_iff in Hc. auto.
Qed.

(** ** PromptContextComposer: truncation *)

Section Truncation.

Import PromptContextComposer.

Lemma show_nat_aux_one_line (fuel : nat) :
  forall (n : nat) (acc : str),
    one_line acc = true -> one_line (show_nat_aux fuel n acc) = true.
Proof.
  induction fuel as [|fuel IH]; intros n acc H; cbn [show_nat_aux]; [exact H|].
  assert (D : one_line (ascii_of_nat (48 + n mod 10) :: acc) = true).
  { cbn [one_line forallb]. fold (one_line acc). rewrite H, andb_true_r.
    apply negb_true_iff. destruct (ascii_eqb _ nl) eqn:E; [|reflexivity].
    apply ascii_eqb_eq in E. apply (f_equal nat_of_ascii) in E.
    assert (10 <> 0) as T by lia. pose proof (Nat.mod_upper_bound n 10 T).
    rewrite nat_ascii_embedding in E by lia.
    change (nat_of_ascii nl) with 10 in E. lia. }
  destruct (n <? 10); [exact D|apply IH, D].
Qed.

Lemma truncationNote_one_line (more : nat) : one_line (truncationNote more) = true.
Proof.
  unfold truncationNote, one_line. rewrite !forallb_app.
  change (forallb _ (show_nat more)) with (one_line (show_nat more)).
  unfold show_nat. rewrite show_nat_aux_one_line by reflexivity. reflexivity.
Qed.

Lemma take_one_line (n : nat) (lines : list str) :
  Forall (fun l => one_line l = true) lines ->
  Forall (fun l => one_line l = true) (List.firstn n lines).
Proof.
  intros H. apply List.Forall_forall. intros l Hl.
  exact (proj1 (List.Forall_forall _ _) H l (take_In _ _ _ Hl)).
Qed.

End Truncation.

(** X26.  [truncateContent] returns a text of at most [maxLines] lines
    as it is.  Of a longer text it keeps the first [maxLines] lines and
    adds an empty line and a note with the number of lines left out, so
    that the result has [maxLines + 2] lines: two more than the limit. *)
Theorem truncateContent_lines (content : str) (maxLines : nat) :
  1 <= maxLines ->
  (length (split_lines content) <= maxLines ->
   PromptContextComposer.truncateContent content maxLines = content) /\
  (maxLines < length (split_lines content) ->
   split_lines (PromptContextComposer.truncateContent content maxLines)
   = List.firstn maxLines (split_lines content)
     ++ [[]; PromptContextComposer.truncationNote
               (length (split_lines content) - maxLines)] /\
   length (split_lines (PromptContextComposer.truncateContent content maxLines))
   = maxLines + 2).
Proof.
  intros H1. unfold PromptContextComposer.truncateContent. split; intros H.
  - apply Nat.leb_le in H. now rewrite H.
  - assert (E : (length (split_lines content) <=? maxLines) = false)
      by (apply Nat.leb_gt; exact H).
    rewrite E.
    set (note := PromptContextComposer.truncationNote _).
    assert (J : join [nl] (List.firstn maxLines (split_lines content)) ++ [nl; nl] ++ note
                = join [nl] (List.firstn maxLines (split_lines content) ++ [[]; note])).
    { rewrite join_app.
      - reflexivity.
      - destruct (split_lines content) as [|l ls]; [cbn [length] in H; lia|].
        destruct maxLines; [lia|discriminate].
      - discriminate. }
    rewrite J.
    assert (S : split_lines
                  (join [nl] (List.firstn maxLines (split_lines content) ++ [[]; note]))
                = List.firstn maxLines (split_lines content) ++ [[]; note]).
    { apply split_lines_join.
      - destruct (List.firstn maxLines (split_lines content)); discriminate.
      - apply Forall_app. split.
        + apply take_one_line, split_lines_one_line.
        + repeat constructor. apply truncationNote_one_line. }
    rewrite S. split; [reflexivity|].
    rewrite length_app, length_firstn. cbn [length]. lia.
Qed.

Lemma truncateContent_lines_witness :
  1 <= 2 /\
  split_lines (PromptContextComposer.truncateContent (js "a
b
c") 2)
  = [js "a"; js "b"; []; js "// ... (1 more lines truncated)"].
Proof.
  split; [lia|].
  refine (proj1 (proj2 (truncateContent_lines (js "a
b
c") 2 _) _)); [lia|vm_compute; lia].
Defined.

(** ** SmartAgent: the shape of the parsed changes *)

Section ChangeShape.

Import SmartAgent.

Lemma exec_loop_keeps {A : Type} (P : A -> Prop) (fl : flags) (r : regex)
    (body : A -> rmatch_result -> A) :
  (forall acc m, P acc -> P (body acc m)) ->
  forall (fuel : nat) (acc : A) (sn rs : str) (a : A),
    P acc -> exec_loop fuel fl r body acc sn rs = Some a -> P a.
Proof.
  intros Hbody. induction fuel as [|fuel IH]; intros acc sn rs a Hacc H;
    cbn [exec_loop] in H; [discriminate|].
  destruct (search fl r sn rs) as [m|]; [|injection H as <-; exact Hacc].
  destruct (length (seen (m_end m)) =? length sn); [discriminate|].
  exact (IH _ _ _ _ (Hbody acc m Hacc) H).
Qed.

Lemma exec_all_keeps {A : Type} (P : A -> Prop) (fl : flags) (r : regex)
    (body : A -> rmatch_result -> A) (acc : A) (s : str) (a : A) :
  (forall acc m, P acc -> P (body acc m)) ->
  P acc -> exec_all fl r body acc s = Some a -> P a.
Proof. intros Hbody Hacc H. exact (exec_loop_keeps P fl r body Hbody _ _ _ _ _ Hacc H). Qed.

Lemma Forall_snoc {A : Type} (P : A -> Prop) (l : list A) (x : A) :
  List.Forall P l -> P x -> List.Forall P (l ++ [x]).
Proof. intros Hl Hx. apply List.Forall_app. split; [exact Hl|repeat constructor; exact Hx]. Qed.

Ltac shaped :=
  repeat split; cbn [changeType startLine endLine];
  try discriminate; try (intros; discriminate); eauto.

Lemma pattern1_body_shape (changes : list FileChange) (m : rmatch_result) :
  List.Forall well_formed_change changes ->
  List.Forall well_formed_change (pattern1_body changes m).
Proof.
  intros H. unfold pattern1_body.
  destruct (non_empty _ && non_empty _); [|exact H].
  destruct (includes _ _ && includes _ _).
  - apply Forall_snoc; [exact H|shaped].
  - destruct (number_of m 2) as [start|].
    + apply Forall_snoc; [exact H|shaped].
    + apply Forall_snoc; [exact H|shaped].
Qed.

Lemma pattern2_body_shape (changes : list FileChange) (m : rmatch_result) :
  List.Forall well_formed_change changes ->
  List.Forall well_formed_change (pattern2_body changes m).
Proof.
  intros H. unfold pattern2_body.
  destruct (non_empty _ && includes _ _); [|exact H].
  apply Forall_snoc; [exact H|shaped].
Qed.

Lemma pattern25_body_shape (changes : list FileChange) (m : rmatch_result) :
  List.Forall well_formed_change changes ->
  List.Forall well_formed_change (pattern25_body changes m).
Proof.
  intros H. unfold pattern25_body.
  destruct (non_empty _ && non_empty _); [|exact H].
  apply Forall_snoc; [exact H|shaped].
Qed.

Lemma pattern3_body_shape (changes : list FileChange) (m : rmatch_result) :
  List.Forall well_formed_change changes ->
  List.Forall well_formed_change (pattern3_body changes m).
Proof.
  intros H. unfold pattern3_body.
  destruct (non_empty _ && non_empty _); [|exact H].
  apply Forall_snoc; [exact H|shaped].
Qed.

Lemma pattern4_body_shape (acc : list FileChange * nat) (m : rmatch_result) :
  List.Forall well_formed_change (fst acc) ->
  List.Forall well_formed_change (fst (pattern4_body acc m)).
Proof.
  intros H. unfold pattern4_body.
  destruct (non_empty _); [|exact H].
  cbn [fst]. apply Forall_snoc; [exact H|shaped].
Qed.

End ChangeShape.

(** X10.  [parseFileChanges] returns for every reply: none of its five
    loops over the matches of a pattern can run forever.  Every change it
    returns is a replacement or a function update, never an insertion; a
    function update carries no line numbers; and a change with a start
    line has an end line, so that [applyFileChanges] never takes its
    branch for a start line alone on a parsed change. *)
Theorem parseFileChanges_well_formed (aiResponse : str) :
  exists changes : list FileChange,
    SmartAgent.parseFileChanges aiResponse = Some changes /\
    List.Forall well_formed_change changes.
Proof.
  destruct (parseFileChanges_returns aiResponse) as [changes H].
  exists changes. split; [exact H|].
  revert H. unfold SmartAgent.parseFileChanges.
  destruct (exec_all fl_i SmartAgent.fileHeaderWithLinesPattern _ _ _) as [c1|] eqn:E1;
    [|discriminate].
  apply (exec_all_keeps (List.Forall well_formed_change)) in E1;
    [|exact pattern1_body_shape|constructor].
  destruct c1; cbn [SmartAgent.when_empty]; [|intros H; injection H as <-; exact E1].
  destruct (exec_all fl_i SmartAgent.functionDocPattern _ _ _) as [c2|] eqn:E2;
    [|discriminate].
  apply (exec_all_keeps (List.Forall well_formed_change)) in E2;
    [|exact pattern2_body_shape|constructor].
  destruct c2; cbn [SmartAgent.when_empty]; [|intros H; injection H as <-; exact E2].
  destruct (exec_all fl_i SmartAgent.functionDocWithCodePattern _ _ _) as [c3|] eqn:E3;
    [|discriminate].
  apply (exec_all_keeps (List.Forall well_formed_change)) in E3;
    [|exact pattern25_body_shape|constructor].
  destruct c3; cbn [SmartAgent.when_empty]; [|intros H; injection H as <-; exact E3].
  destruct (exec_all fl_i SmartAgent.commentedBlockPattern _ _ _) as [c4|] eqn:E4;
    [|discriminate].
  apply (exec_all_keeps (List.Forall well_formed_change)) in E4;
    [|exact pattern3_body_shape|constructor].
  destruct c4; cbn [SmartAgent.when_empty]; [|intros H; injection H as <-; exact E4].
  destruct (exec_all fl_i SmartAgent.anyBlockPattern _ _ _) as [c5|] eqn:E5;
    [|discriminate].
  apply (exec_all_keeps (fun acc => List.Forall well_formed_change (fst acc))) in E5;
    [|exact pattern4_body_shape|constructor].
  cbn [option_map]. intros H. injection H as <-. exact E5.
Qed.

(** ** SmartAgent: replies without a block *)

Section NoBlock.

Import SmartAgent.

Lemma caseless_backtick : caseless "`".
Proof.
  intros [[] m] c H; destruct c as [[] [] [] [] [] [] [] []];
    vm_compute in H; try discriminate H; reflexivity.
Qed.

Lemma caseless_slash : caseless "/".
Proof.
  intros [[] m] c H; destruct c as [[] [] [] [] [] [] [] []];
    vm_compute in H; try discriminate H; reflexivity.
Qed.

Lemma caseless_star : caseless "*".
Proof.
  intros [[] m] c H; destruct c as [[] [] [] [] [] [] [] []];
    vm_compute in H; try discriminate H; reflexivity.
Qed.

Lemma rchar_starts (d : ascii) (fl : flags) (st : mstate) (k : cont) (x : mstate) :
  caseless d ->
  rmatch fl (RChar d) st k = Some x ->
  exists t, rest st = d :: t /\ k (advance st d t) = Some x.
Proof.
  intros Hd. cbn [rmatch]. destruct (rest st) as [|c t]; [discriminate|].
  destruct (char_mem fl d c) eqn:E; [|discriminate].
  apply Hd in E. subst c. eauto.
Qed.

(** A literal matches only where the text has it. *)
Lemma rstr_starts (w : str) :
  List.Forall caseless w ->
  forall (fl : flags) (st : mstate) (k : cont) (x : mstate),
    rmatch fl (rstr w) st k = Some x -> startsWith (rest st) w = true.
Proof.
  induction 1 as [|d w Hd Hw IH]; intros fl st k x H; [reflexivity|].
  unfold rstr in H.
  destruct w as [|d' w]; cbn [List.map] in H.
  - cbn [rseq] in H.
    destruct (rchar_starts d fl st k x Hd H) as (t & -> & _).
    cbn [startsWith]. now rewrite ascii_eqb_refl.
  - rewrite rseq_cons in H.
    change (rmatch fl (RChar d) st (fun st' => rmatch fl (rstr (d' :: w)) st' k) = Some x)
      in H.
    destruct (rchar_starts d fl st _ x Hd H) as (t & E & H').
    rewrite E. cbn [startsWith]. rewrite ascii_eqb_refl. cbn [andb].
    exact (IH fl _ k x H').
Qed.

(** A pattern that needs a literal somewhere ahead matches nowhere in a
    text without it. *)
Lemma search_needs (fl : flags) (r : regex) (w t : str) :
  (forall st k x, rmatch fl r st k = Some x ->
     exists st', ahead st st' /\ startsWith (rest st') w = true) ->
  includes t w = false ->
  search fl r [] t = None.
Proof.
  intros Hr H. apply search_none. intros pre post ->.
  destruct (rmatch fl r _ accept) as [x|] eqn:E; [|reflexivity].
  exfalso. apply Hr in E. destruct E as (st' & (u & Hu & _) & E).
  cbn [rest] in Hu. rewrite Hu, app_assoc in H.
  rewrite (includes_of_split _ _ _ E) in H. discriminate.
Qed.

Lemma needs_last (fl : flags) (items : list regex) (w : str) :
  List.Forall caseless w ->
  items = removelast items ++ [rstr w] ->
  forall st k x, rmatch fl (rseq items) st k = Some x ->
    exists st', ahead st st' /\ startsWith (rest st') w = true.
Proof.
  intros Hw -> st k x H. apply rmatch_rseq_last in H. destruct H as (st' & A & H).
  exists st'. split; [exact A|exact (rstr_starts w Hw _ _ _ _ H)].
Qed.

Lemma needs_first (fl : flags) (r : regex) (w : str) :
  List.Forall caseless w ->
  forall st k x, rmatch fl (RSeq (rstr w) r) st k = Some x ->
    exists st', ahead st st' /\ startsWith (rest st') w = true.
Proof.
  intros Hw st k x H.
  change (rmatch fl (rstr w) st (fun st' => rmatch fl r st' k) = Some x) in H.
  exists st. split; [apply ahead_refl|exact (rstr_starts w Hw _ _ _ _ H)].
Qed.

Lemma fence_caseless : List.Forall caseless fence.
Proof. repeat constructor; apply caseless_backtick. Qed.

Lemma docOpen_caseless : List.Forall caseless (js "/**").
Proof. repeat constructor; [apply caseless_slash|apply caseless_star|apply caseless_star]. Qed.

Lemma exec_all_nothing {A : Type} (fl : flags) (r : regex)
    (body : A -> rmatch_result -> A) (acc : A) (t : str) :
  search fl r [] t = None -> exec_all fl r body acc t = Some acc.
Proof. intros H. unfold exec_all. cbn [exec_loop]. now rewrite H. Qed.

End NoBlock.

(** X11.  A reply that holds neither a fence of three backticks nor the
    opening of a doc comment yields no change at all: every one of the
    five patterns needs one of the two. *)
Theorem parseFileChanges_prose (aiResponse : str) :
  includes aiResponse fence = false ->
  includes aiResponse (js "/**") = false ->
  SmartAgent.parseFileChanges aiResponse = Some [].
Proof.
  intros Hf Hd. unfold SmartAgent.parseFileChanges.
  rewrite exec_all_nothing; cbn [SmartAgent.when_empty].
  2:{ apply (search_needs _ _ fence); [|exact Hf].
      exact (needs_last fl_i _ fence fence_caseless eq_refl). }
  rewrite exec_all_nothing; cbn [SmartAgent.when_empty].
  2:{ apply (search_needs _ _ fence); [|exact Hf].
      exact (needs_first fl_i _ fence fence_caseless). }
  rewrite exec_all_nothing; cbn [SmartAgent.when_empty].
  2:{ apply (search_needs _ _ (js "/**")); [|exact Hd].
      intros st k x H. unfold SmartAgent.functionDocWithCodePattern in H.
      match type of H with
      | rmatch _ (rseq (RGroup _ (rseq (_ :: ?inner)) :: ?outer)) _ _ = _ =>
          change (rmatch fl_i (rstr (js "/**")) st
                    (fun st1 =>
                       rmatch fl_i (rseq inner) st1
                         (fun st2 =>
                            rmatch fl_i (rseq outer)
                              (set_cap 1 (cap_between (seen st) (seen st2)) st2) k))
                  = Some x) in H
      end.
      exists st. split; [apply ahead_refl|].
      exact (rstr_starts _ docOpen_caseless _ _ _ _ H). }
  rewrite exec_all_nothing; cbn [SmartAgent.when_empty].
  2:{ apply (search_needs _ _ fence); [|exact Hf].
      exact (needs_last fl_i _ fence fence_caseless eq_refl). }
  rewrite exec_all_nothing; [reflexivity|].
  apply (search_needs _ _ fence); [|exact Hf].
  exact (needs_last fl_i _ fence fence_caseless eq_refl).
Qed.

Lemma parseFileChanges_prose_witness :
  (includes proseOnly fence = false /\ includes proseOnly (js "/**") = false) /\
  SmartAgent.parseFileChanges proseOnly = Some [].
Proof.
  split; [split; reflexivity|].
  apply (parseFileChanges_prose proseOnly); reflexivity.
Defined.

(** ** SmartAgent: replacing a range of lines *)

Section LineEdits.

Import SmartAgent.

Lemma join_pieces (A M B : list str) :
  M <> [] ->
  join [nl] (A ++ M ++ B) = lines_before A ++ join [nl] M ++ lines_after B.
Proof.
  intros HM. destruct A as [|x A]; destruct B as [|y B];
    unfold lines_before, lines_after.
  - now rewrite !app_nil_r.
  - cbn [app]. apply join_app; [exact HM|discriminate].
  - rewrite !app_nil_r. rewrite join_app by (auto; discriminate).
    now rewrite <- app_assoc.
  - rewrite join_app; [|discriminate|destruct M; discriminate].
    rewrite (join_app [nl] M (y :: B)) by (auto; discriminate).
    now rewrite <- !app_assoc.
Qed.

Lemma lines_before_length (A : list str) :
  length (lines_before A) = length (join [nl] A) + (match A with [] => 0 | _ => 1 end).
Proof.
  destruct A; [reflexivity|]. unfold lines_before. rewrite length_app. reflexivity.
Qed.

(** Replacing, in the text of the lines [A ++ M ++ B], what lies between
    the start of the first line of [M] and the end of its last line. *)
Lemma replace_middle (A M B : list str) (content : str) :
  M <> [] ->
  length (lines_before A) <= length (join [nl] (A ++ M)) /\
  length (join [nl] (A ++ M)) <= length (join [nl] (A ++ M ++ B)) /\
  List.firstn (length (lines_before A)) (join [nl] (A ++ M ++ B)) ++ content
    ++ List.skipn (length (join [nl] (A ++ M))) (join [nl] (A ++ M ++ B))
  = join [nl] (A ++ [content] ++ B).
Proof.
  intros HM.
  assert (E1 : join [nl] (A ++ M) = lines_before A ++ join [nl] M).
  { destruct A as [|x A]; [reflexivity|]. unfold lines_before.
    rewrite join_app by (auto; discriminate). now rewrite <- app_assoc. }
  rewrite (join_pieces A M B HM), (join_pieces A [content] B) by discriminate.
  rewrite E1. split; [rewrite length_app; lia|].
  split; [rewrite !length_app; lia|].
  rewrite List.firstn_app, List.firstn_all, Nat.sub_diag. cbn [List.firstn].
  rewrite app_nil_r.
  rewrite (app_assoc (lines_before A) (join [nl] M) (lines_after B)).
  rewrite List.skipn_app, List.skipn_all, Nat.sub_diag. cbn [List.skipn app join].
  reflexivity.
Qed.

Lemma firstn_add {A : Type} (a b : nat) (l : list A) :
  List.firstn (a + b) l = List.firstn a l ++ List.firstn b (List.skipn a l).
Proof.
  revert l. induction a as [|a IH]; intros l; [reflexivity|].
  destruct l as [|x l]; cbn [Nat.add List.firstn List.skipn app].
  - now rewrite List.firstn_nil.
  - now rewrite IH.
Qed.

Lemma slice_to_nat (lines : list str) (n : nat) :
  slice_to lines (Z.of_nat n) = List.firstn n lines.
Proof.
  unfold slice_to. destruct (Z.of_nat n <? 0)%Z eqn:E; [apply Z.ltb_lt in E; lia|].
  now rewrite Nat2Z.id.
Qed.

Lemma slice_to_pred (lines : list str) (n : nat) :
  1 <= n -> slice_to lines (Z.of_nat n - 1) = List.firstn (n - 1) lines.
Proof.
  intros H. replace (Z.of_nat n - 1)%Z with (Z.of_nat (n - 1)) by lia.
  apply slice_to_nat.
Qed.

(** The text after the replacement of the lines [first] to [last]. *)
Lemma replace_lines (doc content : str) (first last : nat) :
  1 <= first -> first <= last -> last <= length (split_lines doc) ->
  replaceRange doc
    {| range_start := lineStart doc first;
       range_end :=
         positionAt doc
           (length (join [nl] (slice_to (split_lines doc) (Z.of_nat last)))) |}
    content
  = join [nl] (List.firstn (first - 1) (split_lines doc) ++ [content]
               ++ List.skipn last (split_lines doc)).
Proof.
  intros H1 H2 H3.
  unfold replaceRange, lineStart. cbn [range_start range_end].
  pose proof (join_split_lines doc) as Hdoc.
  pose proof (split_lines_nonempty doc) as Hne.
  set (lines := split_lines doc) in *.
  set (A := List.firstn (first - 1) lines).
  set (M := List.firstn (last - (first - 1)) (List.skipn (first - 1) lines)).
  set (B := List.skipn last lines).
  assert (HAM : List.firstn last lines = A ++ M).
  { replace last with ((first - 1) + (last - (first - 1))) at 1 by lia.
    apply firstn_add. }
  assert (Hl : lines = A ++ M ++ B).
  { rewrite app_assoc, <- HAM. symmetry. apply List.firstn_skipn. }
  assert (HM : M <> []).
  { intros E. apply (f_equal (@length str)) in E. unfold M in E.
    rewrite length_firstn, length_skipn in E. cbn [length] in E. lia. }
  assert (Ha : length (join [nl] (slice_to lines (Z.of_nat first - 1)))
               + (if 1 <? first then 1 else 0) = length (lines_before A)).
  { rewrite slice_to_pred by exact H1. fold A. rewrite lines_before_length. f_equal.
    destruct (1 <? first) eqn:E.
    - apply Nat.ltb_lt in E. unfold A.
      destruct lines as [|x l]; [contradiction|].
      replace (first - 1) with (S (first - 2)) by lia. reflexivity.
    - apply Nat.ltb_ge in E. unfold A. replace (first - 1) with 0 by lia. reflexivity. }
  destruct (replace_middle A M B content HM) as (Lab & Lb & E).
  rewrite <- Hl, Hdoc in Lb, E.
  rewrite slice_to_nat, HAM, Ha.
  rewrite !offsetAt_positionAt by lia.
  rewrite Nat.min_l, Nat.max_r by lia.
  exact E.
Qed.

End LineEdits.

(** X12.  When an editor takes the edit, a replacement of the lines
    [first] to [last] of a document, with [1 <= first <= last] and [last]
    at most the number of lines, leaves a document made of the lines
    before [first], the new content, and the lines after [last]: no other
    line is touched. *)
Theorem applyFileChanges_replaces_lines (editor : Editor) (doc content : str)
    (first last : nat) (kind : ChangeType) :
  kind <> FunctionUpdate ->
  (forall range text, edit editor range text = Return true) ->
  1 <= first -> first <= last -> last <= length (split_lines doc) ->
  snd (SmartAgent.applyFileChanges editor doc content (Some first) (Some last) kind)
  = join [nl] (List.firstn (first - 1) (split_lines doc) ++ [content]
               ++ List.skipn last (split_lines doc)).
Proof.
  intros Hk He H1 H2 H3.
  unfold SmartAgent.applyFileChanges.
  assert (Hp : SmartAgent.plannedEdit content (Some first) (Some last) kind doc
               = ({| range_start := SmartAgent.lineStart doc first;
                     range_end :=
                       positionAt doc
                         (length (join [nl]
                                    (SmartAgent.slice_to (split_lines doc)
                                       (Z.of_nat last)))) |},
                  content)).
  { destruct kind; [reflexivity|reflexivity|contradiction]. }
  rewrite Hp, He. cbn [snd]. now apply replace_lines.
Qed.

Lemma applyFileChanges_replaces_lines_witness :
  (Replace <> FunctionUpdate /\
   (forall range text, edit takesAll range text = Return true) /\
   1 <= 2 /\ 2 <= 3 /\ 3 <= length (split_lines fourLines)) /\
  snd (SmartAgent.applyFileChanges takesAll fourLines (js "2+3") (Some 2) (Some 3) Replace)
  = join [nl] [js "one"; js "2+3"; js "four"].
Proof.
  split.
  - split; [discriminate|]. split; [reflexivity|]. vm_compute. lia.
  - apply (applyFileChanges_replaces_lines takesAll fourLines (js "2+3") 2 3 Replace);
      [discriminate|reflexivity| | |]; vm_compute; lia.
Defined.

(** ** SmartAgent: the function that is located *)

Section Located.

Import SmartAgent.

Lemma count_char_cons (d c : ascii) (s : str) :
  count_char d (c :: s) = (if ascii_eqb c d then 1 else 0) + count_char d s.
Proof.
  unfold count_char. cbn [List.filter]. rewrite (ascii_eqb_sym d c).
  destruct (ascii_eqb c d); reflexivity.
Qed.

Lemma last_cons_firstn (c : ascii) (k : nat) (t : str) (d : ascii) :
  1 <= k -> k <= length t ->
  List.last (c :: List.firstn k t) d = List.last (List.firstn k t) d.
Proof.
  intros H1 H2. destruct k as [|k]; [lia|]. destruct t as [|x t]; [cbn in H2; lia|].
  reflexivity.
Qed.

(** Where the brace-counting loop stops: after a closing brace that
    brings the count to zero, an opening brace having been seen. *)
Lemma scan_braces_stops (s : str) :
  forall (i : nat) (braceCount : Z) (foundOpenBrace : bool) (e : nat),
    scan_braces s i braceCount foundOpenBrace = Some e ->
    exists k, e = i + k /\ 1 <= k /\ k <= length s /\
      List.last (List.firstn k s) "x"%char = "}"%char /\
      (braceCount + Z.of_nat (count_char "{" (List.firstn k s))
       - Z.of_nat (count_char "}" (List.firstn k s)) = 0)%Z /\
      (foundOpenBrace = true \/ 1 <= count_char "{" (List.firstn k s)).
Proof.
  induction s as [|c t IH]; intros i bc found e H; cbn [scan_braces] in H; [discriminate|].
  destruct (ascii_eqb c "{") eqn:Eo.
  - apply IH in H. destruct H as (k & -> & K1 & K2 & L & C & F).
    exists (S k). cbn [List.firstn length].
    rewrite last_cons_firstn by assumption.
    rewrite !count_char_cons, Eo.
    apply ascii_eqb_eq in Eo. subst c.
    change (ascii_eqb "{" "}") with false.
    repeat split; try lia; auto; try (right; lia).
  - destruct (ascii_eqb c "}") eqn:Ec.
    + destruct (found && (bc - 1 =? 0)%Z) eqn:Ef.
      * injection H as <-. apply andb_true_iff in Ef. destruct Ef as [-> Ez].
        apply Z.eqb_eq in Ez. apply ascii_eqb_eq in Ec. subst c.
        exists 1. change (List.firstn 1 ("}"%char :: t)) with ("}"%char :: List.firstn 0 t).
        rewrite List.firstn_O. rewrite !count_char_cons.
        change (ascii_eqb "}" "{") with false. change (ascii_eqb "}" "}") with true.
        unfold count_char. cbn [List.filter length List.last Nat.add].
        repeat split; try lia; auto.
      * apply IH in H. destruct H as (k & -> & K1 & K2 & L & C & F).
        exists (S k). cbn [List.firstn length].
        rewrite last_cons_firstn by assumption.
        rewrite !count_char_cons, Eo, Ec.
        repeat split; try lia; auto.
    + apply IH in H. destruct H as (k & -> & K1 & K2 & L & C & F).
      exists (S k). cbn [List.firstn length].
      rewrite last_cons_firstn by assumption.
      rewrite !count_char_cons, Eo, Ec.
      repeat split; try lia; auto.
Qed.

End Located.

(** X13.  When [findFunctionInCode] locates the function, the content
    it returns is the trimmed doc comment, a line feed, and a piece of
    the document that ends with a closing brace and holds as many
    opening braces as closing ones, at least one of each; the range it
    returns starts and ends at the start of a line. *)
Theorem findFunctionInCode_shape (newContent documentText : str)
    (range : Range) (content : str) :
  SmartAgent.findFunctionInCode newContent documentText = Some (range, content) ->
  exists pre body post : str,
    documentText = pre ++ body ++ post /\
    content = trim newContent ++ [nl] ++ body /\
    List.last body "x"%char = "}"%char /\
    count_char "{" body = count_char "}" body /\
    1 <= count_char "{" body /\
    character (range_start range) = 0 /\ character (range_end range) = 0.
Proof.
  unfold SmartAgent.findFunctionInCode.
  destruct (exec fl_none SmartAgent.docNamePattern newContent) as [nameMatch|];
    [|discriminate].
  destruct (SmartAgent.first_match _ documentText) as [m|]; [|discriminate].
  destruct (SmartAgent.scan_braces _ _ _ _) as [e|] eqn:Es.
  2:{ rewrite Nat.leb_refl. discriminate. }
  apply scan_braces_stops in Es. destruct Es as (k & -> & K1 & K2 & L & C & F).
  destruct (m_index m + k <=? m_index m) eqn:El; [discriminate|].
  destruct (SmartAgent.locate_lines _ _ _ _ _ _ _) as [functionStartLine functionEndLine].
  intros H. injection H as <- <-.
  exists (List.firstn (m_index m) documentText),
         (List.firstn k (List.skipn (m_index m) documentText)),
         (List.skipn k (List.skipn (m_index m) documentText)).
  split; [now rewrite !List.firstn_skipn|].
  split.
  { unfold substring. replace (m_index m + k - m_index m) with k by lia. reflexivity. }
  split; [exact L|].
  destruct F as [F|F]; [discriminate|].
  repeat split; try lia; reflexivity.
Qed.

Lemma findFunctionInCode_shape_witness :
  exists (range : Range) (content : str),
    SmartAgent.findFunctionInCode docComment renderSource = Some (range, content) /\
    exists pre body post : str,
      renderSource = pre ++ body ++ post /\
      content = trim docComment ++ [nl] ++ body /\
      List.last body "x"%char = "}"%char /\
      count_char "{" body = count_char "}" body /\
      1 <= count_char "{" body /\
      character (range_start range) = 0 /\ character (range_end range) = 0.
Proof.
  eexists. eexists. split; [vm_compute; reflexivity|].
  eapply (findFunctionInCode_shape docComment renderSource).
  vm_compute. reflexivity.
Defined.

(** ** SmartAgent: applying the changes of a reply *)

Section Applying.

Import SmartAgentApply.

Variable host : AgentHost.
Variable showDiffPreview : bool.
Variable targetFiles : list FileMatch.

Lemma find_In {A : Type} (p : A -> bool) (l : list A) (x : A) :
  List.find p l = Some x -> In x l.
Proof.
  induction l as [|a l IH]; cbn [List.find]; [discriminate|].
  destruct (p a); [intros H; injection H as <-; left; reflexivity|right; auto].
Qed.

Lemma findTargetFile_In (fileName : str) (f : FileMatch) :
  findTargetFile targetFiles fileName = Some f -> In f targetFiles.
Proof.
  unfold findTargetFile.
  destruct (List.find (matchesName fileName) targetFiles) eqn:E1.
  - intros H. injection H as <-. exact (find_In _ _ _ E1).
  - match goal with
    | |- context [List.find ?p targetFiles] => destruct (List.find p targetFiles) eqn:E2
    end.
    + intros H. injection H as <-. exact (find_In _ _ _ E2).
    + destruct targetFiles as [|g [|g' l]]; try discriminate.
      intros H. left. congruence.
Qed.

(** One turn of the loop counts the change once, as applied or as an
    error, and touches no document but that of a target file. *)
Lemma applyChange_counts (st : Progress) (change : FileChange) :
  appliedOf (applyChange host showDiffPreview targetFiles st change)
  + length (errorsOf (applyChange host showDiffPreview targetFiles st change))
  = S (appliedOf st + length (errorsOf st)) /\
  (forall p, ~ In p (targetPaths targetFiles) ->
     documentsOf (applyChange host showDiffPreview targetFiles st change) p
     = documentsOf st p).
Proof.
  destruct st as [[docs applied] errors]. unfold applyChange, with_error.
  unfold appliedOf, errorsOf, documentsOf.
  destruct (findTargetFile targetFiles (fileName change)) as [targetFile|] eqn:Ef.
  2:{ cbn [fst snd]. rewrite length_app. cbn [length]. split; [lia|auto]. }
  destruct (docs (fi_path (file targetFile))) as [documentText|].
  2:{ cbn [fst snd]. rewrite length_app. cbn [length]. split; [lia|auto]. }
  destruct (showTextDocument host _).
  2:{ cbn [fst snd]. rewrite length_app. cbn [length]. split; [lia|auto]. }
  destruct (if showDiffPreview then onChangePreview host else Return tt).
  2:{ cbn [fst snd]. rewrite length_app. cbn [length]. split; [lia|auto]. }
  destruct (SmartAgent.applyFileChanges _ _ _ _ _ _) as [success text].
  assert (Hdocs : forall p, ~ In p (targetPaths targetFiles) ->
                            set_document docs (fi_path (file targetFile)) text p = docs p).
  { intros p Hp. unfold set_document.
    destruct (str_eqb p (fi_path (file targetFile))) eqn:E; [|reflexivity].
    apply str_eqb_eq in E. subst p. exfalso. apply Hp.
    unfold targetPaths. apply in_map_iff. exists targetFile.
    split; [reflexivity|exact (findTargetFile_In _ _ Ef)]. }
  destruct success as [[|]|e]; cbn [fst snd]; rewrite ?length_app; cbn [length];
    split; auto; lia.
Qed.

Lemma applyChanges_count (changes : list FileChange) :
  forall st : Progress,
    appliedOf (fold_left (applyChange host showDiffPreview targetFiles) changes st)
    + length (errorsOf (fold_left (applyChange host showDiffPreview targetFiles)
                          changes st))
    = appliedOf st + length (errorsOf st) + length changes /\
    (forall p, ~ In p (targetPaths targetFiles) ->
       documentsOf (fold_left (applyChange host showDiffPreview targetFiles) changes st) p
       = documentsOf st p).
Proof.
  induction changes as [|change changes IH]; intros st; cbn [fold_left].
  - split; [cbn [length]; lia|auto].
  - destruct (applyChange_counts st change) as [C1 D1].
    destruct (IH (applyChange host showDiffPreview targetFiles st change)) as [C2 D2].
    split; [cbn [length]; lia|].
    intros p Hp. rewrite (D2 p Hp). exact (D1 p Hp).
Qed.

End Applying.

(** X14.  [parseAndApplyChanges] accounts for every change it parsed:
    the number of changes applied and the number of errors reported add
    up to the number of changes, whatever the editor host answers; and no
    document other than those of the target files is modified. *)
Theorem parseAndApplyChanges_accounts (host : AgentHost) (showDiffPreview : bool)
    (aiResponse : str) (targetFiles : list FileMatch) (docs : Documents) :
  exists (changes : list FileChange) (docs' : Documents) (appliedCount : nat)
         (errors : list str),
    SmartAgent.parseFileChanges aiResponse = Some changes /\
    SmartAgentApply.parseAndApplyChanges host showDiffPreview aiResponse targetFiles docs
      = Some (docs', appliedCount, errors) /\
    appliedCount + length errors = length changes /\
    (forall p, ~ In p (targetPaths targetFiles) -> docs' p = docs p).
Proof.
  destruct (parseFileChanges_returns aiResponse) as [changes H].
  unfold SmartAgentApply.parseAndApplyChanges. rewrite H.
  destruct changes as [|c changes].
  - exists [], docs, 0, []. auto.
  - destruct (applyChanges_count host showDiffPreview targetFiles (c :: changes)
                (docs, 0, [])) as [C D].
    unfold appliedOf, errorsOf, documentsOf in C, D.
    destruct (fold_left (SmartAgentApply.applyChange host showDiffPreview targetFiles)
                (c :: changes) (docs, 0, [])) as [[docs' applied] errors].
    exists (c :: changes), docs', applied, errors.
    split; [reflexivity|]. split; [reflexivity|]. split; [exact C|exact D].
Qed.

(** X15.  The search for the target file of a change: with exactly one
    target file every change goes to it, whatever file name the reply
    gave; a change with an empty file name goes to the first target
    file; and a target that is found is one of the target files. *)
Theorem findTargetFile_fallbacks :
  (forall (f : FileMatch) (fileName : str),
      SmartAgentApply.findTargetFile [f] fileName = Some f) /\
  (forall (f : FileMatch) (others : list FileMatch),
      SmartAgentApply.findTargetFile (f :: others) [] = Some f) /\
  (forall (targetFiles : list FileMatch) (fileName : str) (f : FileMatch),
      SmartAgentApply.findTargetFile targetFiles fileName = Some f -> In f targetFiles).
Proof.
  split; [|split].
  - intros f fileName. unfold SmartAgentApply.findTargetFile. cbn [List.find].
    destruct (SmartAgentApply.matchesName fileName f); [reflexivity|].
    destruct (str_eqb _ _); reflexivity.
  - intros f others. unfold SmartAgentApply.findTargetFile. cbn [List.find].
    unfold SmartAgentApply.matchesName.
    assert (E : includes (relativePath (file f)) [] = true)
      by (destruct (relativePath (file f)); reflexivity).
    rewrite E. reflexivity.
  - intros targetFiles fileName f. apply findTargetFile_In.
Qed.
